(** * nnet3/nnet-analyze.cc: variables, access attributes and the computation checker

    A shallow embedding of the analysis code of [nnet3/nnet-analyze.cc]
    and the properties its specification states about it.

    Conventions of the embedding.
    - [int32] values are integers of [Z].  The sum of the column offset
      and the number of columns of a view, two operands that no table
      bounds, is the 32-bit sum [int32_add], which wraps around; the other
      sums add sizes and positions of tables.
    - A [std::vector] is a [list]; [v[i]] is [vec_at v i], whose result is
      [Undefined] when [i] is out of range (undefined behaviour in C++).
    - [KALDI_ERR << msg] throws: outcome [Err msg], with the text of the
      message less the numbers and the names of the variable or matrix
      streamed into it.
      A failing [KALDI_ASSERT] is the outcome [AssertFail].
    - Member functions take the object as [this] and return its new
      state. *)

From stdpp Require Import base numbers list list_numbers sorting strings.
From Stdlib Require Import ZArith Lia.

Open Scope Z_scope.

(** ** Outcomes *)

Inductive outcome (A : Type) : Type :=
| Done (a : A)
| Err (msg : string)
| AssertFail
| Undefined.

Arguments Done {A} a.
Arguments Err {A} msg.
Arguments AssertFail {A}.
Arguments Undefined {A}.

Global Instance outcome_ret : MRet outcome := @Done.

Global Instance outcome_bind : MBind outcome := λ A B f m,
  match m with
  | Done a => f a
  | Err msg => Err msg
  | AssertFail => AssertFail
  | Undefined => Undefined
  end.

Definition KALDI_ASSERT (cond : bool) : outcome unit :=
  if cond then Done () else AssertFail.

(** [if (cond) KALDI_ERR << msg;] *)
Definition err_if (cond : bool) (msg : string) : outcome unit :=
  if cond then Err msg else Done ().

(** ** Integers *)

(** [a + b] on two [int32] operands, as the machine computes it: the sum
    modulo 2^32, in the range from -2^31 to 2^31 - 1. *)
Definition int32_add (a b : Z) : Z :=
  (a + b + 2147483648) mod 4294967296 - 2147483648.

(** ** Vectors *)

Definition vsize {A} (v : list A) : Z := Z.of_nat (length v).

Definition vec_at {A} (v : list A) (i : Z) : outcome A :=
  if i <? 0 then Undefined
  else match v !! Z.to_nat i with
       | Some x => Done x
       | None => Undefined
       end.

Definition vec_set {A} (v : list A) (i : Z) (x : A) : outcome (list A) :=
  if (0 <=? i) && (i <? vsize v) then Done (<[Z.to_nat i := x]> v)
  else Undefined.

Definition vec_back {A} (v : list A) : outcome A :=
  match last v with
  | Some x => Done x
  | None => Undefined
  end.

(** [static_cast<size_t>(i) >= n] for an [int32] [i] and a vector size [n]:
    a negative [i] converts to at least 2^64 - 2^31, which no vector size
    reaches. *)
Definition size_t_ge (i n : Z) : bool := (i <? 0) || (n <=? i).

(** [static_cast<size_t>(i) < n], the same way. *)
Definition size_t_lt (i n : Z) : bool := (0 <=? i) && (i <? n).

(** ** Loops *)

(** A loop over the elements of [l], threading the state, left at the
    first outcome that is not [Done]. *)
Fixpoint for_each {A S} (body : S → A → outcome S) (l : list A) (st : S)
  : outcome S :=
  match l with
  | [] => Done st
  | x :: l' => st' ← body st x; for_each body l' st'
  end.

(** [for (int32 i = lo; i < hi; i++) body] *)
Definition for_range {S} (lo hi : Z) (body : S → Z → outcome S) (st : S)
  : outcome S :=
  for_each body (seqZ lo (hi - lo)) st.

(** ** Helpers of the standard library and of util/stl-utils.h *)

(** [std::unique] followed by [erase]: one element of every run of equal
    neighbours is kept. *)
Fixpoint unique (l : list Z) : list Z :=
  match l with
  | [] => []
  | x :: l' =>
      match l' with
      | y :: _ => if x =? y then unique l' else x :: unique l'
      | [] => [x]
      end
  end.

(** Modelled from the spec: [SortAndUniq] of util/stl-utils.h, which is
    not part of the analysed file; the spec has the boundary lists and
    the attribute sets "sorted and deduplicated", that is [std::sort]
    followed by [std::unique]. *)
Definition SortAndUniq (vec : list Z) : list Z :=
  unique (merge_sort Z.le vec).

(** Modelled from the spec: [IsSortedAndUniq] of util/stl-utils.h, which
    is not part of the analysed file either; it tells whether a list is
    "sorted and deduplicated", that is strictly increasing. *)
Fixpoint IsSortedAndUniq (vec : list Z) : bool :=
  match vec with
  | [] => true
  | x :: l' =>
      match l' with
      | y :: _ => (x <? y) && IsSortedAndUniq l'
      | [] => true
      end
  end.

(** The loop of [std::lower_bound] on the range [first, first + len) of
    [v]: a binary search for the first position whose element is not less
    than [val].  [len] at least halves at every step, so [len] steps of
    fuel are enough. *)
Fixpoint lower_bound_loop (fuel : nat) (v : list Z) (first len : nat)
    (val : Z) : nat :=
  match fuel with
  | O => first
  | S fuel' =>
      if bool_decide (0 < len)%nat then
        let half := Nat.div2 len in
        let middle := (first + half)%nat in
        match v !! middle with
        | Some x =>
            if x <? val
            then lower_bound_loop fuel' v (S middle) (len - half - 1)%nat val
            else lower_bound_loop fuel' v first half val
        | None => first
        end
      else first
  end.

(** [std::lower_bound(v.begin() + first, v.end(), val) - v.begin()] *)
Definition lower_bound (v : list Z) (first : nat) (val : Z) : nat :=
  lower_bound_loop (length v - first) v first (length v - first) val.

(** [std::binary_search(v.begin(), v.end(), val)] *)
Definition binary_search (v : list Z) (val : Z) : bool :=
  match v !! lower_bound v 0 val with
  | Some x => negb (val <? x)
  | None => false
  end.

(** [std::count(v.begin(), v.end(), val)] *)
Definition count (v : list Z) (val : Z) : Z :=
  vsize (filter (λ x, x = val) v).

(** ** The computation (nnet-computation.h)

    Modelled from the spec: the declarations of nnet-computation.h, which
    is not part of the analysed file.  A buffer (matrix) "has row count and
    column count"; a view (submatrix) is "defined by (buffer index, row
    offset, row count, column offset, column count)"; an instruction
    carries "an opcode and up to six integer operands"; the computation is
    the list of buffers, the list of views, the instruction list, the
    auxiliary tables and the mapping from graph endpoint to (value-buffer,
    derivative-buffer-or-none).  The names are those the analysed file
    uses. *)

Record MatrixInfo := {
  mat_num_rows : Z;
  mat_num_cols : Z
}.

Record SubMatrixInfo := {
  matrix_index : Z;
  row_offset : Z;
  num_rows : Z;
  col_offset : Z;
  num_cols : Z
}.

Inductive CommandType :=
| kAllocMatrixUndefined | kAllocMatrixZeroed | kDeallocMatrix
| kPropagate | kStoreStats | kBackprop
| kMatrixCopy | kMatrixAdd | kCopyRows | kAddRows
| kCopyRowsMulti | kCopyToRowsMulti | kAddRowsMulti | kAddToRowsMulti
| kAddRowRanges | kNoOperation | kNoOperationMarker.

Global Instance CommandType_eq_dec : EqDecision CommandType.
Proof. solve_decision. Defined.

Record Command := {
  command_type : CommandType;
  arg1 : Z; arg2 : Z; arg3 : Z; arg4 : Z; arg5 : Z; arg6 : Z
}.

Record NnetComputation := {
  matrices : list MatrixInfo;
  submatrices : list SubMatrixInfo;
  (** only the number of entries is used *)
  component_precomputed_indexes : list unit;
  indexes : list (list Z);
  indexes_multi : list (list (Z * Z));
  indexes_ranges : list (list (Z * Z));
  (** the [unordered_map], in the order its iterator visits it:
      node index, then (value matrix, derivative matrix) *)
  input_output_info : list (Z * (Z * Z));
  commands : list Command
}.

(** Modelled from the spec: [NnetComputation::IsWholeMatrix] of
    nnet-computation.cc, which is not part of the analysed file; a view is
    "whole-buffer" if its row/column ranges equal the buffer's full
    extent. *)
Definition IsWholeMatrix (computation : NnetComputation) (submatrix_index : Z)
  : outcome bool :=
  submat_info ← vec_at (submatrices computation) submatrix_index;
  mat_info ← vec_at (matrices computation) (matrix_index submat_info);
  Done ((row_offset submat_info =? 0) && (col_offset submat_info =? 0) &&
        (num_rows submat_info =? mat_num_rows mat_info) &&
        (num_cols submat_info =? mat_num_cols mat_info)).

(** ** ComputationVariables

    The members of the class (nnet-analyze.h), with the types the member
    functions below use them at. *)

Record ComputationVariables := {
  split_points_ : list (list Z);
  matrix_to_variable_index_ : list Z;
  num_variables_ : Z;
  variable_ranges_ : list (Z * Z);
  full_column_range_ : list bool;
  variable_to_matrix_ : list Z;
  submatrix_to_matrix_ : list Z;
  submatrix_is_whole_matrix_ : list bool
}.

(** A default-constructed object. *)
Definition ComputationVariables_new : ComputationVariables :=
  {| split_points_ := []; matrix_to_variable_index_ := [];
     num_variables_ := 0; variable_ranges_ := [];
     full_column_range_ := []; variable_to_matrix_ := [];
     submatrix_to_matrix_ := []; submatrix_is_whole_matrix_ := [] |}.

(** [split_points_[s.matrix_index].push_back(x)] *)
Definition push_split_point (split_points : list (list Z)) (m x : Z)
  : outcome (list (list Z)) :=
  l ← vec_at split_points m;
  vec_set split_points m (l ++ [x]).

(** nnet-analyze.cc, lines 25-57. *)
Definition ComputeSplitPoints (computation : NnetComputation)
    (this : ComputationVariables) : outcome ComputationVariables :=
  let num_matrices := vsize (matrices computation) in
  let num_submatrices := vsize (submatrices computation) in
  let split_points := resize (Z.to_nat num_matrices) [] (split_points_ this) in
  s0 ← vec_at (submatrices computation) 0;
  KALDI_ASSERT (num_rows s0 =? 0);;
  split_points ← for_range 1 num_submatrices (λ sp submatrix_index,
      s ← vec_at (submatrices computation) submatrix_index;
      sp ← push_split_point sp (matrix_index s) (col_offset s);
      push_split_point sp (matrix_index s)
                       (int32_add (col_offset s) (num_cols s)))
    split_points;
  split_points ← for_range 1 num_matrices (λ sp matrix_index,
      l ← vec_at sp matrix_index;
      let l := SortAndUniq l in
      KALDI_ASSERT (2 <=? vsize l);;
      vec_set sp matrix_index l)
    split_points;
  let mtv := resize (Z.to_nat (num_matrices + 1)) 0
                    (matrix_to_variable_index_ this) in
  mtv ← vec_set mtv 0 0;
  mtv ← vec_set mtv 1 0;
  mtv ← for_range 1 num_matrices (λ mtv matrix_index,
      l ← vec_at split_points matrix_index;
      let num_variables := vsize l - 1 in
      KALDI_ASSERT (1 <=? num_variables);;
      base ← vec_at mtv matrix_index;
      vec_set mtv (matrix_index + 1) (base + num_variables))
    mtv;
  num_variables ← vec_back mtv;
  Done {| split_points_ := split_points;
          matrix_to_variable_index_ := mtv;
          num_variables_ := num_variables;
          variable_ranges_ := variable_ranges_ this;
          full_column_range_ := full_column_range_ this;
          variable_to_matrix_ := variable_to_matrix_ this;
          submatrix_to_matrix_ := submatrix_to_matrix_ this;
          submatrix_is_whole_matrix_ := submatrix_is_whole_matrix_ this |}.

(** [*iter] for the iterator at position [i] of [split]; reading at
    [split.end()] is undefined. *)
Definition deref (split : list Z) (i : nat) : outcome Z :=
  vec_at split (Z.of_nat i).

(** nnet-analyze.cc, lines 59-96. *)
Definition ComputeVariableRanges (computation : NnetComputation)
    (this : ComputationVariables) : outcome ComputationVariables :=
  let num_submatrices := vsize (submatrices computation) in
  let variable_ranges :=
    resize (Z.to_nat num_submatrices) (0, 0) (variable_ranges_ this) in
  variable_ranges ← vec_set variable_ranges 0 (0, 0);
  let full_column_range :=
    resize (Z.to_nat num_submatrices) false (full_column_range_ this) in
  '(variable_ranges, full_column_range) ←
    for_range 1 num_submatrices (λ st submatrix_index,
      s ← vec_at (submatrices computation) submatrix_index;
      let '(vr, fcr) := st in
      let matrix_index := matrix_index s in
      let start_dim := col_offset s in
      let end_dim := int32_add start_dim (num_cols s) in
      split ← vec_at (split_points_ this) matrix_index;
      let iter := lower_bound split 0 start_dim in
      x ← deref split iter;
      KALDI_ASSERT (x =? start_dim);;
      let start_split_point_index := Z.of_nat iter in
      let iter := lower_bound split iter end_dim in
      x ← deref split iter;
      KALDI_ASSERT (x =? end_dim);;
      let end_split_point_index := Z.of_nat iter in
      matrix_offset ← vec_at (matrix_to_variable_index_ this) matrix_index;
      let start_variable_index := matrix_offset + start_split_point_index in
      let end_variable_index := matrix_offset + end_split_point_index in
      KALDI_ASSERT (start_variable_index <? end_variable_index);;
      vr ← vec_set vr submatrix_index
                   (start_variable_index, end_variable_index);
      mat ← vec_at (matrices computation) matrix_index;
      fcr ← vec_set fcr submatrix_index
                    ((row_offset s =? 0) && (num_rows s =? mat_num_rows mat));
      Done (vr, fcr))
    (variable_ranges, full_column_range);
  Done {| split_points_ := split_points_ this;
          matrix_to_variable_index_ := matrix_to_variable_index_ this;
          num_variables_ := num_variables_ this;
          variable_ranges_ := variable_ranges;
          full_column_range_ := full_column_range;
          variable_to_matrix_ := variable_to_matrix_ this;
          submatrix_to_matrix_ := submatrix_to_matrix_ this;
          submatrix_is_whole_matrix_ := submatrix_is_whole_matrix_ this |}.

(** nnet-analyze.cc, lines 98-107. *)
Definition ComputeSubmatrixInfo (computation : NnetComputation)
    (this : ComputationVariables) : outcome ComputationVariables :=
  let num_submatrices := vsize (submatrices computation) in
  let stm := resize (Z.to_nat num_submatrices) 0 (submatrix_to_matrix_ this) in
  let whole :=
    resize (Z.to_nat num_submatrices) false (submatrix_is_whole_matrix_ this) in
  '(stm, whole) ← for_range 1 num_submatrices (λ st s,
      info ← vec_at (submatrices computation) s;
      let '(stm, whole) := st in
      stm ← vec_set stm s (matrix_index info);
      b ← IsWholeMatrix computation s;
      whole ← vec_set whole s b;
      Done (stm, whole))
    (stm, whole);
  Done {| split_points_ := split_points_ this;
          matrix_to_variable_index_ := matrix_to_variable_index_ this;
          num_variables_ := num_variables_ this;
          variable_ranges_ := variable_ranges_ this;
          full_column_range_ := full_column_range_ this;
          variable_to_matrix_ := variable_to_matrix_ this;
          submatrix_to_matrix_ := stm;
          submatrix_is_whole_matrix_ := whole |}.

(** The accessor [NumVariables()] of nnet-analyze.h. *)
Definition NumVariables (this : ComputationVariables) : Z :=
  num_variables_ this.

(** nnet-analyze.cc, lines 109-133. *)
Definition ComputeVariableToMatrix (computation : NnetComputation)
    (this : ComputationVariables) : outcome ComputationVariables :=
  let vtm := resize (Z.to_nat (NumVariables this)) (-1) [] in
  let num_submatrices := vsize (variable_ranges_ this) in
  vtm ← for_range 1 num_submatrices (λ vtm submatrix_index,
      s ← vec_at (submatrices computation) submatrix_index;
      let matrix_index := matrix_index s in
      '(variable_start, variable_end) ←
        vec_at (variable_ranges_ this) submatrix_index;
      for_range variable_start variable_end (λ vtm variable_index,
          m ← vec_at vtm variable_index;
          if m =? -1 then vec_set vtm variable_index matrix_index
          else KALDI_ASSERT (m =? matrix_index);; Done vtm)
        vtm)
    vtm;
  KALDI_ASSERT (count vtm (-1) =? 0);;
  Done {| split_points_ := split_points_ this;
          matrix_to_variable_index_ := matrix_to_variable_index_ this;
          num_variables_ := num_variables_ this;
          variable_ranges_ := variable_ranges_ this;
          full_column_range_ := full_column_range_ this;
          variable_to_matrix_ := vtm;
          submatrix_to_matrix_ := submatrix_to_matrix_ this;
          submatrix_is_whole_matrix_ := submatrix_is_whole_matrix_ this |}.

(** [ComputationVariables::Init], nnet-analyze.cc, lines 135-142. *)
Definition ComputationVariables_Init (computation : NnetComputation)
    (this : ComputationVariables) : outcome ComputationVariables :=
  KALDI_ASSERT (bool_decide (split_points_ this = []));;
  this ← ComputeSplitPoints computation this;
  this ← ComputeVariableRanges computation this;
  this ← ComputeVariableToMatrix computation this;
  ComputeSubmatrixInfo computation this.

(** nnet-analyze.cc, lines 144-147. *)
Definition GetMatrixForVariable (this : ComputationVariables) (variable : Z)
  : outcome Z :=
  KALDI_ASSERT (size_t_lt variable (vsize (variable_to_matrix_ this)));;
  vec_at (variable_to_matrix_ this) variable.

(** nnet-analyze.cc, lines 149-157. *)
Definition AppendVariablesForSubmatrix (this : ComputationVariables)
    (submatrix_index : Z) (variable_indexes : list Z) : outcome (list Z) :=
  KALDI_ASSERT (size_t_lt submatrix_index (vsize (variable_ranges_ this)));;
  '(start, end_) ← vec_at (variable_ranges_ this) submatrix_index;
  Done (variable_indexes ++ seqZ start (end_ - start)).

(** nnet-analyze.cc, lines 159-169. *)
Definition AppendVariablesForMatrix (this : ComputationVariables)
    (matrix_index : Z) (variable_indexes : list Z) : outcome (list Z) :=
  KALDI_ASSERT (size_t_lt (matrix_index + 1)
                          (vsize (matrix_to_variable_index_ this)));;
  start ← vec_at (matrix_to_variable_index_ this) matrix_index;
  end_ ← vec_at (matrix_to_variable_index_ this) (matrix_index + 1);
  Done (variable_indexes ++ seqZ start (end_ - start)).

(** ** Command attributes (nnet-analyze.h)

    Modelled from the spec: the declarations of nnet-analyze.h.  An access
    is of a "kind ∈ {Read, Write, ReadWrite}"; the attributes of a command
    are "the sets of variables/views/buffers read and written by it", and
    whether it is side-effecting. *)

Inductive AccessType := kReadAccess | kWriteAccess | kReadWriteAccess.

Global Instance AccessType_eq_dec : EqDecision AccessType.
Proof. solve_decision. Defined.

Record CommandAttributes := {
  variables_read : list Z;
  variables_written : list Z;
  submatrices_read : list Z;
  submatrices_written : list Z;
  matrices_read : list Z;
  matrices_written : list Z;
  has_side_effects : bool
}.

(** A default-constructed object: nothing accessed, no side effect. *)
Definition CommandAttributes_new : CommandAttributes :=
  {| variables_read := []; variables_written := [];
     submatrices_read := []; submatrices_written := [];
     matrices_read := []; matrices_written := [];
     has_side_effects := false |}.

(** nnet-analyze.cc, lines 171-213. *)
Definition RecordAccessForSubmatrix (this : ComputationVariables)
    (submatrix_index : Z) (access_type : AccessType) (ca : CommandAttributes)
  : outcome CommandAttributes :=
  if submatrix_index =? 0 then Done ca else
  KALDI_ASSERT (size_t_lt submatrix_index (vsize (submatrix_to_matrix_ this)));;
  matrix_index ← vec_at (submatrix_to_matrix_ this) submatrix_index;
  is_whole_matrix ← vec_at (submatrix_is_whole_matrix_ this) submatrix_index;
  match access_type with
  | kReadAccess =>
      vr ← AppendVariablesForSubmatrix this submatrix_index (variables_read ca);
      Done {| variables_read := vr;
              variables_written := variables_written ca;
              submatrices_read := submatrices_read ca ++ [submatrix_index];
              submatrices_written := submatrices_written ca;
              matrices_read := matrices_read ca ++ [matrix_index];
              matrices_written := matrices_written ca;
              has_side_effects := has_side_effects ca |}
  | kWriteAccess =>
      vw ← AppendVariablesForSubmatrix this submatrix_index
                                       (variables_written ca);
      full ← vec_at (full_column_range_ this) submatrix_index;
      vr ← (if negb full
            then AppendVariablesForSubmatrix this submatrix_index
                                             (variables_read ca)
            else Done (variables_read ca));
      Done {| variables_read := vr;
              variables_written := vw;
              submatrices_read := submatrices_read ca;
              submatrices_written := submatrices_written ca ++ [submatrix_index];
              matrices_read :=
                (if negb is_whole_matrix
                 then matrices_read ca ++ [matrix_index]
                 else matrices_read ca);
              matrices_written := matrices_written ca ++ [matrix_index];
              has_side_effects := has_side_effects ca |}
  | kReadWriteAccess =>
      vw ← AppendVariablesForSubmatrix this submatrix_index
                                       (variables_written ca);
      vr ← AppendVariablesForSubmatrix this submatrix_index (variables_read ca);
      Done {| variables_read := vr;
              variables_written := vw;
              submatrices_read := submatrices_read ca ++ [submatrix_index];
              submatrices_written := submatrices_written ca ++ [submatrix_index];
              matrices_read := matrices_read ca ++ [matrix_index];
              matrices_written := matrices_written ca ++ [matrix_index];
              has_side_effects := has_side_effects ca |}
  end.

(** The loop of [IndexesMultiToSubmatrixIndexes]; the state is
    [cur_submatrix_index] and the indexes pushed so far. *)
Fixpoint IndexesMultiToSubmatrixIndexes_loop (indexes_multi : list (Z * Z))
    (cur_submatrix_index : Z) (submatrix_indexes : list Z) : list Z :=
  match indexes_multi with
  | [] => submatrix_indexes
  | (submatrix_index, _) :: rest =>
      if negb (submatrix_index =? -1) &&
         negb (submatrix_index =? cur_submatrix_index)
      then IndexesMultiToSubmatrixIndexes_loop rest submatrix_index
             (submatrix_indexes ++ [submatrix_index])
      else IndexesMultiToSubmatrixIndexes_loop rest cur_submatrix_index
             submatrix_indexes
  end.

(** nnet-analyze.cc, lines 222-237. *)
Definition IndexesMultiToSubmatrixIndexes (indexes_multi : list (Z * Z))
  : list Z :=
  SortAndUniq (IndexesMultiToSubmatrixIndexes_loop indexes_multi (-1) []).

(** ** The network (nnet-nnet.h, nnet-component-itf.h)

    The network and its components are not part of the analysed file;
    the analysis sees them through these accessors only. *)

Record Component := {
  Properties : Z;
  InputDim : Z;
  OutputDim : Z
}.

Record Nnet := {
  NumComponents : Z;
  GetComponent : Z → outcome Component;
  NumNodes : Z;
  IsComponentNode : Z → bool;
  GetComponentForNode : Z → outcome Component;
  IsInputNode : Z → bool;
  IsOutputNode : Z → bool
}.

(** The bits of [Component::Properties()], whose values the enum of
    nnet-component-itf.h fixes. *)
Class ComponentProperties := {
  kSimpleComponent : Z;
  kUpdatableComponent : Z;
  kPropagateInPlace : Z;
  kPropagateAdds : Z;
  kBackpropAdds : Z;
  kBackpropNeedsInput : Z;
  kBackpropNeedsOutput : Z;
  kBackpropInPlace : Z;
  kStoresStats : Z
}.

(** An integer used as a condition. *)
Definition truthy (x : Z) : bool := negb (x =? 0).

(** [properties & flag] used as a condition. *)
Definition has_flag (properties flag : Z) : bool :=
  truthy (Z.land properties flag).

Definition sort_attributes (attr : CommandAttributes) : CommandAttributes :=
  {| variables_read := SortAndUniq (variables_read attr);
     variables_written := SortAndUniq (variables_written attr);
     submatrices_read := SortAndUniq (submatrices_read attr);
     submatrices_written := SortAndUniq (submatrices_written attr);
     matrices_read := SortAndUniq (matrices_read attr);
     matrices_written := SortAndUniq (matrices_written attr);
     has_side_effects := has_side_effects attr |}.

Definition set_has_side_effects (attr : CommandAttributes) : CommandAttributes :=
  {| variables_read := variables_read attr;
     variables_written := variables_written attr;
     submatrices_read := submatrices_read attr;
     submatrices_written := submatrices_written attr;
     matrices_read := matrices_read attr;
     matrices_written := matrices_written attr;
     has_side_effects := true |}.

Section Analysis.
Context `{ComponentProperties}.

(** The [switch] of [ComputeCommandAttributes] for one command, before
    the attribute lists are sorted. *)
Definition command_accesses (nnet : Nnet) (computation : NnetComputation)
    (vars : ComputationVariables) (c : Command) (attr : CommandAttributes)
  : outcome CommandAttributes :=
  match command_type c with
  | kAllocMatrixZeroed =>
      vw ← AppendVariablesForMatrix vars (arg1 c) (variables_written attr);
      Done {| variables_read := variables_read attr;
              variables_written := vw;
              submatrices_read := submatrices_read attr;
              submatrices_written := submatrices_written attr;
              matrices_read := matrices_read attr;
              matrices_written := matrices_written attr ++ [arg1 c];
              has_side_effects := has_side_effects attr |}
  | kAllocMatrixUndefined => Done attr
  | kDeallocMatrix => Done attr
  | kPropagate =>
      attr ← RecordAccessForSubmatrix vars (arg3 c) kReadAccess attr;
      component ← GetComponent nnet (arg1 c);
      if has_flag (Properties component) kPropagateAdds
      then RecordAccessForSubmatrix vars (arg4 c) kReadWriteAccess attr
      else RecordAccessForSubmatrix vars (arg4 c) kWriteAccess attr
  | kStoreStats =>
      RecordAccessForSubmatrix vars (arg2 c) kReadAccess attr
  | kBackprop =>
      attr ← RecordAccessForSubmatrix vars (arg3 c) kReadAccess attr;
      attr ← RecordAccessForSubmatrix vars (arg4 c) kReadAccess attr;
      attr ← RecordAccessForSubmatrix vars (arg5 c) kReadAccess attr;
      component ← GetComponentForNode nnet (arg1 c);
      attr ← (if has_flag (Properties component) kBackpropAdds
              then RecordAccessForSubmatrix vars (arg6 c) kReadWriteAccess attr
              else RecordAccessForSubmatrix vars (arg6 c) kWriteAccess attr);
      component ← GetComponentForNode nnet (arg1 c);
      if has_flag (Properties component) kUpdatableComponent
      then Done (set_has_side_effects attr)
      else Done attr
  | kMatrixCopy =>
      attr ← RecordAccessForSubmatrix vars (arg1 c) kWriteAccess attr;
      RecordAccessForSubmatrix vars (arg2 c) kReadAccess attr
  | kMatrixAdd =>
      attr ← RecordAccessForSubmatrix vars (arg1 c) kReadWriteAccess attr;
      RecordAccessForSubmatrix vars (arg2 c) kReadAccess attr
  | kAddRows =>
      attr ← RecordAccessForSubmatrix vars (arg1 c) kReadWriteAccess attr;
      RecordAccessForSubmatrix vars (arg2 c) kReadAccess attr
  | kCopyRows =>
      indexes ← vec_at (indexes computation) (arg3 c);
      attr ← (if 0 <? count indexes (-1)
              then RecordAccessForSubmatrix vars (arg1 c) kReadWriteAccess attr
              else RecordAccessForSubmatrix vars (arg1 c) kWriteAccess attr);
      RecordAccessForSubmatrix vars (arg2 c) kReadAccess attr
  | kAddRowsMulti =>
      attr ← RecordAccessForSubmatrix vars (arg1 c) kReadWriteAccess attr;
      indexes_multi ← vec_at (indexes_multi computation) (arg2 c);
      let submatrix_indexes := IndexesMultiToSubmatrixIndexes indexes_multi in
      for_each (λ attr s, RecordAccessForSubmatrix vars s kReadAccess attr)
               submatrix_indexes attr
  | kCopyRowsMulti =>
      indexes_multi ← vec_at (indexes_multi computation) (arg2 c);
      let submatrix_indexes := IndexesMultiToSubmatrixIndexes indexes_multi in
      attr ← RecordAccessForSubmatrix vars (arg1 c) kWriteAccess attr;
      for_each (λ attr s, RecordAccessForSubmatrix vars s kReadAccess attr)
               submatrix_indexes attr
  | kAddToRowsMulti | kCopyToRowsMulti =>
      attr ← RecordAccessForSubmatrix vars (arg1 c) kReadAccess attr;
      indexes_multi ← vec_at (indexes_multi computation) (arg2 c);
      let submatrix_indexes := IndexesMultiToSubmatrixIndexes indexes_multi in
      for_each (λ attr s, RecordAccessForSubmatrix vars s kReadWriteAccess attr)
               submatrix_indexes attr
  | kAddRowRanges =>
      attr ← RecordAccessForSubmatrix vars (arg1 c) kReadWriteAccess attr;
      RecordAccessForSubmatrix vars (arg2 c) kReadAccess attr
  | kNoOperation | kNoOperationMarker => Done attr
  end.

(** The body of the loop of [ComputeCommandAttributes]: the attributes
    of one command. *)
Definition ComputeCommandAttributes_command (nnet : Nnet)
    (computation : NnetComputation) (vars : ComputationVariables)
    (c : Command) : outcome CommandAttributes :=
  attr ← command_accesses nnet computation vars c CommandAttributes_new;
  Done (sort_attributes attr).

(** nnet-analyze.cc, lines 242-360. *)
Definition ComputeCommandAttributes (nnet : Nnet)
    (computation : NnetComputation) (vars : ComputationVariables)
  : outcome (list CommandAttributes) :=
  for_each (λ attributes c,
      attr ← ComputeCommandAttributes_command nnet computation vars c;
      Done (attributes ++ [attr]))
    (commands computation) [].

End Analysis.

(** ** Access histories

    Modelled from the spec: the declarations of nnet-analyze.h.  An access
    is "a pair (instruction index, kind)"; a buffer access record is "a
    chronologically ordered list of Accesses, the allocating instruction
    index (or "none" if external input), the deallocating instruction
    index (or "none" if external output), and is-input/is-output flags";
    "none" is the -1 the analysed file compares with. *)

Record Access := {
  command_index : Z;
  access_type : AccessType
}.

Record MatrixAccesses := {
  allocate_command : Z;
  deallocate_command : Z;
  accesses : list Access;
  is_input : bool;
  is_output : bool
}.

(** A default-constructed record. *)
Definition MatrixAccesses_new : MatrixAccesses :=
  {| allocate_command := -1; deallocate_command := -1; accesses := [];
     is_input := false; is_output := false |}.

Definition push_access (a : Access) (m : MatrixAccesses) : MatrixAccesses :=
  {| allocate_command := allocate_command m;
     deallocate_command := deallocate_command m;
     accesses := accesses m ++ [a];
     is_input := is_input m; is_output := is_output m |}.

Definition set_allocate_command (c : Z) (m : MatrixAccesses) : MatrixAccesses :=
  {| allocate_command := c;
     deallocate_command := deallocate_command m;
     accesses := accesses m;
     is_input := is_input m; is_output := is_output m |}.

Definition set_deallocate_command (c : Z) (m : MatrixAccesses)
  : MatrixAccesses :=
  {| allocate_command := allocate_command m;
     deallocate_command := c;
     accesses := accesses m;
     is_input := is_input m; is_output := is_output m |}.

Definition set_is_input (m : MatrixAccesses) : MatrixAccesses :=
  {| allocate_command := allocate_command m;
     deallocate_command := deallocate_command m;
     accesses := accesses m;
     is_input := true; is_output := is_output m |}.

Definition set_is_output (m : MatrixAccesses) : MatrixAccesses :=
  {| allocate_command := allocate_command m;
     deallocate_command := deallocate_command m;
     accesses := accesses m;
     is_input := is_input m; is_output := true |}.

(** The kind of access of an index found in the merged list, from the
    sorted read and written lists of the command. *)
Definition access_kind (read written : list Z) (index : Z) : AccessType :=
  let is_read := binary_search read index in
  let is_written := if negb is_read then true
                    else binary_search written index in
  if is_read && is_written then kReadWriteAccess
  else if is_read then kReadAccess
  else kWriteAccess.

(** nnet-analyze.cc, lines 362-406. *)
Definition ComputeVariableAccesses (variables : ComputationVariables)
    (command_attributes : list CommandAttributes)
  : outcome (list (list Access)) :=
  let num_variables := NumVariables variables in
  let num_commands := vsize command_attributes in
  let variable_accesses := resize (Z.to_nat num_variables) [] [] in
  for_range 0 num_commands (λ variable_accesses c,
      attr ← vec_at command_attributes c;
      KALDI_ASSERT (IsSortedAndUniq (variables_read attr));;
      KALDI_ASSERT (IsSortedAndUniq (variables_written attr));;
      let all_variables :=
        SortAndUniq (variables_read attr ++ variables_written attr) in
      for_each (λ variable_accesses variable_index,
          l ← vec_at variable_accesses variable_index;
          vec_set variable_accesses variable_index
            (l ++ [ {| command_index := c;
                       access_type := access_kind (variables_read attr)
                                        (variables_written attr)
                                        variable_index |} ]))
        all_variables variable_accesses)
    variable_accesses.

(** nnet-analyze.cc, lines 408-505. *)
Definition ComputeMatrixAccesses (nnet : Nnet) (computation : NnetComputation)
    (variables : ComputationVariables)
    (command_attributes : list CommandAttributes)
  : outcome (list MatrixAccesses) :=
  let num_matrices := vsize (matrices computation) in
  let num_commands := vsize command_attributes in
  let matrix_accesses := resize (Z.to_nat num_matrices) MatrixAccesses_new [] in
  matrix_accesses ← for_range 0 num_commands (λ matrix_accesses c,
      attr ← vec_at command_attributes c;
      KALDI_ASSERT (IsSortedAndUniq (matrices_read attr));;
      KALDI_ASSERT (IsSortedAndUniq (matrices_written attr));;
      let all_matrices :=
        SortAndUniq (matrices_read attr ++ matrices_written attr) in
      matrix_accesses ← for_each (λ matrix_accesses matrix_index,
          m ← vec_at matrix_accesses matrix_index;
          vec_set matrix_accesses matrix_index
            (push_access {| command_index := c;
                            access_type := access_kind (matrices_read attr)
                                             (matrices_written attr)
                                             matrix_index |} m))
        all_matrices matrix_accesses;
      command ← vec_at (commands computation) c;
      let matrix_index := arg1 command in
      match command_type command with
      | kAllocMatrixZeroed | kAllocMatrixUndefined =>
          m ← vec_at matrix_accesses matrix_index;
          err_if (negb (allocate_command m =? -1)) "Matrix initialized twice.";;
          vec_set matrix_accesses matrix_index (set_allocate_command c m)
      | kDeallocMatrix =>
          m ← vec_at matrix_accesses matrix_index;
          err_if (negb (deallocate_command m =? -1)) "Matrix destroyed twice.";;
          vec_set matrix_accesses matrix_index (set_deallocate_command c m)
      | _ => Done matrix_accesses
      end)
    matrix_accesses;
  for_each (λ matrix_accesses '(node_index,
                                (value_matrix_index, deriv_matrix_index)),
      KALDI_ASSERT ((0 <? value_matrix_index) &&
                    (value_matrix_index <? num_matrices));;
      if IsInputNode nnet node_index then
        m ← vec_at matrix_accesses value_matrix_index;
        KALDI_ASSERT (negb (is_input m));;
        matrix_accesses ←
          vec_set matrix_accesses value_matrix_index (set_is_input m);
        if negb (deriv_matrix_index =? 0) then
          m ← vec_at matrix_accesses deriv_matrix_index;
          KALDI_ASSERT (negb (is_output m));;
          vec_set matrix_accesses deriv_matrix_index (set_is_output m)
        else Done matrix_accesses
      else
        KALDI_ASSERT (IsOutputNode nnet node_index);;
        m ← vec_at matrix_accesses value_matrix_index;
        KALDI_ASSERT (negb (is_output m));;
        matrix_accesses ←
          vec_set matrix_accesses value_matrix_index (set_is_output m);
        if negb (deriv_matrix_index =? 0) then
          m ← vec_at matrix_accesses deriv_matrix_index;
          KALDI_ASSERT (negb (is_input m));;
          vec_set matrix_accesses deriv_matrix_index (set_is_input m)
        else Done matrix_accesses)
    (input_output_info computation) matrix_accesses.

(** The analysis result: "the immutable aggregate of {variable partition,
    per-instruction attribute sets, per-variable access lists, per-buffer
    access records}". *)
Record Analyzer := {
  variables : ComputationVariables;
  command_attributes : list CommandAttributes;
  variable_accesses : list (list Access);
  matrix_accesses : list MatrixAccesses
}.

Section Checker.
Context `{ComponentProperties}.

(** [Analyzer::Init], on a default-constructed analyzer. *)
Definition Analyzer_Init (nnet : Nnet) (computation : NnetComputation)
  : outcome Analyzer :=
  variables ← ComputationVariables_Init computation ComputationVariables_new;
  command_attributes ← ComputeCommandAttributes nnet computation variables;
  variable_accesses ← ComputeVariableAccesses variables command_attributes;
  matrix_accesses ←
    ComputeMatrixAccesses nnet computation variables command_attributes;
  Done {| variables := variables;
          command_attributes := command_attributes;
          variable_accesses := variable_accesses;
          matrix_accesses := matrix_accesses |}.

(** *** The process-wide state of the checker *)

(** The static flag [computation_checker_warned_unused_input], and the
    matrices [KALDI_WARN] was called for, oldest first. *)
Record Process := {
  computation_checker_warned_unused_input : bool;
  warnings : list Z
}.

(** Checks that may read and set the flag; the state survives a thrown
    error. *)
Definition checker (A : Type) : Type := Process → outcome A * Process.

Global Instance checker_ret : MRet checker := λ A a p, (Done a, p).

Global Instance checker_bind : MBind checker := λ A B f m p,
  match m p with
  | (Done a, p') => f a p'
  | (Err msg, p') => (Err msg, p')
  | (AssertFail, p') => (AssertFail, p')
  | (Undefined, p') => (Undefined, p')
  end.

Definition lift {A} (o : outcome A) : checker A := λ p, (o, p).

(** [if (!computation_checker_warned_unused_input) { KALDI_WARN ...;
    computation_checker_warned_unused_input = true; }] *)
Definition warn_unused_input (matrix_index : Z) : checker unit := λ p,
  if computation_checker_warned_unused_input p then (Done (), p)
  else (Done (), {| computation_checker_warned_unused_input := true;
                    warnings := warnings p ++ [matrix_index] |}).

Fixpoint for_each_checker {A} (body : A → checker unit) (l : list A)
  : checker unit :=
  match l with
  | [] => mret ()
  | x :: l' => body x;; for_each_checker body l'
  end.

(** *** CheckComputationRewrite *)

(** The first loop over the accesses: the position of the first access
    that only reads, or -1. *)
Definition first_pure_read (accesses : list Access) : Z :=
  match list_find (λ a, access_type a = kReadAccess) accesses with
  | Some (i, _) => Z.of_nat i
  | None => -1
  end.

(** nnet-analyze.cc, lines 537-567. *)
Definition CheckComputationRewrite (a : Analyzer) : outcome unit :=
  let num_variables := vsize (variable_accesses a) in
  for_range 0 num_variables (λ _ v,
      accesses ← vec_at (variable_accesses a) v;
      matrix_index ← GetMatrixForVariable (variables a) v;
      (if bool_decide (accesses = []) then
         m ← vec_at (matrix_accesses a) matrix_index;
         err_if (negb (is_input m)) "Variable is never used."
       else Done ());;
      let num_accesses := vsize accesses in
      let first_pure_read := first_pure_read accesses in
      if negb (first_pure_read =? -1) then
        for_range (first_pure_read + 1) num_accesses (λ _ access,
            x ← vec_at accesses access;
            err_if (negb (bool_decide (access_type x = kReadAccess)))
              "Variable is modified after being read (this is not expected before optimization)")
          ()
      else Done ())
    ().

(** *** CheckComputationUndefined *)

(** nnet-analyze.cc, lines 573-590. *)
Definition CheckComputationUndefined (a : Analyzer) : outcome unit :=
  let num_variables := vsize (variable_accesses a) in
  for_range 0 num_variables (λ _ v,
      accesses ← vec_at (variable_accesses a) v;
      matrix_index ← GetMatrixForVariable (variables a) v;
      m ← vec_at (matrix_accesses a) matrix_index;
      if negb (is_input m) then
        err_if (bool_decide (accesses = [])) "Variable is never used.";;
        x ← vec_at accesses 0;
        err_if (negb (bool_decide (access_type x = kWriteAccess)))
          "Variable is read before it is written to"
      else Done ())
    ().

(** *** CheckComputationMatrixAccesses *)

(** The body of the loop of [CheckComputationMatrixAccesses],
    nnet-analyze.cc, lines 604-644. *)
Definition CheckComputationMatrixAccesses_matrix (a : Analyzer)
    (matrix_index : Z) : checker unit :=
  m ← lift (vec_at (matrix_accesses a) matrix_index);
  lift (if is_input m then
          err_if (negb (allocate_command m =? -1))
            "Input matrix is initialized."
        else
          err_if (allocate_command m =? -1)
            "Matrix is not initialized.";;
          match head (accesses m) with
          | None => Err "Matrix is never accessed."
          | Some front =>
              err_if (command_index front <? allocate_command m)
                "Matrix is accessed before it is initialized"
          end);;
  if is_output m then
    lift (err_if (negb (deallocate_command m =? -1))
            "Output matrix is destroyed.")
  else
    lift (err_if (deallocate_command m =? -1)
            "Matrix is not destroyed.");;
    match last (accesses m) with
    | None =>
        if is_input m then warn_unused_input matrix_index
        else lift (Err "Matrix is never accessed.")
    | Some back =>
        lift (err_if (deallocate_command m <=? command_index back)
                "Matrix is accessed after it is destroyed")
    end.

(** nnet-analyze.cc, lines 600-646. *)
Definition CheckComputationMatrixAccesses (a : Analyzer) : checker unit :=
  let num_matrices := vsize (matrix_accesses a) in
  for_each_checker (CheckComputationMatrixAccesses_matrix a)
                   (seqZ 1 (num_matrices - 1)).

(** *** CheckComputationIndexes *)

(** [*std::max_element(v.begin(), v.end())]; on an empty vector the
    iterator is [v.end()], whose value is undefined. *)
Definition max_element (v : list Z) : outcome Z :=
  match v with
  | [] => Undefined
  | x :: l => Done (foldl Z.max x l)
  end.

(** [operator<=] of [std::pair<int32,int32>], the order [std::sort]
    puts the pairs in. *)
Definition pair_le (p q : Z * Z) : Prop :=
  p.1 < q.1 ∨ (p.1 = q.1 ∧ p.2 ≤ q.2).

Global Instance pair_le_dec : RelDecision pair_le.
Proof. intros p q. unfold pair_le. apply _. Defined.

(** The loop over the sorted copy of the pairs: an element equal to its
    successor, and not the pair of -1, is an error. *)
Fixpoint check_duplicates (pairs_copy : list (Z * Z)) : outcome unit :=
  match pairs_copy with
  | [] => Done ()
  | p :: rest =>
      err_if (match rest with
              | next :: _ => bool_decide (p = next) && negb (p.1 =? -1)
              | [] => false
              end)
        "Duplicate element found in indexes for {add,copy}-to-rows-multi command.";;
      check_duplicates rest
  end.

(** The loop over the pairs of a *-multi command. *)
Definition check_indexes_multi (computation : NnetComputation) (c : Command)
    (num_cols_1 : Z) (pairs : list (Z * Z)) : outcome unit :=
  let num_submatrices := vsize (submatrices computation) in
  for_each (λ _ '(submatrix_index, row_index),
      if submatrix_index =? -1 then
        err_if (negb (row_index =? -1))
          "Expected -1 row index if submatrix index is -1"
      else
        err_if ((submatrix_index <? 1) || (num_submatrices <=? submatrix_index))
          "Submatrix index out of range in indexes_multi";;
        s ← vec_at (submatrices computation) submatrix_index;
        err_if ((row_index <? 0) || (num_rows s <=? row_index))
          "Row index out of range in indexes_multi";;
        err_if (submatrix_index =? arg1 c)
          "Copying from self in *-multi command.";;
        err_if (negb (num_cols s =? num_cols_1))
          "Mismatching dimension in *-multi command")
    pairs ().

(** The body of the loop of [CheckComputationIndexes]: the checks of one
    command. *)
Definition CheckComputationIndexes_command (nnet : Nnet)
    (computation : NnetComputation) (c : Command) : outcome unit :=
  let num_matrices := vsize (matrices computation) in
  let num_submatrices := vsize (submatrices computation) in
  let submatrices := submatrices computation in
  match command_type c with
  | kAllocMatrixZeroed | kAllocMatrixUndefined | kDeallocMatrix =>
      err_if ((arg1 c <? 1) || (num_matrices <=? arg1 c))
        "matrix index out of range."
  | kPropagate =>
      err_if ((arg1 c <? 0) || (NumComponents nnet <=? arg1 c))
        "Component index out of range";;
      component ← GetComponent nnet (arg1 c);
      let properties := Properties component in
      err_if ((arg2 c <? 0) ||
              (vsize (component_precomputed_indexes computation) <? arg2 c))
        "Precomputed-indexes index out of range";;
      err_if (negb (arg2 c =? 0) && has_flag properties kSimpleComponent)
        "Precomputed-indexes index nonzero for simple component";;
      err_if ((arg3 c <? 0) || (num_submatrices <=? arg3 c) ||
              ((arg3 c =? 0) && negb (has_flag properties kSimpleComponent)) ||
              (arg4 c <? 1) || (num_submatrices <=? arg4 c))
        "Sub-matrix indexes out of range.";;
      s3 ← vec_at submatrices (arg3 c);
      err_if (negb (num_cols s3 =? InputDim component)) "Input-dim mismatch.";;
      s4 ← vec_at submatrices (arg4 c);
      err_if (negb (num_cols s4 =? OutputDim component)) "Input-dim mismatch.";;
      err_if (has_flag properties kSimpleComponent &&
              negb (num_rows s3 =? num_rows s4))
        "Num-rows mismatch for simple component.";;
      err_if (negb (has_flag properties kPropagateInPlace) &&
              (arg3 c =? arg4 c))
        "In-place propagation not supported for this component"
  | kStoreStats =>
      err_if ((arg1 c <? 0) || (NumComponents nnet <=? arg1 c))
        "Component index out of range";;
      component ← GetComponent nnet (arg1 c);
      let properties := Properties component in
      err_if (negb (has_flag properties kStoresStats))
        "StoreStats called on component that does not do it.";;
      err_if ((arg2 c <? 1) || (num_submatrices <=? arg2 c))
        "Invalid sub-matrix index in StoreStats";;
      s2 ← vec_at submatrices (arg2 c);
      err_if (negb (num_cols s2 =? OutputDim component))
        "Dimension mismatch in StoreStats"
  | kBackprop =>
      err_if ((arg1 c <? 0) || (NumNodes nnet <=? arg1 c) ||
              negb (IsComponentNode nnet (arg1 c)))
        "Node index in backprop invalid or out of range";;
      component ← GetComponentForNode nnet (arg1 c);
      let properties := Properties component in
      err_if ((arg2 c <? 0) ||
              (vsize (component_precomputed_indexes computation) <? arg2 c))
        "Precomputed-indexes index out of range";;
      err_if (negb (arg2 c =? 0) && has_flag properties kSimpleComponent)
        "Precomputed-indexes index nonzero for simple component";;
      err_if ((arg3 c <? 0) || (num_submatrices <=? arg3 c) ||
              (arg4 c <? 0) || (num_submatrices <=? arg4 c) ||
              (arg5 c <? 1) || (num_submatrices <=? arg5 c) ||
              (arg6 c <? 0) || (num_submatrices <=? arg6 c))
        "Submatrix index out of range for backprop.";;
      err_if (has_flag properties kBackpropNeedsInput && (arg3 c =? 0))
        "Backprop input needed but not supplied.";;
      err_if (has_flag properties kBackpropNeedsOutput && (arg4 c =? 0))
        "Backprop output needed but not supplied.";;
      err_if ((arg6 c =? 0) &&
              negb (truthy properties && truthy kUpdatableComponent))
        "Backprop is done but has no effect.";;
      err_if ((arg5 c =? arg6 c) && negb (has_flag properties kBackpropInPlace))
        "In-place backprop used where not supported.";;
      (if negb (arg3 c =? 0) then
         s3 ← vec_at submatrices (arg3 c);
         err_if (negb (num_cols s3 =? InputDim component))
           "Input-dim mismatch in backprop."
       else Done ());;
      (if negb (arg4 c =? 0) then
         s4 ← vec_at submatrices (arg4 c);
         err_if (negb (num_cols s4 =? OutputDim component))
           "Output-dim mismatch in backprop."
       else Done ());;
      (if negb (arg5 c =? 0) then
         s5 ← vec_at submatrices (arg5 c);
         err_if (negb (num_cols s5 =? OutputDim component))
           "Output-dim mismatch in backprop."
       else Done ());;
      (if negb (arg6 c =? 0) then
         s6 ← vec_at submatrices (arg6 c);
         err_if (negb (num_cols s6 =? InputDim component))
           "Input-dim mismatch in backprop."
       else Done ());;
      (if negb (arg3 c =? 0) && negb (arg6 c =? 0) then
         s3 ← vec_at submatrices (arg3 c);
         s6 ← vec_at submatrices (arg6 c);
         err_if (negb (num_rows s3 =? num_rows s6))
           "Num-rows mismatch in backprop input"
       else Done ());;
      (if negb (arg4 c =? 0) then
         s4 ← vec_at submatrices (arg4 c);
         s5 ← vec_at submatrices (arg5 c);
         err_if (negb (num_rows s4 =? num_rows s5))
           "Num-rows mismatch in backprop output"
       else Done ());;
      (if has_flag properties kSimpleComponent && negb (arg6 c =? 0) then
         s5 ← vec_at submatrices (arg5 c);
         s6 ← vec_at submatrices (arg6 c);
         err_if (negb (num_rows s5 =? num_rows s6))
           "Num-rows mismatch in backprop input vs output."
       else Done ())
  | kMatrixCopy | kMatrixAdd =>
      err_if ((arg1 c <? 1) || (num_submatrices <=? arg1 c) ||
              (arg2 c <? 1) || (num_submatrices <=? arg2 c))
        "Submatrix indexes out of range in matrix copy/add";;
      s1 ← vec_at submatrices (arg1 c);
      s2 ← vec_at submatrices (arg2 c);
      err_if (negb (num_rows s1 =? num_rows s2) ||
              negb (num_cols s1 =? num_cols s2))
        "Submatrix indexes out of range in matrix copy/add";;
      err_if (arg1 c =? arg2 c) "Adding/copying to self"
  | kAddRows | kCopyRows =>
      err_if ((arg1 c <? 1) || (num_submatrices <=? arg1 c) ||
              (arg2 c <? 1) || (num_submatrices <=? arg2 c) ||
              size_t_ge (arg3 c) (vsize (indexes computation)))
        "Index out of range in add-rows/copy-rows command.";;
      indexes ← vec_at (indexes computation) (arg3 c);
      s1 ← vec_at submatrices (arg1 c);
      err_if (negb (vsize indexes =? num_rows s1))
        "Indexes size mismatch in add-rows/copy-rows";;
      s2 ← vec_at submatrices (arg2 c);
      err_if (negb (num_cols s1 =? num_cols s2))
        "Dimension mismatch in add-rows/copy-rows";;
      largest ← max_element indexes;
      err_if (num_rows s2 <=? largest)
        "Row-index out of range in add-rows/copy-rows";;
      err_if (arg1 c =? arg2 c)
        "Copying to self in add-rows/copy-rows command."
  | kAddRowsMulti | kCopyRowsMulti | kAddToRowsMulti | kCopyToRowsMulti =>
      err_if ((arg1 c <? 1) || (num_submatrices <=? arg1 c) ||
              size_t_ge (arg2 c) (vsize (indexes_multi computation)))
        "Index out of range in *-multi command";;
      pairs ← vec_at (indexes_multi computation) (arg2 c);
      s1 ← vec_at submatrices (arg1 c);
      let num_rows := num_rows s1 in
      let num_cols := num_cols s1 in
      err_if (negb (vsize pairs =? num_rows))
        "Indexes dimension mismatch in *-multi command";;
      check_indexes_multi computation c num_cols pairs;;
      if bool_decide (command_type c = kAddToRowsMulti) ||
         bool_decide (command_type c = kCopyToRowsMulti)
      then
        let pairs_copy := merge_sort pair_le pairs in
        check_duplicates pairs_copy
      else Done ()
  | kAddRowRanges =>
      err_if ((arg1 c <? 1) || (num_submatrices <=? arg1 c) ||
              (arg2 c <? 1) || (num_submatrices <=? arg2 c) ||
              size_t_ge (arg3 c) (vsize (indexes_ranges computation)))
        "Index out of range in add-row-ranges command";;
      pairs ← vec_at (indexes_ranges computation) (arg2 c);
      s1 ← vec_at submatrices (arg1 c);
      err_if (negb (num_rows s1 =? vsize pairs))
        "Num-rows mismatch in add-row-ranges command";;
      s2 ← vec_at submatrices (arg2 c);
      err_if (negb (num_cols s1 =? num_cols s2))
        "Dimension mismatch in add-row-ranges command";;
      let src_num_rows := num_rows s2 in
      for_each (λ _ '(first, second),
          err_if ((second <? first) || (first <? 0) || (src_num_rows <? second))
            "Row range out of range in add-row-ranges command.")
        pairs ()
  | kNoOperation | kNoOperationMarker => Done ()
  end.

(** nnet-analyze.cc, lines 653-879. *)
Definition CheckComputationIndexes (nnet : Nnet) (computation : NnetComputation)
  : outcome unit :=
  for_each (λ _ c, CheckComputationIndexes_command nnet computation c)
           (commands computation) ().

(** *** CheckComputationOrder *)

(** nnet-analyze.cc, lines 885-914. *)
Definition CheckComputationOrder (computation : NnetComputation)
  : outcome unit :=
  let num_commands := vsize (commands computation) in
  '(num_markers, marker_location) ←
    for_range 0 num_commands (λ st c,
        command ← vec_at (commands computation) c;
        let '(num_markers, marker_location) := st in
        if bool_decide (command_type command = kNoOperationMarker)
        then Done (num_markers + 1, c)
        else Done (num_markers, marker_location))
      (0, 0);
  err_if (negb (num_markers =? 1))
    "Expected exactly one kNoOperationMarker marker.";;
  for_range 0 num_commands (λ _ c,
      command ← vec_at (commands computation) c;
      let command_type := command_type command in
      err_if (negb (c =? marker_location) &&
              bool_decide (command_type = kNoOperationMarker))
        "Found kNoOpMarker in unexpected place";;
      err_if ((c <? marker_location) && bool_decide (command_type = kBackprop))
        "Backprop occurs before kNoOpMarker";;
      err_if ((marker_location <? c) && bool_decide (command_type = kPropagate))
        "Propagate occurs after kNoOpMarker";;
      err_if ((marker_location <? c) && bool_decide (command_type = kStoreStats))
        "StoreStats occurs after kNoOpMarker")
    ().

(** *** ComputationChecker::Check *)

(** The configuration of the checker: whether the rewrite check runs. *)
Record CheckComputationOptions := {
  check_rewrite : bool
}.

(** nnet-analyze.cc, lines 518-527. *)
Definition Check (config : CheckComputationOptions) (nnet : Nnet)
    (computation : NnetComputation) : checker unit :=
  lift (CheckComputationIndexes nnet computation);;
  a ← lift (Analyzer_Init nnet computation);
  lift (CheckComputationOrder computation);;
  CheckComputationMatrixAccesses a;;
  lift (CheckComputationUndefined a);;
  if check_rewrite config then lift (CheckComputationRewrite a)
  else mret ().

End Checker.

(** ** Queries on the access histories *)

(** nnet-analyze.cc, lines 931-953. *)
Definition MatrixIsAccessedBeforeCommand (matrix_accesses : list MatrixAccesses)
    (matrix_index command_index_ : Z) : outcome bool :=
  KALDI_ASSERT ((0 <? matrix_index) && (matrix_index <? vsize matrix_accesses));;
  access ← vec_at matrix_accesses matrix_index;
  if bool_decide (accesses access = []) then Done false else
  front ← vec_at (accesses access) 0;
  let first_command := command_index front in
  if negb (first_command =? allocate_command access) &&
     (first_command <? command_index_)
  then Done true else
  if negb (first_command =? allocate_command access) &&
     (1 <? vsize (accesses access))
  then
    second ← vec_at (accesses access) 1;
    let second_command := command_index second in
    if second_command <? command_index_ then Done true else Done false
  else Done false.


(** nnet-analyze.cc, lines 955-965. *)
Definition MatrixIsAccessedAfterCommand (matrix_accesses : list MatrixAccesses)
    (matrix_index command_index_ : Z) : outcome bool :=
  KALDI_ASSERT ((0 <? matrix_index) && (matrix_index <? vsize matrix_accesses));;
  access ← vec_at matrix_accesses matrix_index;
  if bool_decide (accesses access = []) then Done false else
  back ← vec_back (accesses access);
  Done (command_index_ <? command_index back).

(** The loop of [MatrixIsWrittenToAfterCommand] over the reverse
    iterator; [l] is the accesses from the last to the first. *)
Fixpoint MatrixIsWrittenToAfterCommand_loop (l : list Access)
    (command_index_ : Z) : bool :=
  match l with
  | [] => false
  | x :: rest =>
      if command_index x <=? command_index_ then false
      else if negb (bool_decide (access_type x = kReadAccess)) then true
      else MatrixIsWrittenToAfterCommand_loop rest command_index_
  end.

(** nnet-analyze.cc, lines 967-986. *)
Definition MatrixIsWrittenToAfterCommand (matrix_accesses : list MatrixAccesses)
    (matrix_index command_index_ : Z) : outcome bool :=
  KALDI_ASSERT ((0 <? matrix_index) && (matrix_index <? vsize matrix_accesses));;
  access ← vec_at matrix_accesses matrix_index;
  if bool_decide (accesses access = []) then Done false else
  Done (MatrixIsWrittenToAfterCommand_loop (reverse (accesses access))
          command_index_).

(** The inner loop of [FirstTimeSubmatrixIsWrittenToAfterCommand] over
    the reverse iterator of the accesses of one variable; [l] is the
    accesses from the last to the first, the result the new [ans]. *)
Fixpoint FirstTimeSubmatrixIsWrittenToAfterCommand_loop (l : list Access)
    (command_index_ ans : Z) : Z :=
  match l with
  | [] => ans
  | access :: rest =>
      if command_index access <=? command_index_ then ans
      else if negb (bool_decide (access_type access = kReadAccess)) then
        FirstTimeSubmatrixIsWrittenToAfterCommand_loop rest command_index_
          (if (command_index access <? ans) || (ans =? -1)
           then command_index access else ans)
      else
        FirstTimeSubmatrixIsWrittenToAfterCommand_loop rest command_index_ ans
  end.

(** nnet-analyze.cc, lines 988-1019.  [KALDI_PARANOID_ASSERT] expands to
    nothing (kaldi-error.h, without [KALDI_PARANOID]). *)
Definition FirstTimeSubmatrixIsWrittenToAfterCommand (analyzer : Analyzer)
    (submatrix_index command_index_ : Z) : outcome Z :=
  KALDI_ASSERT (size_t_lt command_index_
                          (vsize (command_attributes analyzer)));;
  variables ← AppendVariablesForSubmatrix (variables analyzer)
                                          submatrix_index [];
  KALDI_ASSERT (IsSortedAndUniq variables);;
  for_each (λ ans variable,
      accesses ← vec_at (variable_accesses analyzer) variable;
      Done (FirstTimeSubmatrixIsWrittenToAfterCommand_loop
              (reverse accesses) command_index_ ans))
    variables (-1).

(** ** ComputeSubmatLists *)

(** nnet-analyze.cc, lines 916-929. *)
Definition ComputeSubmatLists (computation : NnetComputation)
  : outcome (list (list Z)) :=
  let num_matrices := vsize (matrices computation) in
  let num_submatrices := vsize (submatrices computation) in
  let submat_lists := resize (Z.to_nat num_matrices) [] [] in
  for_range 1 num_submatrices (λ submat_lists submatrix_index,
      s ← vec_at (submatrices computation) submatrix_index;
      let matrix_index := matrix_index s in
      KALDI_ASSERT ((0 <? matrix_index) && (matrix_index <? num_matrices));;
      l ← vec_at submat_lists matrix_index;
      vec_set submat_lists matrix_index (l ++ [submatrix_index]))
    submat_lists.

(** * Example computations and histories *)

Definition lookahead_accesses : MatrixAccesses :=
  {| allocate_command := 0; deallocate_command := 9;
     accesses := [ {| command_index := 5; access_type := kWriteAccess |};
                   {| command_index := 2; access_type := kReadAccess |} ];
     is_input := false; is_output := false |}.

(** A command without operands. *)
Definition plain_command (t : CommandType) : Command :=
  {| command_type := t;
     arg1 := 0; arg2 := 0; arg3 := 0; arg4 := 0; arg5 := 0; arg6 := 0 |}.

(** A computation made of commands only. *)
Definition commands_only (cmds : list Command) : NnetComputation :=
  {| matrices := []; submatrices := []; component_precomputed_indexes := [];
     indexes := []; indexes_multi := []; indexes_ranges := [];
     input_output_info := []; commands := cmds |}.

Definition two_markers : NnetComputation :=
  commands_only [plain_command kPropagate; plain_command kNoOperationMarker;
                 plain_command kNoOperationMarker; plain_command kBackprop].

Definition forward_backward : NnetComputation :=
  commands_only [plain_command kPropagate; plain_command kStoreStats;
                 plain_command kNoOperationMarker; plain_command kBackprop].

Definition backprop_first : NnetComputation :=
  commands_only [plain_command kBackprop; plain_command kNoOperationMarker].

(** An analyzer made of matrix access records only, after the record of
    the null matrix. *)
Definition histories (ms : list MatrixAccesses) : Analyzer :=
  {| variables := ComputationVariables_new; command_attributes := [];
     variable_accesses := [];
     matrix_accesses := MatrixAccesses_new :: ms |}.

Definition fresh_process : Process :=
  {| computation_checker_warned_unused_input := false; warnings := [] |}.

(** Allocated by command 0, written by 1, read by 2, freed by 3. *)
Definition used_matrix : MatrixAccesses :=
  {| allocate_command := 0; deallocate_command := 3;
     accesses := [ {| command_index := 1; access_type := kWriteAccess |};
                   {| command_index := 2; access_type := kReadAccess |} ];
     is_input := false; is_output := false |}.

(** An input that no command touches, freed by command 5. *)
Definition unused_input_matrix : MatrixAccesses :=
  {| allocate_command := -1; deallocate_command := 5; accesses := [];
     is_input := true; is_output := false |}.

(** Written by command 1 and never allocated. *)
Definition never_allocated : MatrixAccesses :=
  {| allocate_command := -1; deallocate_command := 3;
     accesses := [ {| command_index := 1; access_type := kWriteAccess |} ];
     is_input := false; is_output := false |}.

(** The property bits as nnet-component-itf.h numbers them. *)
Definition kaldi_properties : ComponentProperties :=
  {| kSimpleComponent := 0x001; kUpdatableComponent := 0x002;
     kPropagateInPlace := 0x010; kPropagateAdds := 0x020;
     kBackpropAdds := 0x080; kBackpropNeedsInput := 0x100;
     kBackpropNeedsOutput := 0x200; kBackpropInPlace := 0x400;
     kStoresStats := 0x800 |}.

(** A network of one component node, node 0, with component [c]. *)
Definition one_component (c : Component) : Nnet :=
  {| NumComponents := 1;
     GetComponent := λ i, if i =? 0 then Done c else AssertFail;
     NumNodes := 1;
     IsComponentNode := λ n, n =? 0;
     GetComponentForNode := λ n, if n =? 0 then Done c else AssertFail;
     IsInputNode := λ _, false;
     IsOutputNode := λ _, false |}.

(** An analyzer of one variable, variable 0 of matrix 1, with the given
    history. *)
Definition one_variable (history : list Access) : Analyzer :=
  {| variables :=
       {| split_points_ := []; matrix_to_variable_index_ := [];
          num_variables_ := 1; variable_ranges_ := [];
          full_column_range_ := []; variable_to_matrix_ := [1];
          submatrix_to_matrix_ := []; submatrix_is_whole_matrix_ := [] |};
     command_attributes := [];
     variable_accesses := [history];
     matrix_accesses := [MatrixAccesses_new; used_matrix] |}.

Definition written_then_read : list Access :=
  [ {| command_index := 1; access_type := kWriteAccess |};
    {| command_index := 2; access_type := kReadAccess |} ].

Definition read_then_written : list Access :=
  [ {| command_index := 1; access_type := kWriteAccess |};
    {| command_index := 2; access_type := kReadAccess |};
    {| command_index := 3; access_type := kReadAccess |};
    {| command_index := 4; access_type := kReadWriteAccess |} ].

(** One matrix of 2 rows and 3 columns and the submatrix that is all of
    it. *)
Definition one_matrix (cmds : list Command) : NnetComputation :=
  {| matrices := [ {| mat_num_rows := 0; mat_num_cols := 0 |};
                   {| mat_num_rows := 2; mat_num_cols := 3 |} ];
     submatrices := [ {| matrix_index := 0; row_offset := 0; num_rows := 0;
                         col_offset := 0; num_cols := 0 |};
                      {| matrix_index := 1; row_offset := 0; num_rows := 2;
                         col_offset := 0; num_cols := 3 |} ];
     component_precomputed_indexes := [];
     indexes := []; indexes_multi := []; indexes_ranges := [];
     input_output_info := []; commands := cmds |}.

(** Backprop of node 0 with an output derivative only. *)
Definition backprop_without_input_deriv : Command :=
  {| command_type := kBackprop;
     arg1 := 0; arg2 := 0; arg3 := 0; arg4 := 0; arg5 := 1; arg6 := 0 |}.

Definition component_with (properties : Z) : Component :=
  {| Properties := properties; InputDim := 3; OutputDim := 3 |}.

(** Two matrices of 3 columns, of 2 and 4 rows, each with the submatrix
    that is all of it, and one pair list. *)
Definition two_matrices (pairs : list (Z * Z)) : NnetComputation :=
  {| matrices := [ {| mat_num_rows := 0; mat_num_cols := 0 |};
                   {| mat_num_rows := 2; mat_num_cols := 3 |};
                   {| mat_num_rows := 4; mat_num_cols := 3 |} ];
     submatrices := [ {| matrix_index := 0; row_offset := 0; num_rows := 0;
                         col_offset := 0; num_cols := 0 |};
                      {| matrix_index := 1; row_offset := 0; num_rows := 2;
                         col_offset := 0; num_cols := 3 |};
                      {| matrix_index := 2; row_offset := 0; num_rows := 4;
                         col_offset := 0; num_cols := 3 |} ];
     component_precomputed_indexes := [];
     indexes := []; indexes_multi := [pairs]; indexes_ranges := [];
     input_output_info := []; commands := [] |}.

(** A *-multi command on submatrix 1 and pair list 0. *)
Definition multi_command (t : CommandType) : Command :=
  {| command_type := t;
     arg1 := 1; arg2 := 0; arg3 := 0; arg4 := 0; arg5 := 0; arg6 := 0 |}.

Definition view (m row_offset_ num_rows_ col_offset_ num_cols_ : Z)
  : SubMatrixInfo :=
  {| matrix_index := m; row_offset := row_offset_; num_rows := num_rows_;
     col_offset := col_offset_; num_cols := num_cols_ |}.

(** A matrix of 2 rows and 5 columns with three views that overlap
    (columns 0-1, columns 2-4 and the whole matrix), and a matrix of 4
    rows and 3 columns with a view of its rows 1 and 2. *)
Definition overlapping_views (index_lists : list (list Z))
    (pair_lists : list (list (Z * Z))) (cmds : list Command) : NnetComputation :=
  {| matrices := [ {| mat_num_rows := 0; mat_num_cols := 0 |};
                   {| mat_num_rows := 2; mat_num_cols := 5 |};
                   {| mat_num_rows := 4; mat_num_cols := 3 |} ];
     submatrices := [ view 0 0 0 0 0; view 1 0 2 0 2; view 1 0 2 2 3;
                      view 1 0 2 0 5; view 2 1 2 0 3 ];
     component_precomputed_indexes := [];
     indexes := index_lists; indexes_multi := pair_lists; indexes_ranges := [];
     input_output_info := []; commands := cmds |}.

(** The variables of [overlapping_views]: variables 0 and 1 are columns
    0-1 and 2-4 of matrix 1, variable 2 is matrix 2. *)
Definition overlapping_variables : ComputationVariables :=
  {| split_points_ := [[]; [0; 2; 5]; [0; 3]];
     matrix_to_variable_index_ := [0; 0; 2; 3];
     num_variables_ := 3;
     variable_ranges_ := [(0, 0); (0, 1); (1, 2); (0, 2); (2, 3)];
     full_column_range_ := [false; true; true; true; false];
     variable_to_matrix_ := [1; 1; 2];
     submatrix_to_matrix_ := [0; 1; 1; 1; 2];
     submatrix_is_whole_matrix_ := [false; false; false; true; false] |}.

(** Two matrices of 2 rows and 3 columns, each with the view that is all
    of it.  The program zeroes both, copies the first to the second and
    then adds the second to the first, which it has read before. *)
Definition in_place_program : NnetComputation :=
  {| matrices := [ {| mat_num_rows := 0; mat_num_cols := 0 |};
                   {| mat_num_rows := 2; mat_num_cols := 3 |};
                   {| mat_num_rows := 2; mat_num_cols := 3 |} ];
     submatrices := [ view 0 0 0 0 0; view 1 0 2 0 3; view 2 0 2 0 3 ];
     component_precomputed_indexes := [];
     indexes := []; indexes_multi := []; indexes_ranges := [];
     input_output_info := [];
     commands :=
       [ {| command_type := kAllocMatrixZeroed;
            arg1 := 1; arg2 := 0; arg3 := 0; arg4 := 0; arg5 := 0; arg6 := 0 |};
         {| command_type := kAllocMatrixZeroed;
            arg1 := 2; arg2 := 0; arg3 := 0; arg4 := 0; arg5 := 0; arg6 := 0 |};
         {| command_type := kMatrixCopy;
            arg1 := 2; arg2 := 1; arg3 := 0; arg4 := 0; arg5 := 0; arg6 := 0 |};
         {| command_type := kMatrixAdd;
            arg1 := 1; arg2 := 2; arg3 := 0; arg4 := 0; arg5 := 0; arg6 := 0 |};
         plain_command kNoOperationMarker;
         {| command_type := kDeallocMatrix;
            arg1 := 1; arg2 := 0; arg3 := 0; arg4 := 0; arg5 := 0; arg6 := 0 |};
         {| command_type := kDeallocMatrix;
            arg1 := 2; arg2 := 0; arg3 := 0; arg4 := 0; arg5 := 0; arg6 := 0 |} ]
  |}.

(** The analyzer [Init] builds for [in_place_program]. *)
Definition in_place_analysis : Analyzer :=
  Eval vm_compute in
  match @Analyzer_Init kaldi_properties (one_component (component_with 0))
          in_place_program with
  | Done a => a
  | _ => histories []
  end.

(** Copying rows of view 4 to view 3, with index list 0. *)
Definition copy_rows_3_from_4 : Command :=
  {| command_type := kCopyRows;
     arg1 := 3; arg2 := 4; arg3 := 0; arg4 := 0; arg5 := 0; arg6 := 0 |}.

(** A scatter command from view 1, with pair list 0. *)
Definition scatter_from_1 (t : CommandType) : Command :=
  {| command_type := t;
     arg1 := 1; arg2 := 0; arg3 := 0; arg4 := 0; arg5 := 0; arg6 := 0 |}.

(** * Definitions used by the statements and the proofs *)

(** A loop over the elements of [l] and their indexes, from [k] on: what
    a loop over a range of indexes of a vector is, when its body starts by
    reading the element. *)
Fixpoint for_indexed {A S} (body : S → Z → A → outcome S) (k : Z) (l : list A)
    (st : S) : outcome S :=
  match l with
  | [] => Done st
  | x :: l' => st' ← body st k x; for_indexed body (k + 1) l' st'
  end.

(** The commands are in forward/backward order around one marker: the
    marker is at position [m] and nowhere else, no Backprop is before it,
    no Propagate and no StoreStats is after it. *)
Definition order_ok (cmds : list Command) : Prop :=
  ∃ m : nat,
    (∀ i c, cmds !! i = Some c →
            (command_type c = kNoOperationMarker ↔ i = m)) ∧
    (m < length cmds)%nat ∧
    (∀ i c, cmds !! i = Some c → (i < m)%nat → command_type c ≠ kBackprop) ∧
    (∀ i c, cmds !! i = Some c → (m < i)%nat →
            command_type c ≠ kPropagate ∧ command_type c ≠ kStoreStats).

(** The positions of the markers among [l], whose first element has
    position [k]. *)
Fixpoint marker_positions (k : Z) (l : list Command) : list Z :=
  match l with
  | [] => []
  | c :: l' =>
      if bool_decide (command_type c = kNoOperationMarker)
      then k :: marker_positions (k + 1) l'
      else marker_positions (k + 1) l'
  end.

(** The checks of the second loop on one command. *)
Definition order_violation (marker_location c : Z) (t : CommandType) : bool :=
  (negb (c =? marker_location) && bool_decide (t = kNoOperationMarker)) ||
  ((c <? marker_location) && bool_decide (t = kBackprop)) ||
  ((marker_location <? c) && bool_decide (t = kPropagate)) ||
  ((marker_location <? c) && bool_decide (t = kStoreStats)).

(** What the lifecycle check rejects in the record of one matrix. *)
Definition lifecycle_error (m : MatrixAccesses) : Prop :=
  (is_input m = true ∧ allocate_command m ≠ -1) ∨
  (is_input m = false ∧
   (allocate_command m = -1 ∨ accesses m = [] ∨
    ∃ front, head (accesses m) = Some front ∧
             command_index front < allocate_command m)) ∨
  (is_output m = true ∧ deallocate_command m ≠ -1) ∨
  (is_output m = false ∧
   (deallocate_command m = -1 ∨
    (accesses m = [] ∧ is_input m = false) ∨
    ∃ back, last (accesses m) = Some back ∧
            deallocate_command m ≤ command_index back)).

(** A matrix that is an input, is not an output and is never accessed. *)
Definition unused_input (m : MatrixAccesses) : Prop :=
  accesses m = [] ∧ is_input m = true ∧ is_output m = false.

(** What a run of the lifecycle check may do to the process state: nothing,
    or, the flag not being set, set it and log one warning, about an unused
    input. *)
Definition warned_once (a : Analyzer) (p p' : Process) : Prop :=
  p' = p ∨
  (computation_checker_warned_unused_input p = false ∧
   ∃ (i : nat) m, (1 ≤ i)%nat ∧ matrix_accesses a !! i = Some m ∧
     unused_input m ∧
     p' = {| computation_checker_warned_unused_input := true;
             warnings := warnings p ++ [Z.of_nat i] |}).

(** What the rewrite check rejects in the history of one variable, [m]
    being the record of the matrix of the variable: no access at all, the
    matrix not being an input; or an access that only reads, followed, at
    any later position, by one that writes. *)
Definition rewrite_error (accesses : list Access) (m : MatrixAccesses) : Prop :=
  (accesses = [] ∧ is_input m = false) ∨
  (∃ (i j : nat) x y,
     (i < j)%nat ∧ accesses !! i = Some x ∧ accesses !! j = Some y ∧
     access_type x = kReadAccess ∧ access_type y ≠ kReadAccess).

(** Every variable with a history has a matrix, and the matrix a record. *)
Definition variables_have_matrices (a : Analyzer) : Prop :=
  ∀ (v : nat) accesses, variable_accesses a !! v = Some accesses →
    ∃ matrix_index m,
      variable_to_matrix_ (variables a) !! v = Some matrix_index ∧
      0 ≤ matrix_index ∧
      matrix_accesses a !! Z.to_nat matrix_index = Some m.

(** The matrix record of variable [v]. *)
Definition matrix_of_variable (a : Analyzer) (v : nat) (m : MatrixAccesses)
  : Prop :=
  ∃ matrix_index,
    variable_to_matrix_ (variables a) !! v = Some matrix_index ∧
    0 ≤ matrix_index ∧
    matrix_accesses a !! Z.to_nat matrix_index = Some m.

(** The pair list names the same pair, other than the pair of -1, at two
    positions. *)
Definition has_duplicate (pairs : list (Z * Z)) : Prop :=
  ∃ (i j : nat) p,
    i ≠ j ∧ pairs !! i = Some p ∧ pairs !! j = Some p ∧ p.1 ≠ -1.

(** The command [c] with another command type. *)
Definition with_type (t : CommandType) (c : Command) : Command :=
  {| command_type := t; arg1 := arg1 c; arg2 := arg2 c; arg3 := arg3 c;
     arg4 := arg4 c; arg5 := arg5 c; arg6 := arg6 c |}.

(** The checks the four *-multi commands share, up to the loop over the
    pairs, which they return. *)
Definition multi_checks (computation : NnetComputation) (c : Command)
  : outcome (list (Z * Z)) :=
  err_if ((arg1 c <? 1) || (vsize (submatrices computation) <=? arg1 c) ||
          size_t_ge (arg2 c) (vsize (indexes_multi computation)))
    "Index out of range in *-multi command";;
  pairs ← vec_at (indexes_multi computation) (arg2 c);
  s1 ← vec_at (submatrices computation) (arg1 c);
  err_if (negb (vsize pairs =? num_rows s1))
    "Indexes dimension mismatch in *-multi command";;
  check_indexes_multi computation c (num_cols s1) pairs;;
  Done pairs.

(** The column offsets and column ends of the views of matrix [m] among
    [views], in the order [ComputeSplitPoints] pushes them. *)
Definition view_points (m : Z) (views : list SubMatrixInfo) : list Z :=
  flat_map (λ s, if decide (matrix_index s = m)
                 then [col_offset s; int32_add (col_offset s) (num_cols s)]
                 else []) views.

(** The tables the partitioner indexes: a null view first; every other
    view in a matrix other than the null matrix; every matrix other than
    the null matrix with a view at least. *)
Definition views_in_matrices (computation : NnetComputation) : Prop :=
  ∃ s0 views,
    submatrices computation = s0 :: views ∧ num_rows s0 = 0 ∧
    1 ≤ vsize (matrices computation) ∧
    Forall (λ s, 1 ≤ matrix_index s < vsize (matrices computation)) views ∧
    ∀ m, 1 ≤ m < vsize (matrices computation) →
         ∃ s, s ∈ views ∧ matrix_index s = m.

(** The column end of the view, as the code computes it, is after its
    column offset. *)
Definition column_end_after_offset (s : SubMatrixInfo) : Prop :=
  col_offset s < int32_add (col_offset s) (num_cols s).

(** The column offset of the view is not negative, the view has a column
    at least, and its column end is an [int32]. *)
Definition columns_in_range (s : SubMatrixInfo) : Prop :=
  0 ≤ col_offset s ∧ 0 < num_cols s ∧
  col_offset s + num_cols s ≤ 2147483647.

(** The computations the partitioner is made for: the tables it indexes,
    with the columns of every view but the null view in range. *)
Definition views_well_formed (computation : NnetComputation) : Prop :=
  views_in_matrices computation ∧
  Forall columns_in_range (tail (submatrices computation)).

(** The variable range of a view is aligned with the split points of its
    matrix: the list has the column offset of the view at a position [i]
    and its column end at a later position [j], and the range is from [i]
    to [j], offset by the first variable of the matrix. *)
Definition view_aligned (split_points : list (list Z))
    (matrix_to_variable_index : list Z) (s : SubMatrixInfo) (range : Z * Z)
  : Prop :=
  ∃ split base (i j : nat),
    0 ≤ matrix_index s ∧
    split_points !! Z.to_nat (matrix_index s) = Some split ∧
    matrix_to_variable_index !! Z.to_nat (matrix_index s) = Some base ∧
    split !! i = Some (col_offset s) ∧
    split !! j = Some (int32_add (col_offset s) (num_cols s)) ∧
    (i < j)%nat ∧
    range = (base + Z.of_nat i, base + Z.of_nat j).

(** The view spans all the rows of its matrix. *)
Definition spans_rows (computation : NnetComputation) (s : SubMatrixInfo)
    (full : bool) : Prop :=
  ∃ mat, matrices computation !! Z.to_nat (matrix_index s) = Some mat ∧
         full = (row_offset s =? 0) && (num_rows s =? mat_num_rows mat).

(** Entry [i] of two tables that are filled together. *)
Definition lookup2 {A B} (st : list A * list B) (i : nat) : option (A * B) :=
  match st.1 !! i, st.2 !! i with
  | Some a, Some b => Some (a, b)
  | _, _ => None
  end.

(** What the partitioner leaves in [vars]: for every matrix but the null
    matrix, a strictly increasing list of two split points at least, which
    are the column offsets and column ends of its views, and a block of
    variables, one for each split point but the last, that follows the
    block of the matrix before; for every view but the null view, a
    non-empty variable range aligned with the split points of its
    matrix. *)
Definition partition_ok (computation : NnetComputation)
    (vars : ComputationVariables) : Prop :=
  (∀ m : nat, (1 ≤ m < length (matrices computation))%nat →
     ∃ split base,
       split_points_ vars !! m = Some split ∧
       StronglySorted Z.lt split ∧ 2 ≤ vsize split ∧
       (∀ x, x ∈ split ↔
             ∃ s, s ∈ tail (submatrices computation) ∧
                  matrix_index s = Z.of_nat m ∧
                  (x = col_offset s ∨
                   x = int32_add (col_offset s) (num_cols s))) ∧
       matrix_to_variable_index_ vars !! m = Some base ∧
       matrix_to_variable_index_ vars !! (m + 1)%nat
       = Some (base + (vsize split - 1))) ∧
  matrix_to_variable_index_ vars !! 1%nat = Some 0 ∧
  (∀ (n : nat) s, (1 ≤ n)%nat → submatrices computation !! n = Some s →
     ∃ range,
       variable_ranges_ vars !! n = Some range ∧
       range.1 < range.2 ∧
       view_aligned (split_points_ vars) (matrix_to_variable_index_ vars)
                    s range).

(** A matrix of 2 rows and 3 columns and a view of one column at the
    largest [int32] column offset: the column end wraps around. *)
Definition wrapped_view : NnetComputation :=
  {| matrices := [ {| mat_num_rows := 0; mat_num_cols := 0 |};
                   {| mat_num_rows := 2; mat_num_cols := 3 |} ];
     submatrices := [ view 0 0 0 0 0; view 1 0 2 2147483647 1 ];
     component_precomputed_indexes := [];
     indexes := []; indexes_multi := []; indexes_ranges := [];
     input_output_info := []; commands := [] |}.


(** ** Definitions used by the statements on the rest of the code *)

(** The accesses are in the order of the commands, one command at most
    once. *)
Definition chronological (l : list Access) : Prop :=
  StronglySorted (λ a b, command_index a < command_index b) l.

(** [r] is the least of the integers with [P], or -1 when there is
    none. *)
Definition least_or_none (P : Z → Prop) (r : Z) : Prop :=
  (r = -1 ∧ ∀ x, ¬ P x) ∨ (P r ∧ ∀ x, P x → r ≤ x).
(** Some variable of the range from [lo] to [hi] has an access that
    writes, by the command of index [z], which is after
    [command_index_]. *)
Definition written_after (a : Analyzer) (lo hi command_index_ z : Z) : Prop :=
  ∃ (v : nat) l x,
    lo ≤ Z.of_nat v < hi ∧ variable_accesses a !! v = Some l ∧ x ∈ l ∧
    access_type x ≠ kReadAccess ∧ command_index_ < command_index x ∧
    z = command_index x.

(** What the check for undefined variables rejects in the history of one
    variable, [m] being the record of the matrix of the variable: the
    matrix is not an input and the history is empty or starts with an
    access that is not a pure write. *)
Definition undefined_error (accesses : list Access) (m : MatrixAccesses)
  : Prop :=
  is_input m = false ∧
  (accesses = [] ∨
   ∃ x, head accesses = Some x ∧ access_type x ≠ kWriteAccess).

Section Runs.
Context `{ComponentProperties}.

(** The process state after the checks of [runs], one after the
    other. *)
Fixpoint Check_runs
    (runs : list (CheckComputationOptions * Nnet * NnetComputation))
    (p : Process) : Process :=
  match runs with
  | [] => p
  | (config, nnet, computation) :: rest =>
      Check_runs rest (Check config nnet computation p).2
  end.

End Runs.

(** The matrices and views of [in_place_program]; the program allocates
    matrix 1 without zeroing it, zeroes matrix 2 and adds it to matrix
    1. *)
Definition add_to_undefined_program : NnetComputation :=
  {| matrices := matrices in_place_program;
     submatrices := submatrices in_place_program;
     component_precomputed_indexes := [];
     indexes := []; indexes_multi := []; indexes_ranges := [];
     input_output_info := [];
     commands :=
       [ {| command_type := kAllocMatrixUndefined;
            arg1 := 1; arg2 := 0; arg3 := 0; arg4 := 0; arg5 := 0; arg6 := 0 |};
         {| command_type := kAllocMatrixZeroed;
            arg1 := 2; arg2 := 0; arg3 := 0; arg4 := 0; arg5 := 0; arg6 := 0 |};
         {| command_type := kMatrixAdd;
            arg1 := 1; arg2 := 2; arg3 := 0; arg4 := 0; arg5 := 0; arg6 := 0 |};
         plain_command kNoOperationMarker;
         {| command_type := kDeallocMatrix;
            arg1 := 1; arg2 := 0; arg3 := 0; arg4 := 0; arg5 := 0; arg6 := 0 |};
         {| command_type := kDeallocMatrix;
            arg1 := 2; arg2 := 0; arg3 := 0; arg4 := 0; arg5 := 0; arg6 := 0 |} ]
  |}.

(** The kind [t] of the access of a command to index [i], from the
    indexes the command reads and those it writes. *)
Definition access_of (read written : list Z) (i : Z) (t : AccessType) : Prop :=
  (i ∈ read ∧ i ∈ written ∧ t = kReadWriteAccess) ∨
  (i ∈ read ∧ (i ∉ written) ∧ t = kReadAccess) ∨
  ((i ∉ read) ∧ i ∈ written ∧ t = kWriteAccess).

(** [l] is the history of index [i] under the attributes [attrs] of the
    commands, [read] and [written] being the attribute lists the index is
    looked up in: the accesses are in the order of the commands, and they
    are one for every command that reads or writes [i], of the kind of
    what the command does to it. *)
Definition history_of (read written : CommandAttributes → list Z)
    (attrs : list CommandAttributes) (i : Z) (l : list Access) : Prop :=
  chronological l ∧
  ∀ x, x ∈ l ↔
       ∃ (c : nat) attr, attrs !! c = Some attr ∧
         command_index x = Z.of_nat c ∧
         access_of (read attr) (written attr) i (access_type x).

(** The command allocates matrix [n]. *)
Definition allocates (n : Z) (cmd : Command) : Prop :=
  (command_type cmd = kAllocMatrixZeroed ∨
   command_type cmd = kAllocMatrixUndefined) ∧ arg1 cmd = n.

(** The command deallocates matrix [n]. *)
Definition deallocates (n : Z) (cmd : Command) : Prop :=
  command_type cmd = kDeallocMatrix ∧ arg1 cmd = n.

(** [a] is the index of the only command of [cmds] with [P], or -1 when
    none has it. *)
Definition only_command (P : Command → Prop) (cmds : list Command) (a : Z)
  : Prop :=
  (a = -1 ∧ ∀ cmd, cmd ∈ cmds → ¬ P cmd) ∨
  (∃ (c : nat) cmd, a = Z.of_nat c ∧ cmds !! c = Some cmd ∧ P cmd ∧
     ∀ (c' : nat) cmd', cmds !! c' = Some cmd' → P cmd' → c' = c).

(** The entry of [input_output_info] makes matrix [n] an input of the
    computation: [n] is the value matrix of an input node, or the
    derivative matrix of another node. *)
Definition marks_input (nnet : Nnet) (n : Z) (entry : Z * (Z * Z)) : Prop :=
  (IsInputNode nnet entry.1 = true ∧ entry.2.1 = n) ∨
  (IsInputNode nnet entry.1 = false ∧ entry.2.2 ≠ 0 ∧ entry.2.2 = n).

(** The entry of [input_output_info] makes matrix [n] an output of the
    computation: [n] is the derivative matrix of an input node, or the
    value matrix of another node. *)
Definition marks_output (nnet : Nnet) (n : Z) (entry : Z * (Z * Z)) : Prop :=
  (IsInputNode nnet entry.1 = true ∧ entry.2.2 ≠ 0 ∧ entry.2.2 = n) ∨
  (IsInputNode nnet entry.1 = false ∧ entry.2.1 = n).

(** A network of two nodes without component: node 0 is an input and node
    1 an output. *)
Definition input_and_output_nodes : Nnet :=
  {| NumComponents := 0;
     GetComponent := λ _, AssertFail;
     NumNodes := 2;
     IsComponentNode := λ _, false;
     GetComponentForNode := λ _, AssertFail;
     IsInputNode := λ n, n =? 0;
     IsOutputNode := λ n, n =? 1 |}.

(** The matrices and views of [in_place_program]; matrix 1 is the value
    of the input node and matrix 2 that of the output node.  The program
    allocates matrix 2, copies matrix 1 to it and frees matrix 1. *)
Definition input_to_output_program : NnetComputation :=
  {| matrices := matrices in_place_program;
     submatrices := submatrices in_place_program;
     component_precomputed_indexes := [];
     indexes := []; indexes_multi := []; indexes_ranges := [];
     input_output_info := [(0, (1, 0)); (1, (2, 0))];
     commands :=
       [ {| command_type := kAllocMatrixUndefined;
            arg1 := 2; arg2 := 0; arg3 := 0; arg4 := 0; arg5 := 0; arg6 := 0 |};
         {| command_type := kMatrixCopy;
            arg1 := 2; arg2 := 1; arg3 := 0; arg4 := 0; arg5 := 0; arg6 := 0 |};
         plain_command kNoOperationMarker;
         {| command_type := kDeallocMatrix;
            arg1 := 1; arg2 := 0; arg3 := 0; arg4 := 0; arg5 := 0; arg6 := 0 |} ]
  |}.

(** The analyzer [Init] builds for [input_to_output_program]. *)
Definition input_to_output_analysis : Analyzer :=
  Eval vm_compute in
  match @Analyzer_Init kaldi_properties input_and_output_nodes
          input_to_output_program with
  | Done a => a
  | _ => histories []
  end.

(** The six lists of the attributes are strictly increasing. *)
Definition attributes_sorted (attr : CommandAttributes) : Prop :=
  StronglySorted Z.lt (variables_read attr) ∧
  StronglySorted Z.lt (variables_written attr) ∧
  StronglySorted Z.lt (submatrices_read attr) ∧
  StronglySorted Z.lt (submatrices_written attr) ∧
  StronglySorted Z.lt (matrices_read attr) ∧
  StronglySorted Z.lt (matrices_written attr).

(** The accesses are in the order of the commands and by commands of the
    computation. *)
Definition history_ok (computation : NnetComputation) (l : list Access)
  : Prop :=
  chronological l ∧
  Forall (λ x, 0 ≤ command_index x < vsize (commands computation)) l.

(** The commands that access nothing: allocation without zeroing,
    deallocation, no operation and the marker. *)
Definition accesses_nothing (t : CommandType) : Prop :=
  t = kAllocMatrixUndefined ∨ t = kDeallocMatrix ∨
  t = kNoOperation ∨ t = kNoOperationMarker.

(** The variables [Init] computes for [one_matrix]. *)
Definition one_matrix_variables : ComputationVariables :=
  Eval vm_compute in
  match ComputationVariables_Init (one_matrix []) ComputationVariables_new with
  | Done vars => vars
  | _ => ComputationVariables_new
  end.

(** Every variable the attributes list as read is a variable of a matrix
    they list as read, and the same for the variables and matrices
    written. *)
Definition attributes_consistent (vars : ComputationVariables)
    (attr : CommandAttributes) : Prop :=
  (∀ v, v ∈ variables_read attr →
        ∃ m, GetMatrixForVariable vars v = Done m ∧ m ∈ matrices_read attr) ∧
  (∀ v, v ∈ variables_written attr →
        ∃ m, GetMatrixForVariable vars v = Done m ∧
             m ∈ matrices_written attr).

(** The variables of the attributes are variables of [vars] and their
    matrices are matrices of the computation. *)
Definition attributes_in_range (computation : NnetComputation)
    (vars : ComputationVariables) (attr : CommandAttributes) : Prop :=
  (∀ v, v ∈ variables_read attr ++ variables_written attr →
        0 ≤ v < NumVariables vars) ∧
  (∀ m, m ∈ matrices_read attr ++ matrices_written attr →
        0 ≤ m < vsize (matrices computation)).

(** The ways the initialisation of the analyzer ends on a computation
    that passed the index check, when it does not succeed: a failed
    assertion, or the error of a matrix allocated or deallocated twice. *)
Definition init_failure {A} (o : outcome A) : Prop :=
  o = AssertFail ∨ o = Err "Matrix initialized twice." ∨
  o = Err "Matrix destroyed twice.".

(** The derivative matrices named by the input and output information
    are matrices of the computation. *)
Definition deriv_matrices_in_range (computation : NnetComputation) : Prop :=
  Forall (λ io : Z * (Z * Z),
            0 ≤ io.2.2 < vsize (matrices computation))
         (input_output_info computation).

(** [input_to_output_program] with matrix 7, which the computation does
    not have, as the derivative of the input. *)
Definition stray_derivative_program : NnetComputation :=
  {| matrices := matrices input_to_output_program;
     submatrices := submatrices input_to_output_program;
     component_precomputed_indexes := [];
     indexes := []; indexes_multi := []; indexes_ranges := [];
     input_output_info := [(0, (1, 7)); (1, (2, 0))];
     commands := commands input_to_output_program |}.

(** Two views of 2 rows and 3 columns of two matrices, with index lists
    and lists of row ranges. *)
Definition two_views (index_lists : list (list Z))
    (range_lists : list (list (Z * Z))) : NnetComputation :=
  {| matrices := matrices in_place_program;
     submatrices := submatrices in_place_program;
     component_precomputed_indexes := [];
     indexes := index_lists; indexes_multi := [];
     indexes_ranges := range_lists;
     input_output_info := []; commands := [] |}.

(** A command on view 1 and view 2 with the index list or the list of
    row ranges [n]. *)
Definition rows_command (t : CommandType) (n : Z) : Command :=
  {| command_type := t;
     arg1 := 1; arg2 := 2; arg3 := n; arg4 := 0; arg5 := 0; arg6 := 0 |}.

(** A matrix of 2 rows and 3 columns with a view of no rows and the view
    that is all of it, and an empty index list. *)
Definition empty_view_program : NnetComputation :=
  {| matrices := [ {| mat_num_rows := 0; mat_num_cols := 0 |};
                   {| mat_num_rows := 2; mat_num_cols := 3 |} ];
     submatrices := [ view 0 0 0 0 0; view 1 0 0 0 3; view 1 0 2 0 3 ];
     component_precomputed_indexes := [];
     indexes := [[]]; indexes_multi := []; indexes_ranges := [];
     input_output_info := []; commands := [] |}.

(** The matrices and views of [in_place_program], with one precomputed
    index. *)
Definition propagate_views : NnetComputation :=
  {| matrices := matrices in_place_program;
     submatrices := submatrices in_place_program;
     component_precomputed_indexes := [()];
     indexes := []; indexes_multi := []; indexes_ranges := [];
     input_output_info := []; commands := [] |}.

(** Propagate of component 0. *)
Definition propagate_command (precomputed input output : Z) : Command :=
  {| command_type := kPropagate;
     arg1 := 0; arg2 := precomputed; arg3 := input; arg4 := output;
     arg5 := 0; arg6 := 0 |}.

(** * Properties *)

(** ** Outcomes, vectors and loops *)

Lemma bind_Done {A B} (m : outcome A) (f : A → outcome B) (b : B) :
  m ≫= f = Done b ↔ ∃ a, m = Done a ∧ f a = Done b.
Proof.
  destruct m; simpl; split; try (intros [? [? ?]]); try discriminate; eauto.
  intros; simplify_eq; done.
Qed.

Lemma KALDI_ASSERT_Done (cond : bool) (u : unit) :
  KALDI_ASSERT cond = Done u ↔ cond = true.
Proof. destruct cond, u; simpl; split; intros; done. Qed.

Lemma vec_at_Done {A} (v : list A) (i : Z) (x : A) :
  vec_at v i = Done x ↔ 0 ≤ i ∧ v !! Z.to_nat i = Some x.
Proof.
  unfold vec_at. destruct (Z.ltb_spec i 0).
  - split; [done | lia].
  - destruct (v !! Z.to_nat i); split; intros; simplify_eq; try done.
    all: destruct_and?; simplify_eq; done.
Qed.

Lemma vec_at_lookup {A} (v : list A) (i : nat) (x : A) :
  v !! i = Some x → vec_at v (Z.of_nat i) = Done x.
Proof. intros. apply vec_at_Done. rewrite Nat2Z.id. split; [lia | done]. Qed.

Lemma vec_at_not_fatal {A} (v : list A) (i : Z) :
  vec_at v i = Undefined ∨ ∃ x, vec_at v i = Done x.
Proof.
  unfold vec_at. destruct (i <? 0); [by left |].
  destruct (v !! Z.to_nat i); eauto.
Qed.

Lemma vec_set_Done {A} (v : list A) (i : Z) (x : A) (v' : list A) :
  vec_set v i x = Done v' ↔
  0 ≤ i < vsize v ∧ v' = <[Z.to_nat i := x]> v.
Proof.
  unfold vec_set.
  destruct (Z.leb_spec 0 i), (Z.ltb_spec i (vsize v)); simpl;
    split; intros; destruct_and?; simplify_eq; try done; try lia.
Qed.

Lemma for_range_vec_at {A S} (pre l : list A) (body : S → Z → A → outcome S)
    (st : S) :
  for_range (vsize pre) (vsize (pre ++ l))
    (λ st i, x ← vec_at (pre ++ l) i; body st i x) st
  = for_indexed body (vsize pre) l st.
Proof.
  unfold for_range, vsize. revert pre st.
  induction l as [|x l IH]; intros pre st.
  - rewrite app_nil_r, seqZ_nil by lia. done.
  - rewrite seqZ_cons by (rewrite length_app; simpl; lia). simpl.
    rewrite (vec_at_lookup (pre ++ x :: l) (length pre) x)
      by (by rewrite list_lookup_middle).
    simpl. destruct (body st (Z.of_nat (length pre)) x) as [st'| | |]; try done.
    simpl. specialize (IH (pre ++ [x]) st').
    rewrite <- app_assoc in IH. simpl in IH.
    rewrite length_app in IH. simpl in IH.
    replace (Z.of_nat (length pre + 1)) with (Z.succ (Z.of_nat (length pre)))
      in IH by lia.
    replace (Z.pred (Z.of_nat (length (pre ++ x :: l)) - Z.of_nat (length pre)))
      with (Z.of_nat (length (pre ++ x :: l)) - Z.succ (Z.of_nat (length pre)))
      by lia.
    rewrite IH. f_equal. 
Qed.

Lemma for_range_vec_at_0 {A S} (v : list A) (body : S → Z → A → outcome S)
    (st : S) :
  for_range 0 (vsize v) (λ st i, x ← vec_at v i; body st i x) st
  = for_indexed body 0 v st.
Proof. apply (for_range_vec_at [] v). Qed.

Lemma for_range_vec_at_1 {A S} (x0 : A) (v : list A)
    (body : S → Z → A → outcome S) (st : S) :
  for_range 1 (vsize (x0 :: v)) (λ st i, x ← vec_at (x0 :: v) i; body st i x) st
  = for_indexed body 1 v st.
Proof. apply (for_range_vec_at [x0] v). Qed.

(** ** Tactics *)

(** Case analysis on a hypothesis made of conjunctions, disjunctions and
    existentials. *)
Ltac break_hyp H :=
  repeat match type of H with
         | _ ∧ _ => let H1 := fresh in destruct H as [H1 H]; try break_hyp H1
         | ∃ _, _ => destruct H as [? H]
         end;
  match type of H with
  | _ ∨ _ => destruct H as [H | H]; break_hyp H
  | _ => idtac
  end.

(** Proof search through conjunctions, disjunctions and existentials. *)
Ltac search :=
  first [ done | lia
        | split; [search | search]
        | left; search
        | right; search
        | eexists; search ].

(** Membership in lists that grow at their end. *)
Ltac solve_elem_of :=
  repeat intro; simpl in *;
  rewrite ?elem_of_app, ?list_elem_of_singleton in *; auto.

(** One step of a chain of checks that cannot end in the error [target]. *)
Ltac step_not target :=
  match goal with
  | |- context [err_if ?c ?msg] => destruct c; simpl; try discriminate
  | |- context [vec_at ?v ?i] =>
      destruct (vec_at_not_fatal v i) as [-> | [? ->]]; simpl; try discriminate
  | |- context [if negb ?c then _ else _] => destruct c; simpl; try discriminate
  | |- context [if ?c then _ else _] => destruct c; simpl; try discriminate
  end.

(** ** SortAndUniq and lower_bound *)

Lemma unique_elem_of (l : list Z) (x : Z) : x ∈ unique l ↔ x ∈ l.
Proof.
  induction l as [|a l IH]; [done |].
  cbn [unique]. destruct l as [|b l'].
  - done.
  - destruct (Z.eqb_spec a b) as [-> | Hne].
    + rewrite IH. rewrite !elem_of_cons. tauto.
    + rewrite (elem_of_cons (unique (b :: l'))), IH. by rewrite (elem_of_cons (b :: l')).
Qed.

Lemma unique_sorted (l : list Z) :
  StronglySorted Z.le l → StronglySorted Z.lt (unique l).
Proof.
  induction l as [|a l IH]; intros Hs; [constructor |].
  apply StronglySorted_inv in Hs as [Hs Hall]. specialize (IH Hs).
  cbn [unique]. destruct l as [|b l'].
  - constructor; constructor.
  - destruct (Z.eqb_spec a b) as [-> | Hne]; [done |].
    constructor; [done |].
    apply Forall_forall. intros x Hx.
    apply (proj1 (unique_elem_of _ _)) in Hx.
    rewrite Forall_forall in Hall.
    apply StronglySorted_inv in Hs as [_ Hb]. rewrite Forall_forall in Hb.
    assert (a ≤ b) by (apply Hall; left).
    apply elem_of_cons in Hx as [-> | Hx]; [lia |].
    specialize (Hb x Hx). lia.
Qed.

Lemma SortAndUniq_sorted (vec : list Z) : StronglySorted Z.lt (SortAndUniq vec).
Proof.
  unfold SortAndUniq. apply unique_sorted.
  apply StronglySorted_merge_sort; apply _.
Qed.

Lemma SortAndUniq_elem_of (vec : list Z) (x : Z) :
  x ∈ SortAndUniq vec ↔ x ∈ vec.
Proof.
  unfold SortAndUniq. rewrite unique_elem_of.
  by rewrite merge_sort_Permutation.
Qed.

Lemma sorted_lookup_lt (v : list Z) (i j : nat) (x y : Z) :
  StronglySorted Z.lt v → v !! i = Some x → v !! j = Some y →
  (i < j)%nat → x < y.
Proof.
  intros Hs. revert i j. induction Hs as [|a l Hs IH Hall]; intros i j Hi Hj Hij.
  - done.
  - destruct j as [|j]; [lia |]. simpl in Hj. destruct i as [|i]; simpl in Hi.
    + simplify_eq. rewrite Forall_forall in Hall. apply Hall.
      apply list_elem_of_lookup. eauto.
    + apply (IH i j); [done | done | lia].
Qed.

Lemma sorted_lookup_inj (v : list Z) (i j : nat) (x : Z) :
  StronglySorted Z.lt v → v !! i = Some x → v !! j = Some x → i = j.
Proof.
  intros Hs Hi Hj.
  destruct (Nat.lt_trichotomy i j) as [Hlt | [-> | Hlt]]; [| done |].
  - pose proof (sorted_lookup_lt v i j x x Hs Hi Hj Hlt). lia.
  - pose proof (sorted_lookup_lt v j i x x Hs Hj Hi Hlt). lia.
Qed.

(** The binary search leaves to the left of its result only elements
    less than [val], and to the right only elements not less. *)
Lemma lower_bound_loop_spec (v : list Z) (val : Z) (fuel first len : nat) :
  StronglySorted Z.lt v →
  (len ≤ fuel)%nat → (first + len ≤ length v)%nat →
  let r := lower_bound_loop fuel v first len val in
  (first ≤ r ≤ first + len)%nat ∧
  (∀ (k : nat) x, (first ≤ k < r)%nat → v !! k = Some x → x < val) ∧
  (∀ (k : nat) x, (r ≤ k < first + len)%nat → v !! k = Some x → val ≤ x).
Proof.
  intros Hs. revert first len.
  induction fuel as [|fuel IH]; intros first len Hfuel Hlen; simpl;
    cbv zeta in *.
  - assert (len = 0)%nat as -> by lia.
    split; [lia |]. split; intros; exfalso; lia.
  - case_bool_decide as Hpos; [| split; [lia |]; split; intros; lia].
    assert (Hh : (Nat.div2 len < len)%nat)
      by (apply Nat.lt_div2; lia).
    generalize dependent (Nat.div2 len). intros half Hh.
    destruct (lookup_lt_is_Some_2 v (first + half)) as [x Hx]; [lia |].
    rewrite Hx. destruct (Z.ltb_spec x val) as [Hlt | Hge].
    + destruct (IH (S (first + half)) (len - half - 1)%nat)
        as (Hr & Hleft & Hright); [lia | lia |].
      split; [lia |]. split.
      * intros k y Hk Hy.
        destruct (decide (k ≤ first + half)%nat) as [Hle |].
        -- destruct (decide (k = first + half)%nat) as [-> |];
             [by simplify_eq |].
           pose proof (sorted_lookup_lt v k (first + half) y x Hs Hy Hx).
           lia.
        -- apply (Hleft k y); [lia | done].
      * intros k y Hk Hy. apply (Hright k y); [lia | done].
    + destruct (IH first (half)) as (Hr & Hleft & Hright); [lia | lia |].
      split; [lia |]. split.
      * intros k y Hk Hy. apply (Hleft k y); [lia | done].
      * intros k y Hk Hy.
        destruct (decide (k < first + half)%nat) as [Hlt |].
        -- apply (Hright k y); [lia | done].
        -- destruct (decide (k = first + half)%nat) as [-> |];
             [by simplify_eq |].
           pose proof (sorted_lookup_lt v (first + half) k x y Hs Hx Hy).
           lia.
Qed.

(** On a strictly increasing vector the search for one of its elements,
    from a position not after it, ends on that element. *)
Lemma lower_bound_found (v : list Z) (first k : nat) (x : Z) :
  StronglySorted Z.lt v → v !! k = Some x → (first ≤ k)%nat →
  lower_bound v first x = k.
Proof.
  intros Hs Hk Hfirst. unfold lower_bound.
  pose proof (lookup_lt_Some _ _ _ Hk) as Hlen.
  destruct (lower_bound_loop_spec v x (length v - first) first
              (length v - first) Hs) as (Hr & Hleft & Hright); [lia | lia |].
  set (r := lower_bound_loop (length v - first) v first (length v - first) x)
    in *.
  destruct (Nat.lt_trichotomy r k) as [Hlt | [-> | Hgt]]; [| done |].
  - destruct (lookup_lt_is_Some_2 v r) as [y Hy]; [lia |].
    pose proof (Hright r y ltac:(lia) Hy).
    pose proof (sorted_lookup_lt v r k y x Hs Hy Hk Hlt). lia.
  - pose proof (Hleft k x ltac:(lia) Hk). lia.
Qed.

(** ** Loops that fill a table *)

Lemma for_indexed_fill {A St V} (get : St → nat → option V)
    (R : nat → A → V → Prop) (body : St → Z → A → outcome St) :
  (∀ st (i : nat) x st', body st (Z.of_nat i) x = Done st' →
     (∃ v, R i x v ∧ get st' i = Some v) ∧
     ∀ j, j ≠ i → get st' j = get st j) →
  ∀ l (k : nat) st st', for_indexed body (Z.of_nat k) l st = Done st' →
    (∀ (n : nat) x, l !! n = Some x →
                    ∃ v, R (k + n)%nat x v ∧ get st' (k + n)%nat = Some v) ∧
    (∀ j, (j < k)%nat → get st' j = get st j).
Proof.
  intros Hbody. induction l as [|x l IH]; intros k st st' Hloop; simpl in Hloop.
  - simplify_eq. split; [intros n x Hn; done | done].
  - apply bind_Done in Hloop as (st1 & Hstep & Hloop).
    destruct (Hbody st k x st1 Hstep) as ((v & Hv & Hget) & Hother).
    replace (Z.of_nat k + 1) with (Z.of_nat (S k)) in Hloop by lia.
    destruct (IH (S k) st1 st' Hloop) as (Hfilled & Hkept).
    split.
    + intros [|n] y Hn; simpl in Hn.
      * simplify_eq. exists v. rewrite Nat.add_0_r. split; [done |].
        rewrite Hkept by lia. done.
      * replace (k + S n)%nat with (S k + n)%nat by lia. by apply Hfilled.
    + intros j Hj. rewrite Hkept by lia. apply Hother. lia.
Qed.

Lemma for_indexed_total {A St} (Inv : St → Prop) (Q : nat → A → Prop)
    (body : St → Z → A → outcome St) :
  (∀ st (i : nat) x, Inv st → Q i x →
                     ∃ st', body st (Z.of_nat i) x = Done st' ∧ Inv st') →
  ∀ l (k : nat) st, Inv st →
    (∀ (n : nat) x, l !! n = Some x → Q (k + n)%nat x) →
    ∃ st', for_indexed body (Z.of_nat k) l st = Done st' ∧ Inv st'.
Proof.
  intros Hbody. induction l as [|x l IH]; intros k st Hinv HQ; simpl.
  - eauto.
  - destruct (Hbody st k x Hinv) as (st1 & -> & Hinv1).
    { specialize (HQ 0%nat x eq_refl). by rewrite Nat.add_0_r in HQ. }
    simpl. replace (Z.of_nat k + 1) with (Z.of_nat (S k)) by lia.
    apply IH; [done |]. intros n y Hn.
    replace (S k + n)%nat with (k + S n)%nat by lia. by apply HQ.
Qed.

(** ** ComputeSplitPoints *)

Lemma push_split_point_Done (sp : list (list Z)) (m x : Z) (sp' : list (list Z)) :
  push_split_point sp m x = Done sp' ↔
  0 ≤ m ∧ ∃ l, sp !! Z.to_nat m = Some l ∧ sp' = <[Z.to_nat m := l ++ [x]]> sp.
Proof.
  unfold push_split_point. rewrite bind_Done. split.
  - intros (l & Hl & Hset). apply vec_at_Done in Hl as [Hm Hl].
    apply vec_set_Done in Hset as [_ ->]. eauto.
  - intros (Hm & l & Hl & ->). exists l. split; [by apply vec_at_Done |].
    apply vec_set_Done. split; [| done].
    apply lookup_lt_Some in Hl. unfold vsize. lia.
Qed.

(** The first loop of [ComputeSplitPoints] appends to the list of every
    matrix the points of its views. *)
Lemma push_split_points_loop (views : list SubMatrixInfo) (k : Z)
    (sp sp' : list (list Z)) :
  for_indexed (λ (sp : list (list Z)) (_ : Z) (s : SubMatrixInfo),
      sp ← push_split_point sp (matrix_index s) (col_offset s);
      push_split_point sp (matrix_index s)
                       (int32_add (col_offset s) (num_cols s)))
    k views sp = Done sp' →
  Forall (λ s, 0 ≤ matrix_index s < vsize sp) views ∧
  length sp' = length sp ∧
  ∀ (m : nat) l, sp !! m = Some l →
                 sp' !! m = Some (l ++ view_points (Z.of_nat m) views).
Proof.
  revert k sp. induction views as [|s views IH]; intros k sp Hloop;
    simpl in Hloop.
  - simplify_eq. split; [constructor |]. split; [done |].
    intros m l Hl. by rewrite app_nil_r.
  - apply bind_Done in Hloop as (sp2 & Hstep & Hloop).
    apply bind_Done in Hstep as (sp1 & Hp1 & Hp2).
    apply push_split_point_Done in Hp1 as (Hm & l1 & Hl1 & ->).
    apply push_split_point_Done in Hp2 as (_ & l2 & Hl2 & ->).
    pose proof (lookup_lt_Some _ _ _ Hl1) as Hlt.
    rewrite list_lookup_insert_eq in Hl2 by done. simplify_eq.
    rewrite list_insert_insert_eq in Hloop.
    destruct (IH _ _ Hloop) as (Hall & Hlen & Hsp).
    rewrite length_insert in Hlen. unfold vsize in *.
    rewrite length_insert in Hall.
    split; [constructor; [lia | done] |]. split; [done |].
    intros m l Hl. unfold view_points. simpl.
    fold (view_points (Z.of_nat m) views).
    destruct (decide (matrix_index s = Z.of_nat m)) as [Heq | Hne].
    + assert (Hm' : Z.to_nat (matrix_index s) = m) by lia.
      rewrite Hm' in *. assert (l = l1) as -> by congruence.
      rewrite (Hsp m ((l1 ++ [col_offset s])
                      ++ [int32_add (col_offset s) (num_cols s)]))
        by (by rewrite list_lookup_insert_eq).
      by rewrite <- !app_assoc.
    + rewrite (Hsp m l); [done |].
      rewrite list_lookup_insert_ne by lia. done.
Qed.

Lemma push_split_points_total (views : list SubMatrixInfo) (k : Z)
    (sp : list (list Z)) :
  Forall (λ s, 0 ≤ matrix_index s < vsize sp) views →
  ∃ sp', for_indexed (λ (sp : list (list Z)) (_ : Z) (s : SubMatrixInfo),
      sp ← push_split_point sp (matrix_index s) (col_offset s);
      push_split_point sp (matrix_index s)
                       (int32_add (col_offset s) (num_cols s)))
    k views sp = Done sp'.
Proof.
  revert k sp. induction views as [|s views IH]; intros k sp Hall; simpl.
  - eauto.
  - apply Forall_cons in Hall as [Hs Hall]. unfold vsize in *.
    destruct (lookup_lt_is_Some_2 sp (Z.to_nat (matrix_index s))) as [l Hl];
      [lia |].
    rewrite (proj2 (push_split_point_Done sp (matrix_index s) (col_offset s)
                      (<[Z.to_nat (matrix_index s) := l ++ [col_offset s]]> sp)))
      by (split; [lia | eauto]).
    simpl.
    rewrite (proj2 (push_split_point_Done _ (matrix_index s)
                      (int32_add (col_offset s) (num_cols s)) _))
      by (split; [lia |]; eexists; split;
          [apply list_lookup_insert_eq; by eapply lookup_lt_Some | done]).
    simpl. apply IH. by rewrite !length_insert.
Qed.

(** The second loop sorts the list of every matrix it visits, which must
    have two points at least. *)
Lemma sort_split_points_loop (idxs : list Z) (sp sp' : list (list Z)) :
  NoDup idxs →
  for_each (λ (sp : list (list Z)) (matrix_index : Z),
      l ← vec_at sp matrix_index;
      let l := SortAndUniq l in
      KALDI_ASSERT (2 <=? vsize l);;
      vec_set sp matrix_index l)
    idxs sp = Done sp' →
  length sp' = length sp ∧
  ∀ (m : nat) l, sp !! m = Some l →
    (Z.of_nat m ∈ idxs →
     sp' !! m = Some (SortAndUniq l) ∧ 2 ≤ vsize (SortAndUniq l)) ∧
    (Z.of_nat m ∉ idxs → sp' !! m = Some l).
Proof.
  revert sp. induction idxs as [|i idxs IH]; intros sp Hnd Hloop;
    simpl in Hloop.
  - simplify_eq. split; [done |]. intros m l Hl. split; [| done].
    intros Hin. by apply elem_of_nil in Hin.
  - apply NoDup_cons in Hnd as [Hfresh Hnd].
    apply bind_Done in Hloop as (sp1 & Hstep & Hloop).
    apply bind_Done in Hstep as (li & Hli & Hstep).
    apply bind_Done in Hstep as ([] & Hassert & Hset).
    apply vec_at_Done in Hli as [Hi Hli].
    apply KALDI_ASSERT_Done, Z.leb_le in Hassert.
    apply vec_set_Done in Hset as [_ ->].
    destruct (IH _ Hnd Hloop) as (Hlen & Hsp).
    rewrite length_insert in Hlen. split; [done |].
    intros m l Hl. pose proof (lookup_lt_Some _ _ _ Hl) as Hlt.
    destruct (decide (Z.of_nat m = i)) as [<- | Hne].
    + rewrite Nat2Z.id in *. assert (li = l) as -> by congruence.
      split; [| intros Hn; destruct Hn; left].
      intros _. split; [| done].
      apply (Hsp m (SortAndUniq l)); [by rewrite list_lookup_insert_eq | done].
    + assert (Hl1 : <[Z.to_nat i := SortAndUniq li]> sp !! m = Some l)
        by (rewrite list_lookup_insert_ne by lia; done).
      destruct (Hsp m l Hl1) as [Hin Hout]. split.
      * intros Hm. apply Hin. apply elem_of_cons in Hm as [? | ?]; done.
      * intros Hm. apply Hout. intros ?. apply Hm. by right.
Qed.

Lemma sort_split_points_total (idxs : list Z) (sp : list (list Z)) :
  NoDup idxs →
  Forall (λ i, 0 ≤ i ∧ ∃ l, sp !! Z.to_nat i = Some l ∧
                            2 ≤ vsize (SortAndUniq l)) idxs →
  ∃ sp', for_each (λ (sp : list (list Z)) (matrix_index : Z),
      l ← vec_at sp matrix_index;
      let l := SortAndUniq l in
      KALDI_ASSERT (2 <=? vsize l);;
      vec_set sp matrix_index l)
    idxs sp = Done sp'.
Proof.
  revert sp. induction idxs as [|i idxs IH]; intros sp Hnd Hall; simpl.
  - eauto.
  - apply NoDup_cons in Hnd as [Hfresh Hnd].
    apply Forall_cons in Hall as [(Hi & l & Hl & Hsize) Hall].
    rewrite (proj2 (vec_at_Done sp i l)) by done. simpl.
    rewrite (proj2 (KALDI_ASSERT_Done _ ())) by (by apply Z.leb_le). simpl.
    pose proof (lookup_lt_Some _ _ _ Hl) as Hlt.
    rewrite (proj2 (vec_set_Done sp i (SortAndUniq l) _))
      by (split; [unfold vsize; lia | done]).
    simpl. apply IH; [done |].
    apply Forall_forall. intros j Hj. rewrite Forall_forall in Hall.
    destruct (Hall j Hj) as (Hj0 & lj & Hlj & Hsj). split; [done |].
    exists lj. split; [| done].
    rewrite list_lookup_insert_ne; [done |].
    intros Heq. apply Hfresh. assert (i = j) as -> by lia. done.
Qed.

(** The third loop gives every matrix the variables that follow those of
    the matrix before it, one for each split point but the last. *)
Lemma matrix_to_variable_index_loop (ls : list (list Z)) (k : nat)
    (mtv mtv' : list Z) :
  for_indexed (λ (mtv : list Z) (matrix_index : Z) (l : list Z),
      let num_variables := vsize l - 1 in
      KALDI_ASSERT (1 <=? num_variables);;
      base ← vec_at mtv matrix_index;
      vec_set mtv (matrix_index + 1) (base + num_variables))
    (Z.of_nat k) ls mtv = Done mtv' →
  length mtv' = length mtv ∧
  (∀ j, (j ≤ k)%nat → mtv' !! j = mtv !! j) ∧
  ∀ (i : nat) l, ls !! i = Some l →
    2 ≤ vsize l ∧
    ∃ base, mtv' !! (k + i)%nat = Some base ∧
            mtv' !! (k + i + 1)%nat = Some (base + (vsize l - 1)).
Proof.
  revert k mtv. induction ls as [|l ls IH]; intros k mtv Hloop; simpl in Hloop.
  - simplify_eq. split; [done |]. split; [done |]. intros i l Hl. done.
  - apply bind_Done in Hloop as (mtv1 & Hstep & Hloop).
    apply bind_Done in Hstep as ([] & Hassert & Hstep).
    apply bind_Done in Hstep as (base & Hbase & Hset).
    apply KALDI_ASSERT_Done, Z.leb_le in Hassert.
    apply vec_at_Done in Hbase as [_ Hbase]. rewrite Nat2Z.id in Hbase.
    apply vec_set_Done in Hset as [Hrange ->].
    replace (Z.to_nat (Z.of_nat k + 1)) with (S k) in Hloop by lia.
    replace (Z.of_nat k + 1) with (Z.of_nat (S k)) in Hloop by lia.
    destruct (IH (S k) _ Hloop) as (Hlen & Hkept & Hfilled).
    rewrite length_insert in Hlen. unfold vsize in Hrange.
    split; [done |]. split.
    + intros j Hj. rewrite Hkept by lia.
      rewrite list_lookup_insert_ne by lia. done.
    + intros [|i] l' Hl'; simpl in Hl'.
      * simplify_eq. split; [lia |]. exists base.
        rewrite Nat.add_0_r. rewrite !Hkept by lia.
        rewrite list_lookup_insert_ne by lia. split; [done |].
        rewrite Nat.add_1_r. rewrite list_lookup_insert_eq by lia. done.
      * replace (k + S i)%nat with (S k + i)%nat by lia. by apply Hfilled.
Qed.

Lemma matrix_to_variable_index_total (ls : list (list Z)) (k : nat)
    (mtv : list Z) :
  Forall (λ l, 2 ≤ vsize l) ls → (k + length ls < length mtv)%nat →
  ∃ mtv', for_indexed (λ (mtv : list Z) (matrix_index : Z) (l : list Z),
      let num_variables := vsize l - 1 in
      KALDI_ASSERT (1 <=? num_variables);;
      base ← vec_at mtv matrix_index;
      vec_set mtv (matrix_index + 1) (base + num_variables))
    (Z.of_nat k) ls mtv = Done mtv'.
Proof.
  revert k mtv. induction ls as [|l ls IH]; intros k mtv Hall Hlen; simpl.
  - eauto.
  - apply Forall_cons in Hall as [Hl Hall]. simpl in Hlen.
    rewrite (proj2 (KALDI_ASSERT_Done _ ())) by (apply Z.leb_le; lia). simpl.
    destruct (lookup_lt_is_Some_2 mtv k) as [base Hbase]; [lia |].
    rewrite (vec_at_lookup mtv k base Hbase). simpl.
    rewrite (proj2 (vec_set_Done mtv (Z.of_nat k + 1) _ _))
      by (split; [unfold vsize; lia | done]).
    simpl. replace (Z.of_nat k + 1) with (Z.of_nat (S k)) by lia.
    apply IH; [done |]. rewrite length_insert. lia.
Qed.

(** What [ComputeSplitPoints] leaves in the object when it returns. *)
Lemma ComputeSplitPoints_Done (computation : NnetComputation)
    (this v1 : ComputationVariables) :
  split_points_ this = [] →
  ComputeSplitPoints computation this = Done v1 →
  ∃ s0 views,
    submatrices computation = s0 :: views ∧
    Forall (λ s, 0 ≤ matrix_index s < vsize (matrices computation)) views ∧
    length (split_points_ v1) = length (matrices computation) ∧
    (∀ m : nat, (1 ≤ m < length (matrices computation))%nat →
       split_points_ v1 !! m
         = Some (SortAndUniq (view_points (Z.of_nat m) views)) ∧
       2 ≤ vsize (SortAndUniq (view_points (Z.of_nat m) views)) ∧
       ∃ base, matrix_to_variable_index_ v1 !! m = Some base ∧
               matrix_to_variable_index_ v1 !! (m + 1)%nat
               = Some (base + (vsize (SortAndUniq
                                        (view_points (Z.of_nat m) views)) - 1))) ∧
    split_points_ v1 !! 0%nat = Some (view_points 0 views) ∧
    matrix_to_variable_index_ v1 !! 0%nat = Some 0 ∧
    matrix_to_variable_index_ v1 !! 1%nat = Some 0 ∧
    variable_ranges_ v1 = variable_ranges_ this ∧
    full_column_range_ v1 = full_column_range_ this.
Proof.
  intros Hempty Hcsp. unfold ComputeSplitPoints in Hcsp. rewrite Hempty in Hcsp.
  apply bind_Done in Hcsp as (s0 & Hs0 & Hcsp).
  apply bind_Done in Hcsp as ([] & _ & Hcsp).
  apply bind_Done in Hcsp as (sp1 & Hloop1 & Hcsp).
  apply bind_Done in Hcsp as (sp2 & Hloop2 & Hcsp).
  apply bind_Done in Hcsp as (mtv0 & Hset0 & Hcsp).
  apply bind_Done in Hcsp as (mtv1 & Hset1 & Hcsp).
  apply bind_Done in Hcsp as (mtv2 & Hloop3 & Hcsp).
  apply bind_Done in Hcsp as (nv & _ & Hcsp).
  injection Hcsp as <-. simpl.
  apply vec_at_Done in Hs0 as [_ Hs0].
  destruct (submatrices computation) as [|s0' views] eqn:Hsub; [done |].
  simpl in Hs0. simplify_eq. exists s0, views. split; [done |].
  set (nm := length (matrices computation)) in *.
  assert (Hnm : vsize (matrices computation) = Z.of_nat nm) by done.
  clearbody nm.
  rewrite Hnm in *. rewrite Nat2Z.id in Hloop1.
  (* the first loop *)
  rewrite (for_range_vec_at_1 s0 views
             (λ (sp : list (list Z)) (_ : Z) (s : SubMatrixInfo),
                sp ← push_split_point sp (matrix_index s) (col_offset s);
                push_split_point sp (matrix_index s)
                                 (int32_add (col_offset s) (num_cols s)))) in Hloop1.
  apply push_split_points_loop in Hloop1 as (Hviews & Hlen1 & Hsp1).
  rewrite resize_nil in Hlen1, Hsp1, Hviews. rewrite length_replicate in Hlen1.
  unfold vsize in Hviews. rewrite length_replicate in Hviews.
  split; [done |].
  (* the second loop *)
  unfold for_range in Hloop2.
  apply sort_split_points_loop in Hloop2 as (Hlen2 & Hsp2);
    [| apply NoDup_seqZ].
  split; [lia |].
  (* the table of the first variables *)
  apply vec_set_Done in Hset0 as [Hr0 ->].
  apply vec_set_Done in Hset1 as [Hr1 ->].
  unfold vsize in Hr0, Hr1. rewrite length_insert in Hr1.
  rewrite length_resize in Hr0, Hr1.
  assert (Hpos : (1 ≤ nm)%nat) by lia.
  destruct sp2 as [|l0 ls] eqn:Hsp2eq; [simpl in Hlen2; lia |].
  replace (Z.of_nat nm) with (vsize (l0 :: ls)) in Hloop3
    by (unfold vsize; lia).
  rewrite (for_range_vec_at_1 l0 ls
             (λ (mtv : list Z) (matrix_index : Z) (l : list Z),
                let num_variables := vsize l - 1 in
                KALDI_ASSERT (1 <=? num_variables);;
                base ← vec_at mtv matrix_index;
                vec_set mtv (matrix_index + 1) (base + num_variables)))
    in Hloop3.
  apply (matrix_to_variable_index_loop ls 1) in Hloop3
    as (Hlen3 & Hkept & Hfilled).
  replace (Z.to_nat (vsize (l0 :: ls) + 1)) with (S nm) in Hlen3, Hkept
    by (unfold vsize; lia).
  change (Z.to_nat 0) with 0%nat in Hlen3, Hkept.
  change (Z.to_nat 1) with 1%nat in Hlen3, Hkept.
  assert (Hsorted : ∀ m : nat, (1 ≤ m < nm)%nat →
            (l0 :: ls) !! m
              = Some (SortAndUniq (view_points (Z.of_nat m) views)) ∧
            2 ≤ vsize (SortAndUniq (view_points (Z.of_nat m) views))).
  { intros m Hm.
    assert (Hin : Z.of_nat m ∈ seqZ 1 (Z.of_nat nm - 1))
      by (apply elem_of_seqZ; lia).
    assert (Hl1 : sp1 !! m = Some ([] ++ view_points (Z.of_nat m) views)).
    { apply Hsp1. apply lookup_replicate. split; [done | lia]. }
    destruct (Hsp2 m _ Hl1) as [Hyes _]. by apply Hyes. }
  split; [| split; [| split; [| split]]].
  - intros m Hm. destruct (Hsorted m Hm) as [Hl Hsize].
    split; [done |]. split; [done |].
    destruct m as [|m]; [lia |]. simpl in Hl.
    destruct (Hfilled m _ Hl) as (_ & base & Hb & Hb1).
    exists base. split; [done |].
    by replace (S m + 1)%nat with (1 + m + 1)%nat by lia.
  - assert (Hl1 : sp1 !! 0%nat = Some ([] ++ view_points 0 views)).
    { apply (Hsp1 0%nat). apply lookup_replicate. split; [done | lia]. }
    destruct (Hsp2 0%nat _ Hl1) as [_ Hno]. apply Hno.
    rewrite elem_of_seqZ. lia.
  - rewrite Hkept by lia. rewrite list_lookup_insert_ne by lia.
    rewrite list_lookup_insert_eq by (rewrite length_resize; lia). done.
  - rewrite Hkept by lia.
    rewrite list_lookup_insert_eq by (rewrite length_insert, length_resize; lia).
    done.
  - done.
Qed.

Lemma view_points_elem_of (m : Z) (views : list SubMatrixInfo) (x : Z) :
  x ∈ view_points m views ↔
  ∃ s, s ∈ views ∧ matrix_index s = m ∧
       (x = col_offset s ∨ x = int32_add (col_offset s) (num_cols s)).
Proof.
  unfold view_points. rewrite list_elem_of_In, in_flat_map. split.
  - intros (s & Hs & Hx). apply list_elem_of_In in Hs. exists s.
    destruct (decide (matrix_index s = m)); [| by destruct Hx].
    split; [done |]. split; [done |].
    destruct Hx as [<- | [<- | []]]; auto.
  - intros (s & Hs & Hm & Hx). exists s. split; [by apply list_elem_of_In |].
    rewrite decide_True by done. simpl. destruct Hx as [-> | ->]; auto.
Qed.

Lemma two_elements_length (l : list Z) (x y : Z) :
  x ∈ l → y ∈ l → x ≠ y → 2 ≤ vsize l.
Proof.
  intros Hx Hy Hne. unfold vsize.
  destruct l as [|a [|b l]]; simpl; [| | lia].
  - by apply elem_of_nil in Hx.
  - apply list_elem_of_singleton in Hx, Hy. congruence.
Qed.

(** A view whose column end is after its column offset gives its matrix
    two split points. *)
Lemma split_points_two (m : Z) (views : list SubMatrixInfo) (s : SubMatrixInfo) :
  s ∈ views → matrix_index s = m → column_end_after_offset s →
  2 ≤ vsize (SortAndUniq (view_points m views)).
Proof.
  intros Hs Hm Hcols. unfold column_end_after_offset in Hcols.
  apply (two_elements_length _ (col_offset s)
           (int32_add (col_offset s) (num_cols s)));
    [| | lia]; apply SortAndUniq_elem_of, view_points_elem_of; eauto.
Qed.

Lemma ComputeSplitPoints_total (computation : NnetComputation)
    (this : ComputationVariables) :
  split_points_ this = [] →
  views_in_matrices computation →
  Forall column_end_after_offset (tail (submatrices computation)) →
  ∃ v1, ComputeSplitPoints computation this = Done v1.
Proof.
  intros Hempty (s0 & views & Hsub & Hrows & Hnm & Hviews & Hcover) Hcols.
  rewrite Hsub in Hcols. simpl in Hcols.
  unfold ComputeSplitPoints. rewrite Hempty, Hsub.
  change (vec_at (s0 :: views) 0) with (Done s0).
  cbn [mbind outcome_bind]. rewrite Hrows. cbn [mbind outcome_bind Z.eqb KALDI_ASSERT].
  remember (length (matrices computation)) as nm eqn:Hnmdef.
  assert (Hsize : vsize (matrices computation) = Z.of_nat nm)
    by (unfold vsize; by rewrite Hnmdef).
  rewrite Hsize in *. rewrite Nat2Z.id. clear Hnmdef.
  (* the first loop *)
  rewrite (for_range_vec_at_1 s0 views
             (λ (sp : list (list Z)) (_ : Z) (s : SubMatrixInfo),
                sp ← push_split_point sp (matrix_index s) (col_offset s);
                push_split_point sp (matrix_index s)
                                 (int32_add (col_offset s) (num_cols s)))).
  destruct (push_split_points_total views 1 (resize nm [] [])) as [sp1 Hloop1].
  { eapply Forall_impl; [exact Hviews |]. simpl. intros s Hm.
    unfold vsize. rewrite length_resize. lia. }
  rewrite Hloop1. cbn [mbind outcome_bind].
  apply push_split_points_loop in Hloop1 as (_ & Hlen1 & Hsp1).
  rewrite resize_nil in Hlen1, Hsp1. rewrite length_replicate in Hlen1.
  (* the second loop *)
  unfold for_range at 2.
  destruct (sort_split_points_total (seqZ 1 (Z.of_nat nm - 1)) sp1)
    as [sp2 Hloop2]; [apply NoDup_seqZ | |].
  { apply Forall_forall. intros i Hi. apply elem_of_seqZ in Hi.
    split; [lia |].
    exists ([] ++ view_points (Z.of_nat (Z.to_nat i)) views). split.
    - apply Hsp1. apply lookup_replicate. split; [done | lia].
    - simpl. destruct (Hcover i) as (s & Hs & Hm); [lia |].
      rewrite Forall_forall in Hcols.
      apply (split_points_two _ views s); [done | lia | by apply Hcols]. }
  cbv zeta in Hloop2. rewrite Hloop2. cbn [mbind outcome_bind].
  apply sort_split_points_loop in Hloop2 as (Hlen2 & Hsp2); [| apply NoDup_seqZ].
  (* the table of the first variables *)
  set (mtv := resize (Z.to_nat (Z.of_nat nm + 1)) 0
                     (matrix_to_variable_index_ this)).
  assert (Hmtv : length mtv = S nm)
    by (unfold mtv; rewrite length_resize; lia).
  rewrite (proj2 (vec_set_Done mtv 0 0 _))
    by (split; [unfold vsize; lia | done]).
  cbn [mbind outcome_bind].
  rewrite (proj2 (vec_set_Done (<[Z.to_nat 0 := 0]> mtv) 1 0 _))
    by (split; [unfold vsize; rewrite length_insert; lia | done]).
  cbn [mbind outcome_bind].
  destruct sp2 as [|l0 ls]; [simpl in Hlen2; lia |].
  replace (Z.of_nat nm) with (vsize (l0 :: ls)) by (unfold vsize; lia).
  rewrite (for_range_vec_at_1 l0 ls
             (λ (mtv : list Z) (matrix_index : Z) (l : list Z),
                let num_variables := vsize l - 1 in
                KALDI_ASSERT (1 <=? num_variables);;
                base ← vec_at mtv matrix_index;
                vec_set mtv (matrix_index + 1) (base + num_variables))).
  destruct (matrix_to_variable_index_total ls 1
              (<[Z.to_nat 1 := 0]> (<[Z.to_nat 0 := 0]> mtv)))
    as [mtv2 Hloop3].
  { apply Forall_forall. intros l Hl.
    apply list_elem_of_lookup in Hl as [i Hi].
    assert (Hi1 : sp1 !! S i = Some ([] ++ view_points (Z.of_nat (S i)) views)).
    { apply Hsp1. apply lookup_replicate. split; [done |].
      apply lookup_lt_Some in Hi. simpl in Hlen2. lia. }
    destruct (Hsp2 (S i) _ Hi1) as [Hyes _].
    destruct Hyes as [Hl2 Hsz].
    { apply elem_of_seqZ. apply lookup_lt_Some in Hi. simpl in Hlen2. lia. }
    simpl in Hl2. by simplify_eq. }
  { rewrite !length_insert. simpl in Hlen2. lia. }
  change (Z.of_nat 1) with 1 in Hloop3.
  rewrite Hloop3. cbn [mbind outcome_bind].
  apply (matrix_to_variable_index_loop ls 1) in Hloop3 as (Hlen3 & _ & _).
  rewrite !length_insert in Hlen3.
  unfold vec_back. destruct (last mtv2) as [nv|] eqn:Hlast.
  - cbn [mbind outcome_bind]. eauto.
  - apply last_None in Hlast. subst mtv2. simpl in Hlen3. lia.
Qed.

(** ** ComputeVariableRanges *)

Lemma lookup2_insert {A B} (va : list A) (vb : list B) (i j : nat) (a : A) (b : B) :
  (i < length va)%nat → (i < length vb)%nat →
  lookup2 (<[i := a]> va, <[i := b]> vb) j
  = if decide (j = i) then Some (a, b) else lookup2 (va, vb) j.
Proof.
  intros Ha Hb. unfold lookup2. simpl. destruct (decide (j = i)) as [-> | Hne].
  - by rewrite !list_lookup_insert_eq.
  - by rewrite !list_lookup_insert_ne.
Qed.

(** One step of the loop of [ComputeVariableRanges]. *)
Lemma ComputeVariableRanges_step (computation : NnetComputation)
    (this : ComputationVariables) (st st' : list (Z * Z) * list bool) (i : nat)
    (s : SubMatrixInfo) :
  (let '(vr, fcr) := st in
   let matrix_index := matrix_index s in
   let start_dim := col_offset s in
   let end_dim := int32_add start_dim (num_cols s) in
   split ← vec_at (split_points_ this) matrix_index;
   let iter := lower_bound split 0 start_dim in
   x ← deref split iter;
   KALDI_ASSERT (x =? start_dim);;
   let start_split_point_index := Z.of_nat iter in
   let iter := lower_bound split iter end_dim in
   x ← deref split iter;
   KALDI_ASSERT (x =? end_dim);;
   let end_split_point_index := Z.of_nat iter in
   matrix_offset ← vec_at (matrix_to_variable_index_ this) matrix_index;
   let start_variable_index := matrix_offset + start_split_point_index in
   let end_variable_index := matrix_offset + end_split_point_index in
   KALDI_ASSERT (start_variable_index <? end_variable_index);;
   vr ← vec_set vr (Z.of_nat i) (start_variable_index, end_variable_index);
   mat ← vec_at (matrices computation) matrix_index;
   fcr ← vec_set fcr (Z.of_nat i)
                 ((row_offset s =? 0) && (num_rows s =? mat_num_rows mat));
   Done (vr, fcr)) = Done st' →
  (∃ v, (view_aligned (split_points_ this) (matrix_to_variable_index_ this)
                      s v.1 ∧
         spans_rows computation s v.2) ∧
        lookup2 st' i = Some v) ∧
  (∀ j, j ≠ i → lookup2 st' j = lookup2 st j) ∧
  length st'.1 = length st.1 ∧ length st'.2 = length st.2.
Proof.
  destruct st as [vr fcr]. cbv zeta. intros Hstep.
  apply bind_Done in Hstep as (split & Hsplit & Hstep).
  apply bind_Done in Hstep as (x & Hx & Hstep).
  apply bind_Done in Hstep as ([] & Hax & Hstep).
  apply bind_Done in Hstep as (y & Hy & Hstep).
  apply bind_Done in Hstep as ([] & Hay & Hstep).
  apply bind_Done in Hstep as (base & Hbase & Hstep).
  apply bind_Done in Hstep as ([] & Hlt & Hstep).
  apply bind_Done in Hstep as (vr' & Hvr & Hstep).
  apply bind_Done in Hstep as (mat & Hmat & Hstep).
  apply bind_Done in Hstep as (fcr' & Hfcr & Hstep).
  injection Hstep as <-.
  apply vec_at_Done in Hsplit as [Hm Hsplit].
  apply vec_at_Done in Hx as [_ Hx]. rewrite Nat2Z.id in Hx.
  apply vec_at_Done in Hy as [_ Hy]. rewrite Nat2Z.id in Hy.
  apply KALDI_ASSERT_Done, Z.eqb_eq in Hax, Hay. subst x y.
  apply KALDI_ASSERT_Done, Z.ltb_lt in Hlt.
  apply vec_at_Done in Hbase as [_ Hbase].
  apply vec_at_Done in Hmat as [_ Hmat].
  apply vec_set_Done in Hvr as [Hi ->].
  apply vec_set_Done in Hfcr as [Hi' ->].
  unfold vsize in Hi, Hi'. rewrite Nat2Z.id. simpl.
  rewrite !length_insert.
  split; [| split; [| done]].
  - eexists (_, _). simpl. split; [split |].
    + do 4 eexists. split; [exact Hm |]. split; [exact Hsplit |].
      split; [exact Hbase |]. split; [exact Hx |]. split; [exact Hy |].
      split; [lia | reflexivity].
    + exists mat. done.
    + rewrite lookup2_insert by lia. by rewrite decide_True.
  - intros j Hj. rewrite lookup2_insert by lia. by rewrite decide_False.
Qed.

(** What [ComputeVariableRanges] leaves in the object when it returns. *)
Lemma ComputeVariableRanges_Done (computation : NnetComputation)
    (v1 v2 : ComputationVariables) (s0 : SubMatrixInfo)
    (views : list SubMatrixInfo) :
  submatrices computation = s0 :: views →
  ComputeVariableRanges computation v1 = Done v2 →
  split_points_ v2 = split_points_ v1 ∧
  matrix_to_variable_index_ v2 = matrix_to_variable_index_ v1 ∧
  num_variables_ v2 = num_variables_ v1 ∧
  length (variable_ranges_ v2) = S (length views) ∧
  length (full_column_range_ v2) = S (length views) ∧
  variable_ranges_ v2 !! 0%nat = Some (0, 0) ∧
  ∀ (n : nat) s, views !! n = Some s →
    ∃ range full,
      variable_ranges_ v2 !! S n = Some range ∧
      full_column_range_ v2 !! S n = Some full ∧
      view_aligned (split_points_ v1) (matrix_to_variable_index_ v1) s range ∧
      spans_rows computation s full.
Proof.
  intros Hsub Hcvr. unfold ComputeVariableRanges in Hcvr. rewrite Hsub in Hcvr.
  apply bind_Done in Hcvr as (vr0 & Hvr0 & Hcvr).
  apply bind_Done in Hcvr as ([vr fcr] & Hloop & Hcvr).
  injection Hcvr as <-. simpl.
  apply vec_set_Done in Hvr0 as [_ ->].
  rewrite (for_range_vec_at_1 s0 views
             (λ (st : list (Z * Z) * list bool) (submatrix_index : Z)
                (s : SubMatrixInfo),
                let '(vr, fcr) := st in
                let matrix_index := matrix_index s in
                let start_dim := col_offset s in
                let end_dim := int32_add start_dim (num_cols s) in
                split ← vec_at (split_points_ v1) matrix_index;
                let iter := lower_bound split 0 start_dim in
                x ← deref split iter;
                KALDI_ASSERT (x =? start_dim);;
                let start_split_point_index := Z.of_nat iter in
                let iter := lower_bound split iter end_dim in
                x ← deref split iter;
                KALDI_ASSERT (x =? end_dim);;
                let end_split_point_index := Z.of_nat iter in
                matrix_offset ←
                  vec_at (matrix_to_variable_index_ v1) matrix_index;
                let start_variable_index :=
                  matrix_offset + start_split_point_index in
                let end_variable_index :=
                  matrix_offset + end_split_point_index in
                KALDI_ASSERT (start_variable_index <? end_variable_index);;
                vr ← vec_set vr submatrix_index
                             (start_variable_index, end_variable_index);
                mat ← vec_at (matrices computation) matrix_index;
                fcr ← vec_set fcr submatrix_index
                        ((row_offset s =? 0) &&
                         (num_rows s =? mat_num_rows mat));
                Done (vr, fcr))) in Hloop.
  set (body := λ (st : list (Z * Z) * list bool) (submatrix_index : Z)
                 (s : SubMatrixInfo), _) in Hloop.
  set (st0 := (<[Z.to_nat 0 := (0, 0)]>
                 (resize (Z.to_nat (vsize (s0 :: views))) (0, 0)
                         (variable_ranges_ v1)),
               resize (Z.to_nat (vsize (s0 :: views))) false
                      (full_column_range_ v1))) in Hloop.
  assert (Hlens : ∀ l (k : nat) st st',
            for_indexed body (Z.of_nat k) l st = Done st' →
            length st'.1 = length st.1 ∧ length st'.2 = length st.2).
  { induction l as [|x l IH]; intros k st st' Hl; simpl in Hl.
    - by simplify_eq.
    - apply bind_Done in Hl as (st1 & Hstep & Hl).
      apply ComputeVariableRanges_step in Hstep as (_ & _ & H1 & H2).
      replace (Z.of_nat k + 1) with (Z.of_nat (S k)) in Hl by lia.
      apply IH in Hl as [H1' H2']. split; congruence. }
  destruct (Hlens views 1%nat st0 (vr, fcr) Hloop) as [Hlen1 Hlen2].
  simpl in Hlen1, Hlen2.
  rewrite length_insert, length_resize in Hlen1.
  rewrite length_resize in Hlen2.
  unfold vsize in Hlen1, Hlen2. simpl length in Hlen1, Hlen2.
  rewrite Nat2Z.id in Hlen1, Hlen2.
  destruct (for_indexed_fill lookup2
              (λ (_ : nat) s v,
                 view_aligned (split_points_ v1) (matrix_to_variable_index_ v1)
                              s v.1 ∧
                 spans_rows computation s v.2)
              body) with (l := views) (k := 1%nat) (st := st0) (st' := (vr, fcr))
    as (Hfilled & Hkept).
  { intros st i x st' Hstep.
    apply ComputeVariableRanges_step in Hstep as (Hv & Hother & _). done. }
  { exact Hloop. }
  split; [done |]. split; [done |]. split; [done |].
  split; [done |]. split; [done |]. split.
  - specialize (Hkept 0%nat ltac:(lia)).
    assert (H0 : st0.1 !! 0%nat = Some (0, 0)).
    { unfold st0. simpl. apply list_lookup_insert_eq.
      rewrite length_resize. unfold vsize. simpl. lia. }
    destruct (lookup_lt_is_Some_2 st0.2 0%nat) as [f Hf].
    { unfold st0. simpl. rewrite length_resize. unfold vsize. simpl. lia. }
    unfold lookup2 in Hkept. rewrite H0, Hf in Hkept. simpl in Hkept.
    destruct (vr !! 0%nat) as [r0|], (fcr !! 0%nat) as [f0|];
      try discriminate.
    congruence.
  - intros n s Hn. destruct (Hfilled n s Hn) as ([range full] & [Hal Hrows] & Hl).
    unfold lookup2 in Hl. simpl in Hl.
    destruct (vr !! S n) as [r|] eqn:Hr, (fcr !! S n) as [f|] eqn:Hf;
      try discriminate.
    simplify_eq. exists range, full. done.
Qed.

(** On a sorted list of split points that has the two ends of the view,
    the step of [ComputeVariableRanges] for the view goes through. *)
Lemma ComputeVariableRanges_step_total (computation : NnetComputation)
    (this : ComputationVariables) (vr : list (Z * Z)) (fcr : list bool)
    (i : nat) (s : SubMatrixInfo) (split : list Z) (base : Z)
    (mat : MatrixInfo) :
  0 ≤ matrix_index s →
  split_points_ this !! Z.to_nat (matrix_index s) = Some split →
  StronglySorted Z.lt split →
  col_offset s ∈ split → int32_add (col_offset s) (num_cols s) ∈ split →
  column_end_after_offset s →
  matrix_to_variable_index_ this !! Z.to_nat (matrix_index s) = Some base →
  matrices computation !! Z.to_nat (matrix_index s) = Some mat →
  (i < length vr)%nat → (i < length fcr)%nat →
  ∃ st',
    (let matrix_index := matrix_index s in
     let start_dim := col_offset s in
     let end_dim := int32_add start_dim (num_cols s) in
     split ← vec_at (split_points_ this) matrix_index;
     let iter := lower_bound split 0 start_dim in
     x ← deref split iter;
     KALDI_ASSERT (x =? start_dim);;
     let start_split_point_index := Z.of_nat iter in
     let iter := lower_bound split iter end_dim in
     x ← deref split iter;
     KALDI_ASSERT (x =? end_dim);;
     let end_split_point_index := Z.of_nat iter in
     matrix_offset ← vec_at (matrix_to_variable_index_ this) matrix_index;
     let start_variable_index := matrix_offset + start_split_point_index in
     let end_variable_index := matrix_offset + end_split_point_index in
     KALDI_ASSERT (start_variable_index <? end_variable_index);;
     vr ← vec_set vr (Z.of_nat i) (start_variable_index, end_variable_index);
     mat ← vec_at (matrices computation) matrix_index;
     fcr ← vec_set fcr (Z.of_nat i)
                   ((row_offset s =? 0) && (num_rows s =? mat_num_rows mat));
     Done (vr, fcr)) = Done st' ∧
    length st'.1 = length vr ∧ length st'.2 = length fcr.
Proof.
  intros Hm Hsplit Hsorted Hstart Hend Hcols Hbase Hmat Hi Hi'. cbv zeta.
  unfold column_end_after_offset in Hcols.
  apply list_elem_of_lookup in Hstart as [a Ha].
  apply list_elem_of_lookup in Hend as [b Hb].
  assert (Hab : (a < b)%nat).
  { destruct (Nat.lt_trichotomy a b) as [? | [-> | Hgt]]; [done | |].
    - rewrite Ha in Hb. injection Hb as Hb. lia.
    - pose proof (sorted_lookup_lt split b a _ _ Hsorted Hb Ha Hgt). lia. }
  rewrite (proj2 (vec_at_Done _ (matrix_index s) split)) by done.
  cbn [mbind outcome_bind].
  rewrite (lower_bound_found split 0 a (col_offset s) Hsorted Ha) by lia.
  unfold deref. rewrite (vec_at_lookup split a _ Ha). cbn [mbind outcome_bind].
  rewrite Z.eqb_refl. cbn [mbind outcome_bind KALDI_ASSERT].
  rewrite (lower_bound_found split a b _ Hsorted Hb) by lia.
  rewrite (vec_at_lookup split b _ Hb). cbn [mbind outcome_bind].
  rewrite Z.eqb_refl. cbn [mbind outcome_bind KALDI_ASSERT].
  rewrite (proj2 (vec_at_Done _ (matrix_index s) base)) by done.
  cbn [mbind outcome_bind].
  replace (base + Z.of_nat a <? base + Z.of_nat b) with true
    by (symmetry; apply Z.ltb_lt; lia).
  cbn [mbind outcome_bind KALDI_ASSERT].
  rewrite (proj2 (vec_set_Done vr (Z.of_nat i) _ _))
    by (split; [unfold vsize; lia | done]).
  cbn [mbind outcome_bind].
  rewrite (proj2 (vec_at_Done _ (matrix_index s) mat)) by done.
  cbn [mbind outcome_bind].
  rewrite (proj2 (vec_set_Done fcr (Z.of_nat i) _ _))
    by (split; [unfold vsize; lia | done]).
  cbn [mbind outcome_bind]. eexists. split; [done |]. simpl.
  by rewrite !length_insert.
Qed.

Lemma ComputeVariableRanges_total (computation : NnetComputation)
    (v1 : ComputationVariables) (s0 : SubMatrixInfo)
    (views : list SubMatrixInfo) :
  submatrices computation = s0 :: views →
  Forall (λ s, 1 ≤ matrix_index s < vsize (matrices computation) ∧
               column_end_after_offset s) views →
  (∀ m : nat, (1 ≤ m < length (matrices computation))%nat →
     split_points_ v1 !! m
       = Some (SortAndUniq (view_points (Z.of_nat m) views)) ∧
     ∃ base, matrix_to_variable_index_ v1 !! m = Some base) →
  ∃ v2, ComputeVariableRanges computation v1 = Done v2.
Proof.
  intros Hsub Hviews Hsp. unfold ComputeVariableRanges. rewrite Hsub.
  rewrite (proj2 (vec_set_Done _ 0 (0, 0) _))
    by (split; [unfold vsize; rewrite length_resize; simpl; lia | done]).
  cbn [mbind outcome_bind].
  rewrite (for_range_vec_at_1 s0 views
             (λ (st : list (Z * Z) * list bool) (submatrix_index : Z)
                (s : SubMatrixInfo),
                let '(vr, fcr) := st in
                let matrix_index := matrix_index s in
                let start_dim := col_offset s in
                let end_dim := int32_add start_dim (num_cols s) in
                split ← vec_at (split_points_ v1) matrix_index;
                let iter := lower_bound split 0 start_dim in
                x ← deref split iter;
                KALDI_ASSERT (x =? start_dim);;
                let start_split_point_index := Z.of_nat iter in
                let iter := lower_bound split iter end_dim in
                x ← deref split iter;
                KALDI_ASSERT (x =? end_dim);;
                let end_split_point_index := Z.of_nat iter in
                matrix_offset ←
                  vec_at (matrix_to_variable_index_ v1) matrix_index;
                let start_variable_index :=
                  matrix_offset + start_split_point_index in
                let end_variable_index :=
                  matrix_offset + end_split_point_index in
                KALDI_ASSERT (start_variable_index <? end_variable_index);;
                vr ← vec_set vr submatrix_index
                             (start_variable_index, end_variable_index);
                mat ← vec_at (matrices computation) matrix_index;
                fcr ← vec_set fcr submatrix_index
                        ((row_offset s =? 0) &&
                         (num_rows s =? mat_num_rows mat));
                Done (vr, fcr))).
  set (body := λ (st : list (Z * Z) * list bool) (submatrix_index : Z)
                 (s : SubMatrixInfo), _).
  set (N := S (length views)).
  destruct (for_indexed_total
              (λ st : list (Z * Z) * list bool,
                 length st.1 = N ∧ length st.2 = N)
              (λ (i : nat) s, (i < N)%nat ∧ s ∈ views) body)
    with (l := views) (k := 1%nat)
         (st := (<[Z.to_nat 0 := (0, 0)]>
                   (resize (Z.to_nat (vsize (s0 :: views))) (0, 0)
                           (variable_ranges_ v1)),
                 resize (Z.to_nat (vsize (s0 :: views))) false
                        (full_column_range_ v1)))
    as ([vr fcr] & Hloop & _).
  - intros [vr fcr] i s [Hl1 Hl2] [Hi Hs]. simpl in Hl1, Hl2.
    rewrite Forall_forall in Hviews. destruct (Hviews s Hs) as [Hm Hcols].
    unfold vsize in Hm.
    destruct (Hsp (Z.to_nat (matrix_index s)) ltac:(lia)) as [Hsplit [base Hbase]].
    rewrite Z2Nat.id in Hsplit by lia.
    destruct (lookup_lt_is_Some_2 (matrices computation)
                (Z.to_nat (matrix_index s))) as [mat Hmat]; [lia |].
    destruct (ComputeVariableRanges_step_total computation v1 vr fcr i s
                _ base mat ltac:(lia) Hsplit) as (st' & Hstep & H1 & H2);
      try done; try lia.
    + apply SortAndUniq_sorted.
    + apply SortAndUniq_elem_of, view_points_elem_of. eauto.
    + apply SortAndUniq_elem_of, view_points_elem_of. eauto.
    + exists st'. split; [exact Hstep |]. simpl in H1, H2. split; congruence.
  - simpl. rewrite length_insert, !length_resize. unfold vsize, N. simpl. lia.
  - intros n s Hn. split.
    + apply lookup_lt_Some in Hn. unfold N. lia.
    + apply list_elem_of_lookup. eauto.
  - change (Z.of_nat 1) with 1 in Hloop. rewrite Hloop.
    cbn [mbind outcome_bind]. eauto.
Qed.

(** ** The partition into variables *)

Lemma partition_after_ranges (computation : NnetComputation)
    (this v1 v2 : ComputationVariables) :
  split_points_ this = [] →
  ComputeSplitPoints computation this = Done v1 →
  ComputeVariableRanges computation v1 = Done v2 →
  partition_ok computation v2.
Proof.
  intros Hempty Hcsp Hcvr.
  destruct (ComputeSplitPoints_Done computation this v1 Hempty Hcsp)
    as (s0 & views & Hsub & Hviews & Hlen & Hsp & _ & _ & Hmtv1 & _).
  destruct (ComputeVariableRanges_Done computation v1 v2 s0 views Hsub Hcvr)
    as (Hsp2 & Hmtv2 & _ & _ & _ & _ & Hranges).
  unfold partition_ok. rewrite Hsp2, Hmtv2, Hsub. simpl tail.
  split; [| split].
  - intros m Hm.
    destruct (Hsp m Hm) as (Hsplit & Hsize & base & Hbase & Hnext).
    exists (SortAndUniq (view_points (Z.of_nat m) views)), base.
    split; [done |]. split; [apply SortAndUniq_sorted |]. split; [done |].
    split; [| done].
    intros x. by rewrite SortAndUniq_elem_of, view_points_elem_of.
  - done.
  - intros [|n] s Hn Hs; [lia |]. simpl in Hs.
    destruct (Hranges n s Hs) as (range & full & Hr & _ & Hal & _).
    exists range. split; [done |]. split; [| done].
    destruct Hal as (split & base & i & j & _ & _ & _ & _ & _ & Hij & ->).
    simpl. lia.
Qed.

Lemma int32_add_in_range (a b : Z) :
  -2147483648 ≤ a + b ≤ 2147483647 → int32_add a b = a + b.
Proof.
  intros Hab. unfold int32_add. rewrite Z.mod_small by lia. lia.
Qed.

Lemma columns_in_range_after_offset (s : SubMatrixInfo) :
  columns_in_range s → column_end_after_offset s.
Proof.
  intros (Hoffset & Hcols & Hend). unfold column_end_after_offset.
  rewrite int32_add_in_range by lia. lia.
Qed.

Global Instance column_end_after_offset_dec (s : SubMatrixInfo) :
  Decision (column_end_after_offset s).
Proof. unfold column_end_after_offset. apply _. Defined.

Lemma partition_total (computation : NnetComputation)
    (this : ComputationVariables) :
  split_points_ this = [] →
  views_in_matrices computation →
  Forall column_end_after_offset (tail (submatrices computation)) →
  ∃ v1 v2, ComputeSplitPoints computation this = Done v1 ∧
           ComputeVariableRanges computation v1 = Done v2.
Proof.
  intros Hempty Hwf Hcols.
  destruct (ComputeSplitPoints_total computation this Hempty Hwf Hcols)
    as [v1 Hcsp].
  destruct (ComputeSplitPoints_Done computation this v1 Hempty Hcsp)
    as (s0 & views & Hsub & _ & _ & Hsp & _).
  destruct Hwf as (s0' & views' & Hsub' & _ & _ & Hviews & _).
  rewrite Hsub in Hsub'. injection Hsub' as <- <-.
  rewrite Hsub in Hcols. simpl in Hcols.
  destruct (ComputeVariableRanges_total computation v1 s0 views Hsub)
    as [v2 Hcvr].
  { rewrite Forall_forall in Hviews, Hcols. apply Forall_forall.
    intros s Hs. split; [by apply Hviews | by apply Hcols]. }
  { intros m Hm. destruct (Hsp m Hm) as (Hsplit & _ & base & Hbase & _). eauto. }
  eauto.
Qed.

(** ** The searches that miss *)

(** A search from the position of an element that is not less than the
    value stays at that position. *)
Lemma lower_bound_stays (v : list Z) (k : nat) (x val : Z) :
  StronglySorted Z.lt v → v !! k = Some x → val ≤ x →
  lower_bound v k val = k.
Proof.
  intros Hs Hk Hle. unfold lower_bound.
  pose proof (lookup_lt_Some _ _ _ Hk) as Hlen.
  destruct (lower_bound_loop_spec v val (length v - k) k (length v - k) Hs)
    as (Hr & Hleft & _); [lia | lia |].
  cbv zeta in Hr, Hleft.
  set (r := lower_bound_loop (length v - k) v k (length v - k) val) in *.
  clearbody r.
  destruct (decide (r = k)) as [-> | Hne]; [done |].
  pose proof (Hleft k x ltac:(lia) Hk). lia.
Qed.

(** The second loop of [ComputeSplitPoints] ends in [Done] or in a
    failed assertion. *)
Lemma sort_split_points_outcome (idxs : list Z) (sp : list (list Z)) :
  Forall (λ i, 0 ≤ i < vsize sp) idxs →
  (∃ sp', for_each (λ (sp : list (list Z)) (matrix_index : Z),
       l ← vec_at sp matrix_index;
       let l := SortAndUniq l in
       KALDI_ASSERT (2 <=? vsize l);;
       vec_set sp matrix_index l)
     idxs sp = Done sp') ∨
  for_each (λ (sp : list (list Z)) (matrix_index : Z),
      l ← vec_at sp matrix_index;
      let l := SortAndUniq l in
      KALDI_ASSERT (2 <=? vsize l);;
      vec_set sp matrix_index l)
    idxs sp = AssertFail.
Proof.
  revert sp. induction idxs as [|i idxs IH]; intros sp Hall; simpl.
  - left. eauto.
  - apply Forall_cons in Hall as [Hi Hall].
    destruct (lookup_lt_is_Some_2 sp (Z.to_nat i)) as [l Hl];
      [unfold vsize in Hi; lia |].
    rewrite (proj2 (vec_at_Done sp i l)) by (split; [lia | done]). simpl.
    destruct (2 <=? vsize (SortAndUniq l)); simpl; [| by right].
    rewrite (proj2 (vec_set_Done sp i (SortAndUniq l) _)) by done. simpl.
    apply IH. unfold vsize in *. by rewrite length_insert.
Qed.

(** On the tables it indexes, [ComputeSplitPoints] returns or fails an
    assertion. *)
Lemma ComputeSplitPoints_outcome (computation : NnetComputation)
    (this : ComputationVariables) :
  split_points_ this = [] →
  views_in_matrices computation →
  match ComputeSplitPoints computation this with
  | Done _ | AssertFail => True
  | _ => False
  end.
Proof.
  intros Hempty (s0 & views & Hsub & Hrows & Hnm & Hviews & Hcover).
  unfold ComputeSplitPoints. rewrite Hempty, Hsub.
  change (vec_at (s0 :: views) 0) with (Done s0).
  cbn [mbind outcome_bind]. rewrite Hrows.
  cbn [mbind outcome_bind Z.eqb KALDI_ASSERT].
  remember (length (matrices computation)) as nm eqn:Hnmdef.
  assert (Hsize : vsize (matrices computation) = Z.of_nat nm)
    by (unfold vsize; by rewrite Hnmdef).
  rewrite Hsize in *. rewrite Nat2Z.id. clear Hnmdef.
  (* the first loop *)
  rewrite (for_range_vec_at_1 s0 views
             (λ (sp : list (list Z)) (_ : Z) (s : SubMatrixInfo),
                sp ← push_split_point sp (matrix_index s) (col_offset s);
                push_split_point sp (matrix_index s)
                                 (int32_add (col_offset s) (num_cols s)))).
  destruct (push_split_points_total views 1 (resize nm [] [])) as [sp1 Hloop1].
  { eapply Forall_impl; [exact Hviews |]. simpl. intros s Hm.
    unfold vsize. rewrite length_resize. lia. }
  rewrite Hloop1. cbn [mbind outcome_bind].
  apply push_split_points_loop in Hloop1 as (_ & Hlen1 & Hsp1).
  rewrite resize_nil in Hlen1, Hsp1. rewrite length_replicate in Hlen1.
  (* the second loop *)
  unfold for_range at 2.
  destruct (sort_split_points_outcome (seqZ 1 (Z.of_nat nm - 1)) sp1)
    as [[sp2 Hloop2] | Hfail].
  { apply Forall_forall. intros i Hi. apply elem_of_seqZ in Hi.
    unfold vsize. lia. }
  2: { cbv zeta in Hfail. rewrite Hfail. done. }
  cbv zeta in Hloop2. rewrite Hloop2. cbn [mbind outcome_bind].
  apply sort_split_points_loop in Hloop2 as (Hlen2 & Hsp2); [| apply NoDup_seqZ].
  (* the table of the first variables *)
  set (mtv := resize (Z.to_nat (Z.of_nat nm + 1)) 0
                     (matrix_to_variable_index_ this)).
  assert (Hmtv : length mtv = S nm)
    by (unfold mtv; rewrite length_resize; lia).
  rewrite (proj2 (vec_set_Done mtv 0 0 _))
    by (split; [unfold vsize; lia | done]).
  cbn [mbind outcome_bind].
  rewrite (proj2 (vec_set_Done (<[Z.to_nat 0 := 0]> mtv) 1 0 _))
    by (split; [unfold vsize; rewrite length_insert; lia | done]).
  cbn [mbind outcome_bind].
  destruct sp2 as [|l0 ls]; [simpl in Hlen2; lia |].
  replace (Z.of_nat nm) with (vsize (l0 :: ls)) by (unfold vsize; lia).
  rewrite (for_range_vec_at_1 l0 ls
             (λ (mtv : list Z) (matrix_index : Z) (l : list Z),
                let num_variables := vsize l - 1 in
                KALDI_ASSERT (1 <=? num_variables);;
                base ← vec_at mtv matrix_index;
                vec_set mtv (matrix_index + 1) (base + num_variables))).
  destruct (matrix_to_variable_index_total ls 1
              (<[Z.to_nat 1 := 0]> (<[Z.to_nat 0 := 0]> mtv)))
    as [mtv2 Hloop3].
  { apply Forall_forall. intros l Hl.
    apply list_elem_of_lookup in Hl as [i Hi].
    assert (Hi1 : sp1 !! S i = Some ([] ++ view_points (Z.of_nat (S i)) views)).
    { apply Hsp1. apply lookup_replicate. split; [done |].
      apply lookup_lt_Some in Hi. simpl in Hlen2. lia. }
    destruct (Hsp2 (S i) _ Hi1) as [Hyes _].
    destruct Hyes as [Hl2 Hsz].
    { apply elem_of_seqZ. apply lookup_lt_Some in Hi. simpl in Hlen2. lia. }
    simpl in Hl2. by simplify_eq. }
  { rewrite !length_insert. simpl in Hlen2. lia. }
  change (Z.of_nat 1) with 1 in Hloop3.
  rewrite Hloop3. cbn [mbind outcome_bind].
  apply (matrix_to_variable_index_loop ls 1) in Hloop3 as (Hlen3 & _ & _).
  rewrite !length_insert in Hlen3.
  unfold vec_back. destruct (last mtv2) as [nv|] eqn:Hlast.
  - cbn [mbind outcome_bind]. done.
  - apply last_None in Hlast. subst mtv2. simpl in Hlen3. lia.
Qed.

(** For a view whose column end is not after its column offset, the
    second search stays at the column offset, and the step of
    [ComputeVariableRanges] fails an assertion: that the element found is
    the column end, or that the range is not empty. *)
Lemma ComputeVariableRanges_step_miss (computation : NnetComputation)
    (this : ComputationVariables) (vr : list (Z * Z)) (fcr : list bool)
    (i : nat) (s : SubMatrixInfo) (split : list Z) (base : Z) :
  0 ≤ matrix_index s →
  split_points_ this !! Z.to_nat (matrix_index s) = Some split →
  StronglySorted Z.lt split →
  col_offset s ∈ split →
  ¬ column_end_after_offset s →
  matrix_to_variable_index_ this !! Z.to_nat (matrix_index s) = Some base →
  (let matrix_index := matrix_index s in
   let start_dim := col_offset s in
   let end_dim := int32_add start_dim (num_cols s) in
   split ← vec_at (split_points_ this) matrix_index;
   let iter := lower_bound split 0 start_dim in
   x ← deref split iter;
   KALDI_ASSERT (x =? start_dim);;
   let start_split_point_index := Z.of_nat iter in
   let iter := lower_bound split iter end_dim in
   x ← deref split iter;
   KALDI_ASSERT (x =? end_dim);;
   let end_split_point_index := Z.of_nat iter in
   matrix_offset ← vec_at (matrix_to_variable_index_ this) matrix_index;
   let start_variable_index := matrix_offset + start_split_point_index in
   let end_variable_index := matrix_offset + end_split_point_index in
   KALDI_ASSERT (start_variable_index <? end_variable_index);;
   vr ← vec_set vr (Z.of_nat i) (start_variable_index, end_variable_index);
   mat ← vec_at (matrices computation) matrix_index;
   fcr ← vec_set fcr (Z.of_nat i)
                 ((row_offset s =? 0) && (num_rows s =? mat_num_rows mat));
   Done (vr, fcr)) = AssertFail.
Proof.
  intros Hm Hsplit Hsorted Hstart Hcols Hbase. cbv zeta.
  unfold column_end_after_offset in Hcols.
  apply list_elem_of_lookup in Hstart as [a Ha].
  rewrite (proj2 (vec_at_Done _ (matrix_index s) split)) by done.
  cbn [mbind outcome_bind].
  rewrite (lower_bound_found split 0 a (col_offset s) Hsorted Ha) by lia.
  unfold deref. rewrite (vec_at_lookup split a _ Ha). cbn [mbind outcome_bind].
  rewrite Z.eqb_refl. cbn [mbind outcome_bind KALDI_ASSERT].
  rewrite (lower_bound_stays split a (col_offset s) _ Hsorted Ha) by lia.
  rewrite (vec_at_lookup split a _ Ha). cbn [mbind outcome_bind].
  destruct (Z.eqb_spec (col_offset s) (int32_add (col_offset s) (num_cols s)));
    cbn [mbind outcome_bind KALDI_ASSERT]; [| done].
  rewrite (proj2 (vec_at_Done _ (matrix_index s) base)) by done.
  cbn [mbind outcome_bind]. by rewrite Z.ltb_irrefl.
Qed.

(** A loop whose body fails an assertion on the bad elements and goes
    through on the others fails an assertion when it has a bad element. *)
Lemma for_indexed_assert {A St} (Inv : St → Prop) (Q : nat → A → Prop)
    (Bad : A → Prop) `{!∀ x, Decision (Bad x)}
    (body : St → Z → A → outcome St) :
  (∀ st (i : nat) x, Inv st → Q i x →
     (¬ Bad x → ∃ st', body st (Z.of_nat i) x = Done st' ∧ Inv st') ∧
     (Bad x → body st (Z.of_nat i) x = AssertFail)) →
  ∀ l (k : nat) st, Inv st →
    (∀ (n : nat) x, l !! n = Some x → Q (k + n)%nat x) →
    Exists Bad l →
    for_indexed body (Z.of_nat k) l st = AssertFail.
Proof.
  intros Hbody. induction l as [|x l IH]; intros k st Hinv HQ Hbad; simpl.
  - by apply Exists_nil in Hbad.
  - assert (Hx : Q k x).
    { specialize (HQ 0%nat x eq_refl). by rewrite Nat.add_0_r in HQ. }
    destruct (Hbody st k x Hinv Hx) as [Hgood Hfail].
    destruct (decide (Bad x)) as [Hb | Hnb].
    + by rewrite (Hfail Hb).
    + destruct (Hgood Hnb) as (st1 & -> & Hinv1). simpl.
      replace (Z.of_nat k + 1) with (Z.of_nat (S k)) by lia.
      apply IH; [done | |].
      * intros n y Hn.
        replace (S k + n)%nat with (k + S n)%nat by lia. by apply HQ.
      * apply Exists_cons in Hbad as [? | ?]; done.
Qed.

Lemma ComputeVariableRanges_miss (computation : NnetComputation)
    (v1 : ComputationVariables) (s0 : SubMatrixInfo)
    (views : list SubMatrixInfo) :
  submatrices computation = s0 :: views →
  Forall (λ s, 1 ≤ matrix_index s < vsize (matrices computation)) views →
  (∀ m : nat, (1 ≤ m < length (matrices computation))%nat →
     split_points_ v1 !! m
       = Some (SortAndUniq (view_points (Z.of_nat m) views)) ∧
     ∃ base, matrix_to_variable_index_ v1 !! m = Some base) →
  ¬ Forall column_end_after_offset views →
  ComputeVariableRanges computation v1 = AssertFail.
Proof.
  intros Hsub Hviews Hsp Hbad. unfold ComputeVariableRanges. rewrite Hsub.
  rewrite (proj2 (vec_set_Done _ 0 (0, 0) _))
    by (split; [unfold vsize; rewrite length_resize; simpl; lia | done]).
  cbn [mbind outcome_bind].
  rewrite (for_range_vec_at_1 s0 views
             (λ (st : list (Z * Z) * list bool) (submatrix_index : Z)
                (s : SubMatrixInfo),
                let '(vr, fcr) := st in
                let matrix_index := matrix_index s in
                let start_dim := col_offset s in
                let end_dim := int32_add start_dim (num_cols s) in
                split ← vec_at (split_points_ v1) matrix_index;
                let iter := lower_bound split 0 start_dim in
                x ← deref split iter;
                KALDI_ASSERT (x =? start_dim);;
                let start_split_point_index := Z.of_nat iter in
                let iter := lower_bound split iter end_dim in
                x ← deref split iter;
                KALDI_ASSERT (x =? end_dim);;
                let end_split_point_index := Z.of_nat iter in
                matrix_offset ←
                  vec_at (matrix_to_variable_index_ v1) matrix_index;
                let start_variable_index :=
                  matrix_offset + start_split_point_index in
                let end_variable_index :=
                  matrix_offset + end_split_point_index in
                KALDI_ASSERT (start_variable_index <? end_variable_index);;
                vr ← vec_set vr submatrix_index
                             (start_variable_index, end_variable_index);
                mat ← vec_at (matrices computation) matrix_index;
                fcr ← vec_set fcr submatrix_index
                        ((row_offset s =? 0) &&
                         (num_rows s =? mat_num_rows mat));
                Done (vr, fcr))).
  set (body := λ (st : list (Z * Z) * list bool) (submatrix_index : Z)
                 (s : SubMatrixInfo), _).
  set (N := S (length views)).
  rewrite (for_indexed_assert
             (λ st : list (Z * Z) * list bool,
                length st.1 = N ∧ length st.2 = N)
             (λ (i : nat) s, (i < N)%nat ∧ s ∈ views)
             (λ s, ¬ column_end_after_offset s) body) with (k := 1%nat);
    [done | | | |].
  - intros [vr fcr] i s [Hl1 Hl2] [Hi Hs]. simpl in Hl1, Hl2.
    rewrite Forall_forall in Hviews. pose proof (Hviews s Hs) as Hm.
    unfold vsize in Hm.
    destruct (Hsp (Z.to_nat (matrix_index s)) ltac:(lia))
      as [Hsplit [base Hbase]].
    rewrite Z2Nat.id in Hsplit by lia.
    assert (Hstart : col_offset s
                     ∈ SortAndUniq (view_points (matrix_index s) views))
      by (apply SortAndUniq_elem_of, view_points_elem_of; eauto).
    split.
    + intros Hgood. apply dec_stable in Hgood.
      destruct (lookup_lt_is_Some_2 (matrices computation)
                  (Z.to_nat (matrix_index s))) as [mat Hmat]; [lia |].
      destruct (ComputeVariableRanges_step_total computation v1 vr fcr i s
                  _ base mat ltac:(lia) Hsplit) as (st' & Hstep & H1 & H2);
        try done; try lia.
      * apply SortAndUniq_sorted.
      * apply SortAndUniq_elem_of, view_points_elem_of. eauto.
      * exists st'. split; [exact Hstep |]. simpl in H1, H2.
        split; congruence.
    + intros Hmiss.
      apply (ComputeVariableRanges_step_miss computation v1 vr fcr i s _ base
               ltac:(lia) Hsplit);
        [apply SortAndUniq_sorted | done | done | done].
  - simpl. rewrite length_insert, !length_resize. unfold vsize, N. simpl. lia.
  - intros n s Hn. split.
    + apply lookup_lt_Some in Hn. unfold N. lia.
    + apply list_elem_of_lookup. eauto.
  - by apply not_Forall_Exists; [apply _ |].
Qed.

(** On the tables it indexes, the partitioner fails an assertion when
    the column end of a view is not after its column offset. *)
Lemma partition_miss (computation : NnetComputation)
    (this : ComputationVariables) :
  split_points_ this = [] →
  views_in_matrices computation →
  ¬ Forall column_end_after_offset (tail (submatrices computation)) →
  ComputeSplitPoints computation this ≫= ComputeVariableRanges computation
  = AssertFail.
Proof.
  intros Hempty Hwf Hbad.
  pose proof (ComputeSplitPoints_outcome computation this Hempty Hwf) as Hout.
  destruct (ComputeSplitPoints computation this) as [v1| | |] eqn:Hcsp;
    [| done | done | done].
  simpl.
  destruct (ComputeSplitPoints_Done computation this v1 Hempty Hcsp)
    as (s0 & views & Hsub & _ & _ & Hsp & _).
  destruct Hwf as (s0' & views' & Hsub' & _ & _ & Hviews & _).
  rewrite Hsub in Hsub'. injection Hsub' as <- <-.
  rewrite Hsub in Hbad. simpl in Hbad.
  apply (ComputeVariableRanges_miss computation v1 s0 views Hsub Hviews);
    [| done].
  intros m Hm. destruct (Hsp m Hm) as (Hsplit & _ & base & Hbase & _). eauto.
Qed.

(** C1. Whenever the partitioner returns, every matrix but the null
    matrix has a sorted, deduplicated list of two boundary points at
    least, hence a variable at least, and every view but the null view has
    both its column offset and its column end among the boundary points of
    its matrix, found by the two binary searches, the column end after the
    column offset; the variable range of the view, offset by the first
    variable of the matrix, is not empty and is a run of whole variables.
    On the tables it indexes, the partitioner returns when the column end
    of every view, as the 32-bit sum gives it, is after the column offset
    of the view, and fails an assertion otherwise: the search for the
    column end then stays at the column offset.  So it returns on every
    well-formed table of views, whose column ends are in range. *)
Theorem partition_into_variables (computation : NnetComputation)
    (this : ComputationVariables) :
  split_points_ this = [] →
  (∀ v1 v2, ComputeSplitPoints computation this = Done v1 →
            ComputeVariableRanges computation v1 = Done v2 →
            partition_ok computation v2) ∧
  (views_in_matrices computation →
   (Forall column_end_after_offset (tail (submatrices computation)) →
    ∃ v1 v2, ComputeSplitPoints computation this = Done v1 ∧
             ComputeVariableRanges computation v1 = Done v2 ∧
             partition_ok computation v2) ∧
   (¬ Forall column_end_after_offset (tail (submatrices computation)) →
    ComputeSplitPoints computation this
      ≫= ComputeVariableRanges computation
    = AssertFail)) ∧
  (views_well_formed computation →
   ∃ v1 v2, ComputeSplitPoints computation this = Done v1 ∧
            ComputeVariableRanges computation v1 = Done v2 ∧
            partition_ok computation v2).
Proof.
  intros Hempty.
  assert (Hreturns : views_in_matrices computation →
            Forall column_end_after_offset (tail (submatrices computation)) →
            ∃ v1 v2, ComputeSplitPoints computation this = Done v1 ∧
                     ComputeVariableRanges computation v1 = Done v2 ∧
                     partition_ok computation v2).
  { intros Hwf Hcols.
    destruct (partition_total computation this Hempty Hwf Hcols)
      as (v1 & v2 & Hcsp & Hcvr).
    exists v1, v2. split; [done |]. split; [done |].
    by eapply partition_after_ranges. }
  split; [| split].
  - intros v1 v2. by apply partition_after_ranges.
  - intros Hwf. split; [by apply Hreturns |].
    by apply partition_miss.
  - intros [Hwf Hcols]. apply Hreturns; [done |].
    eapply Forall_impl; [exact Hcols |].
    apply columns_in_range_after_offset.
Qed.

Example ComputationVariables_Init_overlapping_views :
  ComputationVariables_Init (overlapping_views [] [] [])
                            ComputationVariables_new
  = Done overlapping_variables.
Proof. vm_compute. reflexivity. Qed.

(** Views that leave columns 2-4 of a matrix uncovered: the search for
    the partition goes through, and the assertion that every variable has
    a matrix fails afterwards. *)
Example ComputationVariables_Init_uncovered_columns :
  ComputationVariables_Init
    {| matrices := [ {| mat_num_rows := 0; mat_num_cols := 0 |};
                     {| mat_num_rows := 2; mat_num_cols := 8 |} ];
       submatrices := [ view 0 0 0 0 0; view 1 0 2 0 2; view 1 0 2 5 3 ];
       component_precomputed_indexes := [];
       indexes := []; indexes_multi := []; indexes_ranges := [];
       input_output_info := []; commands := [] |}
    ComputationVariables_new
  = AssertFail.
Proof. vm_compute. reflexivity. Qed.

(** The column end of the view of [wrapped_view] wraps around to the
    least [int32]: the split points of the matrix are the two ends, in
    the other order, and the search for the column end stays at the
    column offset. *)
Example ComputeSplitPoints_wrapped_view :
  (v1 ← ComputeSplitPoints wrapped_view ComputationVariables_new;
   Done (split_points_ v1))
  = Done [[]; [-2147483648; 2147483647]].
Proof. vm_compute. reflexivity. Qed.

Example ComputationVariables_Init_wrapped_view :
  ComputationVariables_Init wrapped_view ComputationVariables_new
  = AssertFail.
Proof. vm_compute. reflexivity. Qed.

Lemma partition_into_variables_witness :
  split_points_ ComputationVariables_new = [] ∧
  views_well_formed (overlapping_views [] [] []) ∧
  (∃ v1 v2,
     ComputeSplitPoints (overlapping_views [] [] []) ComputationVariables_new
       = Done v1 ∧
     ComputeVariableRanges (overlapping_views [] [] []) v1 = Done v2 ∧
     partition_ok (overlapping_views [] [] []) v2) ∧
  views_in_matrices wrapped_view ∧
  ¬ Forall column_end_after_offset (tail (submatrices wrapped_view)) ∧
  ComputeSplitPoints wrapped_view ComputationVariables_new
    ≫= ComputeVariableRanges wrapped_view
  = AssertFail.
Proof.
  assert (Hwf : views_well_formed (overlapping_views [] [] [])).
  { split.
    - exists (view 0 0 0 0 0),
        [view 1 0 2 0 2; view 1 0 2 2 3; view 1 0 2 0 5; view 2 1 2 0 3].
      split; [reflexivity |]. split; [reflexivity |].
      split; [unfold vsize; simpl; lia |]. split.
      + repeat constructor; unfold vsize; simpl; lia.
      + unfold vsize. simpl. intros m Hm.
        assert (m = 1 ∨ m = 2) as [-> | ->] by lia.
        * exists (view 1 0 2 0 2). split; [left | reflexivity].
        * exists (view 2 1 2 0 3). split; [| reflexivity].
          do 3 right. left.
    - simpl. repeat constructor; simpl; lia. }
  assert (Hin : views_in_matrices wrapped_view).
  { exists (view 0 0 0 0 0), [view 1 0 2 2147483647 1].
    split; [reflexivity |]. split; [reflexivity |].
    split; [unfold vsize; simpl; lia |]. split.
    - repeat constructor; unfold vsize; simpl; lia.
    - unfold vsize. simpl. intros m Hm. assert (m = 1) as -> by lia.
      exists (view 1 0 2 2147483647 1). split; [left | reflexivity]. }
  assert (Hwrap : ¬ Forall column_end_after_offset
                      (tail (submatrices wrapped_view))).
  { simpl. intros Hall. apply Forall_inv in Hall.
    unfold column_end_after_offset in Hall. vm_compute in Hall.
    discriminate Hall. }
  split; [reflexivity |]. split; [exact Hwf |].
  split.
  { exact (proj2 (proj2 (partition_into_variables (overlapping_views [] [] [])
                           ComputationVariables_new eq_refl)) Hwf). }
  split; [exact Hin |]. split; [exact Hwrap |].
  exact (proj2 (proj1 (proj2 (partition_into_variables wrapped_view
                                ComputationVariables_new eq_refl)) Hin)
           Hwrap).
Defined.

(** ** ComputationVariables::Init and RecordAccessForSubmatrix *)

Lemma ComputeVariableToMatrix_Done (computation : NnetComputation)
    (v2 v3 : ComputationVariables) :
  ComputeVariableToMatrix computation v2 = Done v3 →
  split_points_ v3 = split_points_ v2 ∧
  matrix_to_variable_index_ v3 = matrix_to_variable_index_ v2 ∧
  num_variables_ v3 = num_variables_ v2 ∧
  variable_ranges_ v3 = variable_ranges_ v2 ∧
  full_column_range_ v3 = full_column_range_ v2.
Proof.
  unfold ComputeVariableToMatrix. intros Hc.
  apply bind_Done in Hc as (vtm & _ & Hc).
  apply bind_Done in Hc as ([] & _ & Hc).
  injection Hc as <-. done.
Qed.

Lemma ComputeSubmatrixInfo_step (computation : NnetComputation)
    (st st' : list Z * list bool) (i : nat) (info : SubMatrixInfo) :
  (let '(stm, whole) := st in
   stm ← vec_set stm (Z.of_nat i) (matrix_index info);
   b ← IsWholeMatrix computation (Z.of_nat i);
   whole ← vec_set whole (Z.of_nat i) b;
   Done (stm, whole)) = Done st' →
  (∃ v, (v.1 = matrix_index info ∧
         IsWholeMatrix computation (Z.of_nat i) = Done v.2) ∧
        lookup2 st' i = Some v) ∧
  (∀ j, j ≠ i → lookup2 st' j = lookup2 st j).
Proof.
  destruct st as [stm whole]. intros Hstep.
  apply bind_Done in Hstep as (stm' & Hstm & Hstep).
  apply bind_Done in Hstep as (b & Hb & Hstep).
  apply bind_Done in Hstep as (whole' & Hwhole & Hstep).
  injection Hstep as <-.
  apply vec_set_Done in Hstm as [Hi ->].
  apply vec_set_Done in Hwhole as [Hi' ->].
  unfold vsize in Hi, Hi'. rewrite Nat2Z.id. split.
  - exists (matrix_index info, b). split; [done |].
    rewrite lookup2_insert by lia. by rewrite decide_True.
  - intros j Hj. rewrite lookup2_insert by lia. by rewrite decide_False.
Qed.

Lemma ComputeSubmatrixInfo_Done (computation : NnetComputation)
    (v3 v4 : ComputationVariables) (s0 : SubMatrixInfo)
    (views : list SubMatrixInfo) :
  submatrices computation = s0 :: views →
  ComputeSubmatrixInfo computation v3 = Done v4 →
  variable_ranges_ v4 = variable_ranges_ v3 ∧
  full_column_range_ v4 = full_column_range_ v3 ∧
  ∀ (n : nat) s, views !! n = Some s →
    submatrix_to_matrix_ v4 !! S n = Some (matrix_index s) ∧
    ∃ whole, submatrix_is_whole_matrix_ v4 !! S n = Some whole ∧
             IsWholeMatrix computation (Z.of_nat (S n)) = Done whole.
Proof.
  intros Hsub Hcsi. unfold ComputeSubmatrixInfo in Hcsi.
  apply bind_Done in Hcsi as ([stm whole] & Hloop & Hcsi).
  injection Hcsi as <-. simpl. split; [done |]. split; [done |].
  rewrite Hsub in Hloop.
  rewrite (for_range_vec_at_1 s0 views
             (λ (st : list Z * list bool) (s : Z) (info : SubMatrixInfo),
                let '(stm, whole) := st in
                stm ← vec_set stm s (matrix_index info);
                b ← IsWholeMatrix computation s;
                whole ← vec_set whole s b;
                Done (stm, whole))) in Hloop.
  eapply (for_indexed_fill lookup2
            (λ (i : nat) info v,
               v.1 = matrix_index info ∧
               IsWholeMatrix computation (Z.of_nat i) = Done v.2))
    with (k := 1%nat) in Hloop.
  - destruct Hloop as [Hfilled _]. intros n s Hn.
    destruct (Hfilled n s Hn) as ([m w] & [Hm Hw] & Hl). simpl in Hm, Hw.
    unfold lookup2 in Hl. simpl in Hl.
    destruct (stm !! S n) as [m'|], (whole !! S n) as [w'|]; try discriminate.
    simplify_eq. split; [done |]. exists w. done.
  - intros st i x st' Hstep. by apply ComputeSubmatrixInfo_step in Hstep.
Qed.

(** What [Init] leaves in the object for every view but the null view. *)
Lemma ComputationVariables_Init_Done (computation : NnetComputation)
    (vars : ComputationVariables) (n : nat) (s : SubMatrixInfo) :
  ComputationVariables_Init computation ComputationVariables_new = Done vars →
  (1 ≤ n)%nat → submatrices computation !! n = Some s →
  ∃ range full whole,
    variable_ranges_ vars !! n = Some range ∧
    view_aligned (split_points_ vars) (matrix_to_variable_index_ vars)
                 s range ∧
    full_column_range_ vars !! n = Some full ∧
    spans_rows computation s full ∧
    submatrix_to_matrix_ vars !! n = Some (matrix_index s) ∧
    submatrix_is_whole_matrix_ vars !! n = Some whole ∧
    IsWholeMatrix computation (Z.of_nat n) = Done whole.
Proof.
  intros Hinit Hn Hs. unfold ComputationVariables_Init in Hinit.
  apply bind_Done in Hinit as ([] & _ & Hinit).
  apply bind_Done in Hinit as (v1 & Hcsp & Hinit).
  apply bind_Done in Hinit as (v2 & Hcvr & Hinit).
  apply bind_Done in Hinit as (v3 & Hcvtm & Hcsi).
  destruct (ComputeSplitPoints_Done computation ComputationVariables_new v1
              eq_refl Hcsp)
    as (s0 & views & Hsub & _).
  destruct (ComputeVariableRanges_Done _ _ _ s0 views Hsub Hcvr)
    as (Hsp2 & Hmtv2 & _ & _ & _ & _ & Hranges).
  destruct (ComputeVariableToMatrix_Done _ _ _ Hcvtm)
    as (Hsp3 & Hmtv3 & _ & Hvr3 & Hfcr3).
  destruct (ComputeSubmatrixInfo_Done _ _ _ s0 views Hsub Hcsi)
    as (Hvr4 & Hfcr4 & Hinfo).
  assert (Hsp4 : split_points_ vars = split_points_ v3 ∧
                 matrix_to_variable_index_ vars
                 = matrix_to_variable_index_ v3).
  { unfold ComputeSubmatrixInfo in Hcsi.
    apply bind_Done in Hcsi as ([stm whole] & _ & Hcsi).
    injection Hcsi as <-. done. }
  destruct Hsp4 as [Hsp4 Hmtv4].
  rewrite Hsub in Hs. destruct n as [|n]; [lia |]. simpl in Hs.
  destruct (Hranges n s Hs) as (range & full & Hr & Hf & Hal & Hrows).
  destruct (Hinfo n s Hs) as (Hstm & whole & Hw & Hwhole).
  exists range, full, whole.
  rewrite Hvr4, Hvr3, Hfcr4, Hfcr3, Hsp4, Hsp3, Hsp2, Hmtv4, Hmtv3, Hmtv2.
  done.
Qed.

Lemma AppendVariablesForSubmatrix_Done (this : ComputationVariables) (n : nat)
    (range : Z * Z) (variable_indexes : list Z) :
  variable_ranges_ this !! n = Some range →
  AppendVariablesForSubmatrix this (Z.of_nat n) variable_indexes
  = Done (variable_indexes ++ seqZ range.1 (range.2 - range.1)).
Proof.
  intros Hr. unfold AppendVariablesForSubmatrix, size_t_lt.
  pose proof (lookup_lt_Some _ _ _ Hr) as Hlt.
  replace ((0 <=? Z.of_nat n) && (Z.of_nat n <? vsize (variable_ranges_ this)))
    with true
    by (symmetry; apply andb_true_iff; unfold vsize; split; lia).
  cbn [mbind outcome_bind KALDI_ASSERT].
  rewrite (vec_at_lookup _ n range Hr). by destruct range.
Qed.

(** What recording an access does on a view of a table the record has
    entries for. *)
Lemma RecordAccessForSubmatrix_Done (this : ComputationVariables) (n : nat)
    (range : Z * Z) (full whole : bool) (m : Z) (access_type : AccessType)
    (ca : CommandAttributes) :
  (1 ≤ n)%nat →
  variable_ranges_ this !! n = Some range →
  full_column_range_ this !! n = Some full →
  submatrix_to_matrix_ this !! n = Some m →
  submatrix_is_whole_matrix_ this !! n = Some whole →
  let variables := seqZ range.1 (range.2 - range.1) in
  let reads := bool_decide (access_type ≠ kWriteAccess) in
  let writes := bool_decide (access_type ≠ kReadAccess) in
  RecordAccessForSubmatrix this (Z.of_nat n) access_type ca
  = Done {|
      variables_read :=
        (if reads || negb full
         then variables_read ca ++ variables else variables_read ca);
      variables_written :=
        (if writes then variables_written ca ++ variables
         else variables_written ca);
      submatrices_read :=
        (if reads then submatrices_read ca ++ [Z.of_nat n]
         else submatrices_read ca);
      submatrices_written :=
        (if writes then submatrices_written ca ++ [Z.of_nat n]
         else submatrices_written ca);
      matrices_read :=
        (if reads || negb whole then matrices_read ca ++ [m]
         else matrices_read ca);
      matrices_written :=
        (if writes then matrices_written ca ++ [m] else matrices_written ca);
      has_side_effects := has_side_effects ca |}.
Proof.
  intros Hn Hr Hf Hm Hw. unfold RecordAccessForSubmatrix, size_t_lt.
  replace (Z.of_nat n =? 0) with false by (symmetry; apply Z.eqb_neq; lia).
  pose proof (lookup_lt_Some _ _ _ Hm) as Hlt.
  replace ((0 <=? Z.of_nat n) &&
           (Z.of_nat n <? vsize (submatrix_to_matrix_ this)))
    with true
    by (symmetry; apply andb_true_iff; unfold vsize; split; lia).
  cbn [mbind outcome_bind KALDI_ASSERT].
  rewrite (vec_at_lookup _ n m Hm). cbn [mbind outcome_bind].
  rewrite (vec_at_lookup _ n whole Hw). cbn [mbind outcome_bind].
  destruct access_type; cbn [mbind outcome_bind];
    rewrite ?(AppendVariablesForSubmatrix_Done this n range _ Hr);
    cbn [mbind outcome_bind];
    rewrite ?(vec_at_lookup _ n full Hf); cbn [mbind outcome_bind].
  - destruct ca, full, whole; reflexivity.
  - destruct full; cbn [negb mbind outcome_bind];
      rewrite ?(AppendVariablesForSubmatrix_Done this n range _ Hr);
      cbn [mbind outcome_bind]; destruct ca, whole; reflexivity.
  - destruct ca, full, whole; reflexivity.
Qed.

(** C2. On the variables [Init] computes, recording a Write access to a
    view other than the null view adds the variables of the view to the
    written variables, its matrix to the written matrices and the view to
    the written submatrices; it adds the same variables to the variables
    read exactly when the view does not span all the rows of its matrix,
    and the matrix to the matrices read exactly when the view is not the
    whole matrix; the submatrices read are left as they are. *)
Theorem RecordAccessForSubmatrix_write (computation : NnetComputation)
    (vars : ComputationVariables) (n : nat) (s : SubMatrixInfo)
    (ca : CommandAttributes) :
  ComputationVariables_Init computation ComputationVariables_new = Done vars →
  (1 ≤ n)%nat → submatrices computation !! n = Some s →
  ∃ range full whole,
    variable_ranges_ vars !! n = Some range ∧ range.1 < range.2 ∧
    spans_rows computation s full ∧
    IsWholeMatrix computation (Z.of_nat n) = Done whole ∧
    RecordAccessForSubmatrix vars (Z.of_nat n) kWriteAccess ca
    = Done {|
        variables_written :=
          variables_written ca ++ seqZ range.1 (range.2 - range.1);
        matrices_written := matrices_written ca ++ [matrix_index s];
        submatrices_written := submatrices_written ca ++ [Z.of_nat n];
        variables_read :=
          (if full then variables_read ca
           else variables_read ca ++ seqZ range.1 (range.2 - range.1));
        matrices_read :=
          (if whole then matrices_read ca
           else matrices_read ca ++ [matrix_index s]);
        submatrices_read := submatrices_read ca;
        has_side_effects := has_side_effects ca |}.
Proof.
  intros Hinit Hn Hs.
  destruct (ComputationVariables_Init_Done computation vars n s Hinit Hn Hs)
    as (range & full & whole & Hr & Hal & Hf & Hrows & Hm & Hw & Hwhole).
  exists range, full, whole. split; [done |]. split.
  { destruct Hal as (split & base & i & j & _ & _ & _ & _ & _ & Hij & ->).
    simpl. lia. }
  split; [done |]. split; [done |].
  rewrite (RecordAccessForSubmatrix_Done vars n range full whole
             (matrix_index s) kWriteAccess ca Hn Hr Hf Hm Hw).
  cbn [bool_decide decide_rel]. by destruct full, whole.
Qed.

(** View 4 of [overlapping_views] is rows 1-2 of matrix 2: a write to it
    also reads its variable and its matrix. *)
Example RecordAccessForSubmatrix_write_partial_rows :
  RecordAccessForSubmatrix overlapping_variables 4 kWriteAccess
                           CommandAttributes_new
  = Done {| variables_read := [2]; variables_written := [2];
            submatrices_read := []; submatrices_written := [4];
            matrices_read := [2]; matrices_written := [2];
            has_side_effects := false |}.
Proof. vm_compute. reflexivity. Qed.

(** View 1 is all the rows of columns 0-1 of matrix 1: a write to it is
    a write of its variable and, for the matrix, a read as well. *)
Example RecordAccessForSubmatrix_write_full_rows :
  RecordAccessForSubmatrix overlapping_variables 1 kWriteAccess
                           CommandAttributes_new
  = Done {| variables_read := []; variables_written := [0];
            submatrices_read := []; submatrices_written := [1];
            matrices_read := [1]; matrices_written := [1];
            has_side_effects := false |}.
Proof. vm_compute. reflexivity. Qed.

Lemma RecordAccessForSubmatrix_write_witness :
  ComputationVariables_Init (overlapping_views [] [] [])
                            ComputationVariables_new
    = Done overlapping_variables ∧
  (1 ≤ 4)%nat ∧
  submatrices (overlapping_views [] [] []) !! 4%nat = Some (view 2 1 2 0 3) ∧
  ∃ range full whole,
    variable_ranges_ overlapping_variables !! 4%nat = Some range ∧
    range.1 < range.2 ∧
    spans_rows (overlapping_views [] [] []) (view 2 1 2 0 3) full ∧
    IsWholeMatrix (overlapping_views [] [] []) (Z.of_nat 4) = Done whole ∧
    RecordAccessForSubmatrix overlapping_variables (Z.of_nat 4) kWriteAccess
                             CommandAttributes_new
    = Done {|
        variables_written :=
          variables_written CommandAttributes_new
            ++ seqZ range.1 (range.2 - range.1);
        matrices_written :=
          matrices_written CommandAttributes_new
            ++ [matrix_index (view 2 1 2 0 3)];
        submatrices_written :=
          submatrices_written CommandAttributes_new ++ [Z.of_nat 4];
        variables_read :=
          (if full then variables_read CommandAttributes_new
           else variables_read CommandAttributes_new
                  ++ seqZ range.1 (range.2 - range.1));
        matrices_read :=
          (if whole then matrices_read CommandAttributes_new
           else matrices_read CommandAttributes_new
                  ++ [matrix_index (view 2 1 2 0 3)]);
        submatrices_read := submatrices_read CommandAttributes_new;
        has_side_effects := has_side_effects CommandAttributes_new |}.
Proof.
  assert (Hinit : ComputationVariables_Init (overlapping_views [] [] [])
                    ComputationVariables_new = Done overlapping_variables)
    by (vm_compute; reflexivity).
  split; [exact Hinit |]. split; [lia |]. split; [reflexivity |].
  apply (RecordAccessForSubmatrix_write (overlapping_views [] [] [])
           overlapping_variables 4 (view 2 1 2 0 3) CommandAttributes_new
           Hinit); [lia | reflexivity].
Defined.

(** ** ComputeCommandAttributes: gather-rows copy *)

Lemma count_pos_elem_of (v : list Z) (val : Z) :
  (0 <? count v val) = bool_decide (val ∈ v).
Proof.
  unfold count, vsize. induction v as [|x v IH].
  - rewrite bool_decide_eq_false_2; [done |]. by intros ?%elem_of_nil.
  - rewrite filter_cons. destruct (decide (x = val)) as [-> | Hne].
    + rewrite bool_decide_eq_true_2 by left. simpl. apply Z.ltb_lt. lia.
    + rewrite IH. apply bool_decide_ext. rewrite elem_of_cons.
      split; [auto |]. intros [? | ?]; [congruence | done].
Qed.

Section CopyRows.
Context `{ComponentProperties}.

(** The attributes of a gather-rows copy command are those of a Read
    access to its source after an access to its destination that is a
    Write when the index list has no -1 and a ReadWrite when it has one
    anywhere. *)
Lemma CopyRows_accesses (nnet : Nnet) (computation : NnetComputation)
    (vars : ComputationVariables) (c : Command) (index_list : list Z) :
  command_type c = kCopyRows →
  0 ≤ arg3 c →
  indexes computation !! Z.to_nat (arg3 c) = Some index_list →
  let classified dest_access :=
    attr ← RecordAccessForSubmatrix vars (arg1 c) dest_access
                                    CommandAttributes_new;
    attr ← RecordAccessForSubmatrix vars (arg2 c) kReadAccess attr;
    Done (sort_attributes attr) in
  (-1 ∉ index_list →
   ComputeCommandAttributes_command nnet computation vars c
   = classified kWriteAccess) ∧
  (-1 ∈ index_list →
   ComputeCommandAttributes_command nnet computation vars c
   = classified kReadWriteAccess) ∧
  (∀ (k : nat) computation',
     -1 ∉ index_list → (k < length index_list)%nat →
     indexes computation' !! Z.to_nat (arg3 c)
       = Some (<[k := -1]> index_list) →
     ComputeCommandAttributes_command nnet computation vars c
     = classified kWriteAccess ∧
     ComputeCommandAttributes_command nnet computation' vars c
     = classified kReadWriteAccess).
Proof.
  intros Hty Harg Hidx.
  assert (Hgen : ∀ computation idx,
            indexes computation !! Z.to_nat (arg3 c) = Some idx →
            ComputeCommandAttributes_command nnet computation vars c
            = attr ← RecordAccessForSubmatrix vars (arg1 c)
                       (if bool_decide (-1 ∈ idx) then kReadWriteAccess
                        else kWriteAccess) CommandAttributes_new;
              attr ← RecordAccessForSubmatrix vars (arg2 c) kReadAccess attr;
              Done (sort_attributes attr)).
  { intros comp idx Hl.
    unfold ComputeCommandAttributes_command, command_accesses. rewrite Hty.
    rewrite (proj2 (vec_at_Done _ (arg3 c) idx)) by done.
    cbn [mbind outcome_bind]. rewrite count_pos_elem_of.
    destruct (bool_decide (-1 ∈ idx));
      destruct (RecordAccessForSubmatrix vars (arg1 c) _ _); try done;
      cbn [mbind outcome_bind];
      destruct (RecordAccessForSubmatrix vars (arg2 c) _ _); done. }
  cbv zeta. split; [| split].
  - intros Hno. rewrite (Hgen computation index_list Hidx).
    by rewrite bool_decide_eq_false_2.
  - intros Hyes. rewrite (Hgen computation index_list Hidx).
    by rewrite bool_decide_eq_true_2.
  - intros k computation' Hno Hk Hidx'. split.
    + rewrite (Hgen computation index_list Hidx).
      by rewrite bool_decide_eq_false_2.
    + rewrite (Hgen computation' _ Hidx').
      rewrite bool_decide_eq_true_2; [done |].
      apply list_elem_of_lookup. exists k. by apply list_lookup_insert_eq.
Qed.

(** The attribute lists of a gather-rows copy command between two views
    the tables of [vars] have entries for. *)
Lemma CopyRows_attributes (nnet : Nnet) (computation : NnetComputation)
    (vars : ComputationVariables) (c : Command) (index_list : list Z)
    (dest src : nat) (range_d range_s : Z * Z) (full_d full_s : bool)
    (whole_d whole_s : bool) (m_d m_s : Z) :
  command_type c = kCopyRows →
  0 ≤ arg3 c →
  indexes computation !! Z.to_nat (arg3 c) = Some index_list →
  arg1 c = Z.of_nat dest → arg2 c = Z.of_nat src →
  (1 ≤ dest)%nat → (1 ≤ src)%nat →
  variable_ranges_ vars !! dest = Some range_d →
  variable_ranges_ vars !! src = Some range_s →
  full_column_range_ vars !! dest = Some full_d →
  full_column_range_ vars !! src = Some full_s →
  submatrix_to_matrix_ vars !! dest = Some m_d →
  submatrix_to_matrix_ vars !! src = Some m_s →
  submatrix_is_whole_matrix_ vars !! dest = Some whole_d →
  submatrix_is_whole_matrix_ vars !! src = Some whole_s →
  let sentinel := bool_decide (-1 ∈ index_list) in
  let variables_d := seqZ range_d.1 (range_d.2 - range_d.1) in
  let variables_s := seqZ range_s.1 (range_s.2 - range_s.1) in
  ComputeCommandAttributes_command nnet computation vars c
  = Done (sort_attributes
      {| variables_read :=
           (if sentinel || negb full_d then variables_d else []) ++ variables_s;
         variables_written := variables_d;
         submatrices_read :=
           (if sentinel then [Z.of_nat dest] else []) ++ [Z.of_nat src];
         submatrices_written := [Z.of_nat dest];
         matrices_read :=
           (if sentinel || negb whole_d then [m_d] else []) ++ [m_s];
         matrices_written := [m_d];
         has_side_effects := false |}).
Proof.
  intros Hty Harg Hidx Hd Hs Hd1 Hs1 Hrd Hrs Hfd Hfs Hmd Hms Hwd Hws.
  destruct (CopyRows_accesses nnet computation vars c index_list
              Hty Harg Hidx) as (Hno & Hyes & _).
  cbv zeta in Hno, Hyes |- *. rewrite Hd, Hs in Hno, Hyes.
  destruct (decide (-1 ∈ index_list)) as [Hin | Hnotin].
  - rewrite (Hyes Hin). rewrite bool_decide_eq_true_2 by done.
    rewrite (RecordAccessForSubmatrix_Done vars dest range_d full_d whole_d
               m_d kReadWriteAccess _ Hd1 Hrd Hfd Hmd Hwd).
    cbn [mbind outcome_bind].
    rewrite (RecordAccessForSubmatrix_Done vars src range_s full_s whole_s
               m_s kReadAccess _ Hs1 Hrs Hfs Hms Hws).
    reflexivity.
  - rewrite (Hno Hnotin). rewrite bool_decide_eq_false_2 by done.
    rewrite (RecordAccessForSubmatrix_Done vars dest range_d full_d whole_d
               m_d kWriteAccess _ Hd1 Hrd Hfd Hmd Hwd).
    cbn [mbind outcome_bind].
    rewrite (RecordAccessForSubmatrix_Done vars src range_s full_s whole_s
               m_s kReadAccess _ Hs1 Hrs Hfs Hms Hws).
    cbn [bool_decide decide_rel orb]. by destruct full_d, whole_d.
Qed.

(** C3. On the variables [Init] computes, the attributes of a
    gather-rows copy command between two views other than the null view.
    The destination is written: its view, its variables and its matrix
    are in the written lists.  When the index list has no -1 the access is
    a Write: the view is not in the submatrices read, and the variables
    and the matrix are read only as a Write to a view that does not span
    the rows, or is not the whole matrix, reads them.  When the index list
    has a -1 anywhere the access is a ReadWrite: the view, its variables
    and its matrix are in the read lists too.  The source is read in both
    cases: its view, its variables and its matrix are in the read lists,
    and in the written lists only if the destination puts them there.
    So putting -1 in place of one entry of a list without -1 changes the
    attributes from the first record to the second, which have the same
    written lists. *)
Theorem CopyRows_classification (nnet : Nnet) (computation : NnetComputation)
    (vars : ComputationVariables) (c : Command) (index_list : list Z)
    (dest src : nat) (s_d s_s : SubMatrixInfo) :
  ComputationVariables_Init computation ComputationVariables_new = Done vars →
  command_type c = kCopyRows →
  arg1 c = Z.of_nat dest → arg2 c = Z.of_nat src →
  (1 ≤ dest)%nat → (1 ≤ src)%nat →
  submatrices computation !! dest = Some s_d →
  submatrices computation !! src = Some s_s →
  0 ≤ arg3 c →
  indexes computation !! Z.to_nat (arg3 c) = Some index_list →
  ∃ range_d range_s full_d whole_d,
    variable_ranges_ vars !! dest = Some range_d ∧ range_d.1 < range_d.2 ∧
    variable_ranges_ vars !! src = Some range_s ∧ range_s.1 < range_s.2 ∧
    spans_rows computation s_d full_d ∧
    IsWholeMatrix computation (Z.of_nat dest) = Done whole_d ∧
    let variables_d := seqZ range_d.1 (range_d.2 - range_d.1) in
    let variables_s := seqZ range_s.1 (range_s.2 - range_s.1) in
    let classified (sentinel : bool) :=
      sort_attributes
        {| variables_read :=
             (if sentinel || negb full_d then variables_d else [])
               ++ variables_s;
           variables_written := variables_d;
           submatrices_read :=
             (if sentinel then [Z.of_nat dest] else []) ++ [Z.of_nat src];
           submatrices_written := [Z.of_nat dest];
           matrices_read :=
             (if sentinel || negb whole_d then [matrix_index s_d] else [])
               ++ [matrix_index s_s];
           matrices_written := [matrix_index s_d];
           has_side_effects := false |} in
    (-1 ∉ index_list →
     ComputeCommandAttributes_command nnet computation vars c
     = Done (classified false)) ∧
    (-1 ∈ index_list →
     ComputeCommandAttributes_command nnet computation vars c
     = Done (classified true)) ∧
    (∀ (k : nat) computation',
       -1 ∉ index_list → (k < length index_list)%nat →
       indexes computation' !! Z.to_nat (arg3 c)
         = Some (<[k := -1]> index_list) →
       ComputeCommandAttributes_command nnet computation vars c
       = Done (classified false) ∧
       ComputeCommandAttributes_command nnet computation' vars c
       = Done (classified true)) ∧
    (∀ sentinel,
       Z.of_nat dest ∈ submatrices_written (classified sentinel) ∧
       Z.of_nat src ∈ submatrices_read (classified sentinel) ∧
       (src ≠ dest → Z.of_nat src ∉ submatrices_written (classified sentinel)) ∧
       (∀ v, v ∈ variables_written (classified sentinel) ↔ v ∈ variables_d) ∧
       (∀ v, v ∈ variables_s → v ∈ variables_read (classified sentinel))) ∧
    Z.of_nat dest ∈ submatrices_read (classified true) ∧
    (∀ v, v ∈ variables_d → v ∈ variables_read (classified true)) ∧
    (dest ≠ src → Z.of_nat dest ∉ submatrices_read (classified false)) ∧
    (dest ≠ src → classified false ≠ classified true).
Proof.
  intros Hinit Hty Hd Hs Hd1 Hs1 Hsd Hss Harg Hidx.
  destruct (ComputationVariables_Init_Done computation vars dest s_d Hinit
              Hd1 Hsd)
    as (range_d & full_d & whole_d & Hrd & Hald & Hfd & Hrowsd & Hmd & Hwd
        & Hwholed).
  destruct (ComputationVariables_Init_Done computation vars src s_s Hinit
              Hs1 Hss)
    as (range_s & full_s & whole_s & Hrs & Hals & Hfs & _ & Hms & Hws & _).
  exists range_d, range_s, full_d, whole_d.
  split; [done |]. split.
  { destruct Hald as (? & ? & i & j & _ & _ & _ & _ & _ & Hij & ->).
    simpl. lia. }
  split; [done |]. split.
  { destruct Hals as (? & ? & i & j & _ & _ & _ & _ & _ & Hij & ->).
    simpl. lia. }
  split; [done |]. split; [done |]. cbv zeta.
  assert (Hattr : ∀ computation idx,
            indexes computation !! Z.to_nat (arg3 c) = Some idx →
            ComputeCommandAttributes_command nnet computation vars c
            = Done (sort_attributes
                {| variables_read :=
                     (if bool_decide (-1 ∈ idx) || negb full_d
                      then seqZ range_d.1 (range_d.2 - range_d.1) else [])
                       ++ seqZ range_s.1 (range_s.2 - range_s.1);
                   variables_written := seqZ range_d.1 (range_d.2 - range_d.1);
                   submatrices_read :=
                     (if bool_decide (-1 ∈ idx) then [Z.of_nat dest] else [])
                       ++ [Z.of_nat src];
                   submatrices_written := [Z.of_nat dest];
                   matrices_read :=
                     (if bool_decide (-1 ∈ idx) || negb whole_d
                      then [matrix_index s_d] else [])
                       ++ [matrix_index s_s];
                   matrices_written := [matrix_index s_d];
                   has_side_effects := false |})).
  { intros comp idx Hl.
    apply (CopyRows_attributes nnet comp vars c idx dest src range_d range_s
             full_d full_s whole_d whole_s (matrix_index s_d)
             (matrix_index s_s)); done. }
  split.
  { intros Hno. rewrite (Hattr computation index_list Hidx).
    by rewrite bool_decide_eq_false_2. }
  split.
  { intros Hyes. rewrite (Hattr computation index_list Hidx).
    by rewrite bool_decide_eq_true_2. }
  split.
  { intros k computation' Hno Hk Hidx'. split.
    - rewrite (Hattr computation index_list Hidx).
      by rewrite bool_decide_eq_false_2.
    - rewrite (Hattr computation' _ Hidx').
      rewrite bool_decide_eq_true_2; [done |].
      apply list_elem_of_lookup. exists k. by apply list_lookup_insert_eq. }
  split.
  { intros sentinel. simpl. split_and!.
    - apply SortAndUniq_elem_of. left.
    - apply SortAndUniq_elem_of, elem_of_app. right. left.
    - intros Hne Hin. apply (proj1 (SortAndUniq_elem_of _ _)) in Hin.
      apply list_elem_of_singleton in Hin. lia.
    - intros v. apply SortAndUniq_elem_of.
    - intros v Hv. apply SortAndUniq_elem_of, elem_of_app. by right. }
  split.
  { simpl. apply SortAndUniq_elem_of. left. }
  split.
  { intros v Hv. simpl. apply SortAndUniq_elem_of, elem_of_app. by left. }
  assert (Hnot : dest ≠ src →
            Z.of_nat dest ∉ SortAndUniq ([] ++ [Z.of_nat src])).
  { intros Hne Hin. apply (proj1 (SortAndUniq_elem_of _ _)) in Hin.
    apply list_elem_of_singleton in Hin. lia. }
  split; [exact Hnot |].
  intros Hne Heq. apply (Hnot Hne).
  assert (Hin : Z.of_nat dest
                ∈ SortAndUniq ([Z.of_nat dest] ++ [Z.of_nat src]))
    by (apply SortAndUniq_elem_of; left).
  apply (f_equal submatrices_read) in Heq.
  exact (eq_ind_r (λ l, Z.of_nat dest ∈ l) Hin Heq).
Qed.

End CopyRows.

(** Copying rows of view 4 (matrix 2) to view 3 (all of matrix 1): with
    a source for every row the destination is written only. *)
Example CopyRows_without_sentinel :
  @ComputeCommandAttributes_command kaldi_properties
    (one_component (component_with 0)) (overlapping_views [[0; 1]] [] [])
    overlapping_variables copy_rows_3_from_4
  = Done {| variables_read := [2]; variables_written := [0; 1];
            submatrices_read := [4]; submatrices_written := [3];
            matrices_read := [2]; matrices_written := [1];
            has_side_effects := false |}.
Proof. vm_compute. reflexivity. Qed.

(** With a row that has no source the destination is read as well. *)
Example CopyRows_with_sentinel :
  @ComputeCommandAttributes_command kaldi_properties
    (one_component (component_with 0)) (overlapping_views [[0; -1]] [] [])
    overlapping_variables copy_rows_3_from_4
  = Done {| variables_read := [0; 1; 2]; variables_written := [0; 1];
            submatrices_read := [3; 4]; submatrices_written := [3];
            matrices_read := [1; 2]; matrices_written := [1];
            has_side_effects := false |}.
Proof. vm_compute. reflexivity. Qed.

Lemma CopyRows_classification_witness :
  let nnet := one_component (component_with 0) in
  let c := copy_rows_3_from_4 in
  ComputationVariables_Init (overlapping_views [[0; 1]] [] [])
    ComputationVariables_new = Done overlapping_variables ∧
  command_type c = kCopyRows ∧
  arg1 c = Z.of_nat 3 ∧ arg2 c = Z.of_nat 4 ∧ (1 ≤ 3)%nat ∧ (1 ≤ 4)%nat ∧
  submatrices (overlapping_views [[0; 1]] [] []) !! 3%nat
    = Some (view 1 0 2 0 5) ∧
  submatrices (overlapping_views [[0; 1]] [] []) !! 4%nat
    = Some (view 2 1 2 0 3) ∧
  0 ≤ arg3 c ∧
  indexes (overlapping_views [[0; 1]] [] []) !! Z.to_nat (arg3 c)
    = Some [0; 1] ∧
  (-1 ∉ [0; 1]) ∧ (1 < length [0; 1])%nat ∧
  indexes (overlapping_views [[0; -1]] [] []) !! Z.to_nat (arg3 c)
    = Some (<[1%nat := -1]> [0; 1]) ∧
  ∃ without with_sentinel,
    @ComputeCommandAttributes_command kaldi_properties nnet
      (overlapping_views [[0; 1]] [] []) overlapping_variables c
    = Done without ∧
    @ComputeCommandAttributes_command kaldi_properties nnet
      (overlapping_views [[0; -1]] [] []) overlapping_variables c
    = Done with_sentinel ∧
    (Z.of_nat 3 ∉ submatrices_read without) ∧
    Z.of_nat 3 ∈ submatrices_read with_sentinel ∧
    Z.of_nat 3 ∈ submatrices_written without ∧
    Z.of_nat 3 ∈ submatrices_written with_sentinel ∧
    Z.of_nat 4 ∈ submatrices_read without ∧
    Z.of_nat 4 ∈ submatrices_read with_sentinel.
Proof.
  cbv zeta.
  assert (Hinit : ComputationVariables_Init (overlapping_views [[0; 1]] [] [])
                    ComputationVariables_new = Done overlapping_variables)
    by (vm_compute; reflexivity).
  assert (Hno : -1 ∉ [0; 1]).
  { intros Hin. repeat (apply elem_of_cons in Hin as [Hin | Hin]; [done |]).
    by apply elem_of_nil in Hin. }
  split; [exact Hinit |]. split; [reflexivity |]. split; [reflexivity |].
  split; [reflexivity |]. split; [lia |]. split; [lia |].
  split; [reflexivity |]. split; [reflexivity |]. split; [simpl; lia |].
  split; [reflexivity |]. split; [exact Hno |]. split; [simpl; lia |].
  split; [reflexivity |].
  destruct (@CopyRows_classification kaldi_properties
              (one_component (component_with 0))
              (overlapping_views [[0; 1]] [] []) overlapping_variables
              copy_rows_3_from_4 [0; 1] 3 4 (view 1 0 2 0 5) (view 2 1 2 0 3)
              Hinit eq_refl eq_refl eq_refl ltac:(lia) ltac:(lia)
              eq_refl eq_refl ltac:(simpl; lia) eq_refl)
    as (range_d & range_s & full_d & whole_d & _ & _ & _ & _ & _ & _
        & _ & _ & Hflip & Hboth & Hread & _ & Hnotread & _).
  destruct (Hflip 1%nat (overlapping_views [[0; -1]] [] []) Hno
              ltac:(simpl; lia) eq_refl) as [Hwithout Hwith].
  eexists _, _. split; [exact Hwithout |]. split; [exact Hwith |].
  split; [apply Hnotread; lia |]. split; [exact Hread |].
  split; [apply (Hboth false) |]. split; [apply (Hboth true) |].
  split; [apply (Hboth false) | apply (Hboth true)].
Defined.

(** ** ComputeCommandAttributes: scatter-rows-multi *)

Lemma IndexesMultiToSubmatrixIndexes_loop_elem_of (indexes_multi : list (Z * Z))
    (cur : Z) (acc : list Z) (x : Z) :
  cur = -1 ∨ cur ∈ acc →
  x ∈ IndexesMultiToSubmatrixIndexes_loop indexes_multi cur acc ↔
  x ∈ acc ∨ (x ≠ -1 ∧ ∃ row, (x, row) ∈ indexes_multi).
Proof.
  revert cur acc. induction indexes_multi as [|[s r] l IH]; intros cur acc Hcur;
    simpl.
  - split; [auto |]. intros [? | (_ & row & Hin)]; [done |].
    by apply elem_of_nil in Hin.
  - destruct (Z.eqb_spec s (-1)) as [-> | Hs]; simpl.
    + rewrite (IH cur acc Hcur). split.
      * intros [? | (Hx & row & Hin)]; [auto |]. right. split; [done |].
        exists row. by right.
      * intros [? | (Hx & row & Hin)]; [auto |]. right. split; [done |].
        apply elem_of_cons in Hin as [Heq | Hin]; [congruence | eauto].
    + destruct (Z.eqb_spec s cur) as [-> | Hne]; simpl.
      * rewrite (IH cur acc Hcur). destruct Hcur as [? | Hcur]; [done |].
        split.
        -- intros [? | (Hx & row & Hin)]; [auto |]. right. split; [done |].
           exists row. by right.
        -- intros [? | (Hx & row & Hin)]; [auto |].
           apply elem_of_cons in Hin as [Heq | Hin]; [left; congruence |].
           right. eauto.
      * rewrite (IH s (acc ++ [s])) by (right; apply elem_of_app; right; left).
        rewrite elem_of_app, list_elem_of_singleton. split.
        -- intros [[? | ->] | (Hx & row & Hin)]; [auto | |].
           ++ right. split; [done |]. exists r. left.
           ++ right. split; [done |]. exists row. by right.
        -- intros [? | (Hx & row & Hin)]; [auto |].
           apply elem_of_cons in Hin as [Heq | Hin].
           ++ left. right. congruence.
           ++ right. eauto.
Qed.

(** The submatrix indexes of a pair list are sorted without repeats and
    are the first components of its pairs, -1 left out. *)
Lemma IndexesMultiToSubmatrixIndexes_spec (indexes_multi : list (Z * Z)) :
  StronglySorted Z.lt (IndexesMultiToSubmatrixIndexes indexes_multi) ∧
  ∀ x, x ∈ IndexesMultiToSubmatrixIndexes indexes_multi ↔
       x ≠ -1 ∧ ∃ row, (x, row) ∈ indexes_multi.
Proof.
  unfold IndexesMultiToSubmatrixIndexes. split; [apply SortAndUniq_sorted |].
  intros x. rewrite SortAndUniq_elem_of.
  rewrite IndexesMultiToSubmatrixIndexes_loop_elem_of by (by left).
  split; [| auto]. intros [Hin | ?]; [| done]. by apply elem_of_nil in Hin.
Qed.

(** Recording an access keeps what is recorded, and records the view,
    when it is not the null view, as read unless the access is a Write and
    as written unless it is a Read. *)
Lemma RecordAccessForSubmatrix_submatrices (this : ComputationVariables)
    (submatrix_index : Z) (access_type : AccessType)
    (ca ca' : CommandAttributes) :
  RecordAccessForSubmatrix this submatrix_index access_type ca = Done ca' →
  submatrices_read ca ⊆ submatrices_read ca' ∧
  submatrices_written ca ⊆ submatrices_written ca' ∧
  (submatrix_index ≠ 0 → access_type ≠ kWriteAccess →
   submatrix_index ∈ submatrices_read ca') ∧
  (submatrix_index ≠ 0 → access_type ≠ kReadAccess →
   submatrix_index ∈ submatrices_written ca').
Proof.
  unfold RecordAccessForSubmatrix.
  destruct (Z.eqb_spec submatrix_index 0) as [-> | Hne].
  - intros [= <-]. done.
  - intros Hrec.
    apply bind_Done in Hrec as ([] & _ & Hrec).
    apply bind_Done in Hrec as (m & _ & Hrec).
    apply bind_Done in Hrec as (whole & _ & Hrec).
    destruct access_type.
    + apply bind_Done in Hrec as (vr & _ & Hrec). injection Hrec as <-. simpl.
      split; [solve_elem_of |]. split; [done |]. split; [solve_elem_of | done].
    + apply bind_Done in Hrec as (vw & _ & Hrec).
      apply bind_Done in Hrec as (full & _ & Hrec).
      apply bind_Done in Hrec as (vr & _ & Hrec). injection Hrec as <-. simpl.
      split; [done |]. split; [solve_elem_of |]. split; [done | solve_elem_of].
    + apply bind_Done in Hrec as (vw & _ & Hrec).
      apply bind_Done in Hrec as (vr & _ & Hrec). injection Hrec as <-. simpl.
      split; [solve_elem_of |]. split; [solve_elem_of |].
      split; solve_elem_of.
Qed.

Lemma for_each_RecordAccessForSubmatrix (this : ComputationVariables)
    (access_type : AccessType) (views : list Z) (ca ca' : CommandAttributes) :
  for_each (λ attr s, RecordAccessForSubmatrix this s access_type attr)
           views ca = Done ca' →
  submatrices_read ca ⊆ submatrices_read ca' ∧
  submatrices_written ca ⊆ submatrices_written ca' ∧
  ∀ s, s ∈ views → s ≠ 0 →
       (access_type ≠ kWriteAccess → s ∈ submatrices_read ca') ∧
       (access_type ≠ kReadAccess → s ∈ submatrices_written ca').
Proof.
  revert ca. induction views as [|v views IH]; intros ca Hloop; simpl in Hloop.
  - injection Hloop as <-. split; [done |]. split; [done |].
    intros s Hs. by apply elem_of_nil in Hs.
  - apply bind_Done in Hloop as (ca1 & Hstep & Hloop).
    apply RecordAccessForSubmatrix_submatrices in Hstep
      as (Hr1 & Hw1 & Hread & Hwritten).
    destruct (IH ca1 Hloop) as (Hr & Hw & Hall).
    split; [intros x Hx; apply Hr, Hr1, Hx |].
    split; [intros x Hx; apply Hw, Hw1, Hx |].
    intros s Hs Hs0. apply elem_of_cons in Hs as [-> | Hs]; [| by apply Hall].
    split; intros Hty; [apply Hr | apply Hw]; auto.
Qed.

Section Scatter.
Context `{ComponentProperties}.

(** C4. The attributes of a scatter-rows-multi command, add or copy,
    are those of a Read access to its source followed by a ReadWrite
    access to each of the destination views of its pair list: these are
    sorted without repeats, and are the first components of the pairs
    other than -1.  So when the attributes are computed, every
    destination view named in the pair list is among the submatrices
    read and among the submatrices written. *)
Theorem scatter_classification (nnet : Nnet) (computation : NnetComputation)
    (vars : ComputationVariables) (c : Command) (pairs : list (Z * Z)) :
  command_type c = kAddToRowsMulti ∨ command_type c = kCopyToRowsMulti →
  0 ≤ arg2 c →
  indexes_multi computation !! Z.to_nat (arg2 c) = Some pairs →
  let dests := IndexesMultiToSubmatrixIndexes pairs in
  StronglySorted Z.lt dests ∧
  (∀ d, d ∈ dests ↔ d ≠ -1 ∧ ∃ row, (d, row) ∈ pairs) ∧
  ComputeCommandAttributes_command nnet computation vars c
  = (attr ← RecordAccessForSubmatrix vars (arg1 c) kReadAccess
              CommandAttributes_new;
     attr ← for_each (λ attr d,
                RecordAccessForSubmatrix vars d kReadWriteAccess attr)
              dests attr;
     Done (sort_attributes attr)) ∧
  (∀ attr,
     ComputeCommandAttributes_command nnet computation vars c = Done attr →
     (arg1 c ≠ 0 → arg1 c ∈ submatrices_read attr) ∧
     ∀ d row, (d, row) ∈ pairs → d ≠ -1 → d ≠ 0 →
              d ∈ submatrices_read attr ∧ d ∈ submatrices_written attr).
Proof.
  intros Hty Harg Hpairs. cbv zeta.
  destruct (IndexesMultiToSubmatrixIndexes_spec pairs) as [Hsorted Helem].
  split; [done |]. split; [done |].
  assert (Heq : ComputeCommandAttributes_command nnet computation vars c
    = (attr ← RecordAccessForSubmatrix vars (arg1 c) kReadAccess
                CommandAttributes_new;
       attr ← for_each (λ attr d,
                  RecordAccessForSubmatrix vars d kReadWriteAccess attr)
                (IndexesMultiToSubmatrixIndexes pairs) attr;
       Done (sort_attributes attr))).
  { unfold ComputeCommandAttributes_command, command_accesses.
    destruct Hty as [-> | ->];
      destruct (RecordAccessForSubmatrix vars (arg1 c) kReadAccess _);
      try done; cbn [mbind outcome_bind];
      rewrite (proj2 (vec_at_Done _ (arg2 c) pairs)) by done;
      cbn [mbind outcome_bind]; done. }
  split; [exact Heq |].
  intros attr Hattr. rewrite Heq in Hattr.
  apply bind_Done in Hattr as (ca1 & Hsrc & Hattr).
  apply bind_Done in Hattr as (ca2 & Hloop & Hattr).
  injection Hattr as <-. simpl.
  apply RecordAccessForSubmatrix_submatrices in Hsrc as (_ & _ & Hread & _).
  apply for_each_RecordAccessForSubmatrix in Hloop as (Hr & Hw & Hall).
  split.
  - intros Hsrc. apply SortAndUniq_elem_of, Hr. by apply Hread.
  - intros d row Hin Hd Hd0.
    destruct (Hall d) as [Hrd Hwr]; [apply Helem; eauto | done |].
    split; apply SortAndUniq_elem_of; auto.
Qed.

End Scatter.

(** Scattering the two rows of view 1 to rows of view 4, named twice,
    with a pair of -1 in between in a longer list: view 4 is read and
    written, once. *)
Example scatter_attributes :
  @ComputeCommandAttributes_command kaldi_properties
    (one_component (component_with 0))
    (overlapping_views [] [[(4, 0); (-1, -1); (4, 1)]] [])
    overlapping_variables (scatter_from_1 kCopyToRowsMulti)
  = Done {| variables_read := [0; 2]; variables_written := [2];
            submatrices_read := [1; 4]; submatrices_written := [4];
            matrices_read := [1; 2]; matrices_written := [2];
            has_side_effects := false |}.
Proof. vm_compute. reflexivity. Qed.

Example IndexesMultiToSubmatrixIndexes_example :
  IndexesMultiToSubmatrixIndexes [(4, 0); (2, 1); (-1, -1); (4, 1); (2, 0)]
  = [2; 4].
Proof. vm_compute. reflexivity. Qed.

Lemma scatter_classification_witness :
  let computation := overlapping_views [] [[(4, 0); (-1, -1); (4, 1)]] [] in
  let c := scatter_from_1 kAddToRowsMulti in
  (command_type c = kAddToRowsMulti ∨ command_type c = kCopyToRowsMulti) ∧
  0 ≤ arg2 c ∧
  indexes_multi computation !! Z.to_nat (arg2 c)
    = Some [(4, 0); (-1, -1); (4, 1)] ∧
  ∀ attr,
    @ComputeCommandAttributes_command kaldi_properties
      (one_component (component_with 0)) computation overlapping_variables c
    = Done attr →
    (arg1 c ≠ 0 → arg1 c ∈ submatrices_read attr) ∧
    ∀ d row, (d, row) ∈ [(4, 0); (-1, -1); (4, 1)] → d ≠ -1 → d ≠ 0 →
             d ∈ submatrices_read attr ∧ d ∈ submatrices_written attr.
Proof.
  cbv zeta. split; [by left |]. split; [simpl; lia |]. split; [reflexivity |].
  exact (proj2 (proj2 (proj2
           (@scatter_classification kaldi_properties
              (one_component (component_with 0))
              (overlapping_views [] [[(4, 0); (-1, -1); (4, 1)]] [])
              overlapping_variables (scatter_from_1 kAddToRowsMulti)
              [(4, 0); (-1, -1); (4, 1)]
              (or_introl eq_refl) ltac:(simpl; lia) eq_refl)))).
Defined.

(** ** CheckComputationOrder *)

Lemma marker_positions_elem (k : Z) (l : list Command) (p : Z) :
  p ∈ marker_positions k l ↔
  ∃ (i : nat) c, l !! i = Some c ∧ command_type c = kNoOperationMarker ∧
                 p = k + Z.of_nat i.
Proof.
  revert k. induction l as [|c l IH]; intros k; simpl.
  - split; [intros Hin; by apply elem_of_nil in Hin |].
    intros (i & c & Hl & _); done.
  - case_bool_decide as Hc.
    + rewrite elem_of_cons, IH. split.
      * intros [-> | (i & c' & Hl & Hm & ->)].
        -- exists 0%nat, c. split; [done |]. split; [done | lia].
        -- exists (S i), c'. split; [done |]. split; [done | lia].
      * intros ([|i] & c' & Hl & Hm & ->); simpl in Hl.
        -- left. lia.
        -- right. exists i, c'. split; [done |]. split; [done | lia].
    + rewrite IH. split.
      * intros (i & c' & Hl & Hm & ->).
        exists (S i), c'. split; [done |]. split; [done | lia].
      * intros ([|i] & c' & Hl & Hm & ->); simpl in Hl.
        -- by simplify_eq.
        -- exists i, c'. split; [done |]. split; [done | lia].
Qed.

Lemma marker_positions_sorted (k : Z) (l : list Command) :
  StronglySorted Z.lt (marker_positions k l) ∧
  Forall (λ p, k ≤ p) (marker_positions k l).
Proof.
  revert k. induction l as [|c l IH]; intros k; simpl.
  - split; constructor.
  - destruct (IH (k + 1)) as [Hs Hf]. case_bool_decide.
    + split.
      * constructor; [done |]. eapply Forall_impl; [exact Hf |].
        simpl. intros; lia.
      * constructor; [lia |]. eapply Forall_impl; [exact Hf |].
        simpl. intros; lia.
    + split; [done |]. eapply Forall_impl; [exact Hf |]. simpl. intros; lia.
Qed.

(** The first loop counts the markers and keeps the position of the
    last one. *)
Lemma count_markers_loop (l : list Command) (k num_markers marker_location : Z) :
  for_indexed (λ (st : Z * Z) (c : Z) (command : Command),
      let '(num_markers, marker_location) := st in
      if bool_decide (command_type command = kNoOperationMarker)
      then Done (num_markers + 1, c)
      else Done (num_markers, marker_location))
    k l (num_markers, marker_location)
  = Done (num_markers + vsize (marker_positions k l),
          default marker_location (last (marker_positions k l))).
Proof.
  revert k num_markers marker_location.
  induction l as [|c l IH]; intros k n loc; simpl.
  - unfold vsize. simpl. f_equal. f_equal. lia.
  - case_bool_decide; simpl; rewrite IH; f_equal; f_equal.
    + unfold vsize. simpl. lia.
    + destruct (marker_positions (k + 1) l) as [|p ps] eqn:Hp; [done |].
      rewrite last_cons_cons.
      destruct (last (p :: ps)) eqn:Hlast; [done |].
      by apply last_None in Hlast.
Qed.

Lemma order_loop (marker_location : Z) (l : list Command) (k : Z) :
  let loop :=
    for_indexed (λ (_ : unit) (c : Z) (command : Command),
      let command_type := command_type command in
      err_if (negb (c =? marker_location) &&
              bool_decide (command_type = kNoOperationMarker))
        "Found kNoOpMarker in unexpected place";;
      err_if ((c <? marker_location) && bool_decide (command_type = kBackprop))
        "Backprop occurs before kNoOpMarker";;
      err_if ((marker_location <? c) && bool_decide (command_type = kPropagate))
        "Propagate occurs after kNoOpMarker";;
      err_if ((marker_location <? c) && bool_decide (command_type = kStoreStats))
        "StoreStats occurs after kNoOpMarker") k l () in
  (loop = Done () ∧
   ∀ (i : nat) c, l !! i = Some c →
     order_violation marker_location (k + Z.of_nat i) (command_type c) = false)
  ∨ ((∃ msg, loop = Err msg) ∧
     ∃ (i : nat) c, l !! i = Some c ∧
     order_violation marker_location (k + Z.of_nat i) (command_type c) = true).
Proof.
  revert k. induction l as [|c l IH]; intros k; simpl.
  - left. split; [done |]. intros i c Hl. done.
  - destruct (order_violation marker_location k (command_type c)) eqn:Hv.
    + right. split.
      * unfold order_violation in Hv.
        destruct (negb (k =? marker_location) &&
                  bool_decide (command_type c = kNoOperationMarker));
          [simpl; eauto |].
        destruct ((k <? marker_location) &&
                  bool_decide (command_type c = kBackprop)); [simpl; eauto |].
        destruct ((marker_location <? k) &&
                  bool_decide (command_type c = kPropagate)); [simpl; eauto |].
        destruct ((marker_location <? k) &&
                  bool_decide (command_type c = kStoreStats)); [simpl; eauto |].
        done.
      * exists 0%nat, c. split; [done |]. by rewrite Z.add_0_r.
    + unfold order_violation in Hv.
      apply orb_false_iff in Hv as [Hv H4].
      apply orb_false_iff in Hv as [Hv H3].
      apply orb_false_iff in Hv as [H1 H2].
      rewrite H1, H2, H3, H4. simpl.
      destruct (IH (k + 1)) as [[Hd Hall] | [Herr (i & c' & Hl & Hvi)]].
      * left. split; [done |]. intros [|i] c' Hl; simpl in Hl.
        -- simplify_eq. rewrite Z.add_0_r. unfold order_violation.
           by rewrite H1, H2, H3, H4.
        -- replace (k + Z.of_nat (S i)) with (k + 1 + Z.of_nat i) by lia.
           by apply Hall.
      * right. split; [done |]. exists (S i), c'. split; [done |].
        by replace (k + Z.of_nat (S i)) with (k + 1 + Z.of_nat i) by lia.
Qed.

Lemma marker_positions_unique (l : list Command) (m : nat) :
  (∀ i c, l !! i = Some c → (command_type c = kNoOperationMarker ↔ i = m)) →
  (m < length l)%nat →
  marker_positions 0 l = [Z.of_nat m].
Proof.
  intros Hm Hlt.
  destruct (lookup_lt_is_Some_2 l m Hlt) as [cm Hcm].
  assert (Hin : ∀ p, p ∈ marker_positions 0 l ↔ p = Z.of_nat m).
  { intros p. rewrite marker_positions_elem. split.
    - intros (i & c & Hl & Hc & ->). apply (Hm i c Hl) in Hc. lia.
    - intros ->. exists m, cm. split; [done |]. split; [| lia].
      by apply (Hm m cm Hcm). }
  destruct (marker_positions_sorted 0 l) as [Hs _].
  destruct (marker_positions 0 l) as [|p [|q ps]].
  - exfalso. eapply elem_of_nil. apply Hin. done.
  - f_equal. apply Hin. left.
  - exfalso. assert (p = Z.of_nat m) by (apply Hin; left).
    assert (q = Z.of_nat m) by (apply Hin; right; left).
    inversion Hs as [|? ? _ Hall]; subst.
    inversion Hall; subst. lia.
Qed.

Lemma CheckComputationOrder_cases (computation : NnetComputation) :
  (CheckComputationOrder computation = Done () ∧
   order_ok (commands computation)) ∨
  ((∃ msg, CheckComputationOrder computation = Err msg) ∧
   ¬ order_ok (commands computation)).
Proof.
  unfold CheckComputationOrder.
  rewrite (for_range_vec_at_0 (commands computation)
             (λ (st : Z * Z) (c : Z) (command : Command),
                let '(num_markers, marker_location) := st in
                if bool_decide (command_type command = kNoOperationMarker)
                then Done (num_markers + 1, c)
                else Done (num_markers, marker_location))).
  rewrite count_markers_loop. simpl.
  destruct (Z.eqb_spec (0 + vsize (marker_positions 0 (commands computation))) 1)
    as [Hone | Hnot]; simpl.
  - destruct (marker_positions 0 (commands computation)) as [|p [|q ps]] eqn:Hmp;
      try (unfold vsize in Hone; simpl in Hone; lia).
    simpl.
    assert (Hp : p ∈ marker_positions 0 (commands computation))
      by (rewrite Hmp; left).
    apply marker_positions_elem in Hp as (m & cm & Hcm & Htm & ->).
    assert (Hmark : ∀ i c, commands computation !! i = Some c →
                           (command_type c = kNoOperationMarker ↔ i = m)).
    { intros i c Hl. split.
      - intros Hc.
        assert (Hi : 0 + Z.of_nat i ∈ marker_positions 0 (commands computation))
          by (apply marker_positions_elem; eauto).
        rewrite Hmp in Hi. apply list_elem_of_singleton in Hi. lia.
      - intros ->. by simplify_eq. }
    rewrite (for_range_vec_at_0 (commands computation)
               (λ (_ : unit) (c : Z) (command : Command),
                  let command_type := command_type command in
                  err_if (negb (c =? 0 + Z.of_nat m) &&
                          bool_decide (command_type = kNoOperationMarker))
                    "Found kNoOpMarker in unexpected place";;
                  err_if ((c <? 0 + Z.of_nat m) &&
                          bool_decide (command_type = kBackprop))
                    "Backprop occurs before kNoOpMarker";;
                  err_if ((0 + Z.of_nat m <? c) &&
                          bool_decide (command_type = kPropagate))
                    "Propagate occurs after kNoOpMarker";;
                  err_if ((0 + Z.of_nat m <? c) &&
                          bool_decide (command_type = kStoreStats))
                    "StoreStats occurs after kNoOpMarker")).
    destruct (order_loop (0 + Z.of_nat m) (commands computation) 0)
      as [[Hd Hall] | [Herr (i & c & Hl & Hv)]].
    + left. split; [exact Hd |]. exists m. split; [exact Hmark |].
      split; [by eapply lookup_lt_Some |]. split.
      * intros i c Hl Hlt Hb. specialize (Hall i c Hl).
        unfold order_violation in Hall. rewrite Hb in Hall.
        rewrite (bool_decide_eq_true_2 (kBackprop = kBackprop)) in Hall by done.
        replace (0 + Z.of_nat i <? 0 + Z.of_nat m) with true in Hall
          by (symmetry; apply Z.ltb_lt; lia).
        simpl in Hall. by rewrite orb_true_r in Hall.
      * intros i c Hl Hlt. specialize (Hall i c Hl).
        unfold order_violation in Hall.
        replace (0 + Z.of_nat m <? 0 + Z.of_nat i) with true in Hall
          by (symmetry; apply Z.ltb_lt; lia).
        simpl in Hall. split; intros Hc; rewrite Hc in Hall; simpl in Hall.
        -- by rewrite orb_true_r in Hall.
        -- by rewrite !orb_true_r in Hall.
    + right. split; [exact Herr |]. intros (m' & Hm' & _ & Hback & Hfwd).
      assert (m = m') by (by apply (Hm' m cm Hcm)). subst m'.
      unfold order_violation in Hv.
      repeat (apply orb_true_iff in Hv as [Hv | Hv]);
        apply andb_true_iff in Hv as [Hpos Hty];
        apply bool_decide_eq_true in Hty.
      * apply negb_true_iff, Z.eqb_neq in Hpos.
        apply (Hmark i c Hl) in Hty. lia.
      * apply Z.ltb_lt in Hpos. apply (Hback i c Hl); [lia | done].
      * apply Z.ltb_lt in Hpos.
        destruct (Hfwd i c Hl) as [Hp _]; [lia | done].
      * apply Z.ltb_lt in Hpos.
        destruct (Hfwd i c Hl) as [_ Hs]; [lia | done].
  - right. split; [eauto |]. intros (m & Hm & Hlt & _).
    rewrite (marker_positions_unique _ m Hm Hlt) in Hnot.
    unfold vsize in Hnot. simpl in Hnot. lia.
Qed.

(** C5. The ordering check passes exactly when the program has one
    marker, no Backprop before it and no Propagate or StoreStats after
    it; on every other program it raises a fatal error. *)
Theorem CheckComputationOrder_spec (computation : NnetComputation) :
  (CheckComputationOrder computation = Done () ↔
   order_ok (commands computation)) ∧
  (¬ order_ok (commands computation) →
   ∃ msg, CheckComputationOrder computation = Err msg).
Proof.
  destruct (CheckComputationOrder_cases computation)
    as [[Hd Hok] | [[msg Herr] Hnok]].
  - split; [done |]. intros; done.
  - split; [| eauto]. rewrite Herr. split; [done |]. intros; done.
Qed.

Example CheckComputationOrder_forward_backward :
  CheckComputationOrder forward_backward = Done ().
Proof. reflexivity. Qed.

Example CheckComputationOrder_backprop_first :
  CheckComputationOrder backprop_first
  = Err "Backprop occurs before kNoOpMarker".
Proof. reflexivity. Qed.

Lemma CheckComputationOrder_spec_witness :
  ¬ order_ok (commands two_markers) ∧
  ∃ msg, CheckComputationOrder two_markers = Err msg.
Proof.
  assert (Hno : ¬ order_ok (commands two_markers)).
  { intros (m & Hm & _).
    assert (1%nat = m) by (by apply (Hm 1%nat (plain_command kNoOperationMarker))).
    assert (2%nat = m) by (by apply (Hm 2%nat (plain_command kNoOperationMarker))).
    lia. }
  split; [exact Hno |].
  exact (proj2 (CheckComputationOrder_spec two_markers) Hno).
Defined.

(** ** CheckComputationMatrixAccesses *)

Lemma CheckComputationMatrixAccesses_matrix_cases (a : Analyzer) (idx : Z)
    (m : MatrixAccesses) (p : Process) :
  0 ≤ idx →
  matrix_accesses a !! Z.to_nat idx = Some m →
  let r := CheckComputationMatrixAccesses_matrix a idx p in
  ((r.1 = Done () ∧ ¬ lifecycle_error m) ∨
   ((∃ msg, r.1 = Err msg) ∧ lifecycle_error m)) ∧
  (r.2 = p ∨
   (computation_checker_warned_unused_input p = false ∧ r.1 = Done () ∧
    unused_input m ∧
    r.2 = {| computation_checker_warned_unused_input := true;
             warnings := warnings p ++ [idx] |})) ∧
  (r.1 = Done () → unused_input m →
   computation_checker_warned_unused_input r.2 = true).
Proof.
  intros Hidx Hm. unfold CheckComputationMatrixAccesses_matrix.
  unfold mbind, checker_bind, lift.
  rewrite (proj2 (vec_at_Done (matrix_accesses a) idx m)) by done.
  unfold lifecycle_error, unused_input, warn_unused_input.
  destruct (is_input m) eqn:Hin, (is_output m) eqn:Hout;
  destruct (Z.eqb_spec (allocate_command m) (-1)) as [Ha | Ha];
  destruct (Z.eqb_spec (deallocate_command m) (-1)) as [Hd | Hd];
  destruct (accesses m) as [|front others] eqn:Hacc; simpl.
  all: try (destruct (last (front :: others)) as [back|] eqn:Hlast;
            [| by apply last_None in Hlast]).
  all: try destruct (Z.ltb_spec (command_index front) (allocate_command m));
       simpl.
  all: try destruct (Z.leb_spec (deallocate_command m) (command_index back));
       simpl.
  all: destruct (computation_checker_warned_unused_input p) eqn:Hflag; simpl.
  all: split; [| split].
  all: try (intros; done).
  all: try (left; done).
  all: try (right; split; [done |]; repeat split; done).
  all: try (intros _ Hu; break_hyp Hu; simplify_eq; done).
  all: try (right; split; [eauto |]; search).
  all: try (left; split; [done |]; intros Herr; break_hyp Herr;
            simplify_eq; try done; lia).
Qed.

Lemma for_each_checker_matrix_accesses (a : Analyzer) (idxs : list Z)
    (p : Process) :
  (∀ idx, idx ∈ idxs →
          0 ≤ idx ∧ is_Some (matrix_accesses a !! Z.to_nat idx)) →
  let r := for_each_checker (CheckComputationMatrixAccesses_matrix a) idxs p in
  ((r.1 = Done () ∧
    ∀ idx m, idx ∈ idxs → matrix_accesses a !! Z.to_nat idx = Some m →
             ¬ lifecycle_error m) ∨
   ((∃ msg, r.1 = Err msg) ∧
    ∃ idx m, idx ∈ idxs ∧ matrix_accesses a !! Z.to_nat idx = Some m ∧
             lifecycle_error m)) ∧
  (r.2 = p ∨
   (computation_checker_warned_unused_input p = false ∧
    ∃ idx m, idx ∈ idxs ∧ matrix_accesses a !! Z.to_nat idx = Some m ∧
      unused_input m ∧
      r.2 = {| computation_checker_warned_unused_input := true;
               warnings := warnings p ++ [idx] |})) ∧
  (r.1 = Done () →
   (∃ idx m, idx ∈ idxs ∧ matrix_accesses a !! Z.to_nat idx = Some m ∧
             unused_input m) →
   computation_checker_warned_unused_input r.2 = true).
Proof.
  revert p. induction idxs as [|idx idxs IH]; intros p Hin; simpl.
  - split; [| split].
    + left. split; [done |]. intros idx m Hi. by apply elem_of_nil in Hi.
    + by left.
    + intros _ (idx & m & Hi & _). by apply elem_of_nil in Hi.
  - destruct (Hin idx) as [Hidx [m Hm]]; [left |].
    destruct (CheckComputationMatrixAccesses_matrix_cases a idx m p Hidx Hm)
      as (Hres & Hstate & Hwarn).
    unfold mbind, checker_bind.
    destruct (CheckComputationMatrixAccesses_matrix a idx p) as [o p1].
    simpl in Hres, Hstate, Hwarn.
    destruct Hres as [[-> Hok] | [[msg ->] Herr]].
    + assert (Hin' : ∀ idx, idx ∈ idxs →
                0 ≤ idx ∧ is_Some (matrix_accesses a !! Z.to_nat idx))
        by (intros; apply Hin; by right).
      destruct (IH p1 Hin') as (Hres' & Hstate' & Hwarn').
      destruct (for_each_checker (CheckComputationMatrixAccesses_matrix a)
                  idxs p1) as [o' p2].
      simpl in Hres', Hstate', Hwarn'. simpl.
      assert (Hkeep : computation_checker_warned_unused_input p1 = true →
                      p2 = p1).
      { intros Hf. destruct Hstate' as [-> | [Hf' _]]; [done | congruence]. }
      split; [| split].
      * destruct Hres' as [[-> Hall] | [Herr (idx' & m' & Hi & Hm' & Hle)]].
        -- left. split; [done |]. intros idx' m' Hi Hm'.
           apply elem_of_cons in Hi as [-> | Hi]; [| by eapply Hall].
           by simplify_eq.
        -- right. split; [done |]. exists idx', m'. split; [by right | done].
      * destruct Hstate as [-> | (Hf & _ & Hu & ->)].
        -- destruct Hstate' as [-> | (Hf & idx' & m' & Hi & Hm' & Hu & ->)];
             [by left |].
           right. split; [done |]. exists idx', m'. split; [by right | done].
        -- right. split; [done |]. exists idx, m. split; [left |].
           split; [done |]. split; [done |]. by apply Hkeep.
      * intros -> (idx' & m' & Hi & Hm' & Hu).
        apply elem_of_cons in Hi as [-> | Hi].
        -- simplify_eq. rewrite Hkeep; by apply Hwarn.
        -- apply Hwarn'; [done |]. eauto.
    + simpl. split; [| split].
      * right. split; [eauto |]. exists idx, m. split; [left | done].
      * destruct Hstate as [-> | (_ & ? & _)]; [by left | done].
      * done.
Qed.

(** C6. The lifecycle check passes exactly when no matrix other than the
    null matrix has a lifecycle error: an input with an allocation command;
    a matrix that is not an input and lacks an allocation command, has no
    access, or has its first access before its allocation command; an
    output with a deallocation command; a matrix that is not an output and
    lacks a deallocation command or has its last access at or after it.
    Otherwise it raises a fatal error.  A matrix that is not an output and
    has no access is an error exactly when it is not an input; when it is
    an input the check goes on, with a warning the first time only: the run
    leaves the process state alone or, the flag not being set, sets it and
    logs one warning about an unused input, and a run that passes over an
    unused input leaves the flag set. *)
Theorem CheckComputationMatrixAccesses_spec (a : Analyzer) (p : Process) :
  let r := CheckComputationMatrixAccesses a p in
  (r.1 = Done () ↔
   ∀ (i : nat) m, (1 ≤ i)%nat → matrix_accesses a !! i = Some m →
                  ¬ lifecycle_error m) ∧
  ((∃ (i : nat) m, (1 ≤ i)%nat ∧ matrix_accesses a !! i = Some m ∧
                   lifecycle_error m) →
   ∃ msg, r.1 = Err msg) ∧
  warned_once a p r.2 ∧
  (r.1 = Done () →
   (∃ (i : nat) m, (1 ≤ i)%nat ∧ matrix_accesses a !! i = Some m ∧
                   unused_input m) →
   computation_checker_warned_unused_input r.2 = true).
Proof.
  unfold CheckComputationMatrixAccesses.
  set (idxs := seqZ 1 (vsize (matrix_accesses a) - 1)).
  assert (Hidxs : ∀ idx, idx ∈ idxs ↔ 1 ≤ idx < vsize (matrix_accesses a)).
  { intros idx. unfold idxs. rewrite elem_of_seqZ. lia. }
  assert (Hnat : ∀ (i : nat) m, (1 ≤ i)%nat →
            matrix_accesses a !! i = Some m → Z.of_nat i ∈ idxs).
  { intros i m Hi Hm. apply Hidxs. apply lookup_lt_Some in Hm.
    unfold vsize. lia. }
  destruct (for_each_checker_matrix_accesses a idxs p)
    as (Hres & Hstate & Hwarn).
  { intros idx Hi. apply Hidxs in Hi. split; [lia |].
    apply lookup_lt_is_Some_2. unfold vsize in Hi. lia. }
  destruct (for_each_checker (CheckComputationMatrixAccesses_matrix a) idxs p)
    as [o p']. simpl in *.
  split; [| split; [| split]].
  - destruct Hres as [[-> Hall] | [[msg ->] (idx & m & Hi & Hm & Herr)]].
    + split; [| done]. intros _ i m Hi Hm.
      apply (Hall (Z.of_nat i) m); [by eapply Hnat |]. by rewrite Nat2Z.id.
    + split; [done |]. intros Hall. exfalso.
      apply (Hall (Z.to_nat idx) m); [| done | done].
      apply Hidxs in Hi. lia.
  - intros (i & m & Hi & Hm & Herr).
    destruct Hres as [[-> Hall] | [Hmsg _]]; [| done].
    exfalso. apply (Hall (Z.of_nat i) m); [by eapply Hnat | | done].
    by rewrite Nat2Z.id.
  - destruct Hstate as [-> | (Hf & idx & m & Hi & Hm & Hu & ->)]; [by left |].
    right. split; [done |]. apply Hidxs in Hi.
    exists (Z.to_nat idx), m. split; [lia |]. split; [done |].
    split; [done |]. by rewrite Z2Nat.id by lia.
  - intros -> (i & m & Hi & Hm & Hu). apply Hwarn; [done |].
    exists (Z.of_nat i), m. split; [by eapply Hnat |].
    by rewrite Nat2Z.id.
Qed.

Example CheckComputationMatrixAccesses_warns_once :
  CheckComputationMatrixAccesses
    (histories [used_matrix; unused_input_matrix; unused_input_matrix])
    fresh_process
  = (Done (), {| computation_checker_warned_unused_input := true;
                 warnings := [2] |}).
Proof. reflexivity. Qed.

Example CheckComputationMatrixAccesses_never_allocated :
  CheckComputationMatrixAccesses (histories [used_matrix; never_allocated])
                                 fresh_process
  = (Err "Matrix is not initialized.", fresh_process).
Proof. reflexivity. Qed.

Lemma CheckComputationMatrixAccesses_spec_witness :
  (∃ (i : nat) m, (1 ≤ i)%nat ∧
     matrix_accesses (histories [used_matrix; never_allocated]) !! i = Some m ∧
     lifecycle_error m) ∧
  ∃ msg, (CheckComputationMatrixAccesses
            (histories [used_matrix; never_allocated]) fresh_process).1
         = Err msg.
Proof.
  assert (Hbad : ∃ (i : nat) m, (1 ≤ i)%nat ∧
            matrix_accesses (histories [used_matrix; never_allocated]) !! i
              = Some m ∧ lifecycle_error m).
  { exists 2%nat, never_allocated. split; [lia |]. split; [reflexivity |].
    right. left. split; [reflexivity |]. left. reflexivity. }
  split; [exact Hbad |].
  exact (proj1 (proj2 (CheckComputationMatrixAccesses_spec
                         (histories [used_matrix; never_allocated])
                         fresh_process)) Hbad).
Defined.

(** ** CheckComputationRewrite and Check *)

Lemma modified_after_read_loop (msg : string) (l : list Access) (k : Z) :
  let loop := for_indexed (λ (_ : unit) (_ : Z) (x : Access),
      err_if (negb (bool_decide (access_type x = kReadAccess))) msg) k l () in
  (loop = Done () ∧ Forall (λ x, access_type x = kReadAccess) l) ∨
  (loop = Err msg ∧ Exists (λ x, access_type x ≠ kReadAccess) l).
Proof.
  revert k. induction l as [|x l IH]; intros k; simpl.
  - left. split; [done | constructor].
  - case_bool_decide as Hx; simpl.
    + destruct (IH (k + 1)) as [[Hd Hall] | [He Hex]].
      * left. split; [done |]. by constructor.
      * right. split; [done |]. by apply Exists_cons_tl.
    + right. split; [done |]. by apply Exists_cons_hd.
Qed.

Lemma first_pure_read_Some (accesses : list Access) (i : nat) (x : Access) :
  list_find (λ a, access_type a = kReadAccess) accesses = Some (i, x) →
  first_pure_read accesses = Z.of_nat i ∧ accesses !! i = Some x ∧
  access_type x = kReadAccess ∧
  ∀ (j : nat) y, accesses !! j = Some y → (j < i)%nat →
                 access_type y ≠ kReadAccess.
Proof.
  intros Hfind. unfold first_pure_read. rewrite Hfind.
  apply list_find_Some in Hfind as (Hl & Hx & Hbefore). done.
Qed.

Lemma first_pure_read_None (accesses : list Access) :
  list_find (λ a, access_type a = kReadAccess) accesses = None →
  first_pure_read accesses = -1 ∧
  Forall (λ x, access_type x ≠ kReadAccess) accesses.
Proof.
  intros Hfind. unfold first_pure_read. rewrite Hfind.
  by apply list_find_None in Hfind.
Qed.

(** The checks of [CheckComputationRewrite] on the history of one
    variable. *)
Lemma CheckComputationRewrite_variable (a : Analyzer) (v : nat)
    (accesses : list Access) (matrix_index : Z) (m : MatrixAccesses) :
  variable_to_matrix_ (variables a) !! v = Some matrix_index →
  0 ≤ matrix_index →
  matrix_accesses a !! Z.to_nat matrix_index = Some m →
  let o :=
    matrix_index ← GetMatrixForVariable (variables a) (Z.of_nat v);
    (if bool_decide (accesses = []) then
       m ← vec_at (matrix_accesses a) matrix_index;
       err_if (negb (is_input m)) "Variable is never used."
     else Done ());;
    let num_accesses := vsize accesses in
    let first_pure_read := first_pure_read accesses in
    if negb (first_pure_read =? -1) then
      for_range (first_pure_read + 1) num_accesses (λ _ access,
          x ← vec_at accesses access;
          err_if (negb (bool_decide (access_type x = kReadAccess)))
            "Variable is modified after being read (this is not expected before optimization)")
        ()
    else Done () in
  (o = Done () ∧ ¬ rewrite_error accesses m) ∨
  ((∃ msg, o = Err msg) ∧ rewrite_error accesses m).
Proof.
  intros Hvtm Hmi Hm. simpl.
  unfold GetMatrixForVariable, size_t_lt.
  assert (Hlt : Z.of_nat v < vsize (variable_to_matrix_ (variables a))).
  { apply lookup_lt_Some in Hvtm. unfold vsize. lia. }
  replace ((0 <=? Z.of_nat v) &&
           (Z.of_nat v <? vsize (variable_to_matrix_ (variables a))))
    with true by (symmetry; apply andb_true_iff; split; lia).
  simpl. rewrite (vec_at_lookup _ v matrix_index Hvtm). simpl.
  unfold rewrite_error.
  destruct accesses as [|x0 accesses'] eqn:Hacc.
  - rewrite bool_decide_eq_true_2 by done.
    rewrite (proj2 (vec_at_Done (matrix_accesses a) matrix_index m)) by done.
    simpl. destruct (is_input m); simpl.
    + left. split; [done |]. intros [[_ ?] | (i & j & x & y & _ & Hi & _)]; done.
    + right. split; [eauto |]. by left.
  - rewrite bool_decide_eq_false_2 by done. simpl. rewrite <- Hacc.
    assert (Hne : accesses ≠ []) by (by rewrite Hacc). clear Hacc.
    destruct (list_find (λ a, access_type a = kReadAccess) accesses)
      as [[i x]|] eqn:Hfind.
    + apply first_pure_read_Some in Hfind as (-> & Hi & Hx & Hbefore).
      replace (Z.of_nat i =? -1) with false by (symmetry; apply Z.eqb_neq; lia).
      simpl.
      assert (Hsplit : ∃ pre post, accesses = pre ++ post ∧
                vsize pre = Z.of_nat i + 1 ∧ post = drop (S i) accesses).
      { exists (take (S i) accesses), (drop (S i) accesses).
        split; [by rewrite take_drop |]. split; [| done].
        unfold vsize. rewrite length_take. apply lookup_lt_Some in Hi. lia. }
      destruct Hsplit as (pre & post & Hsplit & Hlen & Hpost).
      rewrite <- Hlen. rewrite Hsplit.
      rewrite (for_range_vec_at pre post
                 (λ (_ : unit) (_ : Z) (x : Access),
                    err_if (negb (bool_decide (access_type x = kReadAccess)))
                      "Variable is modified after being read (this is not expected before optimization)")).
      rewrite <- Hsplit.
      destruct (modified_after_read_loop
                  "Variable is modified after being read (this is not expected before optimization)"
                  post (vsize pre))
        as [[-> Hall] | [-> Hex]]; rewrite Hpost in *.
      * left. split; [done |].
        intros [[? _] | (i' & j & x' & y & Hij & Hi' & Hj & Hx' & Hy)];
          [done |].
        assert (i ≤ i')%nat.
        { destruct (decide (i' < i)%nat) as [Hlt' |]; [| lia].
          by destruct (Hbefore i' x' Hi' Hlt'). }
        rewrite Forall_forall in Hall. apply Hy, Hall.
        apply list_elem_of_lookup. exists (j - S i)%nat.
        rewrite lookup_drop. by replace (S i + (j - S i))%nat with j by lia.
      * right. split; [eauto |]. right.
        apply Exists_exists in Hex as (y & Hy & Hty).
        apply list_elem_of_lookup in Hy as [j Hj]. rewrite lookup_drop in Hj.
        exists i, (S i + j)%nat, x, y. split; [lia | done].
    + apply first_pure_read_None in Hfind as (-> & Hall). simpl.
      left. split; [done |].
      intros [[? _] | (i & j & x & y & _ & Hi & _ & Hx & _)]; [done |].
      rewrite Forall_forall in Hall. apply (Hall x); [| done].
      apply list_elem_of_lookup. eauto.
Qed.

Lemma matrix_of_variable_unique (a : Analyzer) (v : nat) (m m' : MatrixAccesses) :
  matrix_of_variable a v m → matrix_of_variable a v m' → m = m'.
Proof. intros (mi & ? & ? & ?) (mi' & ? & ? & ?). by simplify_eq. Qed.

Lemma CheckComputationRewrite_loop (a : Analyzer) (l pre : list (list Access)) :
  variable_accesses a = pre ++ l →
  variables_have_matrices a →
  let loop :=
    for_indexed (λ (_ : unit) (v : Z) (accesses : list Access),
      matrix_index ← GetMatrixForVariable (variables a) v;
      (if bool_decide (accesses = []) then
         m ← vec_at (matrix_accesses a) matrix_index;
         err_if (negb (is_input m)) "Variable is never used."
       else Done ());;
      let num_accesses := vsize accesses in
      let first_pure_read := first_pure_read accesses in
      if negb (first_pure_read =? -1) then
        for_range (first_pure_read + 1) num_accesses (λ _ access,
            x ← vec_at accesses access;
            err_if (negb (bool_decide (access_type x = kReadAccess)))
              "Variable is modified after being read (this is not expected before optimization)")
          ()
      else Done ()) (vsize pre) l () in
  (loop = Done () ∧
   ∀ (i : nat) accesses m,
     l !! i = Some accesses → matrix_of_variable a (length pre + i) m →
     ¬ rewrite_error accesses m) ∨
  ((∃ msg, loop = Err msg) ∧
   ∃ (i : nat) accesses m,
     l !! i = Some accesses ∧ matrix_of_variable a (length pre + i) m ∧
     rewrite_error accesses m).
Proof.
  intros Hva Hwf. revert pre Hva.
  induction l as [|accesses l IH]; intros pre Hva.
  - left. split; [done |]. intros i accesses m Hl. done.
  - destruct (Hwf (length pre) accesses) as (mi & m & Hvtm & Hmi & Hm).
    { rewrite Hva. by rewrite list_lookup_middle. }
    destruct (CheckComputationRewrite_variable a (length pre) accesses mi m
                Hvtm Hmi Hm) as [[Hd Hok] | [Herr Hbad]].
    + specialize (IH (pre ++ [accesses])).
      rewrite <- app_assoc in IH. specialize (IH Hva).
      cbn [for_indexed]. change (vsize pre) with (Z.of_nat (length pre)).
      cbv beta zeta in Hd, IH |- *. rewrite Hd.
      replace (vsize (pre ++ [accesses])) with (Z.of_nat (length pre) + 1) in IH
        by (unfold vsize; rewrite length_app; simpl; lia).
      destruct IH as [[Hd' Hall] | [Herr' (i & accs & m' & Hl & Hmv & Hbad)]].
      * left. split; [exact Hd' |]. intros [|i] accs m' Hl Hmv; simpl in Hl.
        -- simplify_eq. rewrite Nat.add_0_r in Hmv.
           assert (m' = m) as ->; [| done].
           eapply matrix_of_variable_unique; [done |]. by exists mi.
        -- apply (Hall i accs m' Hl).
           rewrite length_app. simpl.
           by replace (length pre + 1 + i)%nat with (length pre + S i)%nat
             by lia.
      * right. split; [exact Herr' |]. exists (S i), accs, m'.
        split; [done |]. split; [| done].
        rewrite length_app in Hmv. simpl in Hmv.
        by replace (length pre + S i)%nat with (length pre + 1 + i)%nat by lia.
    + right. cbn [for_indexed]. change (vsize pre) with (Z.of_nat (length pre)).
      destruct Herr as [msg Herr]. cbv beta zeta in Herr |- *.
      rewrite Herr. split; [simpl; eauto |].
      exists 0%nat, accesses, m. split; [done |]. split; [| done].
      rewrite Nat.add_0_r. by exists mi.
Qed.

Lemma CheckComputationRewrite_cases (a : Analyzer) :
  variables_have_matrices a →
  (CheckComputationRewrite a = Done () ∧
   ∀ (v : nat) accesses m,
     variable_accesses a !! v = Some accesses → matrix_of_variable a v m →
     ¬ rewrite_error accesses m) ∨
  ((∃ msg, CheckComputationRewrite a = Err msg) ∧
   ∃ (v : nat) accesses m,
     variable_accesses a !! v = Some accesses ∧ matrix_of_variable a v m ∧
     rewrite_error accesses m).
Proof.
  intros Hwf. unfold CheckComputationRewrite.
  rewrite (for_range_vec_at_0 (variable_accesses a)
             (λ (_ : unit) (v : Z) (accesses : list Access),
                matrix_index ← GetMatrixForVariable (variables a) v;
                (if bool_decide (accesses = []) then
                   m ← vec_at (matrix_accesses a) matrix_index;
                   err_if (negb (is_input m)) "Variable is never used."
                 else Done ());;
                let num_accesses := vsize accesses in
                let first_pure_read := first_pure_read accesses in
                if negb (first_pure_read =? -1) then
                  for_range (first_pure_read + 1) num_accesses (λ _ access,
                      x ← vec_at accesses access;
                      err_if (negb (bool_decide (access_type x = kReadAccess)))
                        "Variable is modified after being read (this is not expected before optimization)")
                    ()
                else Done ())).
  exact (CheckComputationRewrite_loop a (variable_accesses a) [] eq_refl Hwf).
Qed.

(** ** The analyzer [Analyzer::Init] builds *)

Lemma for_each_invariant {A St} (P : St → Prop) (body : St → A → outcome St)
    (l : list A) (st st' : St) :
  (∀ st x st', x ∈ l → P st → body st x = Done st' → P st') →
  P st → for_each body l st = Done st' → P st'.
Proof.
  revert st. induction l as [|x l IH]; intros st Hbody HP Hloop;
    simpl in Hloop.
  - by simplify_eq.
  - apply bind_Done in Hloop as (st1 & Hstep & Hloop).
    apply (IH st1); [| | done].
    + intros st2 y st3 Hy. apply Hbody. by right.
    + apply (Hbody st x); [left | done | done].
Qed.

Lemma count_0_not_elem_of (v : list Z) (val : Z) :
  count v val = 0 → val ∉ v.
Proof.
  unfold count, vsize. intros Hc Hin.
  assert (Hf : val ∈ filter (λ x, x = val) v) by (by apply list_elem_of_filter).
  destruct (filter (λ x, x = val) v); [by apply elem_of_nil in Hf |].
  simpl in Hc. lia.
Qed.

(** Every variable gets the matrix of a view. *)
Lemma ComputeVariableToMatrix_matrices (computation : NnetComputation)
    (v2 v3 : ComputationVariables) :
  ComputeVariableToMatrix computation v2 = Done v3 →
  length (variable_to_matrix_ v3) = Z.to_nat (num_variables_ v2) ∧
  ∀ (v : nat) m, variable_to_matrix_ v3 !! v = Some m →
    ∃ (i : nat) s, (1 ≤ i)%nat ∧ submatrices computation !! i = Some s ∧
                   m = matrix_index s.
Proof.
  unfold ComputeVariableToMatrix, NumVariables. intros Hc.
  apply bind_Done in Hc as (vtm & Hloop & Hc).
  apply bind_Done in Hc as ([] & Hcount & Hc).
  injection Hc as <-. simpl.
  apply KALDI_ASSERT_Done, Z.eqb_eq, count_0_not_elem_of in Hcount.
  set (P := λ vtm : list Z,
         length vtm = Z.to_nat (num_variables_ v2) ∧
         ∀ (v : nat) m, vtm !! v = Some m →
           m = -1 ∨
           ∃ (i : nat) s, (1 ≤ i)%nat ∧
             submatrices computation !! i = Some s ∧ m = matrix_index s).
  assert (HP : P vtm).
  { unfold for_range in Hloop.
    eapply (for_each_invariant P); [| | exact Hloop].
    - intros st i st' Hi HPst Hstep. apply elem_of_seqZ in Hi.
      apply bind_Done in Hstep as (s & Hs & Hstep).
      apply bind_Done in Hstep as ([variable_start variable_end] & _ & Hstep).
      apply vec_at_Done in Hs as [_ Hs].
      unfold for_range in Hstep.
      eapply (for_each_invariant P); [| exact HPst | exact Hstep].
      intros vtm1 v vtm2 _ [Hlen Hall] Hinner.
      apply bind_Done in Hinner as (m & _ & Hinner).
      destruct (m =? -1).
      + apply vec_set_Done in Hinner as [Hv ->]. split.
        * by rewrite length_insert.
        * intros w mw Hw.
          destruct (decide (w = Z.to_nat v)) as [-> | Hne].
          -- rewrite list_lookup_insert_eq in Hw by (unfold vsize in Hv; lia).
             injection Hw as <-. right. exists (Z.to_nat i), s.
             split; [lia | done].
          -- rewrite list_lookup_insert_ne in Hw by done. by eapply Hall.
      + apply bind_Done in Hinner as ([] & _ & Hinner).
        injection Hinner as <-. done.
    - split; [by rewrite length_resize |].
      intros v m Hv. left. rewrite resize_nil in Hv.
      by apply lookup_replicate in Hv as [-> _]. }
  destruct HP as [Hlen Hall]. split; [done |].
  intros v m Hv. destruct (Hall v m Hv) as [-> | ?]; [| done].
  destruct Hcount. apply list_elem_of_lookup. eauto.
Qed.

Lemma ComputeSubmatrixInfo_keeps (computation : NnetComputation)
    (v3 v4 : ComputationVariables) :
  ComputeSubmatrixInfo computation v3 = Done v4 →
  variable_to_matrix_ v4 = variable_to_matrix_ v3 ∧
  num_variables_ v4 = num_variables_ v3.
Proof.
  unfold ComputeSubmatrixInfo. intros Hc.
  apply bind_Done in Hc as ([stm whole] & _ & Hc). injection Hc as <-. done.
Qed.

Lemma ComputeVariableAccesses_length (vars : ComputationVariables)
    (attributes : list CommandAttributes) (va : list (list Access)) :
  ComputeVariableAccesses vars attributes = Done va →
  length va = Z.to_nat (num_variables_ vars).
Proof.
  unfold ComputeVariableAccesses, NumVariables, for_range. intros Hc.
  eapply (for_each_invariant
            (λ va, length va = Z.to_nat (num_variables_ vars)));
    [| | exact Hc].
  - intros st c st' _ Hlen Hstep.
    apply bind_Done in Hstep as (attr & _ & Hstep).
    apply bind_Done in Hstep as ([] & _ & Hstep).
    apply bind_Done in Hstep as ([] & _ & Hstep).
    eapply (for_each_invariant
              (λ va, length va = Z.to_nat (num_variables_ vars)));
      [| exact Hlen | exact Hstep].
    intros st1 v st2 _ Hlen1 Hinner.
    apply bind_Done in Hinner as (l & _ & Hinner).
    apply vec_set_Done in Hinner as [_ ->]. by rewrite length_insert.
  - by rewrite length_resize.
Qed.

Lemma ComputeMatrixAccesses_length (nnet : Nnet) (computation : NnetComputation)
    (vars : ComputationVariables) (attributes : list CommandAttributes)
    (ma : list MatrixAccesses) :
  ComputeMatrixAccesses nnet computation vars attributes = Done ma →
  length ma = length (matrices computation).
Proof.
  unfold ComputeMatrixAccesses, for_range. intros Hc.
  apply bind_Done in Hc as (ma1 & Hloop & Hio).
  assert (Hlen1 : length ma1 = length (matrices computation)).
  { eapply (for_each_invariant
              (λ ma, length ma = length (matrices computation)));
      [| | exact Hloop].
    - intros st c st' _ Hlen Hstep.
      apply bind_Done in Hstep as (attr & _ & Hstep).
      apply bind_Done in Hstep as ([] & _ & Hstep).
      apply bind_Done in Hstep as ([] & _ & Hstep).
      apply bind_Done in Hstep as (st1 & Hinner & Hstep).
      assert (Hlen' : length st1 = length (matrices computation)).
      { eapply (for_each_invariant
                  (λ ma, length ma = length (matrices computation)));
          [| exact Hlen | exact Hinner].
        intros st2 m st3 _ Hlen2 Hset.
        apply bind_Done in Hset as (x & _ & Hset).
        apply vec_set_Done in Hset as [_ ->]. by rewrite length_insert. }
      apply bind_Done in Hstep as (command & _ & Hstep).
      destruct (command_type command);
        try (by injection Hstep as <-);
        apply bind_Done in Hstep as (x & _ & Hstep);
        apply bind_Done in Hstep as ([] & _ & Hstep);
        apply vec_set_Done in Hstep as [_ ->]; by rewrite length_insert.
    - rewrite length_resize. unfold vsize. lia. }
  eapply (for_each_invariant
            (λ ma, length ma = length (matrices computation)));
    [| exact Hlen1 | exact Hio].
  intros st [node [value deriv]] st' _ Hlen Hstep.
  apply bind_Done in Hstep as ([] & _ & Hstep).
  destruct (IsInputNode nnet node).
  - apply bind_Done in Hstep as (m & _ & Hstep).
    apply bind_Done in Hstep as ([] & _ & Hstep).
    apply bind_Done in Hstep as (st1 & Hset & Hstep).
    apply vec_set_Done in Hset as [_ ->].
    destruct (negb (deriv =? 0)).
    + apply bind_Done in Hstep as (m' & _ & Hstep).
      apply bind_Done in Hstep as ([] & _ & Hstep).
      apply vec_set_Done in Hstep as [_ ->]. by rewrite !length_insert.
    + injection Hstep as <-. by rewrite length_insert.
  - apply bind_Done in Hstep as ([] & _ & Hstep).
    apply bind_Done in Hstep as (m & _ & Hstep).
    apply bind_Done in Hstep as ([] & _ & Hstep).
    apply bind_Done in Hstep as (st1 & Hset & Hstep).
    apply vec_set_Done in Hset as [_ ->].
    destruct (negb (deriv =? 0)).
    + apply bind_Done in Hstep as (m' & _ & Hstep).
      apply bind_Done in Hstep as ([] & _ & Hstep).
      apply vec_set_Done in Hstep as [_ ->]. by rewrite !length_insert.
    + injection Hstep as <-. by rewrite length_insert.
Qed.

Section AnalyzerInit.
Context `{ComponentProperties}.

(** In the analyzer [Init] builds every variable has a matrix, and the
    matrix a record. *)
Lemma Analyzer_Init_variables_have_matrices (nnet : Nnet)
    (computation : NnetComputation) (a : Analyzer) :
  Analyzer_Init nnet computation = Done a → variables_have_matrices a.
Proof.
  unfold Analyzer_Init. intros Hinit.
  apply bind_Done in Hinit as (vars & Hvars & Hinit).
  apply bind_Done in Hinit as (attributes & _ & Hinit).
  apply bind_Done in Hinit as (va & Hva & Hinit).
  apply bind_Done in Hinit as (ma & Hma & Hinit).
  injection Hinit as <-.
  unfold ComputationVariables_Init in Hvars.
  apply bind_Done in Hvars as ([] & _ & Hvars).
  apply bind_Done in Hvars as (v1 & Hcsp & Hvars).
  apply bind_Done in Hvars as (v2 & Hcvr & Hvars).
  apply bind_Done in Hvars as (v3 & Hcvtm & Hcsi).
  destruct (ComputeSplitPoints_Done computation ComputationVariables_new v1
              eq_refl Hcsp) as (s0 & views & Hsub & Hviews & _).
  destruct (ComputeVariableToMatrix_matrices _ _ _ Hcvtm) as [Hlen Hvtm].
  destruct (ComputeSubmatrixInfo_keeps _ _ _ Hcsi) as [Hvtm4 Hnv4].
  destruct (ComputeVariableToMatrix_Done _ _ _ Hcvtm) as (_ & _ & Hnv3 & _).
  apply ComputeVariableAccesses_length in Hva.
  apply ComputeMatrixAccesses_length in Hma.
  intros v accesses Hv. simpl in *.
  apply lookup_lt_Some in Hv.
  destruct (lookup_lt_is_Some_2 (variable_to_matrix_ vars) v) as [m Hm].
  { rewrite Hvtm4, Hlen. rewrite Hva, Hnv4, Hnv3 in Hv. done. }
  rewrite Hvtm4 in Hm.
  destruct (Hvtm v m Hm) as (i & s & Hi & Hs & ->).
  rewrite Hsub in Hs. destruct i as [|i]; [lia |]. simpl in Hs.
  rewrite Forall_forall in Hviews.
  destruct (Hviews s) as [Hlo Hhi]; [apply list_elem_of_lookup; eauto |].
  destruct (lookup_lt_is_Some_2 ma (Z.to_nat (matrix_index s))) as [rec Hrec].
  { rewrite Hma. unfold vsize in Hhi. lia. }
  exists (matrix_index s), rec. rewrite Hvtm4. done.
Qed.

End AnalyzerInit.

Section CheckRewriteFlag.
Context `{ComponentProperties}.



End CheckRewriteFlag.

Example CheckComputationRewrite_written_then_read :
  CheckComputationRewrite (one_variable written_then_read) = Done ().
Proof. reflexivity. Qed.

Example CheckComputationRewrite_read_then_written :
  CheckComputationRewrite (one_variable read_then_written)
  = Err "Variable is modified after being read (this is not expected before optimization)".
Proof. reflexivity. Qed.

(** A program that adds to a matrix it has read before: the checks other
    than the rewrite check pass. *)
Example Check_in_place_without_rewrite_check :
  @Check kaldi_properties {| check_rewrite := false |}
    (one_component (component_with 0)) in_place_program fresh_process
  = (Done (), fresh_process).
Proof. vm_compute. reflexivity. Qed.

Example Check_in_place_with_rewrite_check :
  @Check kaldi_properties {| check_rewrite := true |}
    (one_component (component_with 0)) in_place_program fresh_process
  = (Err "Variable is modified after being read (this is not expected before optimization)",
     fresh_process).
Proof. vm_compute. reflexivity. Qed.


(** ** CheckComputationIndexes: the loop over the commands *)

Section CheckComputationIndexesLoop.
Context `{ComponentProperties}.

(** The check of the program passes when the check of every command
    does. *)
Lemma CheckComputationIndexes_Done (nnet : Nnet) (computation : NnetComputation) :
  CheckComputationIndexes nnet computation = Done () ↔
  Forall (λ c, CheckComputationIndexes_command nnet computation c = Done ())
         (commands computation).
Proof.
  unfold CheckComputationIndexes.
  induction (commands computation) as [|c l IH]; simpl.
  - split; [constructor | done].
  - rewrite Forall_cons.
    destruct (CheckComputationIndexes_command nnet computation c) as [[]| | |];
      simpl.
    + rewrite IH. tauto.
    + split; [done | intros [? _]; done].
    + split; [done | intros [? _]; done].
    + split; [done | intros [? _]; done].
Qed.

(** The error of the first command that does not pass is the error of the
    check of the program. *)
Lemma CheckComputationIndexes_first_error (nnet : Nnet)
    (computation : NnetComputation) (before after : list Command)
    (c : Command) (msg : string) :
  commands computation = before ++ c :: after →
  Forall (λ c, CheckComputationIndexes_command nnet computation c = Done ())
         before →
  CheckComputationIndexes_command nnet computation c = Err msg →
  CheckComputationIndexes nnet computation = Err msg.
Proof.
  unfold CheckComputationIndexes. intros -> Hbefore Hc.
  induction Hbefore as [|c' l Hc' _ IH]; simpl.
  - by rewrite Hc.
  - by rewrite Hc'.
Qed.

End CheckComputationIndexesLoop.

(** ** CheckComputationIndexes: Backprop without an input derivative *)

Section BackpropNoEffect.
Context `{ComponentProperties}.

Lemma has_flag_0 (flag : Z) : has_flag 0 flag = false.
Proof. unfold has_flag, truthy. by rewrite Z.land_0_l. Qed.

(** C10. A Backprop command without an input-derivative operand (operand
    6 is the empty submatrix), whose indexes are in range, raises "Backprop
    is done but has no effect." exactly when the property bits of its
    component are all zero: a component with any bit set passes this check,
    whether or not the updatable bit is among them. *)
Theorem Backprop_no_effect (nnet : Nnet) (computation : NnetComputation)
    (c : Command) (component : Component) :
  command_type c = kBackprop →
  arg6 c = 0 →
  kUpdatableComponent ≠ 0 →
  0 ≤ arg1 c < NumNodes nnet →
  IsComponentNode nnet (arg1 c) = true →
  GetComponentForNode nnet (arg1 c) = Done component →
  0 ≤ arg2 c ≤ vsize (component_precomputed_indexes computation) →
  0 ≤ arg3 c < vsize (submatrices computation) →
  0 ≤ arg4 c < vsize (submatrices computation) →
  1 ≤ arg5 c < vsize (submatrices computation) →
  CheckComputationIndexes_command nnet computation c
    = Err "Backprop is done but has no effect."
  ↔ Properties component = 0.
Proof.
  intros Hty H6 Hupd H1 Hnode Hcomp H2 H3 H4 H5.
  unfold CheckComputationIndexes_command. rewrite Hty, H6, Hnode, Hcomp.
  replace ((arg1 c <? 0) || (NumNodes nnet <=? arg1 c) || negb true)
    with false by (symmetry; rewrite !orb_false_iff; repeat split; lia).
  simpl.
  replace ((arg2 c <? 0) ||
           (vsize (component_precomputed_indexes computation) <? arg2 c))
    with false by (symmetry; rewrite !orb_false_iff; repeat split; lia).
  simpl.
  replace ((arg3 c <? 0) || (vsize (submatrices computation) <=? arg3 c) ||
           (arg4 c <? 0) || (vsize (submatrices computation) <=? arg4 c) ||
           (arg5 c <? 1) || (vsize (submatrices computation) <=? arg5 c) ||
           (0 <? 0) || (vsize (submatrices computation) <=? 0))
    with false by (symmetry; rewrite !orb_false_iff; repeat split; lia).
  destruct (Z.eq_dec (Properties component) 0) as [Hz | Hnz].
  - rewrite Hz, !has_flag_0. rewrite !andb_false_r. simpl. done.
  - split; [| done]. intros Herr. exfalso. revert Herr.
    replace (truthy (Properties component) && truthy kUpdatableComponent)
      with true
      by (symmetry; unfold truthy; rewrite andb_true_iff, !negb_true_iff;
          split; by apply Z.eqb_neq).
    repeat step_not "Backprop is done but has no effect.".
Qed.

End BackpropNoEffect.

(** A component that is simple and not updatable passes. *)
Example Backprop_no_effect_simple_component :
  @CheckComputationIndexes_command kaldi_properties
    (one_component (component_with 0x001)) (one_matrix [])
    backprop_without_input_deriv
  = Done ().
Proof. reflexivity. Qed.

Lemma Backprop_no_effect_witness :
  let nnet := one_component (component_with 0) in
  let c := backprop_without_input_deriv in
  (command_type c = kBackprop ∧ arg6 c = 0 ∧
   @kUpdatableComponent kaldi_properties ≠ 0 ∧
   0 ≤ arg1 c < NumNodes nnet ∧
   IsComponentNode nnet (arg1 c) = true ∧
   GetComponentForNode nnet (arg1 c) = Done (component_with 0) ∧
   0 ≤ arg2 c ≤ vsize (component_precomputed_indexes (one_matrix [])) ∧
   0 ≤ arg3 c < vsize (submatrices (one_matrix [])) ∧
   0 ≤ arg4 c < vsize (submatrices (one_matrix [])) ∧
   1 ≤ arg5 c < vsize (submatrices (one_matrix []))) ∧
  (@CheckComputationIndexes_command kaldi_properties nnet (one_matrix []) c
     = Err "Backprop is done but has no effect."
   ↔ Properties (component_with 0) = 0).
Proof.
  simpl. split.
  - repeat split; try reflexivity; try discriminate; unfold vsize; simpl; lia.
  - apply (@Backprop_no_effect kaldi_properties
             (one_component (component_with 0)) (one_matrix [])
             backprop_without_input_deriv (component_with 0));
      try reflexivity; try discriminate; unfold vsize; simpl; lia.
Defined.

(** ** CheckComputationIndexes: duplicates in the *-multi commands *)

Global Instance pair_le_total : Total pair_le.
Proof. intros [a b] [c d]. unfold pair_le. simpl. lia. Qed.

Global Instance pair_le_trans : Transitive pair_le.
Proof. intros [a b] [c d] [e f]. unfold pair_le. simpl. lia. Qed.

Global Instance pair_le_antisymm : AntiSymm (=) pair_le.
Proof.
  intros [a b] [c d]. unfold pair_le. simpl. intros ? ?. f_equal; lia.
Qed.

Lemma has_duplicate_cons (p : Z * Z) (l : list (Z * Z)) :
  has_duplicate (p :: l) ↔ (p.1 ≠ -1 ∧ p ∈ l) ∨ has_duplicate l.
Proof.
  split.
  - intros (i & j & q & Hij & Hi & Hj & Hq).
    destruct i as [|i], j as [|j]; simpl in Hi, Hj; simplify_eq.
    + left. split; [done |]. apply list_elem_of_lookup. eauto.
    + left. split; [done |]. apply list_elem_of_lookup. eauto.
    + right. exists i, j, q. split; [congruence | done].
  - intros [[Hp Hin] | (i & j & q & Hij & Hi & Hj & Hq)].
    + apply list_elem_of_lookup in Hin as [j Hj].
      exists 0%nat, (S j), p. done.
    + exists (S i), (S j), q. split; [congruence | done].
Qed.

Lemma has_duplicate_NoDup (pairs : list (Z * Z)) :
  has_duplicate pairs ↔ ¬ NoDup (filter (λ p, p.1 ≠ -1) pairs).
Proof.
  induction pairs as [|p l IH].
  - split.
    + intros (i & j & q & _ & Hi & _). done.
    + intros Hn. destruct Hn. constructor.
  - rewrite has_duplicate_cons, IH. rewrite filter_cons.
    destruct (decide (p.1 ≠ -1)) as [Hp | Hp].
    + rewrite NoDup_cons, list_elem_of_filter. split.
      * intros [[_ Hin] | Hnd] [Hnotin Hno]; [| done].
        apply Hnotin. done.
      * intros Hn.
        destruct (decide (p ∈ l)) as [Hin | Hnotin]; [left; done |].
        right. intros Hno. apply Hn. split; [| done]. intros [_ ?]. done.
    + split; [| by right]. intros [[? _] | ?]; done.
Qed.

Lemma check_duplicates_sorted (l : list (Z * Z)) :
  StronglySorted pair_le l →
  (check_duplicates l = Done () ∧ NoDup (filter (λ p, p.1 ≠ -1) l)) ∨
  (check_duplicates l
     = Err "Duplicate element found in indexes for {add,copy}-to-rows-multi command."
   ∧ ¬ NoDup (filter (λ p, p.1 ≠ -1) l)).
Proof.
  induction l as [|p l IH]; intros Hs.
  - left. split; [done |]. constructor.
  - apply StronglySorted_inv in Hs as [Hs Hall].
    specialize (IH Hs). cbn [check_duplicates].
    destruct l as [|q l'].
    + simpl. left. split; [done |]. rewrite filter_cons.
      destruct (decide (p.1 ≠ -1)); rewrite filter_nil;
        [apply NoDup_singleton | constructor].
    + destruct (decide (p = q)) as [<- | Hne].
      * rewrite bool_decide_eq_true_2 by done.
        destruct (Z.eqb_spec p.1 (-1)) as [Hsent | Hnon]; simpl.
        -- rewrite filter_cons_False by (intros ?; done). exact IH.
        -- right. split; [done |].
           rewrite !filter_cons_True by done.
           intros Hnd. apply NoDup_cons in Hnd as [Hnotin _].
           apply Hnotin. left.
      * rewrite bool_decide_eq_false_2 by done. simpl.
        assert (Hfresh : p ∉ q :: l').
        { intros Hin.
          apply StronglySorted_inv in Hs as [_ Hq].
          assert (pair_le p q) by (by inversion Hall).
          apply elem_of_cons in Hin as [-> | Hin]; [done |].
          rewrite Forall_forall in Hq. specialize (Hq p Hin).
          apply Hne. by apply (anti_symm pair_le). }
        rewrite (filter_cons _ p).
        destruct (decide (p.1 ≠ -1)); [| exact IH].
        destruct IH as [[Hd Hnd] | [He Hnd]].
        -- left. split; [done |]. apply NoDup_cons. split; [| done].
           rewrite list_elem_of_filter. intros [_ ?]. done.
        -- right. split; [done |]. intros Hn. apply NoDup_cons in Hn as [_ ?].
           done.
Qed.

Lemma check_duplicates_sort (pairs : list (Z * Z)) :
  (check_duplicates (merge_sort pair_le pairs) = Done () ∧
   ¬ has_duplicate pairs) ∨
  (check_duplicates (merge_sort pair_le pairs)
     = Err "Duplicate element found in indexes for {add,copy}-to-rows-multi command."
   ∧ has_duplicate pairs).
Proof.
  assert (Hperm : filter (λ p : Z * Z, p.1 ≠ -1) (merge_sort pair_le pairs)
                  ≡ₚ filter (λ p : Z * Z, p.1 ≠ -1) pairs).
  { by rewrite merge_sort_Permutation. }
  destruct (check_duplicates_sorted (merge_sort pair_le pairs))
    as [[Hd Hnd] | [He Hnd]].
  - apply StronglySorted_merge_sort; apply _.
  - left. split; [done |]. rewrite has_duplicate_NoDup. intros Hn. apply Hn.
    by rewrite <- Hperm.
  - right. split; [done |]. rewrite has_duplicate_NoDup. intros Hn. apply Hnd.
    by rewrite Hperm.
Qed.

Lemma for_each_unit_outcome {A} (body : unit → A → outcome unit) (l : list A)
    (P : outcome unit → Prop) :
  P (Done ()) →
  (∀ x, x ∈ l → body () x = Done () ∨ P (body () x)) →
  (∀ o : outcome unit, P o → o ≠ Done () → ∀ f, P (o ≫= f)) →
  P (for_each body l ()).
Proof.
  intros Hdone Hbody Hbind. induction l as [|x l IH]; simpl; [done |].
  destruct (Hbody x) as [-> | HP]; [left | |].
  - simpl. apply IH. intros y Hy. apply Hbody. by right.
  - destruct (body () x) as [[]| | |] eqn:Hx.
    + simpl. apply IH. intros y Hy. apply Hbody. by right.
    + by apply Hbind.
    + by apply Hbind.
    + by apply Hbind.
Qed.

(** The loop over the pairs ends in [Done] or in one of its own errors. *)
Lemma check_indexes_multi_outcome (computation : NnetComputation) (c : Command)
    (num_cols_1 : Z) (pairs : list (Z * Z)) :
  check_indexes_multi computation c num_cols_1 pairs = Done () ∨
  ∃ msg, check_indexes_multi computation c num_cols_1 pairs = Err msg ∧
         msg ≠ "Duplicate element found in indexes for {add,copy}-to-rows-multi command.".
Proof.
  unfold check_indexes_multi.
  apply (for_each_unit_outcome _ pairs
           (λ o, o = Done () ∨
                 ∃ msg, o = Err msg ∧
                   msg ≠ "Duplicate element found in indexes for {add,copy}-to-rows-multi command.")).
  - by left.
  - intros [submatrix_index row_index] _. right.
    destruct (submatrix_index =? -1).
    + destruct (negb (row_index =? -1)); simpl; [right | left]; eauto.
    + destruct (Z.ltb_spec submatrix_index 1); simpl; [right; eauto |].
      destruct (Z.leb_spec (vsize (submatrices computation)) submatrix_index);
        simpl; [right; eauto |].
      destruct (lookup_lt_is_Some_2 (submatrices computation)
                  (Z.to_nat submatrix_index)) as [s Hs];
        [unfold vsize in *; lia |].
      rewrite (proj2 (vec_at_Done _ submatrix_index s)) by (split; [lia | done]).
      simpl.
      destruct ((row_index <? 0) || (num_rows s <=? row_index)); simpl;
        [right; eauto |].
      destruct (submatrix_index =? arg1 c); simpl; [right; eauto |].
      destruct (negb (num_cols s =? num_cols_1)); simpl; [right | left]; eauto.
  - intros o [-> | (msg & -> & Hmsg)] Hnd f; [done |]. right. eauto.
Qed.

(** The shared checks end in [Done] with the pairs of the command or in
    one of their own errors. *)
Lemma multi_checks_outcome (computation : NnetComputation) (c : Command) :
  (∃ pairs, multi_checks computation c = Done pairs ∧
            0 ≤ arg2 c ∧
            indexes_multi computation !! Z.to_nat (arg2 c) = Some pairs) ∨
  ∃ msg, multi_checks computation c = Err msg ∧
         msg ≠ "Duplicate element found in indexes for {add,copy}-to-rows-multi command.".
Proof.
  unfold multi_checks, size_t_ge.
  destruct (Z.ltb_spec (arg1 c) 1); simpl; [right; eauto |].
  destruct (Z.leb_spec (vsize (submatrices computation)) (arg1 c)); simpl;
    [right; eauto |].
  destruct (Z.ltb_spec (arg2 c) 0); simpl; [right; eauto |].
  destruct (Z.leb_spec (vsize (indexes_multi computation)) (arg2 c)); simpl;
    [right; eauto |].
  destruct (lookup_lt_is_Some_2 (indexes_multi computation)
              (Z.to_nat (arg2 c))) as [pairs Hpairs];
    [unfold vsize in *; lia |].
  destruct (lookup_lt_is_Some_2 (submatrices computation)
              (Z.to_nat (arg1 c))) as [s1 Hs1];
    [unfold vsize in *; lia |].
  rewrite (proj2 (vec_at_Done _ (arg2 c) pairs)) by (split; [lia | done]).
  simpl.
  rewrite (proj2 (vec_at_Done _ (arg1 c) s1)) by (split; [lia | done]).
  simpl.
  destruct (negb (vsize pairs =? num_rows s1)); simpl; [right; eauto |].
  destruct (check_indexes_multi_outcome computation c (num_cols s1) pairs)
    as [-> | (msg & -> & Hmsg)]; simpl.
  - left. exists pairs. done.
  - right. eauto.
Qed.

Section MultiCommands.
Context `{ComponentProperties}.

Lemma multi_command_gather (nnet : Nnet) (computation : NnetComputation)
    (c : Command) :
  command_type c = kAddRowsMulti ∨ command_type c = kCopyRowsMulti →
  CheckComputationIndexes_command nnet computation c
  = _ ← multi_checks computation c; Done ().
Proof.
  intros [Hty | Hty]; unfold CheckComputationIndexes_command, multi_checks;
    rewrite Hty; simpl.
  all: destruct (err_if _ _); simpl; try done.
  all: destruct (vec_at (indexes_multi computation) (arg2 c)); simpl; try done.
  all: destruct (vec_at (submatrices computation) (arg1 c)); simpl; try done.
  all: destruct (err_if _ _); simpl; try done.
  all: destruct (check_indexes_multi _ _ _ _) as [[]| | |]; simpl; done.
Qed.

Lemma multi_command_scatter (nnet : Nnet) (computation : NnetComputation)
    (c : Command) :
  command_type c = kAddToRowsMulti ∨ command_type c = kCopyToRowsMulti →
  CheckComputationIndexes_command nnet computation c
  = pairs ← multi_checks computation c;
    check_duplicates (merge_sort pair_le pairs).
Proof.
  intros [Hty | Hty]; unfold CheckComputationIndexes_command, multi_checks;
    rewrite Hty; simpl.
  all: destruct (err_if _ _); simpl; try done.
  all: destruct (vec_at (indexes_multi computation) (arg2 c)); simpl; try done.
  all: destruct (vec_at (submatrices computation) (arg1 c)); simpl; try done.
  all: destruct (err_if _ _); simpl; try done.
  all: destruct (check_indexes_multi _ _ _ _) as [[]| | |]; simpl; done.
Qed.

(** C8. On a scatter command ([kAddToRowsMulti], [kCopyToRowsMulti])
    whose pair list has the same pair, other than the pair of -1, at two
    positions, the check of the command raises a fatal error, which is the
    duplicate error whenever the checks shared with the gather commands
    pass; without such a pair (pairs of -1 may repeat) the command is
    checked like the gather command of the same operands; and a gather
    command ([kAddRowsMulti], [kCopyRowsMulti]) never gets the duplicate
    error. *)
Theorem scatter_duplicates_rejected (nnet : Nnet) (computation : NnetComputation)
    (c : Command) (pairs : list (Z * Z)) :
  command_type c = kAddToRowsMulti ∨ command_type c = kCopyToRowsMulti →
  0 ≤ arg2 c →
  indexes_multi computation !! Z.to_nat (arg2 c) = Some pairs →
  let scatter := CheckComputationIndexes_command nnet computation c in
  let gather t :=
    CheckComputationIndexes_command nnet computation (with_type t c) in
  (has_duplicate pairs → ∃ msg, scatter = Err msg) ∧
  (has_duplicate pairs → gather kAddRowsMulti = Done () →
   scatter = Err "Duplicate element found in indexes for {add,copy}-to-rows-multi command.") ∧
  (¬ has_duplicate pairs → scatter = gather kAddRowsMulti) ∧
  (∀ t, t = kAddRowsMulti ∨ t = kCopyRowsMulti →
        gather t = gather kAddRowsMulti ∧
        gather t ≠ Err "Duplicate element found in indexes for {add,copy}-to-rows-multi command.").
Proof.
  intros Hty Harg Hpairs. simpl.
  rewrite (multi_command_scatter nnet computation c Hty).
  assert (Hg : ∀ t, t = kAddRowsMulti ∨ t = kCopyRowsMulti →
            CheckComputationIndexes_command nnet computation (with_type t c)
            = _ ← multi_checks computation c; Done ()).
  { intros t Ht. rewrite multi_command_gather by (destruct Ht; subst; auto).
    done. }
  rewrite (Hg kAddRowsMulti) by auto.
  destruct (multi_checks_outcome computation c)
    as [(pairs' & Hmc & _ & Hpairs') | (msg & Hmc & Hmsg)];
    rewrite Hmc in Hg |- *; simpl in Hg |- *.
  - assert (pairs' = pairs) as -> by congruence.
    destruct (check_duplicates_sort pairs) as [[-> Hno] | [-> Hdup]].
    + split; [intros Hdup; by destruct Hno |].
      split; [intros Hdup; by destruct Hno |]. split; [done |].
      intros t Ht. rewrite (Hg t Ht). done.
    + split; [eauto |]. split; [done |].
      split; [intros Hno; by destruct Hno |].
      intros t Ht. rewrite (Hg t Ht). done.
  - split; [eauto |]. split; [done |]. split; [done |].
    intros t Ht. rewrite (Hg t Ht). simpl. split; [done |]. congruence.
Qed.

End MultiCommands.

Example scatter_duplicate_rows :
  @CheckComputationIndexes_command kaldi_properties
    (one_component (component_with 0)) (two_matrices [(2, 0); (2, 0)])
    (multi_command kCopyToRowsMulti)
  = Err "Duplicate element found in indexes for {add,copy}-to-rows-multi command.".
Proof. vm_compute. reflexivity. Qed.

Example scatter_duplicate_sentinels :
  @CheckComputationIndexes_command kaldi_properties
    (one_component (component_with 0)) (two_matrices [(-1, -1); (-1, -1)])
    (multi_command kCopyToRowsMulti)
  = Done ().
Proof. vm_compute. reflexivity. Qed.

Example gather_duplicate_rows :
  @CheckComputationIndexes_command kaldi_properties
    (one_component (component_with 0)) (two_matrices [(2, 0); (2, 0)])
    (multi_command kCopyRowsMulti)
  = Done ().
Proof. vm_compute. reflexivity. Qed.

Lemma scatter_duplicates_rejected_witness :
  let computation := two_matrices [(2, 0); (2, 0)] in
  let c := multi_command kAddToRowsMulti in
  (command_type c = kAddToRowsMulti ∨ command_type c = kCopyToRowsMulti) ∧
  0 ≤ arg2 c ∧
  indexes_multi computation !! Z.to_nat (arg2 c)
    = Some [(2, 0); (2, 0)] ∧
  has_duplicate [(2, 0); (2, 0)] ∧
  ∃ msg, @CheckComputationIndexes_command kaldi_properties
           (one_component (component_with 0)) computation c = Err msg.
Proof.
  simpl.
  assert (Hdup : has_duplicate [(2, 0); (2, 0)]).
  { exists 0%nat, 1%nat, (2, 0). split; [lia |]. split; [reflexivity |].
    split; [reflexivity |]. simpl. lia. }
  split; [by left |]. split; [lia |]. split; [reflexivity |].
  split; [exact Hdup |].
  apply (proj1 (@scatter_duplicates_rejected kaldi_properties
                  (one_component (component_with 0))
                  (two_matrices [(2, 0); (2, 0)])
                  (multi_command kAddToRowsMulti)
                  [(2, 0); (2, 0)]
                  (or_introl eq_refl) ltac:(simpl; lia) eq_refl)).
  exact Hdup.
Defined.

(** ** MatrixIsAccessedBeforeCommand *)

(** C9. For a valid matrix index the query returns a result: false for an
    empty access history; true when the first access is not the
    allocation command of the matrix and precedes the command, and, when
    the first access does not precede it, still true when a second access
    does (the first not being the allocation command); false otherwise. *)
Theorem MatrixIsAccessedBeforeCommand_spec (matrix_accesses : list MatrixAccesses)
    (matrix_index command_index_ : Z) (access : MatrixAccesses) :
  0 < matrix_index →
  matrix_accesses !! Z.to_nat matrix_index = Some access →
  ∃ b, MatrixIsAccessedBeforeCommand matrix_accesses matrix_index command_index_
       = Done b ∧
    (accesses access = [] → b = false) ∧
    (b = true ↔
     ∃ first others,
       accesses access = first :: others ∧
       command_index first ≠ allocate_command access ∧
       (command_index first < command_index_ ∨
        ∃ second others', others = second :: others' ∧
                          command_index second < command_index_)).
Proof.
  intros Hpos Hlook. unfold MatrixIsAccessedBeforeCommand.
  assert (Hlt : matrix_index < vsize matrix_accesses).
  { apply lookup_lt_Some in Hlook. unfold vsize. lia. }
  replace ((0 <? matrix_index) && (matrix_index <? vsize matrix_accesses))
    with true by (symmetry; apply andb_true_iff; split; lia).
  simpl. replace (vec_at matrix_accesses matrix_index) with (Done access)
    by (symmetry; apply vec_at_Done; split; [lia | done]).
  simpl. destruct (accesses access) as [|first others] eqn:Hacc.
  - exists false. rewrite bool_decide_eq_true_2 by done.
    split; [done |]. split; [done |]. split; [done |].
    intros (? & ? & ? & _); done.
  - rewrite bool_decide_eq_false_2 by done. simpl.
    destruct (Z.eqb_spec (command_index first) (allocate_command access))
      as [Heq | Hne]; simpl.
    + exists false. split; [destruct others; done |]. split; [done |].
      split; [done |]. intros (f & o & Hfo & Hn & _). by simplify_eq.
    + destruct (Z.ltb_spec (command_index first) command_index_).
      * exists true. split; [done |]. split; [done |]. split; [| done].
        intros _. exists first, others. eauto.
      * destruct others as [|second others'].
        -- exists false. simpl. split; [done |]. split; [done |].
           split; [done |]. intros (f & o & Hfo & _ & [Hl | (? & ? & ? & _)]);
             simplify_eq; lia.
        -- unfold vsize. simpl length.
           replace (1 <? Z.of_nat (S (S (length others')))) with true
             by (symmetry; apply Z.ltb_lt; lia).
           simpl. destruct (Z.ltb_spec (command_index second) command_index_).
           ++ exists true. split; [done |]. split; [done |]. split; [| done].
              intros _. exists first, (second :: others'). eauto 10.
           ++ exists false. split; [done |]. split; [done |].
              split; [done |].
              intros (f & o & Hfo & _ & [Hl | (? & ? & ? & ?)]);
                simplify_eq; lia.
Qed.

(** The lookahead at work: the first access (command 5) does not precede
    command 3, the second (command 2) does, and the answer is true. *)
Example MatrixIsAccessedBeforeCommand_lookahead :
  MatrixIsAccessedBeforeCommand [MatrixAccesses_new; lookahead_accesses] 1 3
  = Done true.
Proof. reflexivity. Qed.

(** A first access that is the allocation command (here a zeroing
    allocation, command 0) makes the answer false, whatever follows. *)
Example MatrixIsAccessedBeforeCommand_allocation_first :
  MatrixIsAccessedBeforeCommand
    [MatrixAccesses_new;
     {| allocate_command := 0; deallocate_command := 9;
        accesses := [ {| command_index := 0; access_type := kWriteAccess |};
                      {| command_index := 1; access_type := kReadAccess |} ];
        is_input := false; is_output := false |}] 1 5
  = Done false.
Proof. reflexivity. Qed.

Lemma MatrixIsAccessedBeforeCommand_spec_witness :
  0 < 1 ∧
  [MatrixAccesses_new; lookahead_accesses] !! Z.to_nat 1
    = Some lookahead_accesses ∧
  ∃ b, MatrixIsAccessedBeforeCommand
         [MatrixAccesses_new; lookahead_accesses] 1 3 = Done b ∧
    (accesses lookahead_accesses = [] → b = false) ∧
    (b = true ↔
     ∃ first others,
       accesses lookahead_accesses = first :: others ∧
       command_index first ≠ allocate_command lookahead_accesses ∧
       (command_index first < 3 ∨
        ∃ second others', others = second :: others' ∧
                          command_index second < 3)).
Proof.
  split; [lia |]. split; [reflexivity |].
  apply (MatrixIsAccessedBeforeCommand_spec
           [MatrixAccesses_new; lookahead_accesses] 1 3 lookahead_accesses);
    [lia | reflexivity].
Defined.

(** * More of the analysis code *)

(** ** MatrixIsAccessedAfterCommand, MatrixIsWrittenToAfterCommand *)

Lemma chronological_last (l : list Access) (back x : Access) :
  chronological l → last l = Some back → x ∈ l →
  command_index x ≤ command_index back.
Proof.
  intros Hs Hlast Hx. induction Hs as [|a l Hs IH Hall].
  - by apply elem_of_nil in Hx.
  - destruct l as [|b l'].
    + simpl in Hlast. apply list_elem_of_singleton in Hx. simplify_eq. lia.
    + rewrite last_cons_cons in Hlast.
      apply elem_of_cons in Hx as [-> | Hx]; [| by apply IH].
      rewrite Forall_forall in Hall.
      assert (back ∈ b :: l') by (by apply last_Some_elem_of).
      specialize (Hall back ltac:(done)). lia.
Qed.

(** [MatrixIsAccessedAfterCommand]: for a valid matrix index and a
    history in the order of the commands, the answer is true exactly when
    some access of the matrix is by a command after [command_index_]. *)
Theorem MatrixIsAccessedAfterCommand_spec (matrix_accesses : list MatrixAccesses)
    (matrix_index command_index_ : Z) (access : MatrixAccesses) :
  0 < matrix_index →
  matrix_accesses !! Z.to_nat matrix_index = Some access →
  chronological (accesses access) →
  ∃ b, MatrixIsAccessedAfterCommand matrix_accesses matrix_index command_index_
       = Done b ∧
       (b = true ↔ ∃ x, x ∈ accesses access ∧ command_index_ < command_index x).
Proof.
  intros Hpos Hlook Hs. unfold MatrixIsAccessedAfterCommand.
  assert (Hlt : matrix_index < vsize matrix_accesses).
  { apply lookup_lt_Some in Hlook. unfold vsize. lia. }
  replace ((0 <? matrix_index) && (matrix_index <? vsize matrix_accesses))
    with true by (symmetry; apply andb_true_iff; split; lia).
  simpl. replace (vec_at matrix_accesses matrix_index) with (Done access)
    by (symmetry; apply vec_at_Done; split; [lia | done]).
  simpl. case_bool_decide as Hempty.
  - exists false. split; [done |]. split; [done |].
    intros (x & Hx & _). rewrite Hempty in Hx. by apply elem_of_nil in Hx.
  - unfold vec_back. destruct (last (accesses access)) as [back|] eqn:Hlast.
    + simpl. eexists. split; [done |]. rewrite Z.ltb_lt. split.
      * intros Hlt'. exists back. split; [by apply last_Some_elem_of | done].
      * intros (x & Hx & Hlt').
        pose proof (chronological_last _ _ _ Hs Hlast Hx). lia.
    + by apply last_None in Hlast.
Qed.

Lemma chronological_app (l1 l2 : list Access) :
  chronological (l1 ++ l2) →
  chronological l1 ∧ chronological l2 ∧
  ∀ x y, x ∈ l1 → y ∈ l2 → command_index x < command_index y.
Proof.
  unfold chronological. intros Hs.
  apply StronglySorted_app in Hs as (Hall & ? & ?).
  split; [done |]. split; [done |]. intros x y Hx Hy. by apply Hall.
Qed.

(** The loop over the reverse iterator stops at the first access, from
    the last, that is not after the command or that writes. *)
Lemma MatrixIsWrittenToAfterCommand_loop_spec (l : list Access)
    (command_index_ : Z) :
  MatrixIsWrittenToAfterCommand_loop (reverse l) command_index_ = true ↔
  ∃ pre x suf, l = pre ++ x :: suf ∧ access_type x ≠ kReadAccess ∧
               Forall (λ y, command_index_ < command_index y) (x :: suf).
Proof.
  induction l as [|a l IH] using rev_ind.
  - simpl. split; [done |]. intros (pre & x & suf & Hl & _).
    by destruct pre.
  - rewrite reverse_snoc. simpl.
    destruct (Z.leb_spec (command_index a) command_index_) as [Hle | Hgt].
    + split; [done |]. intros (pre & x & suf & Hl & _ & Hall).
      assert (Ha : a ∈ x :: suf).
      { destruct suf as [|s suf _] using rev_ind.
        - apply app_inj_tail in Hl as [_ ->]. left.
        - rewrite app_comm_cons, app_assoc in Hl.
          apply app_inj_tail in Hl as [_ ->].
          rewrite app_comm_cons. apply elem_of_app. right. left. }
      rewrite Forall_forall in Hall. specialize (Hall a Ha). lia.
    + case_bool_decide as Hread; simpl.
      * rewrite IH. split.
        -- intros (pre & x & suf & -> & Hx & Hall).
           exists pre, x, (suf ++ [a]). rewrite <- app_assoc. simpl.
           split; [done |]. split; [done |].
           rewrite app_comm_cons. apply Forall_app. split; [done |].
           by constructor.
        -- intros (pre & x & suf & Hl & Hx & Hall).
           destruct suf as [|s suf _] using rev_ind.
           ++ apply app_inj_tail in Hl as [_ ->]. done.
           ++ rewrite app_comm_cons, app_assoc in Hl.
              apply app_inj_tail in Hl as [-> ->].
              exists pre, x, suf. split; [done |]. split; [done |].
              rewrite app_comm_cons in Hall.
              by apply Forall_app in Hall as [? _].
      * split; [| done]. intros _. exists l, a, [].
        split; [done |]. split; [done |]. by constructor.
Qed.

(** [MatrixIsWrittenToAfterCommand]: for a valid matrix index the answer
    is true exactly when some access writes and it and all the accesses
    after it in the history are by commands after [command_index_]; for a
    history in the order of the commands, exactly when some access by a
    command after [command_index_] writes. *)
Theorem MatrixIsWrittenToAfterCommand_spec
    (matrix_accesses : list MatrixAccesses)
    (matrix_index command_index_ : Z) (access : MatrixAccesses) :
  0 < matrix_index →
  matrix_accesses !! Z.to_nat matrix_index = Some access →
  ∃ b, MatrixIsWrittenToAfterCommand matrix_accesses matrix_index command_index_
       = Done b ∧
       (b = true ↔
        ∃ pre x suf, accesses access = pre ++ x :: suf ∧
          access_type x ≠ kReadAccess ∧
          Forall (λ y, command_index_ < command_index y) (x :: suf)) ∧
       (chronological (accesses access) →
        (b = true ↔
         ∃ x, x ∈ accesses access ∧ access_type x ≠ kReadAccess ∧
              command_index_ < command_index x)).
Proof.
  intros Hpos Hlook. unfold MatrixIsWrittenToAfterCommand.
  assert (Hlt : matrix_index < vsize matrix_accesses).
  { apply lookup_lt_Some in Hlook. unfold vsize. lia. }
  replace ((0 <? matrix_index) && (matrix_index <? vsize matrix_accesses))
    with true by (symmetry; apply andb_true_iff; split; lia).
  simpl. replace (vec_at matrix_accesses matrix_index) with (Done access)
    by (symmetry; apply vec_at_Done; split; [lia | done]).
  simpl.
  assert (Hgen : ∀ b,
    (b = true ↔
     ∃ pre x suf, accesses access = pre ++ x :: suf ∧
       access_type x ≠ kReadAccess ∧
       Forall (λ y, command_index_ < command_index y) (x :: suf)) →
    chronological (accesses access) →
    (b = true ↔
     ∃ x, x ∈ accesses access ∧ access_type x ≠ kReadAccess ∧
          command_index_ < command_index x)).
  { intros b Hb Hs. rewrite Hb. split.
    - intros (pre & x & suf & Hl & Hx & Hall). exists x.
      split; [rewrite Hl; apply elem_of_app; right; left |].
      split; [done |]. by apply Forall_inv in Hall.
    - intros (x & Hin & Hx & Hafter).
      apply list_elem_of_split in Hin as (pre & suf & Hl).
      exists pre, x, suf. split; [done |]. split; [done |].
      constructor; [done |]. rewrite Hl in Hs.
      apply chronological_app in Hs as (_ & Hs & _).
      apply StronglySorted_inv in Hs as [_ Hall].
      eapply Forall_impl; [exact Hall |]. simpl. intros; lia. }
  case_bool_decide as Hempty.
  - assert (Hb : false = true ↔
      ∃ pre x suf, accesses access = pre ++ x :: suf ∧
        access_type x ≠ kReadAccess ∧
        Forall (λ y, command_index_ < command_index y) (x :: suf)).
    { split; [done |]. intros (pre & x & suf & Hl & _).
      rewrite Hempty in Hl. by destruct pre. }
    exists false. split; [done |]. split; [exact Hb | by apply Hgen].
  - eexists. split; [done |].
    pose proof (MatrixIsWrittenToAfterCommand_loop_spec (accesses access)
                  command_index_) as Hb.
    split; [exact Hb | by apply Hgen].
Qed.

(** A matrix that is written to after a command is accessed after it:
    whenever [MatrixIsWrittenToAfterCommand] answers true, so does
    [MatrixIsAccessedAfterCommand]. *)
Theorem MatrixIsWrittenToAfterCommand_accessed
    (matrix_accesses : list MatrixAccesses) (matrix_index command_index_ : Z) :
  MatrixIsWrittenToAfterCommand matrix_accesses matrix_index command_index_
  = Done true →
  MatrixIsAccessedAfterCommand matrix_accesses matrix_index command_index_
  = Done true.
Proof.
  unfold MatrixIsWrittenToAfterCommand, MatrixIsAccessedAfterCommand.
  intros Hw. apply bind_Done in Hw as ([] & Hassert & Hw). rewrite Hassert.
  simpl. apply bind_Done in Hw as (access & -> & Hw). simpl.
  case_bool_decide as Hempty; [done |].
  injection Hw as Hw.
  apply MatrixIsWrittenToAfterCommand_loop_spec in Hw
    as (pre & x & suf & Hl & _ & Hall).
  unfold vec_back. destruct (last (accesses access)) as [back|] eqn:Hlast;
    [| by apply last_None in Hlast].
  simpl. f_equal. apply Z.ltb_lt.
  assert (Hback : back ∈ x :: suf).
  { rewrite Hl in Hlast. rewrite last_app in Hlast.
    destruct (last (x :: suf)) as [y|] eqn:Hy; [| by apply last_None in Hy].
    simplify_eq. by apply last_Some_elem_of. }
  rewrite Forall_forall in Hall. by apply Hall.
Qed.

(** ** FirstTimeSubmatrixIsWrittenToAfterCommand *)

Lemma least_or_none_ext (P Q : Z → Prop) (r : Z) :
  (∀ z, P z ↔ Q z) → least_or_none P r → least_or_none Q r.
Proof.
  intros Hext [[-> Hnone] | [Hr Hleast]].
  - left. split; [done |]. intros x Hx. apply (Hnone x). by apply Hext.
  - right. split; [by apply Hext |]. intros x Hx. apply Hleast. by apply Hext.
Qed.

Lemma IsSortedAndUniq_seqZ (lo len : Z) : IsSortedAndUniq (seqZ lo len) = true.
Proof.
  destruct (Z.le_gt_cases len 0) as [Hle | Hgt].
  { by rewrite seqZ_nil. }
  rewrite <- (Z2Nat.id len) by lia. generalize (Z.to_nat len). clear.
  intros n. revert lo. induction n as [|n IH]; intros lo; [done |].
  rewrite seqZ_cons by lia. cbn [IsSortedAndUniq].
  replace (Z.pred (Z.of_nat (S n))) with (Z.of_nat n) by lia.
  specialize (IH (Z.succ lo)). destruct n as [|n]; [done |].
  rewrite seqZ_cons in * by lia. rewrite IH.
  rewrite andb_true_r. apply Z.ltb_lt. lia.
Qed.

(** The loop over the accesses of one variable, from the last: the new
    answer takes the writes after the command into account. *)
Lemma FirstTimeSubmatrixIsWrittenToAfterCommand_loop_spec (l : list Access)
    (command_index_ : Z) (P : Z → Prop) (ans : Z) :
  chronological l → 0 ≤ command_index_ →
  (∀ z, P z → command_index_ < z) →
  least_or_none P ans →
  least_or_none
    (λ z, P z ∨ ∃ x, x ∈ l ∧ access_type x ≠ kReadAccess ∧
                     command_index_ < command_index x ∧ z = command_index x)
    (FirstTimeSubmatrixIsWrittenToAfterCommand_loop (reverse l)
       command_index_ ans).
Proof.
  intros Hs HC. revert P ans.
  induction l as [|a l IH] using rev_ind; intros P ans HP Hans.
  - simpl. eapply least_or_none_ext; [| exact Hans].
    intros z. split; [by left |]. intros [? | (x & Hx & _)]; [done |].
    by apply elem_of_nil in Hx.
  - apply chronological_app in Hs as (Hs & _ & Hlt).
    rewrite reverse_snoc. simpl.
    destruct (Z.leb_spec (command_index a) command_index_) as [Hle | Hgt].
    + eapply least_or_none_ext; [| exact Hans].
      intros z. split; [by left |].
      intros [? | (x & Hx & _ & Hafter & _)]; [done |].
      apply elem_of_app in Hx as [Hx | Hx].
      * specialize (Hlt x a Hx ltac:(left)). lia.
      * apply list_elem_of_singleton in Hx as ->. lia.
    + case_bool_decide as Hread; simpl.
      * eapply least_or_none_ext; [| exact (IH Hs P ans HP Hans)].
        intros z. split.
        -- intros [? | (x & Hx & ?)]; [by left |]. right. exists x.
           split; [apply elem_of_app; by left | done].
        -- intros [? | (x & Hx & Hw & ?)]; [by left |]. right. exists x.
           apply elem_of_app in Hx as [Hx | Hx]; [done |].
           apply list_elem_of_singleton in Hx as ->. done.
      * set (ans1 := if (command_index a <? ans) || (ans =? -1)
                     then command_index a else ans).
        set (P1 := λ z, P z ∨ z = command_index a).
        assert (Hans1 : least_or_none P1 ans1).
        { unfold ans1, P1. destruct Hans as [[-> Hnone] | [Hr Hleast]].
          - rewrite orb_true_r. right. split; [by right |].
            intros x [Hx | ->]; [by apply Hnone in Hx | lia].
          - assert (ans ≠ -1) by (specialize (HP ans Hr); lia).
            replace (ans =? -1) with false by (symmetry; by apply Z.eqb_neq).
            rewrite orb_false_r.
            destruct (Z.ltb_spec (command_index a) ans).
            + right. split; [by right |].
              intros x [Hx | ->]; [apply Hleast in Hx; lia | lia].
            + right. split; [by left |].
              intros x [Hx | ->]; [by apply Hleast | lia]. }
        assert (HP1 : ∀ z, P1 z → command_index_ < z).
        { intros z [Hz | ->]; [by apply HP | done]. }
        eapply least_or_none_ext; [| exact (IH Hs P1 ans1 HP1 Hans1)].
        unfold P1. intros z. split.
        -- intros [[? | ->] | (x & Hx & ?)].
           ++ by left.
           ++ right. exists a. split; [apply elem_of_app; right; left | done].
           ++ right. exists x. split; [apply elem_of_app; by left | done].
        -- intros [? | (x & Hx & Hw & ?)]; [by left; left |].
           apply elem_of_app in Hx as [Hx | Hx]; [right; by exists x |].
           apply list_elem_of_singleton in Hx as ->. left. right. tauto.
Qed.

(** The loop over the variables of the submatrix. *)
Lemma FirstTimeSubmatrixIsWrittenToAfterCommand_variables (a : Analyzer)
    (command_index_ : Z) (vs : list Z) (P : Z → Prop) (ans : Z) :
  0 ≤ command_index_ →
  (∀ v, v ∈ vs → 0 ≤ v ∧ ∃ l, variable_accesses a !! Z.to_nat v = Some l ∧
                              chronological l) →
  (∀ z, P z → command_index_ < z) →
  least_or_none P ans →
  ∃ ans',
    for_each (λ ans variable,
        accesses ← vec_at (variable_accesses a) variable;
        Done (FirstTimeSubmatrixIsWrittenToAfterCommand_loop
                (reverse accesses) command_index_ ans))
      vs ans = Done ans' ∧
    least_or_none
      (λ z, P z ∨ ∃ v l x, v ∈ vs ∧ 0 ≤ v ∧
              variable_accesses a !! Z.to_nat v = Some l ∧ x ∈ l ∧
              access_type x ≠ kReadAccess ∧
              command_index_ < command_index x ∧ z = command_index x)
      ans'.
Proof.
  intros HC. revert P ans. induction vs as [|v vs IH]; intros P ans Hvs HP Hans.
  - simpl. exists ans. split; [done |].
    eapply least_or_none_ext; [| exact Hans].
    intros z. split; [by left |]. intros [? | (v & l & x & Hv & _)]; [done |].
    by apply elem_of_nil in Hv.
  - destruct (Hvs v ltac:(left)) as (Hv & l & Hl & Hs). simpl.
    rewrite (proj2 (vec_at_Done _ _ _) (conj Hv Hl)). simpl.
    set (P1 := λ z, P z ∨ ∃ x, x ∈ l ∧ access_type x ≠ kReadAccess ∧
                    command_index_ < command_index x ∧ z = command_index x).
    pose proof (FirstTimeSubmatrixIsWrittenToAfterCommand_loop_spec
                  l command_index_ P ans Hs HC HP Hans) as Hans1.
    assert (HP1 : ∀ z, P1 z → command_index_ < z).
    { intros z [Hz | (x & _ & _ & ? & ->)]; [by apply HP | done]. }
    destruct (IH P1 _ (λ w Hw, Hvs w ltac:(by right)) HP1 Hans1)
      as (ans' & Hloop & Hans').
    exists ans'. split; [done |].
    eapply least_or_none_ext; [| exact Hans']. unfold P1. intros z. split.
    + intros [[? | (x & Hx & ?)] | (w & lw & x & Hw & ?)].
      * by left.
      * right. exists v, l, x. split; [left | done].
      * right. exists w, lw, x. split; [by right | done].
    + intros [? | (w & lw & x & Hw & H0 & Hlw & Hrest)]; [by left; left |].
      apply elem_of_cons in Hw as [-> | Hw].
      * left. right. exists x. by simplify_eq.
      * right. exists w, lw, x. done.
Qed.

(** [FirstTimeSubmatrixIsWrittenToAfterCommand]: for a valid command
    index, and a submatrix whose variables have histories in the order of
    the commands, the answer is the index of the first command after
    [command_index_] that writes to a variable of the submatrix, or -1
    when there is none. *)
Theorem FirstTimeSubmatrixIsWrittenToAfterCommand_spec (a : Analyzer)
    (submatrix_index command_index_ lo hi : Z) :
  0 ≤ command_index_ < vsize (command_attributes a) →
  0 ≤ submatrix_index →
  variable_ranges_ (variables a) !! Z.to_nat submatrix_index = Some (lo, hi) →
  0 ≤ lo → hi ≤ vsize (variable_accesses a) →
  (∀ (v : nat) l, lo ≤ Z.of_nat v < hi → variable_accesses a !! v = Some l →
                  chronological l) →
  ∃ ans,
    FirstTimeSubmatrixIsWrittenToAfterCommand a submatrix_index command_index_
    = Done ans ∧
    least_or_none (written_after a lo hi command_index_) ans.
Proof.
  intros HC Hsub Hrange Hlo Hhi Hchron.
  unfold FirstTimeSubmatrixIsWrittenToAfterCommand.
  replace (size_t_lt command_index_ (vsize (command_attributes a)))
    with true by (symmetry; apply andb_true_iff; split; lia).
  simpl.
  pose proof (AppendVariablesForSubmatrix_Done (variables a)
                (Z.to_nat submatrix_index) (lo, hi) [] Hrange) as Happend.
  rewrite Z2Nat.id in Happend by lia. rewrite Happend. simpl.
  rewrite IsSortedAndUniq_seqZ. simpl.
  destruct (FirstTimeSubmatrixIsWrittenToAfterCommand_variables a
              command_index_ (seqZ lo (hi - lo)) (λ _, False) (-1))
    as (ans & Hloop & Hans); [lia | | by intros ? [] | left; split; [done | by intros ? []] |].
  { intros v Hv. apply elem_of_seqZ in Hv. split; [lia |].
    destruct (lookup_lt_is_Some_2 (variable_accesses a) (Z.to_nat v))
      as [l Hl]; [unfold vsize in Hhi; lia |].
    exists l. split; [done |]. apply (Hchron (Z.to_nat v)); [lia | done]. }
  exists ans. split; [done |].
  eapply least_or_none_ext; [| exact Hans]. intros z. split.
  - intros [[] | (v & l & x & Hv & H0 & Hl & Hrest)].
    apply elem_of_seqZ in Hv. exists (Z.to_nat v), l, x.
    split; [lia | done].
  - intros (v & l & x & Hv & Hl & Hrest). right.
    exists (Z.of_nat v), l, x. rewrite Nat2Z.id.
    split; [apply elem_of_seqZ; lia |]. split; [lia | done].
Qed.

Lemma MatrixIsAccessedAfterCommand_spec_witness :
  0 < 1 ∧
  [MatrixAccesses_new; used_matrix] !! Z.to_nat 1 = Some used_matrix ∧
  chronological (accesses used_matrix) ∧
  ∃ b, MatrixIsAccessedAfterCommand [MatrixAccesses_new; used_matrix] 1 1
       = Done b ∧
       (b = true ↔ ∃ x, x ∈ accesses used_matrix ∧ 1 < command_index x).
Proof.
  assert (Hs : chronological (accesses used_matrix)).
  { unfold chronological. simpl. repeat constructor; simpl; lia. }
  split; [lia |]. split; [reflexivity |]. split; [exact Hs |].
  exact (MatrixIsAccessedAfterCommand_spec [MatrixAccesses_new; used_matrix]
           1 1 used_matrix ltac:(lia) eq_refl Hs).
Defined.

Example MatrixIsAccessedAfterCommand_last_command :
  MatrixIsAccessedAfterCommand [MatrixAccesses_new; used_matrix] 1 2
  = Done false.
Proof. reflexivity. Qed.

Lemma MatrixIsWrittenToAfterCommand_spec_witness :
  0 < 1 ∧
  [MatrixAccesses_new; used_matrix] !! Z.to_nat 1 = Some used_matrix ∧
  ∃ b, MatrixIsWrittenToAfterCommand [MatrixAccesses_new; used_matrix] 1 0
       = Done b ∧
       (b = true ↔
        ∃ pre x suf, accesses used_matrix = pre ++ x :: suf ∧
          access_type x ≠ kReadAccess ∧
          Forall (λ y, 0 < command_index y) (x :: suf)) ∧
       (chronological (accesses used_matrix) →
        (b = true ↔
         ∃ x, x ∈ accesses used_matrix ∧ access_type x ≠ kReadAccess ∧
              0 < command_index x)).
Proof.
  split; [lia |]. split; [reflexivity |].
  exact (MatrixIsWrittenToAfterCommand_spec [MatrixAccesses_new; used_matrix]
           1 0 used_matrix ltac:(lia) eq_refl).
Defined.

(** The matrix is written by command 1 and read by command 2: it is
    written to after command 0, and not after command 1. *)
Example MatrixIsWrittenToAfterCommand_read_last :
  MatrixIsWrittenToAfterCommand [MatrixAccesses_new; used_matrix] 1 0
  = Done true ∧
  MatrixIsWrittenToAfterCommand [MatrixAccesses_new; used_matrix] 1 1
  = Done false.
Proof. split; reflexivity. Qed.

Lemma MatrixIsWrittenToAfterCommand_accessed_witness :
  MatrixIsWrittenToAfterCommand [MatrixAccesses_new; used_matrix] 1 0
  = Done true ∧
  MatrixIsAccessedAfterCommand [MatrixAccesses_new; used_matrix] 1 0
  = Done true.
Proof.
  split; [reflexivity |].
  exact (MatrixIsWrittenToAfterCommand_accessed
           [MatrixAccesses_new; used_matrix] 1 0 eq_refl).
Defined.

Lemma FirstTimeSubmatrixIsWrittenToAfterCommand_spec_witness :
  0 ≤ 0 < vsize (command_attributes in_place_analysis) ∧
  0 ≤ 1 ∧
  variable_ranges_ (variables in_place_analysis) !! Z.to_nat 1
    = Some (0, 1) ∧
  0 ≤ 0 ∧ 1 ≤ vsize (variable_accesses in_place_analysis) ∧
  (∀ (v : nat) l, 0 ≤ Z.of_nat v < 1 →
     variable_accesses in_place_analysis !! v = Some l → chronological l) ∧
  ∃ ans,
    FirstTimeSubmatrixIsWrittenToAfterCommand in_place_analysis 1 0
    = Done ans ∧
    least_or_none (written_after in_place_analysis 0 1 0) ans.
Proof.
  assert (Hs : ∀ (v : nat) l, 0 ≤ Z.of_nat v < 1 →
     variable_accesses in_place_analysis !! v = Some l → chronological l).
  { intros v l Hv Hl. assert (v = 0%nat) as -> by lia.
    simpl in Hl. injection Hl as <-. unfold chronological.
    repeat constructor; simpl; lia. }
  split; [unfold vsize; simpl; lia |]. split; [lia |].
  split; [reflexivity |]. split; [lia |].
  split; [unfold vsize; simpl; lia |]. split; [exact Hs |].
  apply (FirstTimeSubmatrixIsWrittenToAfterCommand_spec in_place_analysis
           1 0 0 1); [unfold vsize; simpl; lia | lia | reflexivity | lia
                      | unfold vsize; simpl; lia | exact Hs].
Defined.

(** Matrix 1 of the in-place program is zeroed by command 0, read by
    command 2 and added to by command 3: the first write after command 0
    is by command 3, and there is none after command 3. *)
Example FirstTimeSubmatrixIsWrittenToAfterCommand_in_place :
  FirstTimeSubmatrixIsWrittenToAfterCommand in_place_analysis 1 0 = Done 3 ∧
  FirstTimeSubmatrixIsWrittenToAfterCommand in_place_analysis 1 3 = Done (-1).
Proof. split; reflexivity. Qed.


(** ** ComputeSubmatLists *)

(** The loop of [ComputeSubmatLists] on the views from index [k] on: the
    index of every view is added at the end of the list of its matrix;
    the loop fails its assertion on a view of the null matrix or of no
    matrix. *)
Lemma ComputeSubmatLists_loop (num_matrices : Z) (views : list SubMatrixInfo)
    (k : nat) (st : list (list Z)) :
  vsize st = num_matrices →
  let loop :=
    for_indexed (λ (submat_lists : list (list Z)) (submatrix_index : Z)
                   (s : SubMatrixInfo),
        let matrix_index := matrix_index s in
        KALDI_ASSERT ((0 <? matrix_index) && (matrix_index <? num_matrices));;
        l ← vec_at submat_lists matrix_index;
        vec_set submat_lists matrix_index (l ++ [submatrix_index]))
      (Z.of_nat k) views st in
  (Forall (λ s, 0 < matrix_index s < num_matrices) views ∧
   ∃ st', loop = Done st' ∧ length st' = length st ∧
     ∀ (m : nat) l, st !! m = Some l →
       ∃ added, st' !! m = Some (l ++ added) ∧
         StronglySorted Z.lt added ∧
         Forall (λ i, Z.of_nat k ≤ i) added ∧
         ∀ i, i ∈ added ↔
              ∃ (n : nat) s, views !! n = Some s ∧ i = Z.of_nat (k + n) ∧
                             matrix_index s = Z.of_nat m) ∨
  (¬ Forall (λ s, 0 < matrix_index s < num_matrices) views ∧
   loop = AssertFail).
Proof.
  revert k st. induction views as [|s views IH]; intros k st Hlen; simpl.
  - left. split; [constructor |]. exists st. split; [done |]. split; [done |].
    intros m l Hm. exists []. rewrite app_nil_r. split; [done |].
    split; [constructor |]. split; [constructor |].
    intros i. split; [intros Hi; by apply elem_of_nil in Hi |].
    intros (n & s & Hn & _). done.
  - destruct (decide (0 < matrix_index s < num_matrices)) as [Hvalid | Hinvalid].
    + replace ((0 <? matrix_index s) && (matrix_index s <? num_matrices))
        with true by (symmetry; apply andb_true_iff; split; lia).
      simpl.
      destruct (lookup_lt_is_Some_2 st (Z.to_nat (matrix_index s)))
        as [l0 Hl0]; [unfold vsize in Hlen; lia |].
      rewrite (proj2 (vec_at_Done _ _ _) (conj (Z.lt_le_incl _ _ (proj1 Hvalid))
                                               Hl0)).
      simpl. unfold vec_set.
      replace ((0 <=? matrix_index s) && (matrix_index s <? vsize st))
        with true by (symmetry; apply andb_true_iff; split; lia).
      simpl. replace (Z.of_nat k + 1) with (Z.of_nat (S k)) by lia.
      set (st1 := <[Z.to_nat (matrix_index s) := l0 ++ [Z.of_nat k]]> st).
      destruct (IH (S k) st1) as [(Hall & st' & Hloop & Hlen' & Hadded)
                                  | (Hnot & Hloop)].
      { unfold st1, vsize in *. by rewrite length_insert. }
      * left. split; [by constructor |]. exists st'.
        split; [done |].
        split; [unfold st1 in Hlen'; by rewrite length_insert in Hlen' |].
        intros m l Hm.
        destruct (decide (m = Z.to_nat (matrix_index s))) as [-> | Hne].
        -- assert (l = l0) as -> by congruence.
           destruct (Hadded (Z.to_nat (matrix_index s)) (l0 ++ [Z.of_nat k]))
             as (added & Hst' & Hsorted & Hge & Hmem).
           { unfold st1. apply list_lookup_insert_eq.
             by apply lookup_lt_Some in Hl0. }
           exists (Z.of_nat k :: added).
           split; [by rewrite <- app_assoc in Hst' |].
           split.
           { constructor; [done |]. eapply Forall_impl; [exact Hge |].
             simpl. intros; lia. }
           split.
           { constructor; [lia |]. eapply Forall_impl; [exact Hge |].
             simpl. intros; lia. }
           intros i. rewrite elem_of_cons, Hmem. split.
           ++ intros [-> | (n & s' & Hn & -> & Hs')].
              ** exists 0%nat, s. split; [done |]. split; [f_equal; lia | lia].
              ** exists (S n), s'. split; [done |]. split; [f_equal; lia | done].
           ++ intros ([|n] & s' & Hn & -> & Hs').
              ** left. f_equal. lia.
              ** right. exists n, s'. split; [done |].
                 split; [f_equal; lia | done].
        -- destruct (Hadded m l) as (added & Hst' & Hsorted & Hge & Hmem).
           { unfold st1. by rewrite list_lookup_insert_ne. }
           exists added. split; [done |]. split; [done |].
           split.
           { eapply Forall_impl; [exact Hge |]. simpl. intros; lia. }
           intros i. rewrite Hmem. split.
           ++ intros (n & s' & Hn & -> & Hs').
              exists (S n), s'. split; [done |]. split; [f_equal; lia | done].
           ++ intros ([|n] & s' & Hn & -> & Hs'); simpl in Hn.
              ** simplify_eq. lia.
              ** exists n, s'. split; [done |]. split; [f_equal; lia | done].
      * right. split; [| done].
        intros Hall. apply Hnot. by apply Forall_inv_tail in Hall.
    + right. split; [intros Hall; by apply Forall_inv in Hall |].
      replace ((0 <? matrix_index s) && (matrix_index s <? num_matrices))
        with false; [done |].
      symmetry. apply andb_false_iff.
      destruct (Z.ltb_spec 0 (matrix_index s)); [right | by left].
      apply Z.ltb_ge. lia.
Qed.

(** [ComputeSubmatLists]: when every view but the null view is in a
    matrix other than the null matrix, the result has one list for each
    matrix, and the list of a matrix is, in increasing order, the indexes
    of its views; the list of the null matrix is empty.  Otherwise the
    function fails its assertion. *)
Theorem ComputeSubmatLists_spec (computation : NnetComputation) :
  let valid :=
    Forall (λ s, 0 < matrix_index s < vsize (matrices computation))
           (tail (submatrices computation)) in
  (valid →
   ∃ submat_lists,
     ComputeSubmatLists computation = Done submat_lists ∧
     length submat_lists = length (matrices computation) ∧
     ∀ (m : nat) l, submat_lists !! m = Some l →
       StronglySorted Z.lt l ∧
       ∀ i, i ∈ l ↔
            1 ≤ i ∧ ∃ s, submatrices computation !! Z.to_nat i = Some s ∧
                         matrix_index s = Z.of_nat m) ∧
  (¬ valid → ComputeSubmatLists computation = AssertFail).
Proof.
  unfold ComputeSubmatLists.
  set (st := resize (Z.to_nat (vsize (matrices computation))) [] []).
  assert (Hlen : vsize st = vsize (matrices computation)).
  { unfold st, vsize. rewrite length_resize. lia. }
  assert (Hst : ∀ (m : nat) l, st !! m = Some l → l = []).
  { unfold st. intros m l Hm. rewrite resize_nil in Hm.
    by apply lookup_replicate in Hm as [-> _]. }
  destruct (submatrices computation) as [|s0 views] eqn:Hsub; simpl.
  - split; [| intros Hnot; destruct Hnot; constructor].
    intros _. exists st. split; [done |].
    split; [unfold vsize in Hlen; lia |].
    intros m l Hm. apply Hst in Hm as ->. split; [constructor |].
    intros i. split; [intros Hi; by apply elem_of_nil in Hi |].
    intros (_ & s & Hs & _). done.
  - rewrite <- Hsub.
    pose proof (for_range_vec_at_1 s0 views
      (λ (submat_lists : list (list Z)) (submatrix_index : Z)
         (s : SubMatrixInfo),
         let matrix_index := matrix_index s in
         KALDI_ASSERT ((0 <? matrix_index) &&
                       (matrix_index <? vsize (matrices computation)));;
         l ← vec_at submat_lists matrix_index;
         vec_set submat_lists matrix_index (l ++ [submatrix_index])) st)
      as Hfor.
    rewrite <- Hsub in Hfor. cbv beta zeta in Hfor |- *. rewrite Hfor.
    destruct (ComputeSubmatLists_loop (vsize (matrices computation)) views
                1 st Hlen) as [(Hall & st' & Hloop & Hlen' & Hadded)
                               | (Hnot & Hloop)];
      cbv beta zeta in *; change (Z.of_nat 1) with 1 in *.
    + split; [| done]. intros _. exists st'. split; [done |].
      split; [unfold vsize in Hlen; lia |].
      intros m l Hm.
      destruct (lookup_lt_is_Some_2 st m) as [l0 Hl0].
      { rewrite <- Hlen'. by apply lookup_lt_Some in Hm. }
      destruct (Hadded m l0 Hl0) as (added & Hst' & Hsorted & Hge & Hmem).
      apply Hst in Hl0 as ->. simpl in Hst'.
      assert (l = added) as -> by congruence.
      split; [done |]. intros i. rewrite Hmem. rewrite Forall_forall in Hge.
      split.
      * intros (n & s & Hn & -> & Hs). split; [lia |]. exists s.
        split; [| done]. rewrite Hsub.
        replace (Z.to_nat (Z.of_nat (1 + n))) with (S n) by lia. done.
      * intros (Hi & s & Hs & Hm'). rewrite Hsub in Hs.
        destruct (Z.to_nat i) as [|n] eqn:Hn; [lia |]. simpl in Hs.
        exists n, s. split; [done |]. split; [lia | done].
    + split; [done | by intros _].
Qed.

(** The views of [overlapping_views], matrix by matrix. *)
Example ComputeSubmatLists_overlapping_views :
  ComputeSubmatLists (overlapping_views [] [] []) = Done [[]; [1; 2; 3]; [4]].
Proof. reflexivity. Qed.

(** A view of the null matrix, other than the null view, is refused. *)
Example ComputeSubmatLists_view_of_null_matrix :
  ComputeSubmatLists
    {| matrices := [ {| mat_num_rows := 0; mat_num_cols := 0 |};
                     {| mat_num_rows := 2; mat_num_cols := 3 |} ];
       submatrices := [ view 0 0 0 0 0; view 1 0 2 0 3; view 0 0 0 0 0 ];
       component_precomputed_indexes := [];
       indexes := []; indexes_multi := []; indexes_ranges := [];
       input_output_info := []; commands := [] |}
  = AssertFail.
Proof. reflexivity. Qed.


(** ** CheckComputationUndefined and Check *)

(** A loop of checks over a vector: it passes when no element is bad, and
    raises the error of the first bad element otherwise. *)
Lemma for_indexed_unit_cases {A} (body : unit → Z → A → outcome unit)
    (bad : nat → A → Prop) (E : string → Prop) (l : list A) (k : nat) :
  (∀ (i : nat) x, l !! i = Some x →
     (body () (Z.of_nat (k + i)) x = Done () ∧ ¬ bad (k + i)%nat x) ∨
     ((∃ msg, body () (Z.of_nat (k + i)) x = Err msg ∧ E msg) ∧
      bad (k + i)%nat x)) →
  (for_indexed body (Z.of_nat k) l () = Done () ∧
   ∀ (i : nat) x, l !! i = Some x → ¬ bad (k + i)%nat x) ∨
  ((∃ msg, for_indexed body (Z.of_nat k) l () = Err msg ∧ E msg) ∧
   ∃ (i : nat) x, l !! i = Some x ∧ bad (k + i)%nat x).
Proof.
  revert k. induction l as [|x l IH]; intros k Hbody; simpl.
  - left. split; [done |]. intros i x Hx. done.
  - destruct (Hbody 0%nat x eq_refl) as [[Hd Hgood] | [(msg & He & HE) Hbad]];
      rewrite Nat.add_0_r in *.
    + rewrite Hd. simpl.
      replace (Z.of_nat k + 1) with (Z.of_nat (S k)) by lia.
      destruct (IH (S k)) as [[Hd' Hall] | [Herr (i & y & Hy & Hbad)]].
      { intros i y Hy. replace (S k + i)%nat with (k + S i)%nat by lia.
        by apply (Hbody (S i)). }
      * left. split; [done |]. intros [|i] y Hy; simpl in Hy.
        -- simplify_eq. by rewrite Nat.add_0_r.
        -- replace (k + S i)%nat with (S k + i)%nat by lia. by apply Hall.
      * right. split; [done |]. exists (S i), y. split; [done |].
        by replace (k + S i)%nat with (S k + i)%nat by lia.
    + rewrite He. simpl. right. split; [eauto |].
      exists 0%nat, x. split; [done |]. by rewrite Nat.add_0_r.
Qed.

(** The checks of [CheckComputationUndefined] on the history of one
    variable. *)
Lemma CheckComputationUndefined_variable (a : Analyzer) (v : nat)
    (accesses : list Access) (matrix_index : Z) (m : MatrixAccesses) :
  variable_to_matrix_ (variables a) !! v = Some matrix_index →
  0 ≤ matrix_index →
  matrix_accesses a !! Z.to_nat matrix_index = Some m →
  let o :=
    matrix_index ← GetMatrixForVariable (variables a) (Z.of_nat v);
    m ← vec_at (matrix_accesses a) matrix_index;
    if negb (is_input m) then
      err_if (bool_decide (accesses = [])) "Variable is never used.";;
      x ← vec_at accesses 0;
      err_if (negb (bool_decide (access_type x = kWriteAccess)))
        "Variable is read before it is written to"
    else Done () in
  (o = Done () ∧ ¬ undefined_error accesses m) ∨
  ((∃ msg, o = Err msg ∧ True) ∧ undefined_error accesses m).
Proof.
  intros Hvtm Hmi Hm. simpl.
  unfold GetMatrixForVariable, size_t_lt.
  assert (Hlt : Z.of_nat v < vsize (variable_to_matrix_ (variables a))).
  { apply lookup_lt_Some in Hvtm. unfold vsize. lia. }
  replace ((0 <=? Z.of_nat v) &&
           (Z.of_nat v <? vsize (variable_to_matrix_ (variables a))))
    with true by (symmetry; apply andb_true_iff; split; lia).
  simpl. rewrite (vec_at_lookup _ v matrix_index Hvtm). simpl.
  rewrite (proj2 (vec_at_Done (matrix_accesses a) matrix_index m)) by done.
  simpl. unfold undefined_error.
  destruct (is_input m); simpl.
  - left. split; [done |]. by intros [? _].
  - destruct accesses as [|x accesses']; simpl.
    + right. split; [eauto |]. split; [done |]. by left.
    + case_bool_decide as Hx; simpl.
      * left. split; [done |].
        intros [_ [? | (y & Hy & Hty)]]; [done |]. by simplify_eq.
      * right. split; [eauto |]. split; [done |]. right. eauto.
Qed.

Lemma CheckComputationUndefined_cases (a : Analyzer) :
  variables_have_matrices a →
  (CheckComputationUndefined a = Done () ∧
   ∀ (v : nat) accesses m,
     variable_accesses a !! v = Some accesses → matrix_of_variable a v m →
     ¬ undefined_error accesses m) ∨
  ((∃ msg, CheckComputationUndefined a = Err msg) ∧
   ∃ (v : nat) accesses m,
     variable_accesses a !! v = Some accesses ∧ matrix_of_variable a v m ∧
     undefined_error accesses m).
Proof.
  intros Hwf. unfold CheckComputationUndefined.
  rewrite (for_range_vec_at_0 (variable_accesses a)
             (λ (_ : unit) (v : Z) (accesses : list Access),
                matrix_index ← GetMatrixForVariable (variables a) v;
                m ← vec_at (matrix_accesses a) matrix_index;
                if negb (is_input m) then
                  err_if (bool_decide (accesses = []))
                    "Variable is never used.";;
                  x ← vec_at accesses 0;
                  err_if (negb (bool_decide (access_type x = kWriteAccess)))
                    "Variable is read before it is written to"
                else Done ())).
  destruct (for_indexed_unit_cases
    (λ (_ : unit) (v : Z) (accesses : list Access),
       matrix_index ← GetMatrixForVariable (variables a) v;
       m ← vec_at (matrix_accesses a) matrix_index;
       if negb (is_input m) then
         err_if (bool_decide (accesses = [])) "Variable is never used.";;
         x ← vec_at accesses 0;
         err_if (negb (bool_decide (access_type x = kWriteAccess)))
           "Variable is read before it is written to"
       else Done ())
    (λ v accesses, ∃ m, matrix_of_variable a v m ∧ undefined_error accesses m)
    (λ _, True) (variable_accesses a) 0)
    as [[Hd Hall] | [(msg & Herr & _) (v & accesses & Hv & m & Hm & Hbad)]].
  - intros v accesses Hv. simpl.
    destruct (Hwf v accesses Hv) as (mi & m & Hvtm & Hmi & Hm).
    destruct (CheckComputationUndefined_variable a v accesses mi m Hvtm Hmi Hm)
      as [[Hd Hgood] | [Herr Hbad]].
    + left. split; [done |]. intros (m' & Hm' & Hbad).
      assert (m' = m) as ->
        by (eapply matrix_of_variable_unique; [done | by exists mi]).
      done.
    + right. split; [done |]. exists m. split; [by exists mi | done].
  - left. split; [done |]. intros v accesses m Hv Hm Hbad.
    apply (Hall v accesses Hv). eauto.
  - right. split; [eauto |]. exists v, accesses, m. done.
Qed.

Lemma CheckComputationMatrixAccesses_cases (a : Analyzer) (p : Process) :
  let r := CheckComputationMatrixAccesses a p in
  ((r.1 = Done () ∧
    ∀ (i : nat) m, (1 ≤ i)%nat → matrix_accesses a !! i = Some m →
                   ¬ lifecycle_error m) ∨
   ((∃ msg, r.1 = Err msg) ∧
    ∃ (i : nat) m, (1 ≤ i)%nat ∧ matrix_accesses a !! i = Some m ∧
                   lifecycle_error m)) ∧
  (r.2 = p ∨
   (computation_checker_warned_unused_input p = false ∧
    computation_checker_warned_unused_input r.2 = true ∧
    ∃ idx, warnings r.2 = warnings p ++ [idx])).
Proof.
  unfold CheckComputationMatrixAccesses.
  set (idxs := seqZ 1 (vsize (matrix_accesses a) - 1)).
  assert (Hidxs : ∀ idx, idx ∈ idxs ↔ 1 ≤ idx < vsize (matrix_accesses a)).
  { intros idx. unfold idxs. rewrite elem_of_seqZ. lia. }
  destruct (for_each_checker_matrix_accesses a idxs p)
    as (Hres & Hstate & _).
  { intros idx Hi. apply Hidxs in Hi. split; [lia |].
    apply lookup_lt_is_Some_2. unfold vsize in Hi. lia. }
  destruct (for_each_checker (CheckComputationMatrixAccesses_matrix a) idxs p)
    as [o p']. simpl in *. split.
  - destruct Hres as [[-> Hall] | [[msg ->] (idx & m & Hi & Hm & Herr)]].
    + left. split; [done |]. intros i m Hi Hm.
      apply (Hall (Z.of_nat i) m); [| by rewrite Nat2Z.id].
      apply Hidxs. apply lookup_lt_Some in Hm. unfold vsize. lia.
    + right. split; [eauto |]. apply Hidxs in Hi.
      exists (Z.to_nat idx), m. split; [lia | done].
  - destruct Hstate as [-> | (Hf & idx & m & _ & _ & _ & ->)]; [by left |].
    right. simpl. eauto.
Qed.

Lemma for_indexed_unit_outcome {A} (body : unit → Z → A → outcome unit)
    (P : outcome unit → Prop) (l : list A) (k : nat) :
  P (Done ()) →
  (∀ (i : nat) x, l !! i = Some x →
     body () (Z.of_nat (k + i)) x = Done () ∨
     P (body () (Z.of_nat (k + i)) x)) →
  (∀ o : outcome unit, P o → o ≠ Done () → ∀ f, P (o ≫= f)) →
  P (for_indexed body (Z.of_nat k) l ()).
Proof.
  intros HD Hbody Hbind. revert k Hbody.
  induction l as [|x l IH]; intros k Hbody; simpl; [done |].
  assert (Hnext : P (for_indexed body (Z.of_nat k + 1) l ())).
  { replace (Z.of_nat k + 1) with (Z.of_nat (S k)) by lia. apply IH.
    intros i y Hy. replace (S k + i)%nat with (k + S i)%nat by lia.
    by apply (Hbody (S i)). }
  destruct (Hbody 0%nat x eq_refl) as [Hd | HP]; rewrite Nat.add_0_r in *.
  - rewrite Hd. done.
  - destruct (body () (Z.of_nat k) x) as [[]| | |] eqn:Hb; [done | | |];
      rewrite <- Hb; (apply Hbind; [by rewrite Hb | by rewrite Hb]).
Qed.

(** When the history of a variable is not empty, or its matrix is an
    input, the only error of the rewrite check on it is that of a write
    after a read. *)
Lemma CheckComputationRewrite_variable_used (a : Analyzer) (v : nat)
    (accesses : list Access) (matrix_index : Z) (m : MatrixAccesses) :
  variable_to_matrix_ (variables a) !! v = Some matrix_index →
  0 ≤ matrix_index →
  matrix_accesses a !! Z.to_nat matrix_index = Some m →
  ¬ (accesses = [] ∧ is_input m = false) →
  let o :=
    matrix_index ← GetMatrixForVariable (variables a) (Z.of_nat v);
    (if bool_decide (accesses = []) then
       m ← vec_at (matrix_accesses a) matrix_index;
       err_if (negb (is_input m)) "Variable is never used."
     else Done ());;
    let num_accesses := vsize accesses in
    let first_pure_read := first_pure_read accesses in
    if negb (first_pure_read =? -1) then
      for_range (first_pure_read + 1) num_accesses (λ _ access,
          x ← vec_at accesses access;
          err_if (negb (bool_decide (access_type x = kReadAccess)))
            "Variable is modified after being read (this is not expected before optimization)")
        ()
    else Done () in
  o = Done () ∨
  o = Err "Variable is modified after being read (this is not expected before optimization)".
Proof.
  intros Hvtm Hmi Hm Hused. simpl.
  unfold GetMatrixForVariable, size_t_lt.
  assert (Hlt : Z.of_nat v < vsize (variable_to_matrix_ (variables a))).
  { apply lookup_lt_Some in Hvtm. unfold vsize. lia. }
  replace ((0 <=? Z.of_nat v) &&
           (Z.of_nat v <? vsize (variable_to_matrix_ (variables a))))
    with true by (symmetry; apply andb_true_iff; split; lia).
  simpl. rewrite (vec_at_lookup _ v matrix_index Hvtm). simpl.
  destruct accesses as [|x0 accesses'] eqn:Hacc.
  - rewrite bool_decide_eq_true_2 by done.
    rewrite (proj2 (vec_at_Done (matrix_accesses a) matrix_index m)) by done.
    simpl. destruct (is_input m); simpl; [by left |]. by destruct Hused.
  - rewrite bool_decide_eq_false_2 by done. simpl. rewrite <- Hacc.
    clear Hacc Hused.
    destruct (list_find (λ a, access_type a = kReadAccess) accesses)
      as [[i x]|] eqn:Hfind.
    + apply first_pure_read_Some in Hfind as (-> & Hi & Hx & Hbefore).
      replace (Z.of_nat i =? -1) with false by (symmetry; apply Z.eqb_neq; lia).
      simpl.
      assert (Hsplit : ∃ pre post, accesses = pre ++ post ∧
                vsize pre = Z.of_nat i + 1).
      { exists (take (S i) accesses), (drop (S i) accesses).
        split; [by rewrite take_drop |].
        unfold vsize. rewrite length_take. apply lookup_lt_Some in Hi. lia. }
      destruct Hsplit as (pre & post & Hsplit & Hlen).
      rewrite <- Hlen. rewrite Hsplit.
      rewrite (for_range_vec_at pre post
                 (λ (_ : unit) (_ : Z) (x : Access),
                    err_if (negb (bool_decide (access_type x = kReadAccess)))
                      "Variable is modified after being read (this is not expected before optimization)")).
      destruct (modified_after_read_loop
                  "Variable is modified after being read (this is not expected before optimization)"
                  post (vsize pre))
        as [[-> _] | [-> _]]; [by left | by right].
    + apply first_pure_read_None in Hfind as (-> & Hall). simpl. by left.
Qed.

Section Checks.
Context `{ComponentProperties}.

(** [CheckComputationUndefined], on the analyzer [Init] builds: the check
    passes exactly when every variable of a matrix that is not an input
    has a history that starts with a pure write; otherwise it raises a
    fatal error. *)
Theorem CheckComputationUndefined_spec (nnet : Nnet)
    (computation : NnetComputation) (a : Analyzer) :
  Analyzer_Init nnet computation = Done a →
  (CheckComputationUndefined a = Done () ↔
   ∀ (v : nat) accesses m,
     variable_accesses a !! v = Some accesses → matrix_of_variable a v m →
     ¬ undefined_error accesses m) ∧
  ((∃ (v : nat) accesses m,
      variable_accesses a !! v = Some accesses ∧ matrix_of_variable a v m ∧
      undefined_error accesses m) →
   ∃ msg, CheckComputationUndefined a = Err msg).
Proof.
  intros Hinit.
  pose proof (Analyzer_Init_variables_have_matrices nnet computation a Hinit)
    as Hwf.
  destruct (CheckComputationUndefined_cases a Hwf)
    as [[Hd Hall] | [[msg Herr] (v & accs & m & Hl & Hm & Hbad)]].
  - split; [done |]. intros (v & accs & m & Hl & Hm & Hbad).
    by destruct (Hall v accs m Hl Hm).
  - split; [| eauto]. split; [congruence |].
    intros Hall. by destruct (Hall v accs m Hl Hm).
Qed.

(** In [Check] the rewrite check follows the check for undefined
    variables: on an analyzer [Init] built and that check passed, the
    error of a variable that is never used is not raised again; the
    rewrite check passes or raises the error of a write after a read. *)
Theorem CheckComputationRewrite_after_undefined (nnet : Nnet)
    (computation : NnetComputation) (a : Analyzer) :
  Analyzer_Init nnet computation = Done a →
  CheckComputationUndefined a = Done () →
  CheckComputationRewrite a = Done () ∨
  CheckComputationRewrite a
  = Err "Variable is modified after being read (this is not expected before optimization)".
Proof.
  intros Hinit Hundef.
  pose proof (Analyzer_Init_variables_have_matrices nnet computation a Hinit)
    as Hwf.
  destruct (CheckComputationUndefined_cases a Hwf)
    as [[_ Hall] | [[msg Herr] _]]; [| congruence].
  unfold CheckComputationRewrite.
  rewrite (for_range_vec_at_0 (variable_accesses a)
             (λ (_ : unit) (v : Z) (accesses : list Access),
                matrix_index ← GetMatrixForVariable (variables a) v;
                (if bool_decide (accesses = []) then
                   m ← vec_at (matrix_accesses a) matrix_index;
                   err_if (negb (is_input m)) "Variable is never used."
                 else Done ());;
                let num_accesses := vsize accesses in
                let first_pure_read := first_pure_read accesses in
                if negb (first_pure_read =? -1) then
                  for_range (first_pure_read + 1) num_accesses (λ _ access,
                      x ← vec_at accesses access;
                      err_if (negb (bool_decide (access_type x = kReadAccess)))
                        "Variable is modified after being read (this is not expected before optimization)")
                    ()
                else Done ())).
  apply (for_indexed_unit_outcome _
           (λ o, o = Done () ∨
                 o = Err "Variable is modified after being read (this is not expected before optimization)")
           (variable_accesses a) 0).
  - by left.
  - intros v accesses Hv. simpl.
    destruct (Hwf v accesses Hv) as (mi & m & Hvtm & Hmi & Hm).
    right.
    apply (CheckComputationRewrite_variable_used a v accesses mi m Hvtm Hmi Hm).
    intros [-> Hin]. apply (Hall v [] m Hv); [by exists mi |].
    split; [done | by left].
  - intros o [-> | ->] Hne f; [done | by right].
Qed.

(** The process state after [Check]: unchanged, or, the flag not being
    set, with the flag set and one warning more. *)
Lemma Check_process (config : CheckComputationOptions) (nnet : Nnet)
    (computation : NnetComputation) (p : Process) :
  let p' := (Check config nnet computation p).2 in
  p' = p ∨
  (computation_checker_warned_unused_input p = false ∧
   computation_checker_warned_unused_input p' = true ∧
   ∃ idx, warnings p' = warnings p ++ [idx]).
Proof.
  unfold Check, mbind, checker_bind, lift. simpl.
  destruct (CheckComputationIndexes nnet computation); simpl; try by left.
  destruct (Analyzer_Init nnet computation) as [an| | |]; simpl; try by left.
  destruct (CheckComputationOrder computation); simpl; try by left.
  destruct (CheckComputationMatrixAccesses_cases an p) as [_ Hstate].
  destruct (CheckComputationMatrixAccesses an p) as [[[]| | |] p']; simpl in *;
    try done.
  destruct (CheckComputationUndefined an) as [[]| | |]; simpl; try done.
  destruct (check_rewrite config); simpl; [| done].
  by destruct (CheckComputationRewrite an).
Qed.

(** [Check] accepts exactly the computations that pass the index checks,
    that [Analyzer::Init] can analyse, whose commands are in order around
    one marker, whose matrices other than the null matrix have no
    lifecycle error, whose variables are defined before they are read
    and, when [check_rewrite] is set, are not written after they have
    been read. *)
Theorem Check_accepts (config : CheckComputationOptions) (nnet : Nnet)
    (computation : NnetComputation) (p : Process) :
  (Check config nnet computation p).1 = Done () ↔
  CheckComputationIndexes nnet computation = Done () ∧
  ∃ a, Analyzer_Init nnet computation = Done a ∧
    order_ok (commands computation) ∧
    (∀ (i : nat) m, (1 ≤ i)%nat → matrix_accesses a !! i = Some m →
                    ¬ lifecycle_error m) ∧
    (∀ (v : nat) accesses m,
       variable_accesses a !! v = Some accesses → matrix_of_variable a v m →
       ¬ undefined_error accesses m ∧
       (check_rewrite config = true → ¬ rewrite_error accesses m)).
Proof.
  unfold Check, mbind, checker_bind, lift. simpl.
  destruct (CheckComputationIndexes nnet computation) as [[]| | |] eqn:Hidx;
    simpl; try (split; [done | by intros [? _]]).
  destruct (Analyzer_Init nnet computation) as [an| | |] eqn:Hinit; simpl;
    try (split; [done | by intros [_ (? & ? & _)]]).
  pose proof (Analyzer_Init_variables_have_matrices nnet computation an Hinit)
    as Hwf.
  destruct (CheckComputationOrder_cases computation)
    as [[-> Hord] | [[msg ->] Hord]]; simpl;
    [| split; [done | intros [_ (? & _ & ? & _)]; done]].
  destruct (CheckComputationMatrixAccesses_cases an p) as [Hma _].
  destruct (CheckComputationMatrixAccesses an p) as [oma p']; simpl in *.
  destruct Hma as [[-> Hlife] | [[msg ->] (i & m & Hi & Hm & Herr)]]; simpl;
    [| split; [done |];
       intros [_ (a' & Ha' & _ & Hlife & _)]; simplify_eq;
       by destruct (Hlife i m Hi Hm)].
  destruct (CheckComputationUndefined_cases an Hwf)
    as [[-> Hdef] | [[msg ->] (v & accs & m & Hl & Hm & Hbad)]]; simpl;
    [| split; [done |];
       intros [_ (a' & Ha' & _ & _ & Hvars)]; simplify_eq;
       by destruct (proj1 (Hvars v accs m Hl Hm))].
  destruct (check_rewrite config) eqn:Hconfig; simpl.
  - destruct (CheckComputationRewrite_cases an Hwf)
      as [[-> Hrw] | [[msg ->] (v & accs & m & Hl & Hm & Hbad)]]; simpl.
    + split; [| done]. intros _. split; [done |]. exists an.
      split; [done |]. split; [done |]. split; [done |].
      intros v accs m Hl Hm. split; [by eapply Hdef |].
      intros _. by eapply Hrw.
    + split; [done |].
      intros [_ (a' & Ha' & _ & _ & Hvars)]. simplify_eq.
      by destruct (proj2 (Hvars v accs m Hl Hm) eq_refl).
  - split; [| done]. intros _. split; [done |]. exists an.
    split; [done |]. split; [done |]. split; [done |].
    intros v accs m Hl Hm. split; [by eapply Hdef | done].
Qed.

(** One warning per process: over any number of runs of [Check], on any
    networks and computations, the process state is unchanged or, the
    flag not being set at first, the flag is set and one warning has been
    logged. *)
Theorem Check_warns_once
    (runs : list (CheckComputationOptions * Nnet * NnetComputation))
    (p : Process) :
  let p' := Check_runs runs p in
  p' = p ∨
  (computation_checker_warned_unused_input p = false ∧
   computation_checker_warned_unused_input p' = true ∧
   ∃ idx, warnings p' = warnings p ++ [idx]).
Proof.
  revert p. induction runs as [|[[config nnet] computation] runs IH];
    intros p; simpl; [by left |].
  destruct (Check_process config nnet computation p)
    as [Heq | (Hf & Ht & idx & Hw)]; simpl in *.
  - rewrite Heq. apply IH.
  - destruct (IH (Check config nnet computation p).2)
      as [Heq | (Hf' & _)]; simpl in *.
    + rewrite Heq. right. eauto.
    + congruence.
Qed.

End Checks.

Lemma CheckComputationUndefined_spec_witness :
  @Analyzer_Init kaldi_properties (one_component (component_with 0))
    in_place_program = Done in_place_analysis ∧
  (CheckComputationUndefined in_place_analysis = Done () ↔
   ∀ (v : nat) accesses m,
     variable_accesses in_place_analysis !! v = Some accesses →
     matrix_of_variable in_place_analysis v m →
     ¬ undefined_error accesses m).
Proof.
  assert (Hinit : @Analyzer_Init kaldi_properties
                    (one_component (component_with 0)) in_place_program
                  = Done in_place_analysis) by (vm_compute; reflexivity).
  split; [exact Hinit |].
  exact (proj1 (@CheckComputationUndefined_spec kaldi_properties
                  (one_component (component_with 0)) in_place_program
                  in_place_analysis Hinit)).
Defined.

(** A matrix that is allocated without zeroing and then added to is read
    before it is written to. *)
Example Check_add_to_undefined :
  @Check kaldi_properties {| check_rewrite := false |}
    (one_component (component_with 0)) add_to_undefined_program fresh_process
  = (Err "Variable is read before it is written to", fresh_process).
Proof. vm_compute. reflexivity. Qed.

Lemma CheckComputationRewrite_after_undefined_witness :
  @Analyzer_Init kaldi_properties (one_component (component_with 0))
    in_place_program = Done in_place_analysis ∧
  CheckComputationUndefined in_place_analysis = Done () ∧
  (CheckComputationRewrite in_place_analysis = Done () ∨
   CheckComputationRewrite in_place_analysis
   = Err "Variable is modified after being read (this is not expected before optimization)").
Proof.
  assert (Hinit : @Analyzer_Init kaldi_properties
                    (one_component (component_with 0)) in_place_program
                  = Done in_place_analysis) by (vm_compute; reflexivity).
  assert (Hundef : CheckComputationUndefined in_place_analysis = Done ())
    by (vm_compute; reflexivity).
  split; [exact Hinit |]. split; [exact Hundef |].
  exact (@CheckComputationRewrite_after_undefined kaldi_properties
           (one_component (component_with 0)) in_place_program
           in_place_analysis Hinit Hundef).
Defined.

(** Two runs over unused inputs: the second does not warn. *)
Example Check_runs_two_unused_inputs :
  (CheckComputationMatrixAccesses (histories [unused_input_matrix])
     (CheckComputationMatrixAccesses (histories [unused_input_matrix])
        fresh_process).2).2
  = {| computation_checker_warned_unused_input := true; warnings := [1] |}.
Proof. reflexivity. Qed.


(** ** Sorted vectors and the binary search *)

Lemma IsSortedAndUniq_true (vec : list Z) :
  IsSortedAndUniq vec = true ↔ StronglySorted Z.lt vec.
Proof.
  induction vec as [|x l IH]; [split; [constructor | done] |].
  cbn [IsSortedAndUniq]. destruct l as [|y l'].
  - split; [| done]. intros _. repeat constructor.
  - rewrite andb_true_iff, IH, Z.ltb_lt. split.
    + intros [Hxy Hs]. constructor; [done |].
      apply StronglySorted_inv in Hs as [_ Hall].
      constructor; [done |].
      eapply Forall_impl; [exact Hall |]. simpl. intros; lia.
    + intros Hs. apply StronglySorted_inv in Hs as [Hs Hall].
      split; [| done]. by apply Forall_inv in Hall.
Qed.

Lemma IsSortedAndUniq_SortAndUniq (vec : list Z) :
  IsSortedAndUniq (SortAndUniq vec) = true.
Proof. apply IsSortedAndUniq_true, SortAndUniq_sorted. Qed.

Lemma StronglySorted_lt_NoDup (vec : list Z) :
  StronglySorted Z.lt vec → NoDup vec.
Proof.
  induction 1 as [|x l Hs IH Hall]; constructor; [| done].
  intros Hx. rewrite Forall_forall in Hall. specialize (Hall x Hx). lia.
Qed.

(** On a strictly increasing vector the binary search finds the elements
    of the vector, and no others. *)
Lemma binary_search_elem_of (v : list Z) (val : Z) :
  StronglySorted Z.lt v → binary_search v val = true ↔ val ∈ v.
Proof.
  intros Hs. unfold binary_search. split.
  - destruct (v !! lower_bound v 0 val) as [x|] eqn:Hx; [| done].
    intros Hge. apply negb_true_iff, Z.ltb_ge in Hge.
    unfold lower_bound in Hx.
    destruct (lower_bound_loop_spec v val (length v - 0) 0 (length v - 0) Hs)
      as (Hr & _ & Hright); [lia | lia |].
    pose proof (lookup_lt_Some _ _ _ Hx) as Hlt.
    cbv zeta in Hright.
    set (r := lower_bound_loop (length v - 0) v 0 (length v - 0) val) in *.
    clearbody r.
    specialize (Hright r x ltac:(lia) Hx).
    assert (x = val) as -> by lia.
    apply list_elem_of_lookup. eauto.
  - intros Hin. apply list_elem_of_lookup in Hin as [k Hk].
    rewrite (lower_bound_found v 0 k val Hs Hk) by lia.
    rewrite Hk. apply negb_true_iff, Z.ltb_ge. lia.
Qed.

(** ** Loops with an invariant *)

Lemma for_indexed_invariant {A St} (Inv : nat → St → Prop)
    (body : St → Z → A → outcome St) (l : list A) (k : nat) (st st' : St) :
  (∀ st (i : nat) x st', l !! i = Some x → Inv i st →
     body st (Z.of_nat (k + i)) x = Done st' → Inv (S i) st') →
  Inv 0%nat st →
  for_indexed body (Z.of_nat k) l st = Done st' →
  Inv (length l) st'.
Proof.
  revert Inv k st. induction l as [|x l IH]; intros Inv k st Hbody Hinv Hloop;
    simpl in Hloop.
  - by simplify_eq.
  - apply bind_Done in Hloop as (st1 & Hstep & Hloop).
    replace (Z.of_nat k + 1) with (Z.of_nat (S k)) in Hloop by lia.
    apply (IH (λ i, Inv (S i)) (S k) st1); [| | done].
    + intros st2 i y st3 Hy Hi Hb. apply (Hbody st2 (S i) y); [done | done |].
      by replace (k + S i)%nat with (S k + i)%nat by lia.
    + apply (Hbody st 0%nat x); [done | done |]. by rewrite Nat.add_0_r.
Qed.

Lemma for_each_prefix_invariant {A St} (Inv : list A → St → Prop)
    (body : St → A → outcome St) (l : list A) (st st' : St) :
  (∀ st pre x post st', l = pre ++ x :: post → Inv pre st →
     body st x = Done st' → Inv (pre ++ [x]) st') →
  Inv [] st → for_each body l st = Done st' → Inv l st'.
Proof.
  intros Hbody Hinv Hloop.
  assert (Hgen : ∀ post pre st, l = pre ++ post → Inv pre st →
            for_each body post st = Done st' → Inv l st').
  { induction post as [|x post IH]; intros pre st0 Hl Hpre Hpost;
      simpl in Hpost.
    - simplify_eq. by rewrite app_nil_r.
    - apply bind_Done in Hpost as (st1 & Hstep & Hpost).
      apply (IH (pre ++ [x]) st1); [by rewrite <- app_assoc | | done].
      by eapply Hbody. }
  by apply (Hgen l [] st).
Qed.

(** A loop that updates the entries of a table at the indexes of a list
    without repetition: the entries at these indexes are updated once, the
    others are kept. *)
Lemma for_each_update {A} (g : Z → A → A) (idxs : list Z) (st st' : list A) :
  NoDup idxs →
  for_each (λ st i, x ← vec_at st i; vec_set st i (g i x)) idxs st = Done st' →
  length st' = length st ∧
  (∀ i, i ∈ idxs → 0 ≤ i < vsize st) ∧
  ∀ (n : nat) x, st !! n = Some x →
    st' !! n = Some (if bool_decide (Z.of_nat n ∈ idxs)
                     then g (Z.of_nat n) x else x).
Proof.
  revert st. induction idxs as [|i idxs IH]; intros st Hnd Hloop;
    simpl in Hloop.
  - simplify_eq. split; [done |].
    split; [intros i Hi; by apply elem_of_nil in Hi |].
    intros n x Hn. rewrite bool_decide_eq_false_2; [done |].
    intros Hin. by apply elem_of_nil in Hin.
  - apply NoDup_cons in Hnd as [Hni Hnd].
    apply bind_Done in Hloop as (st1 & Hstep & Hloop).
    apply bind_Done in Hstep as (x0 & Hx0 & Hset).
    apply vec_at_Done in Hx0 as [Hi0 Hx0].
    apply vec_set_Done in Hset as [Hrange ->].
    destruct (IH _ Hnd Hloop) as (Hlen & Hidxs & Hall).
    rewrite length_insert in Hlen. split; [done |]. split.
    + intros j [-> | Hj]%elem_of_cons; [done |].
      specialize (Hidxs j Hj). unfold vsize in *.
      by rewrite length_insert in Hidxs.
    + intros n x Hn.
      destruct (decide (n = Z.to_nat i)) as [-> | Hne].
      * assert (x = x0) as -> by congruence.
        rewrite (Hall (Z.to_nat i) (g i x0)).
        2:{ apply list_lookup_insert_eq. by apply lookup_lt_Some in Hx0. }
        rewrite Z2Nat.id by lia.
        rewrite bool_decide_eq_false_2 by done.
        rewrite bool_decide_eq_true_2 by left. done.
      * rewrite (Hall n x) by (by rewrite list_lookup_insert_ne).
        assert (Z.of_nat n ≠ i) by lia.
        destruct (decide (Z.of_nat n ∈ idxs)) as [Hin | Hnin].
        -- rewrite !bool_decide_eq_true_2; [done | by right | done].
        -- rewrite !bool_decide_eq_false_2; [done | | done].
           intros [? | ?]%elem_of_cons; done.
Qed.

(** ** Access histories *)

Lemma access_kind_spec (read written : list Z) (i : Z) :
  StronglySorted Z.lt read → StronglySorted Z.lt written →
  i ∈ read ∨ i ∈ written →
  access_of read written i (access_kind read written i).
Proof.
  intros Hr Hw Hin. unfold access_kind, access_of.
  pose proof (binary_search_elem_of read i Hr) as Hbr.
  pose proof (binary_search_elem_of written i Hw) as Hbw.
  destruct (binary_search read i), (binary_search written i); simpl.
  - left. tauto.
  - right. left. split; [tauto |]. split; [| done]. intros ?%Hbw. done.
  - right. right. split; [intros ?%Hbr; done |]. tauto.
  - right. right. split; [intros ?%Hbr; done |]. split; [| done].
    destruct Hin as [?%Hbr | ?%Hbw]; done.
Qed.

Lemma access_of_unique (read written : list Z) (i : Z) (t t' : AccessType) :
  access_of read written i t → access_of read written i t' → t = t'.
Proof. unfold access_of. intros H1 H2. break_hyp H1; break_hyp H2; congruence. Qed.

Lemma access_of_elem_of (read written : list Z) (i : Z) (t : AccessType) :
  access_of read written i t → i ∈ read ∨ i ∈ written.
Proof. unfold access_of. intros H1. break_hyp H1; tauto. Qed.

(** The history of an index after one more command. *)
Lemma history_of_step (read written : CommandAttributes → list Z)
    (attrs : list CommandAttributes) (k : nat) (attr : CommandAttributes)
    (i : Z) (l : list Access) :
  attrs !! k = Some attr →
  StronglySorted Z.lt (read attr) → StronglySorted Z.lt (written attr) →
  history_of read written (take k attrs) i l →
  history_of read written (take (S k) attrs) i
    (if bool_decide (i ∈ SortAndUniq (read attr ++ written attr))
     then l ++ [ {| command_index := Z.of_nat k;
                    access_type := access_kind (read attr) (written attr) i |} ]
     else l).
Proof.
  intros Hk Hr Hw [Hs Hmem].
  assert (Hold : ∀ x, x ∈ l → command_index x < Z.of_nat k).
  { intros x Hx. apply Hmem in Hx as (c & a & Hc & -> & _).
    apply lookup_take_Some in Hc as [_ ?]. lia. }
  assert (Htake : ∀ (c : nat) a, take (S k) attrs !! c = Some a ↔
            take k attrs !! c = Some a ∨ (c = k ∧ a = attr)).
  { intros c a. rewrite !lookup_take_Some. split.
    - intros [Hc Hlt]. destruct (decide (c = k)) as [-> | Hne].
      + right. split; [done | congruence].
      + left. split; [done | lia].
    - intros [[Hc Hlt] | [-> ->]]; (split; [done | lia]). }
  case_bool_decide as Hin.
  - apply SortAndUniq_elem_of, elem_of_app in Hin.
    pose proof (access_kind_spec (read attr) (written attr) i Hr Hw Hin)
      as Hkind.
    split.
    + apply StronglySorted_app_2; [| done | repeat constructor].
      intros x y Hx Hy. apply list_elem_of_singleton in Hy as ->. simpl.
      by apply Hold.
    + intros x. rewrite elem_of_app, list_elem_of_singleton, Hmem. split.
      * intros [(c & a & Hc & Hx) | ->].
        -- exists c, a. split; [apply Htake; by left | done].
        -- exists k, attr. split; [apply Htake; by right | done].
      * intros (c & a & [Hc | [-> ->]]%Htake & Hci & Hty).
        -- left. exists c, a. done.
        -- right. destruct x as [ci ty]. simpl in *. f_equal; [done |].
           by eapply access_of_unique.
  - split; [done |]. intros x. rewrite Hmem. split.
    + intros (c & a & Hc & Hx). exists c, a.
      split; [apply Htake; by left | done].
    + intros (c & a & [Hc | [-> ->]]%Htake & Hci & Hty).
      * exists c, a. done.
      * destruct Hin. apply SortAndUniq_elem_of, elem_of_app.
        by eapply access_of_elem_of.
Qed.

Lemma history_of_nil (read written : CommandAttributes → list Z) (i : Z) :
  history_of read written [] i [].
Proof.
  split; [constructor |]. intros x. split.
  - intros Hx. by apply elem_of_nil in Hx.
  - intros (c & a & Hc & _). done.
Qed.

(** ** ComputeVariableAccesses *)

(** The histories [ComputeVariableAccesses] returns. *)
Lemma ComputeVariableAccesses_histories (vars : ComputationVariables)
    (attrs : list CommandAttributes) (va : list (list Access)) :
  ComputeVariableAccesses vars attrs = Done va →
  length va = Z.to_nat (NumVariables vars) ∧
  ∀ (v : nat) l, va !! v = Some l →
    history_of variables_read variables_written attrs (Z.of_nat v) l.
Proof.
  unfold ComputeVariableAccesses. intros Hc.
  rewrite for_range_vec_at_0 in Hc.
  set (N := Z.to_nat (NumVariables vars)) in *.
  rewrite <- (firstn_all attrs).
  eapply (for_indexed_invariant
    (λ k (va : list (list Access)),
       length va = N ∧
       ∀ (v : nat) l, va !! v = Some l →
         history_of variables_read variables_written (take k attrs)
                    (Z.of_nat v) l)
    _ attrs 0); [| | exact Hc]; clear Hc.
  - intros st k attr st' Hk [Hlen Hall] Hstep. simpl in Hstep.
    apply bind_Done in Hstep as ([] & Hr & Hstep).
    apply bind_Done in Hstep as ([] & Hw & Hstep).
    apply KALDI_ASSERT_Done, IsSortedAndUniq_true in Hr, Hw.
    apply (for_each_update
             (λ i l, l ++ [ {| command_index := Z.of_nat k;
                               access_type := access_kind (variables_read attr)
                                                (variables_written attr) i |} ]))
      in Hstep as (Hlen' & _ & Hupd);
      [| apply StronglySorted_lt_NoDup, SortAndUniq_sorted].
    split; [congruence |]. intros v l' Hv.
    destruct (lookup_lt_is_Some_2 st v) as [l Hl].
    { rewrite <- Hlen'. by apply lookup_lt_Some in Hv. }
    rewrite (Hupd v l Hl) in Hv. injection Hv as <-.
    by apply history_of_step; [| | | apply Hall].
  - split; [by rewrite length_resize |]. intros v l Hv.
    rewrite resize_nil in Hv. apply lookup_replicate in Hv as [-> _].
    apply history_of_nil.
Qed.

(** [ComputeVariableAccesses]: on success there is a history for each
    variable, and the history of a variable is made, in the order of the
    commands, of one access for every command whose attributes list the
    variable as read or written: a ReadWrite access when they list it as
    both, a Read or a Write access otherwise. *)
Theorem ComputeVariableAccesses_spec (vars : ComputationVariables)
    (attrs : list CommandAttributes) (va : list (list Access)) :
  ComputeVariableAccesses vars attrs = Done va →
  length va = Z.to_nat (NumVariables vars) ∧
  ∀ (v : nat) l, va !! v = Some l →
    history_of variables_read variables_written attrs (Z.of_nat v) l.
Proof. apply ComputeVariableAccesses_histories. Qed.

Lemma ComputeVariableAccesses_spec_witness :
  ComputeVariableAccesses (variables in_place_analysis)
    (command_attributes in_place_analysis)
  = Done (variable_accesses in_place_analysis) ∧
  length (variable_accesses in_place_analysis)
  = Z.to_nat (NumVariables (variables in_place_analysis)) ∧
  ∀ (v : nat) l, variable_accesses in_place_analysis !! v = Some l →
    history_of variables_read variables_written
      (command_attributes in_place_analysis) (Z.of_nat v) l.
Proof.
  assert (Hd : ComputeVariableAccesses (variables in_place_analysis)
                 (command_attributes in_place_analysis)
               = Done (variable_accesses in_place_analysis))
    by (vm_compute; reflexivity).
  split; [exact Hd |].
  exact (ComputeVariableAccesses_spec _ _ _ Hd).
Defined.

(** Variable 0 of the in-place program is written by command 0, which
    zeroes its matrix, read by command 2 and read and written by command
    3. *)
Example ComputeVariableAccesses_in_place :
  variable_accesses in_place_analysis !! 0%nat
  = Some [ {| command_index := 0; access_type := kWriteAccess |};
           {| command_index := 2; access_type := kReadAccess |};
           {| command_index := 3; access_type := kReadWriteAccess |} ].
Proof. reflexivity. Qed.

(** ** ComputeMatrixAccesses *)

Lemma vec_update {A} (f : A → A) (v v' : list A) (j : Z) (x : A) :
  vec_at v j = Done x → vec_set v j (f x) = Done v' →
  0 ≤ j ∧ length v' = length v ∧
  ∀ (n : nat) y, v !! n = Some y →
    v' !! n = Some (if decide (Z.of_nat n = j) then f y else y).
Proof.
  intros [Hj Hx]%vec_at_Done [Hrange ->]%vec_set_Done.
  split; [done |]. split; [by rewrite length_insert |].
  intros n y Hn. destruct (decide (Z.of_nat n = j)) as [<- | Hne].
  - rewrite Nat2Z.id in *. assert (y = x) as -> by congruence.
    apply list_lookup_insert_eq. by apply lookup_lt_Some in Hn.
  - rewrite list_lookup_insert_ne by lia. done.
Qed.

Lemma allocates_or_not (n : Z) (cmd : Command) :
  allocates n cmd ∨ ¬ allocates n cmd.
Proof.
  unfold allocates.
  destruct (decide (command_type cmd = kAllocMatrixZeroed)),
           (decide (command_type cmd = kAllocMatrixUndefined)),
           (decide (arg1 cmd = n)); tauto.
Qed.

Lemma deallocates_or_not (n : Z) (cmd : Command) :
  deallocates n cmd ∨ ¬ deallocates n cmd.
Proof.
  unfold deallocates.
  destruct (decide (command_type cmd = kDeallocMatrix)),
           (decide (arg1 cmd = n)); tauto.
Qed.

Lemma only_command_nil (P : Command → Prop) : only_command P [] (-1).
Proof. left. split; [done |]. intros cmd Hin. by apply elem_of_nil in Hin. Qed.

(** The index of the only command with [P], after one more command. *)
Lemma only_command_step (P : Command → Prop) (cmds : list Command) (k : nat)
    (command : Command) (a a' : Z) :
  cmds !! k = Some command →
  only_command P (take k cmds) a →
  P command ∨ ¬ P command →
  (P command → a = -1 ∧ a' = Z.of_nat k) →
  (¬ P command → a' = a) →
  only_command P (take (S k) cmds) a'.
Proof.
  intros Hk Hold Hdec Hyes Hno.
  assert (Htake : ∀ (c : nat) cmd, take (S k) cmds !! c = Some cmd ↔
            take k cmds !! c = Some cmd ∨ (c = k ∧ cmd = command)).
  { intros c cmd. rewrite !lookup_take_Some. split.
    - intros [Hc Hlt]. destruct (decide (c = k)) as [-> | Hne].
      + right. split; [done | congruence].
      + left. split; [done | lia].
    - intros [[Hc Hlt] | [-> ->]]; (split; [done | lia]). }
  destruct Hdec as [HP | HnP].
  - destruct (Hyes HP) as [-> ->].
    destruct Hold as [[_ Hnone] | (c & cmd & Hc & _)]; [| lia].
    right. exists k, command. split; [done |].
    split; [apply Htake; by right |]. split; [done |].
    intros c' cmd' [Hc' | [-> ->]]%Htake HP'; [| done].
    destruct (Hnone cmd'); [| done]. apply list_elem_of_lookup. eauto.
  - rewrite (Hno HnP).
    destruct Hold as [[-> Hnone] | (c & cmd & -> & Hc & HPc & Huniq)].
    + left. split; [done |]. intros cmd [c Hc]%list_elem_of_lookup.
      apply Htake in Hc as [Hc | [-> ->]]; [| done].
      apply Hnone. apply list_elem_of_lookup. eauto.
    + right. exists c, cmd. split; [done |].
      split; [apply Htake; by left |]. split; [done |].
      intros c' cmd' [Hc' | [-> ->]]%Htake HP'; [by eapply Huniq | done].
Qed.

(** What the [switch] on the command type does to the records. *)
Lemma ComputeMatrixAccesses_switch (ma ma' : list MatrixAccesses)
    (command : Command) (c : Z) :
  match command_type command with
  | kAllocMatrixZeroed | kAllocMatrixUndefined =>
      m ← vec_at ma (arg1 command);
      err_if (negb (allocate_command m =? -1)) "Matrix initialized twice.";;
      vec_set ma (arg1 command) (set_allocate_command c m)
  | kDeallocMatrix =>
      m ← vec_at ma (arg1 command);
      err_if (negb (deallocate_command m =? -1)) "Matrix destroyed twice.";;
      vec_set ma (arg1 command) (set_deallocate_command c m)
  | _ => Done ma
  end = Done ma' →
  length ma' = length ma ∧
  ∀ (n : nat) rec, ma !! n = Some rec →
    ∃ rec', ma' !! n = Some rec' ∧
      accesses rec' = accesses rec ∧
      is_input rec' = is_input rec ∧ is_output rec' = is_output rec ∧
      (allocates (Z.of_nat n) command →
       allocate_command rec = -1 ∧ allocate_command rec' = c) ∧
      (¬ allocates (Z.of_nat n) command →
       allocate_command rec' = allocate_command rec) ∧
      (deallocates (Z.of_nat n) command →
       deallocate_command rec = -1 ∧ deallocate_command rec' = c) ∧
      (¬ deallocates (Z.of_nat n) command →
       deallocate_command rec' = deallocate_command rec).
Proof.
  unfold allocates, deallocates.
  destruct (command_type command) eqn:Htype; intros Hstep;
    try (injection Hstep as <-; split; [done |]; intros n rec Hn;
         exists rec; split; [done |]; split_and!;
         intuition (try discriminate; try congruence)).
  - apply bind_Done in Hstep as (m & Hm & Hstep).
    apply bind_Done in Hstep as ([] & Herr & Hstep).
    destruct (Z.eqb_spec (allocate_command m) (-1)) as [Hfree |]; [| done].
    destruct (vec_update (set_allocate_command c) _ _ _ _ Hm Hstep)
      as (_ & Hlen & Hupd).
    split; [done |]. intros n rec Hn. rewrite (Hupd n rec Hn).
    apply vec_at_Done in Hm as [Hj Hm].
    destruct (decide (Z.of_nat n = arg1 command)) as [Heq | Hne].
    + assert (rec = m) as -> by (rewrite <- Heq, Nat2Z.id in Hm; congruence).
      eexists. split; [done |]. simpl. split_and!;
        intuition (try discriminate; try congruence).
    + exists rec. split; [done |]. split_and!;
        intuition (try discriminate; try congruence).
  - apply bind_Done in Hstep as (m & Hm & Hstep).
    apply bind_Done in Hstep as ([] & Herr & Hstep).
    destruct (Z.eqb_spec (allocate_command m) (-1)) as [Hfree |]; [| done].
    destruct (vec_update (set_allocate_command c) _ _ _ _ Hm Hstep)
      as (_ & Hlen & Hupd).
    split; [done |]. intros n rec Hn. rewrite (Hupd n rec Hn).
    apply vec_at_Done in Hm as [Hj Hm].
    destruct (decide (Z.of_nat n = arg1 command)) as [Heq | Hne].
    + assert (rec = m) as -> by (rewrite <- Heq, Nat2Z.id in Hm; congruence).
      eexists. split; [done |]. simpl. split_and!;
        intuition (try discriminate; try congruence).
    + exists rec. split; [done |]. split_and!;
        intuition (try discriminate; try congruence).
  - apply bind_Done in Hstep as (m & Hm & Hstep).
    apply bind_Done in Hstep as ([] & Herr & Hstep).
    destruct (Z.eqb_spec (deallocate_command m) (-1)) as [Hfree |]; [| done].
    destruct (vec_update (set_deallocate_command c) _ _ _ _ Hm Hstep)
      as (_ & Hlen & Hupd).
    split; [done |]. intros n rec Hn. rewrite (Hupd n rec Hn).
    apply vec_at_Done in Hm as [Hj Hm].
    destruct (decide (Z.of_nat n = arg1 command)) as [Heq | Hne].
    + assert (rec = m) as -> by (rewrite <- Heq, Nat2Z.id in Hm; congruence).
      eexists. split; [done |]. simpl. split_and!;
        intuition (try discriminate; try congruence).
    + exists rec. split; [done |]. split_and!;
        intuition (try discriminate; try congruence).
Qed.

(** What one entry of [input_output_info] does to the records. *)
Lemma ComputeMatrixAccesses_entry (nnet : Nnet) (num_matrices : Z)
    (ma ma' : list MatrixAccesses) (node_index value_matrix_index
    deriv_matrix_index : Z) :
  (KALDI_ASSERT ((0 <? value_matrix_index) &&
                 (value_matrix_index <? num_matrices));;
   if IsInputNode nnet node_index then
     m ← vec_at ma value_matrix_index;
     KALDI_ASSERT (negb (is_input m));;
     matrix_accesses ← vec_set ma value_matrix_index (set_is_input m);
     if negb (deriv_matrix_index =? 0) then
       m ← vec_at matrix_accesses deriv_matrix_index;
       KALDI_ASSERT (negb (is_output m));;
       vec_set matrix_accesses deriv_matrix_index (set_is_output m)
     else Done matrix_accesses
   else
     KALDI_ASSERT (IsOutputNode nnet node_index);;
     m ← vec_at ma value_matrix_index;
     KALDI_ASSERT (negb (is_output m));;
     matrix_accesses ← vec_set ma value_matrix_index (set_is_output m);
     if negb (deriv_matrix_index =? 0) then
       m ← vec_at matrix_accesses deriv_matrix_index;
       KALDI_ASSERT (negb (is_input m));;
       vec_set matrix_accesses deriv_matrix_index (set_is_input m)
     else Done matrix_accesses) = Done ma' →
  let entry := (node_index, (value_matrix_index, deriv_matrix_index)) in
  length ma' = length ma ∧
  ∀ (n : nat) rec, ma !! n = Some rec →
    ∃ rec', ma' !! n = Some rec' ∧
      accesses rec' = accesses rec ∧
      allocate_command rec' = allocate_command rec ∧
      deallocate_command rec' = deallocate_command rec ∧
      (is_input rec' = true ↔
       is_input rec = true ∨ marks_input nnet (Z.of_nat n) entry) ∧
      (is_output rec' = true ↔
       is_output rec = true ∨ marks_output nnet (Z.of_nat n) entry).
Proof.
  intros Hstep. unfold marks_input, marks_output. simpl.
  apply bind_Done in Hstep as ([] & _ & Hstep).
  destruct (IsInputNode nnet node_index).
  - apply bind_Done in Hstep as (m & Hm & Hstep).
    apply bind_Done in Hstep as ([] & _ & Hstep).
    apply bind_Done in Hstep as (ma1 & Hset & Hstep).
    destruct (vec_update set_is_input _ _ _ _ Hm Hset) as (_ & Hlen1 & Hupd1).
    destruct (Z.eqb_spec deriv_matrix_index 0) as [Hzero | Hnonzero];
      simpl in Hstep.
    + injection Hstep as <-. split; [done |]. intros n rec Hn.
      rewrite (Hupd1 n rec Hn). eexists. split; [done |].
      destruct (decide (Z.of_nat n = value_matrix_index)); simpl;
        split_and!; intuition (try discriminate; try congruence).
    + apply bind_Done in Hstep as (m2 & Hm2 & Hstep).
      apply bind_Done in Hstep as ([] & _ & Hstep).
      destruct (vec_update set_is_output _ _ _ _ Hm2 Hstep)
        as (_ & Hlen2 & Hupd2).
      split; [congruence |]. intros n rec Hn.
      rewrite (Hupd2 n _ (Hupd1 n rec Hn)). eexists. split; [done |].
      destruct (decide (Z.of_nat n = value_matrix_index)),
               (decide (Z.of_nat n = deriv_matrix_index)); simpl;
        split_and!; intuition (try discriminate; try congruence).
  - apply bind_Done in Hstep as ([] & _ & Hstep).
    apply bind_Done in Hstep as (m & Hm & Hstep).
    apply bind_Done in Hstep as ([] & _ & Hstep).
    apply bind_Done in Hstep as (ma1 & Hset & Hstep).
    destruct (vec_update set_is_output _ _ _ _ Hm Hset) as (_ & Hlen1 & Hupd1).
    destruct (Z.eqb_spec deriv_matrix_index 0) as [Hzero | Hnonzero];
      simpl in Hstep.
    + injection Hstep as <-. split; [done |]. intros n rec Hn.
      rewrite (Hupd1 n rec Hn). eexists. split; [done |].
      destruct (decide (Z.of_nat n = value_matrix_index)); simpl;
        split_and!; intuition (try discriminate; try congruence).
    + apply bind_Done in Hstep as (m2 & Hm2 & Hstep).
      apply bind_Done in Hstep as ([] & _ & Hstep).
      destruct (vec_update set_is_input _ _ _ _ Hm2 Hstep)
        as (_ & Hlen2 & Hupd2).
      split; [congruence |]. intros n rec Hn.
      rewrite (Hupd2 n _ (Hupd1 n rec Hn)). eexists. split; [done |].
      destruct (decide (Z.of_nat n = value_matrix_index)),
               (decide (Z.of_nat n = deriv_matrix_index)); simpl;
        split_and!; intuition (try discriminate; try congruence).
Qed.

(** The records [ComputeMatrixAccesses] returns. *)
Lemma ComputeMatrixAccesses_Done (nnet : Nnet) (computation : NnetComputation)
    (vars : ComputationVariables) (attrs : list CommandAttributes)
    (ma : list MatrixAccesses) :
  ComputeMatrixAccesses nnet computation vars attrs = Done ma →
  (length attrs ≤ length (commands computation))%nat ∧
  ∀ (n : nat) rec, ma !! n = Some rec →
    history_of matrices_read matrices_written attrs (Z.of_nat n)
               (accesses rec) ∧
    only_command (allocates (Z.of_nat n))
      (take (length attrs) (commands computation)) (allocate_command rec) ∧
    only_command (deallocates (Z.of_nat n))
      (take (length attrs) (commands computation)) (deallocate_command rec) ∧
    (is_input rec = true ↔
     ∃ entry, entry ∈ input_output_info computation ∧
              marks_input nnet (Z.of_nat n) entry) ∧
    (is_output rec = true ↔
     ∃ entry, entry ∈ input_output_info computation ∧
              marks_output nnet (Z.of_nat n) entry).
Proof.
  unfold ComputeMatrixAccesses. intros Hc.
  apply bind_Done in Hc as (ma1 & Hloop & Hio).
  rewrite for_range_vec_at_0 in Hloop.
  set (cmds := commands computation) in *.
  assert (H1 : (length attrs ≤ length cmds)%nat ∧
            ∀ (n : nat) rec, ma1 !! n = Some rec →
              history_of matrices_read matrices_written
                         (take (length attrs) attrs) (Z.of_nat n)
                         (accesses rec) ∧
              only_command (allocates (Z.of_nat n))
                (take (length attrs) cmds) (allocate_command rec) ∧
              only_command (deallocates (Z.of_nat n))
                (take (length attrs) cmds) (deallocate_command rec) ∧
              is_input rec = false ∧ is_output rec = false).
  { eapply (for_indexed_invariant
      (λ k (ma : list MatrixAccesses),
         (k ≤ length cmds)%nat ∧
         ∀ (n : nat) rec, ma !! n = Some rec →
           history_of matrices_read matrices_written (take k attrs)
                      (Z.of_nat n) (accesses rec) ∧
           only_command (allocates (Z.of_nat n)) (take k cmds)
                        (allocate_command rec) ∧
           only_command (deallocates (Z.of_nat n)) (take k cmds)
                        (deallocate_command rec) ∧
           is_input rec = false ∧ is_output rec = false)
      _ attrs 0); [| | exact Hloop]; clear Hloop Hio.
    - intros st k attr st' Hk [Hle Hall] Hstep. simpl in Hstep.
      apply bind_Done in Hstep as ([] & Hr & Hstep).
      apply bind_Done in Hstep as ([] & Hw & Hstep).
      apply KALDI_ASSERT_Done, IsSortedAndUniq_true in Hr, Hw.
      apply bind_Done in Hstep as (st1 & Hpush & Hstep).
      apply (for_each_update
               (λ i m, push_access
                  {| command_index := Z.of_nat k;
                     access_type := access_kind (matrices_read attr)
                                      (matrices_written attr) i |} m))
        in Hpush as (Hlen1 & _ & Hupd);
        [| apply StronglySorted_lt_NoDup, SortAndUniq_sorted].
      apply bind_Done in Hstep as (command & Hcmd & Hstep).
      apply vec_at_Done in Hcmd as [_ Hcmd]. rewrite Nat2Z.id in Hcmd.
      apply ComputeMatrixAccesses_switch in Hstep as [Hlen2 Hsw].
      split; [apply lookup_lt_Some in Hcmd; fold cmds in Hcmd; lia |].
      intros n rec' Hn.
      destruct (lookup_lt_is_Some_2 st n) as [rec Hrec].
      { rewrite <- Hlen1, <- Hlen2. by apply lookup_lt_Some in Hn. }
      destruct (Hall n rec Hrec) as (Hhist & Halloc & Hdealloc & Hin & Hout).
      destruct (Hsw n _ (Hupd n rec Hrec))
        as (rec2 & Hrec2 & Hacc & Hin2 & Hout2 & Ha1 & Ha2 & Hd1 & Hd2).
      assert (rec2 = rec') as -> by congruence.
      split.
      { rewrite Hacc.
        pose proof (history_of_step matrices_read matrices_written attrs k
                      attr (Z.of_nat n) (accesses rec) Hk Hr Hw Hhist) as Hs.
        by case_bool_decide. }
      split.
      { apply (only_command_step _ cmds k command
                 (allocate_command rec)); [done | done | | |].
        - apply allocates_or_not.
        - intros HP. destruct (Ha1 HP) as [Hfree ->].
          split; [| done]. by case_bool_decide.
        - intros HP. rewrite (Ha2 HP). by case_bool_decide. }
      split.
      { apply (only_command_step _ cmds k command
                 (deallocate_command rec)); [done | done | | |].
        - apply deallocates_or_not.
        - intros HP. destruct (Hd1 HP) as [Hfree ->].
          split; [| done]. by case_bool_decide.
        - intros HP. rewrite (Hd2 HP). by case_bool_decide. }
      rewrite Hin2, Hout2. by case_bool_decide.
    - split; [lia |]. intros n rec Hn.
      rewrite resize_nil in Hn. apply lookup_replicate in Hn as [-> _].
      simpl. split; [apply history_of_nil |].
      split; [apply only_command_nil |]. split; [apply only_command_nil |].
      done. }
  rewrite firstn_all in H1. destruct H1 as [Hle H1]. split; [done |].
  assert (H2 : length ma = length ma1 ∧
            ∀ (n : nat) rec, ma !! n = Some rec →
              ∃ rec1, ma1 !! n = Some rec1 ∧
                accesses rec = accesses rec1 ∧
                allocate_command rec = allocate_command rec1 ∧
                deallocate_command rec = deallocate_command rec1 ∧
                (is_input rec = true ↔
                 is_input rec1 = true ∨
                 ∃ entry, entry ∈ input_output_info computation ∧
                          marks_input nnet (Z.of_nat n) entry) ∧
                (is_output rec = true ↔
                 is_output rec1 = true ∨
                 ∃ entry, entry ∈ input_output_info computation ∧
                          marks_output nnet (Z.of_nat n) entry)).
  { eapply (for_each_prefix_invariant
      (λ pre (ma : list MatrixAccesses),
         length ma = length ma1 ∧
         ∀ (n : nat) rec, ma !! n = Some rec →
           ∃ rec1, ma1 !! n = Some rec1 ∧
             accesses rec = accesses rec1 ∧
             allocate_command rec = allocate_command rec1 ∧
             deallocate_command rec = deallocate_command rec1 ∧
             (is_input rec = true ↔
              is_input rec1 = true ∨
              ∃ entry, entry ∈ pre ∧ marks_input nnet (Z.of_nat n) entry) ∧
             (is_output rec = true ↔
              is_output rec1 = true ∨
              ∃ entry, entry ∈ pre ∧ marks_output nnet (Z.of_nat n) entry)));
      [| | exact Hio]; clear Hio.
    - intros st pre [node [value deriv]] post st' _ [Hlen Hall] Hstep.
      apply ComputeMatrixAccesses_entry in Hstep as [Hlen' Hentry].
      split; [congruence |]. intros n rec' Hn.
      destruct (lookup_lt_is_Some_2 st n) as [rec Hrec].
      { rewrite <- Hlen'. by apply lookup_lt_Some in Hn. }
      destruct (Hall n rec Hrec)
        as (rec1 & Hrec1 & Hacc & Ha & Hd & Hin & Hout).
      destruct (Hentry n rec Hrec)
        as (rec2 & Hrec2 & Hacc' & Ha' & Hd' & Hin' & Hout').
      assert (rec2 = rec') as -> by congruence.
      exists rec1. split; [done |]. split; [congruence |].
      split; [congruence |]. split; [congruence |].
      split.
      + rewrite Hin', Hin. split.
        * intros [[? | (e & He & Hm)] | Hm]; [by left | |].
          -- right. exists e. split; [apply elem_of_app; by left | done].
          -- right. eexists. split; [apply elem_of_app; right; left | done].
        * intros [? | (e & [He | ->%list_elem_of_singleton]%elem_of_app & Hm)].
          -- by left; left.
          -- left. right. eauto.
          -- by right.
      + rewrite Hout', Hout. split.
        * intros [[? | (e & He & Hm)] | Hm]; [by left | |].
          -- right. exists e. split; [apply elem_of_app; by left | done].
          -- right. eexists. split; [apply elem_of_app; right; left | done].
        * intros [? | (e & [He | ->%list_elem_of_singleton]%elem_of_app & Hm)].
          -- by left; left.
          -- left. right. eauto.
          -- by right.
    - split; [done |]. intros n rec Hn. exists rec. split; [done |].
      split; [done |]. split; [done |]. split; [done |].
      split; (split; [by left |]);
        (intros [? | (e & He & _)]; [done | by apply elem_of_nil in He]). }
  destruct H2 as [_ H2]. intros n rec Hn.
  destruct (H2 n rec Hn) as (rec1 & Hrec1 & Hacc & Ha & Hd & Hin & Hout).
  destruct (H1 n rec1 Hrec1) as (Hhist & Halloc & Hdealloc & Hin1 & Hout1).
  rewrite Hacc, Ha, Hd. split; [done |]. split; [done |]. split; [done |].
  rewrite Hin, Hout, Hin1, Hout1. split; split.
  - by intros [? | ?].
  - by right.
  - by intros [? | ?].
  - by right.
Qed.

(** [ComputeMatrixAccesses], the accesses: on success the accesses of a
    matrix are, in the order of the commands, one for every command whose
    attributes list the matrix as read or written: a ReadWrite access
    when they list it as both, a Read or a Write access otherwise. *)
Theorem ComputeMatrixAccesses_accesses (nnet : Nnet)
    (computation : NnetComputation) (vars : ComputationVariables)
    (attrs : list CommandAttributes) (ma : list MatrixAccesses)
    (n : nat) (rec : MatrixAccesses) :
  ComputeMatrixAccesses nnet computation vars attrs = Done ma →
  ma !! n = Some rec →
  history_of matrices_read matrices_written attrs (Z.of_nat n) (accesses rec).
Proof.
  intros Hc Hn.
  destruct (ComputeMatrixAccesses_Done _ _ _ _ _ Hc) as [_ Hall].
  by destruct (Hall n rec Hn) as (? & _).
Qed.

(** [ComputeMatrixAccesses], the allocation: on success, the attributes
    being those of the commands, the allocation command of a matrix is
    the index of the only command that allocates it, zeroed or not, or
    -1 when no command does; and the same for its deallocation
    command. *)
Theorem ComputeMatrixAccesses_allocation (nnet : Nnet)
    (computation : NnetComputation) (vars : ComputationVariables)
    (attrs : list CommandAttributes) (ma : list MatrixAccesses)
    (n : nat) (rec : MatrixAccesses) :
  ComputeMatrixAccesses nnet computation vars attrs = Done ma →
  length attrs = length (commands computation) →
  ma !! n = Some rec →
  only_command (allocates (Z.of_nat n)) (commands computation)
               (allocate_command rec) ∧
  only_command (deallocates (Z.of_nat n)) (commands computation)
               (deallocate_command rec).
Proof.
  intros Hc Hlen Hn.
  destruct (ComputeMatrixAccesses_Done _ _ _ _ _ Hc) as [_ Hall].
  destruct (Hall n rec Hn) as (_ & Ha & Hd & _).
  rewrite Hlen, firstn_all in Ha, Hd. done.
Qed.

(** [ComputeMatrixAccesses], the flags: on success a matrix is an input
    exactly when [input_output_info] has it as the value of an input node
    or as the derivative of another node, and an output exactly when it
    has it as the derivative of an input node or as the value of another
    node. *)
Theorem ComputeMatrixAccesses_flags (nnet : Nnet)
    (computation : NnetComputation) (vars : ComputationVariables)
    (attrs : list CommandAttributes) (ma : list MatrixAccesses)
    (n : nat) (rec : MatrixAccesses) :
  ComputeMatrixAccesses nnet computation vars attrs = Done ma →
  ma !! n = Some rec →
  (is_input rec = true ↔
   ∃ entry, entry ∈ input_output_info computation ∧
            marks_input nnet (Z.of_nat n) entry) ∧
  (is_output rec = true ↔
   ∃ entry, entry ∈ input_output_info computation ∧
            marks_output nnet (Z.of_nat n) entry).
Proof.
  intros Hc Hn.
  destruct (ComputeMatrixAccesses_Done _ _ _ _ _ Hc) as [_ Hall].
  by destruct (Hall n rec Hn) as (_ & _ & _ & ?).
Qed.

(** The records of the matrices of [input_to_output_program]: matrix 1
    is an input, read by command 1 and freed by command 3; matrix 2 is an
    output, allocated by command 0 and written by command 1. *)
Example ComputeMatrixAccesses_input_to_output :
  matrix_accesses input_to_output_analysis
  = [ MatrixAccesses_new;
      {| allocate_command := -1; deallocate_command := 3;
         accesses := [ {| command_index := 1; access_type := kReadAccess |} ];
         is_input := true; is_output := false |};
      {| allocate_command := 0; deallocate_command := -1;
         accesses := [ {| command_index := 1; access_type := kWriteAccess |} ];
         is_input := false; is_output := true |} ].
Proof. reflexivity. Qed.

Example Check_input_to_output :
  @Check kaldi_properties {| check_rewrite := true |} input_and_output_nodes
    input_to_output_program fresh_process
  = (Done (), fresh_process).
Proof. vm_compute. reflexivity. Qed.

(** A matrix that two commands allocate is not analysed. *)
Example ComputeMatrixAccesses_initialized_twice :
  @Analyzer_Init kaldi_properties input_and_output_nodes
    (one_matrix
       [ {| command_type := kAllocMatrixZeroed;
            arg1 := 1; arg2 := 0; arg3 := 0; arg4 := 0; arg5 := 0; arg6 := 0 |};
         {| command_type := kAllocMatrixUndefined;
            arg1 := 1; arg2 := 0; arg3 := 0; arg4 := 0; arg5 := 0; arg6 := 0 |} ])
  = Err "Matrix initialized twice.".
Proof. vm_compute. reflexivity. Qed.

Lemma ComputeMatrixAccesses_accesses_witness :
  ComputeMatrixAccesses input_and_output_nodes input_to_output_program
    (variables input_to_output_analysis)
    (command_attributes input_to_output_analysis)
  = Done (matrix_accesses input_to_output_analysis) ∧
  ∃ rec, matrix_accesses input_to_output_analysis !! 1%nat = Some rec ∧
    history_of matrices_read matrices_written
      (command_attributes input_to_output_analysis) (Z.of_nat 1)
      (accesses rec).
Proof.
  assert (Hd : ComputeMatrixAccesses input_and_output_nodes
                 input_to_output_program
                 (variables input_to_output_analysis)
                 (command_attributes input_to_output_analysis)
               = Done (matrix_accesses input_to_output_analysis))
    by (vm_compute; reflexivity).
  split; [exact Hd |]. eexists. split; [reflexivity |].
  exact (ComputeMatrixAccesses_accesses _ _ _ _ _ 1 _ Hd eq_refl).
Defined.

Lemma ComputeMatrixAccesses_allocation_witness :
  ComputeMatrixAccesses input_and_output_nodes input_to_output_program
    (variables input_to_output_analysis)
    (command_attributes input_to_output_analysis)
  = Done (matrix_accesses input_to_output_analysis) ∧
  length (command_attributes input_to_output_analysis)
  = length (commands input_to_output_program) ∧
  ∃ rec, matrix_accesses input_to_output_analysis !! 2%nat = Some rec ∧
    only_command (allocates (Z.of_nat 2)) (commands input_to_output_program)
                 (allocate_command rec) ∧
    only_command (deallocates (Z.of_nat 2)) (commands input_to_output_program)
                 (deallocate_command rec).
Proof.
  assert (Hd : ComputeMatrixAccesses input_and_output_nodes
                 input_to_output_program
                 (variables input_to_output_analysis)
                 (command_attributes input_to_output_analysis)
               = Done (matrix_accesses input_to_output_analysis))
    by (vm_compute; reflexivity).
  split; [exact Hd |]. split; [reflexivity |].
  eexists. split; [reflexivity |].
  exact (ComputeMatrixAccesses_allocation _ _ _ _ _ 2 _ Hd eq_refl eq_refl).
Defined.

Lemma ComputeMatrixAccesses_flags_witness :
  ComputeMatrixAccesses input_and_output_nodes input_to_output_program
    (variables input_to_output_analysis)
    (command_attributes input_to_output_analysis)
  = Done (matrix_accesses input_to_output_analysis) ∧
  ∃ rec, matrix_accesses input_to_output_analysis !! 1%nat = Some rec ∧
    (is_input rec = true ↔
     ∃ entry, entry ∈ input_output_info input_to_output_program ∧
              marks_input input_and_output_nodes (Z.of_nat 1) entry) ∧
    (is_output rec = true ↔
     ∃ entry, entry ∈ input_output_info input_to_output_program ∧
              marks_output input_and_output_nodes (Z.of_nat 1) entry).
Proof.
  assert (Hd : ComputeMatrixAccesses input_and_output_nodes
                 input_to_output_program
                 (variables input_to_output_analysis)
                 (command_attributes input_to_output_analysis)
               = Done (matrix_accesses input_to_output_analysis))
    by (vm_compute; reflexivity).
  split; [exact Hd |]. eexists. split; [reflexivity |].
  exact (ComputeMatrixAccesses_flags _ _ _ _ _ 1 _ Hd eq_refl).
Defined.


(** ** The variables of the matrices and the matrix of a variable *)

(** [ComputeSplitPoints] leaves in [num_variables_] the last entry of
    [matrix_to_variable_index_], which has an entry more than there are
    matrices. *)
Lemma ComputeSplitPoints_num_variables (computation : NnetComputation)
    (this v1 : ComputationVariables) :
  ComputeSplitPoints computation this = Done v1 →
  length (matrix_to_variable_index_ v1) = S (length (matrices computation)) ∧
  last (matrix_to_variable_index_ v1) = Some (num_variables_ v1).
Proof.
  unfold ComputeSplitPoints. intros Hc.
  apply bind_Done in Hc as (s0 & _ & Hc).
  apply bind_Done in Hc as ([] & _ & Hc).
  apply bind_Done in Hc as (sp1 & _ & Hc).
  apply bind_Done in Hc as (sp2 & _ & Hc).
  apply bind_Done in Hc as (mtv1 & Hset1 & Hc).
  apply bind_Done in Hc as (mtv2 & Hset2 & Hc).
  apply bind_Done in Hc as (mtv3 & Hloop & Hc).
  apply bind_Done in Hc as (nv & Hback & Hc).
  injection Hc as <-. simpl.
  apply vec_set_Done in Hset1 as [_ ->].
  apply vec_set_Done in Hset2 as [_ ->].
  assert (Hlen : length mtv3 = S (length (matrices computation))).
  { unfold for_range in Hloop.
    eapply (for_each_invariant
              (λ mtv : list Z, length mtv = S (length (matrices computation))));
      [| | exact Hloop].
    - intros st i st' _ Hlen Hstep.
      apply bind_Done in Hstep as (l & _ & Hstep).
      apply bind_Done in Hstep as ([] & _ & Hstep).
      apply bind_Done in Hstep as (base & _ & Hstep).
      apply vec_set_Done in Hstep as [_ ->]. by rewrite length_insert.
    - rewrite !length_insert, length_resize. unfold vsize. lia. }
  split; [done |]. unfold vec_back in Hback.
  destruct (last mtv3); by simplify_eq.
Qed.

(** The first variable of a matrix is not after that of a later
    matrix. *)
Lemma matrix_to_variable_index_mono (mtv : list Z) (n : nat) :
  (∀ m : nat, (1 ≤ m < n)%nat →
     ∃ base k, mtv !! m = Some base ∧ 1 ≤ k ∧
               mtv !! (m + 1)%nat = Some (base + k)) →
  ∀ (m m' : nat) b b', (1 ≤ m)%nat → (m ≤ m')%nat → (m' ≤ n)%nat →
    mtv !! m = Some b → mtv !! m' = Some b' →
    b ≤ b' ∧ ((m < m')%nat → b < b').
Proof.
  intros Hstep m m' b b' Hm Hle. revert b'.
  induction Hle as [|m' Hle IH]; intros b' Hn Hb Hb'.
  - simplify_eq. split; [lia | intros; lia].
  - destruct (Hstep m') as (base & k & Hbase & Hk & Hnext); [lia |].
    replace (m' + 1)%nat with (S m') in Hnext by lia.
    destruct (IH base) as [Hle' _]; [lia | done | done |].
    simplify_eq. split; [lia | intros; lia].
Qed.

(** The inner loop of [ComputeVariableToMatrix], over the variables of
    one view: they get the matrix of the view, which those that had a
    matrix had already; the entries of the other variables are kept. *)
Lemma ComputeVariableToMatrix_view (matrix_index : Z) (vs : list Z)
    (vtm vtm' : list Z) :
  for_each (λ vtm variable_index,
      m ← vec_at vtm variable_index;
      if m =? -1 then vec_set vtm variable_index matrix_index
      else KALDI_ASSERT (m =? matrix_index);; Done vtm)
    vs vtm = Done vtm' →
  length vtm' = length vtm ∧
  (∀ v, v ∈ vs → 0 ≤ v ∧ vtm' !! Z.to_nat v = Some matrix_index) ∧
  (∀ (w : nat) m, vtm !! w = Some m → m ≠ -1 → vtm' !! w = Some m) ∧
  (∀ (w : nat) m, vtm' !! w = Some m →
     vtm !! w = Some m ∨ (m = matrix_index ∧ Z.of_nat w ∈ vs)).
Proof.
  revert vtm. induction vs as [|v vs IH]; intros vtm Hloop; simpl in Hloop.
  - simplify_eq. split; [done |].
    split; [intros v Hv; by apply elem_of_nil in Hv |].
    split; [done |]. intros w m Hw. by left.
  - apply bind_Done in Hloop as (vtm1 & Hstep & Hloop).
    apply bind_Done in Hstep as (m0 & Hm0 & Hstep).
    apply vec_at_Done in Hm0 as [Hv Hm0].
    pose proof (lookup_lt_Some _ _ _ Hm0) as Hlt.
    assert (H1 : length vtm1 = length vtm ∧
              vtm1 !! Z.to_nat v = Some matrix_index ∧
              (∀ (w : nat) m, vtm !! w = Some m → m ≠ -1 →
                              vtm1 !! w = Some m) ∧
              (∀ (w : nat) m, vtm1 !! w = Some m →
                 vtm !! w = Some m ∨ (m = matrix_index ∧ Z.of_nat w = v))).
    { destruct (Z.eqb_spec m0 (-1)) as [-> | Hne].
      - apply vec_set_Done in Hstep as [_ ->].
        split; [by rewrite length_insert |].
        split; [by apply list_lookup_insert_eq |].
        split.
        + intros w m Hw Hm.
          rewrite list_lookup_insert_ne; [done |]. intros <-. congruence.
        + intros w m Hw.
          destruct (decide (w = Z.to_nat v)) as [-> | Hnw].
          * rewrite list_lookup_insert_eq in Hw by done.
            right. split; [congruence | lia].
          * rewrite list_lookup_insert_ne in Hw by done. by left.
      - apply bind_Done in Hstep as ([] & Hassert & Hstep).
        injection Hstep as <-.
        apply KALDI_ASSERT_Done, Z.eqb_eq in Hassert as ->.
        split; [done |]. split; [done |]. split; [done |].
        intros w m Hw. by left. }
    destruct H1 as (Hlen1 & Hv1 & Hkeep1 & Horigin1).
    destruct (IH _ Hloop) as (Hlen & Hvs & Hkeep & Horigin).
    split; [congruence |]. split; [| split].
    + intros v' [-> | Hv']%elem_of_cons; [| by apply Hvs].
      split; [done |].
      destruct (decide (matrix_index = -1)) as [Hmi | Hmi].
      * destruct (lookup_lt_is_Some_2 vtm' (Z.to_nat v)) as [m Hm];
          [rewrite Hlen, Hlen1; done |].
        destruct (Horigin _ _ Hm) as [Hm' | [-> _]]; [| done]. congruence.
      * by apply Hkeep.
    + intros w m Hw Hm. apply Hkeep; [| done]. by apply Hkeep1.
    + intros w m Hw. destruct (Horigin w m Hw) as [Hw1 | [-> Hin]].
      * destruct (Horigin1 w m Hw1) as [? | [-> <-]]; [by left |].
        right. split; [done | left].
      * right. split; [done | by right].
Qed.

(** [ComputeVariableToMatrix] gives the variables of every view the
    matrix of the view, and gives a variable the matrix of a view it is a
    variable of. *)
Lemma ComputeVariableToMatrix_ranges (computation : NnetComputation)
    (v2 v3 : ComputationVariables) :
  ComputeVariableToMatrix computation v2 = Done v3 →
  (∀ (i : nat) range, (1 ≤ i)%nat → variable_ranges_ v2 !! i = Some range →
     ∃ s, submatrices computation !! i = Some s ∧
       (matrix_index s ≠ -1 →
        ∀ v, range.1 ≤ v < range.2 →
             0 ≤ v ∧
             variable_to_matrix_ v3 !! Z.to_nat v = Some (matrix_index s))) ∧
  (∀ (w : nat) m, variable_to_matrix_ v3 !! w = Some m →
     ∃ (i : nat) s range, (1 ≤ i)%nat ∧
       submatrices computation !! i = Some s ∧
       variable_ranges_ v2 !! i = Some range ∧
       range.1 ≤ Z.of_nat w < range.2 ∧ m = matrix_index s).
Proof.
  unfold ComputeVariableToMatrix, NumVariables. intros Hc.
  apply bind_Done in Hc as (vtm & Hloop & Hc).
  apply bind_Done in Hc as ([] & Hcount & Hc).
  injection Hc as <-. simpl.
  apply KALDI_ASSERT_Done, Z.eqb_eq, count_0_not_elem_of in Hcount.
  unfold for_range in Hloop.
  set (covers := λ (i : Z) (w : nat) (m : Z),
         ∃ s range, submatrices computation !! Z.to_nat i = Some s ∧
           variable_ranges_ v2 !! Z.to_nat i = Some range ∧
           range.1 ≤ Z.of_nat w < range.2 ∧ m = matrix_index s).
  assert (Hinv :
    (∀ i, i ∈ seqZ 1 (vsize (variable_ranges_ v2) - 1) →
       ∃ s range, submatrices computation !! Z.to_nat i = Some s ∧
         variable_ranges_ v2 !! Z.to_nat i = Some range ∧
         (matrix_index s ≠ -1 →
          ∀ v, range.1 ≤ v < range.2 →
               0 ≤ v ∧ vtm !! Z.to_nat v = Some (matrix_index s))) ∧
    (∀ (w : nat) m, vtm !! w = Some m →
       m = -1 ∨ ∃ i, i ∈ seqZ 1 (vsize (variable_ranges_ v2) - 1) ∧
                     covers i w m)).
  { eapply (for_each_prefix_invariant
      (λ pre (vtm : list Z),
         (∀ i, i ∈ pre →
            ∃ s range, submatrices computation !! Z.to_nat i = Some s ∧
              variable_ranges_ v2 !! Z.to_nat i = Some range ∧
              (matrix_index s ≠ -1 →
               ∀ v, range.1 ≤ v < range.2 →
                    0 ≤ v ∧ vtm !! Z.to_nat v = Some (matrix_index s))) ∧
         (∀ (w : nat) m, vtm !! w = Some m →
            m = -1 ∨ ∃ i, i ∈ pre ∧ covers i w m)));
      [| | exact Hloop]; clear Hloop.
    - intros st pre i post st' _ [Hpre Horigin] Hstep.
      apply bind_Done in Hstep as (s & Hs & Hstep).
      apply bind_Done in Hstep as ([variable_start variable_end] & Hr & Hstep).
      apply vec_at_Done in Hs as [Hi Hs]. apply vec_at_Done in Hr as [_ Hr].
      unfold for_range in Hstep.
      apply ComputeVariableToMatrix_view in Hstep
        as (Hlen & Hvs & Hkeep & Horigin').
      split.
      + intros j [Hj | ->%list_elem_of_singleton]%elem_of_app.
        * destruct (Hpre j Hj) as (sj & rj & Hsj & Hrj & Hall).
          exists sj, rj. split; [done |]. split; [done |].
          intros Hne v Hv. destruct (Hall Hne v Hv) as [Hv0 Hlook].
          split; [done |]. by apply Hkeep.
        * exists s, (variable_start, variable_end).
          split; [done |]. split; [done |]. intros _ v Hv. simpl in Hv.
          apply Hvs. apply elem_of_seqZ. lia.
      + intros w m Hw. destruct (Horigin' w m Hw) as [Hold | [-> Hin]].
        * destruct (Horigin w m Hold) as [? | (j & Hj & Hcov)]; [by left |].
          right. exists j. split; [apply elem_of_app; by left | done].
        * right. exists i.
          split; [apply elem_of_app; right; by apply list_elem_of_singleton |].
          exists s, (variable_start, variable_end).
          apply elem_of_seqZ in Hin. simpl. split; [done |].
          split; [done |]. split; [lia | done].
    - split; [intros i Hi; by apply elem_of_nil in Hi |].
      intros w m Hw. left. rewrite resize_nil in Hw.
      by apply lookup_replicate in Hw as [-> _]. }
  destruct Hinv as [Hviews Horigin]. split.
  - intros i range Hi Hr.
    destruct (Hviews (Z.of_nat i)) as (s & range' & Hs & Hr' & Hall).
    { apply elem_of_seqZ. apply lookup_lt_Some in Hr. unfold vsize. lia. }
    rewrite Nat2Z.id in Hs, Hr'. assert (range' = range) as -> by congruence.
    exists s. done.
  - intros w m Hw. destruct (Horigin w m Hw) as [-> | (i & Hi & Hcov)].
    + destruct Hcount. apply list_elem_of_lookup. eauto.
    + destruct Hcov as (s & range & Hs & Hr & Hrange & ->).
      apply elem_of_seqZ in Hi.
      exists (Z.to_nat i), s, range. split; [lia | done].
Qed.

(** What [Init] leaves in the tables of the variables. *)
Lemma ComputationVariables_Init_variables (computation : NnetComputation)
    (vars : ComputationVariables) :
  ComputationVariables_Init computation ComputationVariables_new = Done vars →
  partition_ok computation vars ∧
  Forall (λ s, 0 ≤ matrix_index s < vsize (matrices computation))
         (tail (submatrices computation)) ∧
  length (split_points_ vars) = length (matrices computation) ∧
  length (matrix_to_variable_index_ vars) = S (length (matrices computation)) ∧
  last (matrix_to_variable_index_ vars) = Some (num_variables_ vars) ∧
  matrix_to_variable_index_ vars !! 0%nat = Some 0 ∧
  length (variable_to_matrix_ vars) = Z.to_nat (num_variables_ vars) ∧
  (∀ (i : nat) range, (1 ≤ i)%nat → variable_ranges_ vars !! i = Some range →
     ∃ s, submatrices computation !! i = Some s ∧
       ∀ v, range.1 ≤ v < range.2 →
            0 ≤ v ∧
            variable_to_matrix_ vars !! Z.to_nat v = Some (matrix_index s)) ∧
  (∀ (w : nat) m, variable_to_matrix_ vars !! w = Some m →
     ∃ (i : nat) s range, (1 ≤ i)%nat ∧
       submatrices computation !! i = Some s ∧
       variable_ranges_ vars !! i = Some range ∧
       range.1 ≤ Z.of_nat w < range.2 ∧ m = matrix_index s).
Proof.
  intros Hinit. unfold ComputationVariables_Init in Hinit.
  apply bind_Done in Hinit as ([] & _ & Hinit).
  apply bind_Done in Hinit as (v1 & Hcsp & Hinit).
  apply bind_Done in Hinit as (v2 & Hcvr & Hinit).
  apply bind_Done in Hinit as (v3 & Hcvtm & Hcsi).
  pose proof (partition_after_ranges computation ComputationVariables_new
                v1 v2 eq_refl Hcsp Hcvr) as Hpart.
  destruct (ComputeSplitPoints_num_variables _ _ _ Hcsp) as [Hmtvlen Hlast].
  destruct (ComputeSplitPoints_Done computation ComputationVariables_new v1
              eq_refl Hcsp)
    as (s0 & views & Hsub & Hviews & Hsplen & _ & _ & Hzero & _).
  destruct (ComputeVariableRanges_Done _ _ _ s0 views Hsub Hcvr)
    as (Hsp2 & Hmtv2 & Hnv2 & _).
  destruct (ComputeVariableToMatrix_Done _ _ _ Hcvtm)
    as (Hsp3 & Hmtv3 & Hnv3 & Hvr3 & _).
  destruct (ComputeVariableToMatrix_matrices _ _ _ Hcvtm) as [Hvtmlen _].
  destruct (ComputeVariableToMatrix_ranges _ _ _ Hcvtm) as [Hranges Horigin].
  destruct (ComputeSubmatrixInfo_Done _ _ _ s0 views Hsub Hcsi)
    as (Hvr4 & _ & _).
  destruct (ComputeSubmatrixInfo_keeps _ _ _ Hcsi) as [Hvtm4 Hnv4].
  assert (Hsp4 : split_points_ vars = split_points_ v3 ∧
                 matrix_to_variable_index_ vars
                 = matrix_to_variable_index_ v3).
  { unfold ComputeSubmatrixInfo in Hcsi.
    apply bind_Done in Hcsi as ([stm whole] & _ & Hcsi).
    injection Hcsi as <-. done. }
  destruct Hsp4 as [Hsp4 Hmtv4].
  unfold partition_ok.
  rewrite Hsp4, Hsp3, Hmtv4, Hmtv3, Hvr4, Hvr3, Hvtm4, Hnv4, Hnv3.
  split; [exact Hpart |]. rewrite Hsub in *. simpl. split; [done |].
  rewrite Hsp2, Hmtv2, Hnv2 in *. split; [done |]. split; [done |].
  split; [done |]. split; [done |]. split; [done |]. split; [| done].
  intros i range Hi Hr. destruct (Hranges i range Hi Hr) as (s & Hs & Hall).
  exists s. split; [done |]. apply Hall.
  destruct i as [|i]; [lia |]. simpl in Hs.
  rewrite Forall_forall in Hviews.
  destruct (Hviews s); [apply list_elem_of_lookup; eauto | lia].
Qed.

(** The variables of a matrix other than the null matrix are a block of
    one variable at least. *)
Lemma partition_ok_block (computation : NnetComputation)
    (vars : ComputationVariables) (m : nat) :
  partition_ok computation vars →
  (1 ≤ m < length (matrices computation))%nat →
  ∃ base k, matrix_to_variable_index_ vars !! m = Some base ∧ 1 ≤ k ∧
            matrix_to_variable_index_ vars !! (m + 1)%nat = Some (base + k).
Proof.
  intros (Hmat & _ & _) Hm.
  destruct (Hmat m Hm) as (split & base & _ & _ & Hsize & _ & Hbase & Hnext).
  exists base, (vsize split - 1). split; [done |]. split; [lia | done].
Qed.

(** The variables of a view of a matrix other than the null matrix are
    among those of the matrix. *)
Lemma partition_ok_view (computation : NnetComputation)
    (vars : ComputationVariables) (i : nat) (s : SubMatrixInfo)
    (range : Z * Z) :
  partition_ok computation vars →
  (1 ≤ i)%nat → submatrices computation !! i = Some s →
  1 ≤ matrix_index s < vsize (matrices computation) →
  variable_ranges_ vars !! i = Some range →
  ∃ base k,
    matrix_to_variable_index_ vars !! Z.to_nat (matrix_index s) = Some base ∧
    matrix_to_variable_index_ vars !! (Z.to_nat (matrix_index s) + 1)%nat
    = Some (base + k) ∧
    base ≤ range.1 ∧ range.1 < range.2 ∧ range.2 ≤ base + k.
Proof.
  intros (Hmat & _ & Hviews) Hi Hs Hmi Hr.
  destruct (Hviews i s Hi Hs) as (range' & Hr' & Hlt & Hal).
  assert (range' = range) as -> by congruence.
  destruct Hal as (split & base & a & b & _ & Hsplit & Hbase & Ha & Hb & Hab
                   & ->).
  destruct (Hmat (Z.to_nat (matrix_index s)))
    as (split' & base' & Hsplit' & _ & _ & _ & Hbase' & Hnext);
    [unfold vsize in Hmi; lia |].
  assert (split' = split) as -> by congruence.
  assert (base' = base) as -> by congruence.
  exists base, (vsize split - 1). split; [done |]. split; [done |]. simpl.
  apply lookup_lt_Some in Hb. unfold vsize. lia.
Qed.

(** View to variables to matrix.  On the variables [Init] computes, the
    variables [AppendVariablesForSubmatrix] appends for a view other than
    the null view are a non-empty range, and [GetMatrixForVariable] gives
    each of them the matrix of the view. *)
Theorem GetMatrixForVariable_of_submatrix (computation : NnetComputation)
    (vars : ComputationVariables) (n : nat) (s : SubMatrixInfo) :
  ComputationVariables_Init computation ComputationVariables_new = Done vars →
  (1 ≤ n)%nat → submatrices computation !! n = Some s →
  ∃ start count,
    1 ≤ count ∧
    AppendVariablesForSubmatrix vars (Z.of_nat n) [] = Done (seqZ start count) ∧
    ∀ v, v ∈ seqZ start count →
         GetMatrixForVariable vars v = Done (matrix_index s).
Proof.
  intros Hinit Hn Hs.
  destruct (ComputationVariables_Init_variables _ _ Hinit)
    as (Hpart & Hviews & _ & _ & _ & _ & Hvtmlen & Hranges & _).
  destruct Hpart as (_ & _ & Hpviews).
  destruct (Hpviews n s Hn Hs) as (range & Hr & Hlt & _).
  exists range.1, (range.2 - range.1). split; [lia |].
  split; [by apply (AppendVariablesForSubmatrix_Done vars n range []) |].
  intros v Hv%elem_of_seqZ.
  destruct (Hranges n range Hn Hr) as (s' & Hs' & Hall).
  assert (s' = s) as -> by congruence.
  destruct (Hall v ltac:(lia)) as [Hv0 Hlook].
  unfold GetMatrixForVariable, size_t_lt.
  pose proof (lookup_lt_Some _ _ _ Hlook) as Hlen.
  replace ((0 <=? v) && (v <? vsize (variable_to_matrix_ vars)))
    with true
    by (symmetry; apply andb_true_iff; unfold vsize; split; lia).
  simpl. by apply vec_at_Done.
Qed.

(** The variables of a matrix other than the null matrix, and the
    variables [GetMatrixForVariable] gives the matrix. *)
Lemma AppendVariablesForMatrix_variables (computation : NnetComputation)
    (vars : ComputationVariables) (m : nat) :
  ComputationVariables_Init computation ComputationVariables_new = Done vars →
  Forall (λ s, 1 ≤ matrix_index s) (tail (submatrices computation)) →
  (1 ≤ m < length (matrices computation))%nat →
  ∃ start count,
    1 ≤ count ∧
    AppendVariablesForMatrix vars (Z.of_nat m) [] = Done (seqZ start count) ∧
    ∀ v, v ∈ seqZ start count ↔
         GetMatrixForVariable vars v = Done (Z.of_nat m).
Proof.
  intros Hinit Hpos Hm.
  destruct (ComputationVariables_Init_variables _ _ Hinit)
    as (Hpart & Hviews & _ & Hmtvlen & Hlast & _ & Hvtmlen & Hranges
        & Horigin).
  destruct (partition_ok_block _ _ m Hpart Hm) as (base & k & Hbase & Hk & Hnext).
  assert (Hmono := matrix_to_variable_index_mono
            (matrix_to_variable_index_ vars) (length (matrices computation))
            (λ m Hm, partition_ok_block _ _ m Hpart Hm)).
  assert (Hfirst : matrix_to_variable_index_ vars !! 1%nat = Some 0)
    by (by destruct Hpart as (_ & ? & _)).
  assert (Hend : matrix_to_variable_index_ vars
                   !! length (matrices computation)
                 = Some (num_variables_ vars)).
  { apply last_Some in Hlast as [l Hl]. rewrite Hl in Hmtvlen |- *.
    rewrite length_app in Hmtvlen. simpl in Hmtvlen.
    replace (length (matrices computation)) with (length l) by lia.
    by rewrite list_lookup_middle. }
  (* every view other than the null view is in a block *)
  assert (Hblock : ∀ (i : nat) s range, (1 ≤ i)%nat →
            submatrices computation !! i = Some s →
            variable_ranges_ vars !! i = Some range →
            ∃ base' k',
              1 ≤ matrix_index s < vsize (matrices computation) ∧
              matrix_to_variable_index_ vars !! Z.to_nat (matrix_index s)
              = Some base' ∧
              matrix_to_variable_index_ vars
                !! (Z.to_nat (matrix_index s) + 1)%nat = Some (base' + k') ∧
              base' ≤ range.1 ∧ range.2 ≤ base' + k').
  { intros i s range Hi Hs Hr.
    assert (Hin : s ∈ tail (submatrices computation)).
    { destruct (submatrices computation) as [|s0 views]; [done |].
      destruct i as [|i]; [lia |]. simpl in *.
      apply list_elem_of_lookup. eauto. }
    rewrite Forall_forall in Hviews, Hpos.
    specialize (Hviews s Hin). specialize (Hpos s Hin). simpl in *.
    destruct (partition_ok_view _ _ i s range Hpart Hi Hs ltac:(lia) Hr)
      as (base' & k' & ? & ? & ? & ? & ?).
    exists base', k'. split; [lia | done]. }
  exists base, k. split; [done |]. split.
  { unfold AppendVariablesForMatrix, size_t_lt.
    replace ((0 <=? Z.of_nat m + 1) &&
             (Z.of_nat m + 1 <? vsize (matrix_to_variable_index_ vars)))
      with true
      by (symmetry; apply andb_true_iff; unfold vsize; split; lia).
    simpl. rewrite (vec_at_lookup _ m base Hbase). simpl.
    replace (Z.of_nat m + 1) with (Z.of_nat (m + 1)) by lia.
    rewrite (vec_at_lookup _ (m + 1) _ Hnext). simpl.
    by replace (base + k - base) with k by lia. }
  intros v. rewrite elem_of_seqZ. split.
  - intros Hv.
    destruct (Hmono 1%nat m 0 base) as [Hbase0 _]; [lia | lia | lia | done
                                                    | done |].
    destruct (Hmono (m + 1)%nat (length (matrices computation)) (base + k)
                (num_variables_ vars)) as [Hnv _]; [lia | lia | lia | done
                                                   | done |].
    destruct (lookup_lt_is_Some_2 (variable_to_matrix_ vars) (Z.to_nat v))
      as [m' Hm']; [lia |].
    destruct (Horigin _ _ Hm') as (i & s & range & Hi & Hs & Hr & Hrange & ->).
    destruct (Hblock i s range Hi Hs Hr)
      as (base' & k' & Hmi & Hbase' & Hnext' & Hlo & Hhi).
    assert (Heq : Z.to_nat (matrix_index s) = m).
    { destruct (Nat.lt_trichotomy (Z.to_nat (matrix_index s)) m)
        as [Hlt | [? | Hgt]]; [| done |]; exfalso.
      - destruct (Hmono (Z.to_nat (matrix_index s) + 1)%nat m
                    (base' + k') base) as [Hle _];
          [lia | lia | lia | done | done |]. lia.
      - destruct (Hmono (m + 1)%nat (Z.to_nat (matrix_index s))
                    (base + k) base') as [Hle _];
          [lia | lia | unfold vsize in Hmi; lia | done | done |]. lia. }
    unfold GetMatrixForVariable, size_t_lt.
    replace ((0 <=? v) && (v <? vsize (variable_to_matrix_ vars)))
      with true
      by (symmetry; apply andb_true_iff; unfold vsize; split; lia).
    simpl. apply vec_at_Done. split; [lia |]. rewrite Hm'. f_equal. lia.
  - unfold GetMatrixForVariable. intros Hget.
    apply bind_Done in Hget as ([] & _ & Hget).
    apply vec_at_Done in Hget as [Hv Hlook].
    destruct (Horigin _ _ Hlook) as (i & s & range & Hi & Hs & Hr & Hrange
                                     & Hms).
    destruct (Hblock i s range Hi Hs Hr)
      as (base' & k' & Hmi & Hbase' & Hnext' & Hlo & Hhi).
    rewrite <- Hms, Nat2Z.id in Hbase', Hnext'.
    assert (base' = base) as -> by congruence.
    assert (k' = k) as -> by (rewrite Hnext in Hnext'; simplify_eq; lia).
    lia.
Qed.

(** Matrix to variables to matrix.  On the variables [Init] computes,
    every view but the null view being in a matrix other than the null
    matrix, the variables [AppendVariablesForMatrix] appends for a matrix
    other than the null matrix are a non-empty range, and they are the
    variables [GetMatrixForVariable] gives that matrix. *)
Theorem GetMatrixForVariable_of_matrix (computation : NnetComputation)
    (vars : ComputationVariables) (m : nat) :
  ComputationVariables_Init computation ComputationVariables_new = Done vars →
  Forall (λ s, 1 ≤ matrix_index s) (tail (submatrices computation)) →
  (1 ≤ m < length (matrices computation))%nat →
  ∃ start count,
    1 ≤ count ∧
    AppendVariablesForMatrix vars (Z.of_nat m) [] = Done (seqZ start count) ∧
    ∀ v, v ∈ seqZ start count ↔
         GetMatrixForVariable vars v = Done (Z.of_nat m).
Proof. apply AppendVariablesForMatrix_variables. Qed.


(** On the variables [Init] computes, every view but the null view being
    in a matrix other than the null matrix, [GetMatrixForVariable] returns
    a matrix other than the null matrix for the variables from 0 to
    [NumVariables], and fails its assertion for any other integer. *)
Theorem GetMatrixForVariable_domain (computation : NnetComputation)
    (vars : ComputationVariables) (v : Z) :
  ComputationVariables_Init computation ComputationVariables_new = Done vars →
  Forall (λ s, 1 ≤ matrix_index s) (tail (submatrices computation)) →
  (0 ≤ v < NumVariables vars →
   ∃ m, 1 ≤ m < vsize (matrices computation) ∧
        GetMatrixForVariable vars v = Done m) ∧
  (¬ 0 ≤ v < NumVariables vars → GetMatrixForVariable vars v = AssertFail).
Proof.
  intros Hinit Hpos.
  destruct (ComputationVariables_Init_variables _ _ Hinit)
    as (_ & Hviews & _ & _ & _ & _ & Hvtmlen & _ & Horigin).
  unfold GetMatrixForVariable, size_t_lt, NumVariables, vsize.
  rewrite Hvtmlen. split.
  - intros Hv.
    replace ((0 <=? v) && (v <? Z.of_nat (Z.to_nat (num_variables_ vars))))
      with true
      by (symmetry; apply andb_true_iff; split;
          [apply Z.leb_le | apply Z.ltb_lt]; lia).
    simpl.
    destruct (lookup_lt_is_Some_2 (variable_to_matrix_ vars) (Z.to_nat v))
      as [m Hm]; [lia |].
    exists m. split; [| apply vec_at_Done; split; [lia | done]].
    destruct (Horigin _ _ Hm) as (i & s & range & Hi & Hs & _ & _ & ->).
    assert (Hin : s ∈ tail (submatrices computation)).
    { destruct (submatrices computation) as [|s0 views]; [done |].
      destruct i as [|i]; [lia |]. simpl in *.
      apply list_elem_of_lookup. eauto. }
    rewrite Forall_forall in Hviews, Hpos.
    specialize (Hviews s Hin). specialize (Hpos s Hin). simpl in *.
    unfold vsize in *. lia.
  - intros Hv.
    replace ((0 <=? v) && (v <? Z.of_nat (Z.to_nat (num_variables_ vars))))
      with false; [done |].
    symmetry. apply andb_false_iff.
    destruct (Z.leb_spec 0 v); [right | by left]. apply Z.ltb_ge. lia.
Qed.

(** [Init] is not to be called twice on the same object: after a call
    that succeeds, a second call, on any computation, fails its
    assertion. *)
Theorem ComputationVariables_Init_twice (computation computation' :
    NnetComputation) (vars : ComputationVariables) :
  ComputationVariables_Init computation ComputationVariables_new = Done vars →
  ComputationVariables_Init computation' vars = AssertFail.
Proof.
  intros Hinit.
  destruct (ComputationVariables_Init_variables _ _ Hinit)
    as (Hpart & _ & Hsplen & Hmtvlen & _).
  destruct Hpart as (_ & Hfirst & _).
  apply lookup_lt_Some in Hfirst.
  unfold ComputationVariables_Init.
  rewrite bool_decide_eq_false_2; [done |].
  intros Hnil. rewrite Hnil in Hsplen. simpl in Hsplen. lia.
Qed.

Lemma GetMatrixForVariable_of_submatrix_witness :
  ComputationVariables_Init (overlapping_views [] [] [])
    ComputationVariables_new = Done overlapping_variables ∧
  (1 ≤ 3)%nat ∧
  submatrices (overlapping_views [] [] []) !! 3%nat = Some (view 1 0 2 0 5) ∧
  ∃ start count,
    1 ≤ count ∧
    AppendVariablesForSubmatrix overlapping_variables (Z.of_nat 3) []
    = Done (seqZ start count) ∧
    ∀ v, v ∈ seqZ start count →
         GetMatrixForVariable overlapping_variables v
         = Done (matrix_index (view 1 0 2 0 5)).
Proof.
  assert (Hinit : ComputationVariables_Init (overlapping_views [] [] [])
                    ComputationVariables_new = Done overlapping_variables)
    by (vm_compute; reflexivity).
  split; [exact Hinit |]. split; [lia |]. split; [reflexivity |].
  exact (GetMatrixForVariable_of_submatrix (overlapping_views [] [] [])
           overlapping_variables 3 (view 1 0 2 0 5) Hinit ltac:(lia) eq_refl).
Defined.

Lemma GetMatrixForVariable_of_matrix_witness :
  ComputationVariables_Init (overlapping_views [] [] [])
    ComputationVariables_new = Done overlapping_variables ∧
  Forall (λ s, 1 ≤ matrix_index s)
         (tail (submatrices (overlapping_views [] [] []))) ∧
  (1 ≤ 1 < length (matrices (overlapping_views [] [] [])))%nat ∧
  ∃ start count,
    1 ≤ count ∧
    AppendVariablesForMatrix overlapping_variables (Z.of_nat 1) []
    = Done (seqZ start count) ∧
    ∀ v, v ∈ seqZ start count ↔
         GetMatrixForVariable overlapping_variables v = Done (Z.of_nat 1).
Proof.
  assert (Hinit : ComputationVariables_Init (overlapping_views [] [] [])
                    ComputationVariables_new = Done overlapping_variables)
    by (vm_compute; reflexivity).
  assert (Hpos : Forall (λ s, 1 ≤ matrix_index s)
                   (tail (submatrices (overlapping_views [] [] []))))
    by (simpl; repeat constructor; simpl; lia).
  split; [exact Hinit |]. split; [exact Hpos |]. split; [simpl; lia |].
  exact (GetMatrixForVariable_of_matrix (overlapping_views [] [] [])
           overlapping_variables 1 Hinit Hpos ltac:(simpl; lia)).
Defined.

Lemma GetMatrixForVariable_domain_witness :
  ComputationVariables_Init (overlapping_views [] [] [])
    ComputationVariables_new = Done overlapping_variables ∧
  Forall (λ s, 1 ≤ matrix_index s)
         (tail (submatrices (overlapping_views [] [] []))) ∧
  (0 ≤ 2 < NumVariables overlapping_variables →
   ∃ m, 1 ≤ m < vsize (matrices (overlapping_views [] [] [])) ∧
        GetMatrixForVariable overlapping_variables 2 = Done m) ∧
  (¬ 0 ≤ 2 < NumVariables overlapping_variables →
   GetMatrixForVariable overlapping_variables 2 = AssertFail).
Proof.
  assert (Hinit : ComputationVariables_Init (overlapping_views [] [] [])
                    ComputationVariables_new = Done overlapping_variables)
    by (vm_compute; reflexivity).
  assert (Hpos : Forall (λ s, 1 ≤ matrix_index s)
                   (tail (submatrices (overlapping_views [] [] []))))
    by (simpl; repeat constructor; simpl; lia).
  split; [exact Hinit |]. split; [exact Hpos |].
  exact (GetMatrixForVariable_domain (overlapping_views [] [] [])
           overlapping_variables 2 Hinit Hpos).
Defined.

(** The variables of [overlapping_views] are 0, 1 and 2: variable 2 is in
    matrix 2, and there is no variable 3 and no variable -1. *)
Example GetMatrixForVariable_overlapping_views :
  GetMatrixForVariable overlapping_variables 2 = Done 2 ∧
  GetMatrixForVariable overlapping_variables 3 = AssertFail ∧
  GetMatrixForVariable overlapping_variables (-1) = AssertFail.
Proof. repeat split; reflexivity. Qed.

Lemma ComputationVariables_Init_twice_witness :
  ComputationVariables_Init (overlapping_views [] [] [])
    ComputationVariables_new = Done overlapping_variables ∧
  ComputationVariables_Init (overlapping_views [] [] []) overlapping_variables
  = AssertFail.
Proof.
  assert (Hinit : ComputationVariables_Init (overlapping_views [] [] [])
                    ComputationVariables_new = Done overlapping_variables)
    by (vm_compute; reflexivity).
  split; [exact Hinit |].
  exact (ComputationVariables_Init_twice (overlapping_views [] [] [])
           (overlapping_views [] [] []) overlapping_variables Hinit).
Defined.

(** * Command attributes and the histories of the analyzer *)

(** ** ComputeCommandAttributes *)

Lemma for_each_collect {A B} (f : A → outcome B) (l : list A)
    (acc acc' : list B) :
  for_each (λ acc x, y ← f x; Done (acc ++ [y])) l acc = Done acc' →
  ∃ ys, acc' = acc ++ ys ∧ Forall2 (λ x y, f x = Done y) l ys.
Proof.
  revert acc. induction l as [|x l IH]; intros acc Hloop; simpl in Hloop.
  - simplify_eq. exists []. by rewrite app_nil_r.
  - apply bind_Done in Hloop as (acc1 & Hstep & Hloop).
    apply bind_Done in Hstep as (y & Hy & Hstep). injection Hstep as <-.
    destruct (IH _ Hloop) as (ys & -> & Hall).
    exists (y :: ys). rewrite <- app_assoc. split; [done |]. by constructor.
Qed.

(** The hypotheses of a command that returned, one for each step. *)
Ltac unbind H :=
  repeat match type of H with
         | (_ ≫= _) = Done _ =>
             let H1 := fresh "Hstep" in
             apply bind_Done in H as (? & H1 & H)
         end.

Section CommandAttributes.
Context `{ComponentProperties}.

(** There is an attribute record for every command, that of the
    command. *)
Lemma ComputeCommandAttributes_lookup (nnet : Nnet)
    (computation : NnetComputation) (vars : ComputationVariables)
    (attrs : list CommandAttributes) :
  ComputeCommandAttributes nnet computation vars = Done attrs →
  length attrs = length (commands computation) ∧
  ∀ (c : nat) attr, attrs !! c = Some attr →
    ∃ cmd, commands computation !! c = Some cmd ∧
           ComputeCommandAttributes_command nnet computation vars cmd
           = Done attr.
Proof.
  unfold ComputeCommandAttributes. intros Hc.
  apply for_each_collect in Hc as (ys & -> & Hall). simpl.
  split; [symmetry; by eapply Forall2_length |].
  intros c attr Hattr.
  destruct (Forall2_lookup_r _ _ _ _ _ Hall Hattr) as (cmd & Hcmd & Hd).
  eauto.
Qed.

Lemma RecordAccessForSubmatrix_side_effects (this : ComputationVariables)
    (submatrix_index : Z) (access_type : AccessType)
    (ca ca' : CommandAttributes) :
  RecordAccessForSubmatrix this submatrix_index access_type ca = Done ca' →
  has_side_effects ca' = has_side_effects ca.
Proof.
  unfold RecordAccessForSubmatrix. intros Hr.
  destruct (submatrix_index =? 0); [by simplify_eq |].
  apply bind_Done in Hr as ([] & _ & Hr).
  apply bind_Done in Hr as (m & _ & Hr).
  apply bind_Done in Hr as (w & _ & Hr).
  destruct access_type.
  - apply bind_Done in Hr as (vr & _ & Hr). by injection Hr as <-.
  - apply bind_Done in Hr as (vw & _ & Hr).
    apply bind_Done in Hr as (full & _ & Hr).
    apply bind_Done in Hr as (vr & _ & Hr). by injection Hr as <-.
  - apply bind_Done in Hr as (vw & _ & Hr).
    apply bind_Done in Hr as (vr & _ & Hr). by injection Hr as <-.
Qed.

Lemma for_each_RecordAccessForSubmatrix_side_effects
    (this : ComputationVariables) (access_type : AccessType) (views : list Z)
    (ca ca' : CommandAttributes) :
  for_each (λ attr s, RecordAccessForSubmatrix this s access_type attr)
           views ca = Done ca' →
  has_side_effects ca' = has_side_effects ca.
Proof.
  apply (for_each_invariant
           (λ st, has_side_effects st = has_side_effects ca)); [| done].
  intros st s st' _ Hst Hr.
  apply RecordAccessForSubmatrix_side_effects in Hr. congruence.
Qed.

(** [has_side_effects]: the attributes of a command have it exactly when
    the command is a Backprop whose component has the
    [kUpdatableComponent] bit among its properties. *)
Theorem ComputeCommandAttributes_side_effects (nnet : Nnet)
    (computation : NnetComputation) (vars : ComputationVariables)
    (c : Command) (attr : CommandAttributes) :
  ComputeCommandAttributes_command nnet computation vars c = Done attr →
  has_side_effects attr = true ↔
  command_type c = kBackprop ∧
  ∃ component, GetComponentForNode nnet (arg1 c) = Done component ∧
    Z.land (Properties component) kUpdatableComponent ≠ 0.
Proof.
  unfold ComputeCommandAttributes_command, command_accesses. intros Hc.
  apply bind_Done in Hc as (attr0 & Hc & Hsort). injection Hsort as <-.
  simpl.
  destruct (command_type c) eqn:Htype;
    try (unbind Hc;
         repeat match goal with
                | Hr : RecordAccessForSubmatrix _ _ _ _ = Done _ |- _ =>
                    apply RecordAccessForSubmatrix_side_effects in Hr
                | Hr : for_each _ _ _ = Done _ |- _ =>
                    apply for_each_RecordAccessForSubmatrix_side_effects in Hr
                | Hr : (if ?b then _ else _) = Done _ |- _ => destruct b
                | Hr : Done _ = Done _ |- _ => injection Hr as <-
                end;
         simpl in *; (split; [intros; congruence | by intros [? _]])).
  apply bind_Done in Hc as (a1 & H1 & Hc).
  apply bind_Done in Hc as (a2 & H2 & Hc).
  apply bind_Done in Hc as (a3 & H3 & Hc).
  apply bind_Done in Hc as (component & Hcomp & Hc).
  apply bind_Done in Hc as (a4 & H4 & Hc).
  apply bind_Done in Hc as (component' & Hcomp' & Hc).
  assert (component' = component) as -> by congruence.
  apply RecordAccessForSubmatrix_side_effects in H1, H2, H3.
  assert (Hin : has_side_effects a4 = false).
  { destruct (has_flag (Properties component) kBackpropAdds);
      apply RecordAccessForSubmatrix_side_effects in H4; simpl in *;
      congruence. }
  unfold has_flag, truthy in Hc.
  destruct (Z.eqb_spec (Z.land (Properties component) kUpdatableComponent) 0)
    as [Hz | Hnz]; simpl in Hc; injection Hc as <-; simpl.
  - rewrite Hin. split; [done |].
    intros [_ (comp & Hcomp2 & Hne)]. congruence.
  - split; [| done]. intros _. split; [done |]. eauto.
Qed.

End CommandAttributes.

Section CommandAttributesSorted.
Context `{ComponentProperties}.

Lemma sort_attributes_sorted (attr : CommandAttributes) :
  attributes_sorted (sort_attributes attr).
Proof. unfold attributes_sorted. simpl. split_and!; apply SortAndUniq_sorted. Qed.

(** [ComputeCommandAttributes]: on success there is an attribute record
    for every command, and its six lists are strictly increasing, as the
    assertions of [ComputeVariableAccesses] and [ComputeMatrixAccesses]
    expect them. *)
Theorem ComputeCommandAttributes_sorted (nnet : Nnet)
    (computation : NnetComputation) (vars : ComputationVariables)
    (attrs : list CommandAttributes) :
  ComputeCommandAttributes nnet computation vars = Done attrs →
  length attrs = length (commands computation) ∧
  Forall attributes_sorted attrs.
Proof.
  intros Hc. destruct (ComputeCommandAttributes_lookup _ _ _ _ Hc)
    as [Hlen Hall].
  split; [done |]. apply Forall_forall. intros attr Hin.
  apply list_elem_of_lookup in Hin as [c Hattr].
  destruct (Hall c attr Hattr) as (cmd & _ & Hcmd).
  unfold ComputeCommandAttributes_command in Hcmd.
  apply bind_Done in Hcmd as (attr0 & _ & Hsort). injection Hsort as <-.
  apply sort_attributes_sorted.
Qed.

(** The histories of the analyzer [Init] builds. *)
Lemma Analyzer_Init_Done (nnet : Nnet) (computation : NnetComputation)
    (a : Analyzer) :
  Analyzer_Init nnet computation = Done a →
  ComputationVariables_Init computation ComputationVariables_new
  = Done (variables a) ∧
  length (command_attributes a) = length (commands computation) ∧
  (∀ (c : nat) attr, command_attributes a !! c = Some attr →
     ∃ cmd, commands computation !! c = Some cmd ∧
            ComputeCommandAttributes_command nnet computation (variables a) cmd
            = Done attr) ∧
  length (variable_accesses a) = Z.to_nat (NumVariables (variables a)) ∧
  (∀ (v : nat) l, variable_accesses a !! v = Some l →
     history_of variables_read variables_written (command_attributes a)
                (Z.of_nat v) l) ∧
  length (matrix_accesses a) = length (matrices computation) ∧
  (∀ (n : nat) rec, matrix_accesses a !! n = Some rec →
     history_of matrices_read matrices_written (command_attributes a)
                (Z.of_nat n) (accesses rec) ∧
     only_command (allocates (Z.of_nat n)) (commands computation)
                  (allocate_command rec) ∧
     only_command (deallocates (Z.of_nat n)) (commands computation)
                  (deallocate_command rec)).
Proof.
  unfold Analyzer_Init. intros Hinit.
  apply bind_Done in Hinit as (vars & Hvars & Hinit).
  apply bind_Done in Hinit as (attributes & Hattrs & Hinit).
  apply bind_Done in Hinit as (va & Hva & Hinit).
  apply bind_Done in Hinit as (ma & Hma & Hinit).
  injection Hinit as <-. simpl.
  destruct (ComputeCommandAttributes_lookup _ _ _ _ Hattrs) as [Hlen Hall].
  destruct (ComputeVariableAccesses_histories _ _ _ Hva) as [Hvalen Hvah].
  pose proof (ComputeMatrixAccesses_length _ _ _ _ _ Hma) as Hmalen.
  destruct (ComputeMatrixAccesses_Done _ _ _ _ _ Hma) as [_ Hmah].
  split_and!; try done.
  intros n rec Hn. destruct (Hmah n rec Hn) as (Hh & Ha & Hd & _).
  rewrite Hlen, firstn_all in Ha, Hd. done.
Qed.

Lemma history_of_ok (read written : CommandAttributes → list Z)
    (computation : NnetComputation) (attrs : list CommandAttributes)
    (i : Z) (l : list Access) :
  length attrs = length (commands computation) →
  history_of read written attrs i l → history_ok computation l.
Proof.
  intros Hlen [Hs Hmem]. split; [done |].
  apply Forall_forall. intros x Hx.
  apply Hmem in Hx as (c & attr & Hc & -> & _).
  apply lookup_lt_Some in Hc. unfold vsize. lia.
Qed.

(** [Analyzer::Init]: in the analyzer it builds there is an attribute
    record for every command, a history for every variable and a record
    for every matrix, and the accesses of every variable and of every
    matrix are in the order of the commands, one command at most once,
    and by commands of the computation. *)
Theorem Analyzer_Init_histories (nnet : Nnet) (computation : NnetComputation)
    (a : Analyzer) :
  Analyzer_Init nnet computation = Done a →
  length (command_attributes a) = length (commands computation) ∧
  length (variable_accesses a) = Z.to_nat (NumVariables (variables a)) ∧
  length (matrix_accesses a) = length (matrices computation) ∧
  (∀ (v : nat) l, variable_accesses a !! v = Some l →
                  history_ok computation l) ∧
  (∀ (n : nat) rec, matrix_accesses a !! n = Some rec →
                    history_ok computation (accesses rec)).
Proof.
  intros Hinit.
  destruct (Analyzer_Init_Done _ _ _ Hinit)
    as (_ & Hlen & _ & Hvalen & Hva & Hmalen & Hma).
  split_and!; try done.
  - intros v l Hv. eapply history_of_ok; [done |]. by apply Hva.
  - intros n rec Hn. eapply history_of_ok; [done |].
    by destruct (Hma n rec Hn) as (? & _).
Qed.

(** The attributes of a command that accesses nothing. *)
Lemma accesses_nothing_attributes (nnet : Nnet) (computation : NnetComputation)
    (vars : ComputationVariables) (cmd : Command) (attr : CommandAttributes) :
  accesses_nothing (command_type cmd) →
  ComputeCommandAttributes_command nnet computation vars cmd = Done attr →
  attr = CommandAttributes_new.
Proof.
  unfold ComputeCommandAttributes_command, command_accesses, accesses_nothing.
  intros Ht Hc. destruct (command_type cmd); break_hyp Ht; try done;
    simpl in Hc; by injection Hc as <-.
Qed.

Lemma access_of_nil (i : Z) (t : AccessType) : ¬ access_of [] [] i t.
Proof.
  unfold access_of. intros Ha.
  break_hyp Ha; match goal with Hin : _ ∈ [] |- _ => by apply elem_of_nil in Hin end.
Qed.

(** Allocation without zeroing, deallocation, no operation and the
    marker leave no trace in the histories: in the analyzer [Init]
    builds, no access of a variable or of a matrix is by such a
    command. *)
Theorem Analyzer_Init_accesses_nothing (nnet : Nnet)
    (computation : NnetComputation) (a : Analyzer) (c : nat) (cmd : Command) :
  Analyzer_Init nnet computation = Done a →
  commands computation !! c = Some cmd →
  accesses_nothing (command_type cmd) →
  (∀ (v : nat) l x, variable_accesses a !! v = Some l → x ∈ l →
                    command_index x ≠ Z.of_nat c) ∧
  (∀ (n : nat) rec x, matrix_accesses a !! n = Some rec → x ∈ accesses rec →
                      command_index x ≠ Z.of_nat c).
Proof.
  intros Hinit Hcmd Ht.
  destruct (Analyzer_Init_Done _ _ _ Hinit)
    as (_ & Hlen & Hattrs & _ & Hva & _ & Hma).
  assert (Hnone : ∀ (c' : nat) attr, command_attributes a !! c' = Some attr →
            Z.of_nat c' = Z.of_nat c → attr = CommandAttributes_new).
  { intros c' attr Hattr Heq. assert (c' = c) as -> by lia.
    destruct (Hattrs c attr Hattr) as (cmd' & Hcmd' & Hd).
    assert (cmd' = cmd) as -> by congruence.
    by eapply accesses_nothing_attributes. }
  split.
  - intros v l x Hv Hx Heq.
    destruct (Hva v l Hv) as [_ Hmem].
    apply Hmem in Hx as (c' & attr & Hattr & Hci & Hacc).
    rewrite (Hnone c' attr Hattr) in Hacc by congruence.
    by apply access_of_nil in Hacc.
  - intros n rec x Hn Hx Heq.
    destruct (Hma n rec Hn) as ([_ Hmem] & _).
    apply Hmem in Hx as (c' & attr & Hattr & Hci & Hacc).
    rewrite (Hnone c' attr Hattr) in Hacc by congruence.
    by apply access_of_nil in Hacc.
Qed.

End CommandAttributesSorted.

Lemma GetMatrixForVariable_Done (this : ComputationVariables) (v m : Z) :
  GetMatrixForVariable this v = Done m ↔
  0 ≤ v ∧ variable_to_matrix_ this !! Z.to_nat v = Some m.
Proof.
  unfold GetMatrixForVariable, size_t_lt. split.
  - intros Hg. apply bind_Done in Hg as ([] & _ & Hg).
    by apply vec_at_Done in Hg.
  - intros [Hv Hm]. pose proof (lookup_lt_Some _ _ _ Hm) as Hlt.
    replace ((0 <=? v) && (v <? vsize (variable_to_matrix_ this))) with true
      by (symmetry; apply andb_true_iff; unfold vsize;
          split; [apply Z.leb_le | apply Z.ltb_lt]; lia).
    simpl. by apply vec_at_Done.
Qed.

(** A view that is all of its matrix spans all the rows of it. *)
Lemma IsWholeMatrix_spans_rows (computation : NnetComputation) (n : nat)
    (s : SubMatrixInfo) (full whole : bool) :
  submatrices computation !! n = Some s →
  spans_rows computation s full →
  IsWholeMatrix computation (Z.of_nat n) = Done whole →
  whole = true → full = true.
Proof.
  intros Hs (mat & Hmat & ->) Hw ->. unfold IsWholeMatrix in Hw.
  rewrite (vec_at_lookup _ n s Hs) in Hw. simpl in Hw.
  apply bind_Done in Hw as (mat' & Hmat' & Hw).
  apply vec_at_Done in Hmat' as [_ Hmat'].
  assert (mat' = mat) as -> by congruence.
  injection Hw as Hw.
  apply andb_true_iff in Hw as [Hw _]. apply andb_true_iff in Hw as [Hw Hrows].
  apply andb_true_iff in Hw as [Hro _]. by rewrite Hro, Hrows.
Qed.

(** Recording an access keeps the attributes consistent. *)
Lemma RecordAccessForSubmatrix_consistent (computation : NnetComputation)
    (vars : ComputationVariables) (submatrix_index : Z)
    (access_type : AccessType) (ca ca' : CommandAttributes) :
  ComputationVariables_Init computation ComputationVariables_new = Done vars →
  attributes_consistent vars ca →
  RecordAccessForSubmatrix vars submatrix_index access_type ca = Done ca' →
  attributes_consistent vars ca'.
Proof.
  intros Hinit Hcons Hr.
  destruct (Z.eq_dec submatrix_index 0) as [-> | Hnz].
  { unfold RecordAccessForSubmatrix in Hr. simpl in Hr. by simplify_eq. }
  assert (Hn : ∃ n : nat, (1 ≤ n)%nat ∧ submatrix_index = Z.of_nat n ∧
                 is_Some (submatrix_to_matrix_ vars !! n)).
  { unfold RecordAccessForSubmatrix in Hr.
    replace (submatrix_index =? 0) with false in Hr
      by (symmetry; by apply Z.eqb_neq).
    apply bind_Done in Hr as ([] & _ & Hr).
    apply bind_Done in Hr as (m & Hm & _).
    apply vec_at_Done in Hm as [H0 Hm].
    exists (Z.to_nat submatrix_index). split; [lia |]. split; [lia | eauto]. }
  destruct Hn as (n & Hn & -> & Hstm).
  destruct (ComputationVariables_Init_variables _ _ Hinit)
    as (_ & _ & _ & _ & _ & _ & _ & Hranges & _).
  assert (Hs : is_Some (submatrices computation !! n)).
  { unfold RecordAccessForSubmatrix in Hr.
    replace (Z.of_nat n =? 0) with false in Hr
      by (symmetry; apply Z.eqb_neq; lia).
    apply bind_Done in Hr as ([] & _ & Hr).
    apply bind_Done in Hr as (m & _ & Hr).
    apply bind_Done in Hr as (w & _ & Hr).
    assert (Hvr : ∃ range, variable_ranges_ vars !! n = Some range).
    { unfold AppendVariablesForSubmatrix in Hr.
      destruct access_type;
        apply bind_Done in Hr as (vs & Hvs & _);
        apply bind_Done in Hvs as ([] & _ & Hvs);
        apply bind_Done in Hvs as (range & Hrange & _);
        apply vec_at_Done in Hrange as [_ Hrange];
        rewrite Nat2Z.id in Hrange; eauto. }
    destruct Hvr as [range Hrange].
    destruct (Hranges n range Hn Hrange) as (s & Hs & _). eauto. }
  destruct Hs as [s Hs].
  destruct (ComputationVariables_Init_Done _ _ n s Hinit Hn Hs)
    as (range & full & whole & Hrange & _ & Hfull & Hrows & Hm & Hwhole & Hw).
  destruct (Hranges n range Hn Hrange) as (s' & Hs' & Hvars).
  assert (s' = s) as -> by congruence.
  rewrite (RecordAccessForSubmatrix_Done vars n range full whole
             (matrix_index s) access_type ca Hn Hrange Hfull Hm Hwhole) in Hr.
  cbv zeta in Hr. injection Hr as <-.
  assert (Hnew : ∀ v, v ∈ seqZ range.1 (range.2 - range.1) →
            GetMatrixForVariable vars v = Done (matrix_index s)).
  { intros v Hv%elem_of_seqZ. apply GetMatrixForVariable_Done.
    apply Hvars. lia. }
  assert (Hwf : whole = true → full = true)
    by (by eapply IsWholeMatrix_spans_rows).
  destruct Hcons as [Hread Hwritten]. split; simpl.
  - intros v Hv.
    destruct (bool_decide (access_type ≠ kWriteAccess)) eqn:Hreads; simpl in *.
    + apply elem_of_app in Hv as [Hv | Hv].
      * destruct (Hread v Hv) as (m & Hg & Hin). exists m.
        split; [done |]. apply elem_of_app. by left.
      * exists (matrix_index s). split; [by apply Hnew |].
        apply elem_of_app. right. left.
    + destruct full, whole; simpl in *; try (by apply Hread);
        try (by discriminate (Hwf eq_refl)).
      * destruct (Hread v Hv) as (m & Hg & Hin). exists m.
        split; [done |]. apply elem_of_app. by left.
      * apply elem_of_app in Hv as [Hv | Hv].
        -- destruct (Hread v Hv) as (m & Hg & Hin). exists m.
           split; [done |]. apply elem_of_app. by left.
        -- exists (matrix_index s). split; [by apply Hnew |].
           apply elem_of_app. right. left.
  - intros v Hv.
    destruct (bool_decide (access_type ≠ kReadAccess)); [| by apply Hwritten].
    apply elem_of_app in Hv as [Hv | Hv].
    + destruct (Hwritten v Hv) as (m & Hg & Hin). exists m.
      split; [done |]. apply elem_of_app. by left.
    + exists (matrix_index s). split; [by apply Hnew |].
      apply elem_of_app. right. left.
Qed.

Lemma for_each_RecordAccessForSubmatrix_consistent
    (computation : NnetComputation) (vars : ComputationVariables)
    (access_type : AccessType) (views : list Z) (ca ca' : CommandAttributes) :
  ComputationVariables_Init computation ComputationVariables_new = Done vars →
  attributes_consistent vars ca →
  for_each (λ attr s, RecordAccessForSubmatrix vars s access_type attr)
           views ca = Done ca' →
  attributes_consistent vars ca'.
Proof.
  intros Hinit Hca. apply for_each_invariant; [| done].
  intros st s st' _ Hst Hr.
  by eapply RecordAccessForSubmatrix_consistent.
Qed.

Lemma sort_attributes_consistent (vars : ComputationVariables)
    (attr : CommandAttributes) :
  attributes_consistent vars attr →
  attributes_consistent vars (sort_attributes attr).
Proof.
  intros [Hr Hw]. split; simpl; intros v Hv;
    apply (proj1 (SortAndUniq_elem_of _ _)) in Hv.
  - destruct (Hr v Hv) as (m & ? & ?). exists m.
    split; [done |]. by apply SortAndUniq_elem_of.
  - destruct (Hw v Hv) as (m & ? & ?). exists m.
    split; [done |]. by apply SortAndUniq_elem_of.
Qed.

Lemma CommandAttributes_new_consistent (vars : ComputationVariables) :
  attributes_consistent vars CommandAttributes_new.
Proof. split; simpl; intros v Hv; by apply elem_of_nil in Hv. Qed.

(** The variables a zeroing allocation writes. *)
Lemma AppendVariablesForMatrix_Done (computation : NnetComputation)
    (vars : ComputationVariables) (m : Z) (vs : list Z) :
  ComputationVariables_Init computation ComputationVariables_new = Done vars →
  Forall (λ s, 1 ≤ matrix_index s) (tail (submatrices computation)) →
  AppendVariablesForMatrix vars m [] = Done vs →
  0 ≤ m < vsize (matrices computation) ∧
  ∀ v, v ∈ vs → GetMatrixForVariable vars v = Done m.
Proof.
  intros Hinit Hpos Ha.
  destruct (ComputationVariables_Init_variables _ _ Hinit)
    as (Hpart & _ & _ & Hmtvlen & _ & Hzero & _).
  assert (Hbounds : 0 ≤ m < vsize (matrices computation)).
  { unfold AppendVariablesForMatrix, size_t_lt in Ha.
    apply bind_Done in Ha as ([] & Hassert & Ha).
    apply bind_Done in Ha as (start & Hstart & _).
    apply KALDI_ASSERT_Done, andb_true_iff in Hassert as [_ Hlt].
    apply Z.ltb_lt in Hlt. apply vec_at_Done in Hstart as [H0 _].
    unfold vsize in *. lia. }
  split; [done |].
  destruct (Z.eq_dec m 0) as [-> | Hnz].
  - destruct Hpart as (_ & Hfirst & _).
    unfold AppendVariablesForMatrix in Ha.
    apply bind_Done in Ha as ([] & _ & Ha).
    apply bind_Done in Ha as (start & Hstart & Ha).
    apply bind_Done in Ha as (end_ & Hend & Ha).
    apply vec_at_Done in Hstart as [_ Hstart].
    apply vec_at_Done in Hend as [_ Hend].
    change (Z.to_nat 0) with 0%nat in Hstart.
    change (Z.to_nat (0 + 1)) with 1%nat in Hend.
    assert (start = 0) as -> by congruence.
    assert (end_ = 0) as -> by congruence.
    injection Ha as <-. intros v Hv. by apply elem_of_nil in Hv.
  - destruct (AppendVariablesForMatrix_variables computation vars
                (Z.to_nat m) Hinit Hpos)
      as (start & count & _ & Ha' & Hall); [unfold vsize in Hbounds; lia |].
    rewrite Z2Nat.id in Ha', Hall by lia.
    assert (vs = seqZ start count) as -> by congruence.
    intros v Hv. by apply Hall.
Qed.

Section Consistency.
Context `{ComponentProperties}.

(** The attributes of a command are consistent. *)
Lemma ComputeCommandAttributes_command_consistent (nnet : Nnet)
    (computation : NnetComputation) (vars : ComputationVariables)
    (cmd : Command) (attr : CommandAttributes) :
  ComputationVariables_Init computation ComputationVariables_new = Done vars →
  Forall (λ s, 1 ≤ matrix_index s) (tail (submatrices computation)) →
  ComputeCommandAttributes_command nnet computation vars cmd = Done attr →
  attributes_consistent vars attr.
Proof.
  intros Hinit Hpos Hc. unfold ComputeCommandAttributes_command in Hc.
  apply bind_Done in Hc as (attr0 & Hc & Hsort). injection Hsort as <-.
  apply sort_attributes_consistent.
  pose proof (CommandAttributes_new_consistent vars) as Hnew.
  unfold command_accesses in Hc.
  destruct (command_type cmd) eqn:Htype;
    try (unbind Hc;
         repeat match goal with
           | Hca : attributes_consistent vars ?ca,
             Hr : RecordAccessForSubmatrix vars _ _ ?ca = Done _ |- _ =>
               apply (RecordAccessForSubmatrix_consistent _ _ _ _ _ _
                        Hinit Hca) in Hr
           | Hca : attributes_consistent vars ?ca,
             Hr : for_each _ _ ?ca = Done _ |- _ =>
               apply (for_each_RecordAccessForSubmatrix_consistent _ _ _ _ _ _
                        Hinit Hca) in Hr
           | Hr : (if ?b then _ else _) = Done _ |- _ => destruct b
           | Hr : Done _ = Done _ |- _ => injection Hr as <-
           end;
         done).
  apply bind_Done in Hc as (vw & Hvw & Hc). injection Hc as <-.
  destruct (AppendVariablesForMatrix_Done _ _ _ _ Hinit Hpos Hvw)
    as [_ Hall].
  split; simpl; intros v Hv; [by apply elem_of_nil in Hv |].
  exists (arg1 cmd). split; [by apply Hall | left].
Qed.

(** The accesses to a variable and those to its matrix.  In the analyzer
    [Init] builds, every view but the null view being in a matrix other
    than the null matrix, a command that accesses a variable accesses its
    matrix: the history of the matrix has an access by the same command,
    which writes (Write or ReadWrite) when the access to the variable
    does, and reads (Read or ReadWrite) when it does. *)
Theorem Analyzer_Init_variable_and_matrix (nnet : Nnet)
    (computation : NnetComputation) (a : Analyzer) (v : nat)
    (l : list Access) (x : Access) :
  Analyzer_Init nnet computation = Done a →
  Forall (λ s, 1 ≤ matrix_index s) (tail (submatrices computation)) →
  variable_accesses a !! v = Some l → x ∈ l →
  ∃ m rec y,
    GetMatrixForVariable (variables a) (Z.of_nat v) = Done m ∧
    0 ≤ m ∧ matrix_accesses a !! Z.to_nat m = Some rec ∧
    y ∈ accesses rec ∧ command_index y = command_index x ∧
    (access_type x ≠ kReadAccess → access_type y ≠ kReadAccess) ∧
    (access_type x ≠ kWriteAccess → access_type y ≠ kWriteAccess).
Proof.
  intros Hinit Hpos Hv Hx.
  destruct (Analyzer_Init_Done _ _ _ Hinit)
    as (Hvars & Hlen & Hattrs & _ & Hva & Hmalen & Hma).
  destruct (Hva v l Hv) as [_ Hmem].
  apply Hmem in Hx as (c & attr & Hattr & Hci & Hacc).
  destruct (Hattrs c attr Hattr) as (cmd & Hcmd & Hd).
  destruct (ComputeCommandAttributes_command_consistent _ _ _ _ _
              Hvars Hpos Hd) as [Hread Hwritten].
  assert (Hsorted : attributes_sorted attr).
  { unfold ComputeCommandAttributes_command in Hd.
    apply bind_Done in Hd as (attr0 & _ & Hsort). injection Hsort as <-.
    apply sort_attributes_sorted. }
  destruct Hsorted as (_ & _ & _ & _ & Hsr & Hsw).
  (* the matrix of the variable *)
  assert (Hm : ∃ m, GetMatrixForVariable (variables a) (Z.of_nat v) = Done m ∧
            (Z.of_nat v ∈ variables_read attr → m ∈ matrices_read attr) ∧
            (Z.of_nat v ∈ variables_written attr →
             m ∈ matrices_written attr)).
  { destruct (access_of_elem_of _ _ _ _ Hacc) as [Hin | Hin].
    - destruct (Hread _ Hin) as (m & Hg & Hmr). exists m.
      split; [done |]. split; [done |]. intros Hw.
      destruct (Hwritten _ Hw) as (m' & Hg' & Hmw). congruence.
    - destruct (Hwritten _ Hin) as (m & Hg & Hmw). exists m.
      split; [done |]. split; [| done]. intros Hr.
      destruct (Hread _ Hr) as (m' & Hg' & Hmr). congruence. }
  destruct Hm as (m & Hg & Hmr & Hmw).
  (* it has a record *)
  assert (Hrange : 0 ≤ m < vsize (matrices computation)).
  { apply GetMatrixForVariable_Done in Hg as [_ Hlook].
    destruct (ComputationVariables_Init_variables _ _ Hvars)
      as (_ & Hviews & _ & _ & _ & _ & _ & _ & Horigin).
    destruct (Horigin _ _ Hlook) as (i & s & range & Hi & Hs & _ & _ & ->).
    rewrite Forall_forall in Hviews. apply Hviews.
    destruct (submatrices computation) as [|s0 views]; [done |].
    destruct i as [|i]; [lia |]. simpl in *.
    apply list_elem_of_lookup. eauto. }
  destruct (lookup_lt_is_Some_2 (matrix_accesses a) (Z.to_nat m)) as [rec Hrec].
  { rewrite Hmalen. unfold vsize in Hrange. lia. }
  destruct (Hma _ rec Hrec) as ([_ Hmmem] & _).
  rewrite Z2Nat.id in Hmmem by lia.
  assert (Hin : m ∈ matrices_read attr ∨ m ∈ matrices_written attr).
  { destruct (access_of_elem_of _ _ _ _ Hacc); [left | right]; auto. }
  pose proof (access_kind_spec _ _ m Hsr Hsw Hin) as Hkind.
  exists m, rec, {| command_index := Z.of_nat c;
                    access_type := access_kind (matrices_read attr)
                                     (matrices_written attr) m |}.
  split; [done |]. split; [lia |]. split; [done |].
  split; [apply Hmmem; exists c, attr; done |].
  split; [done |]. simpl.
  unfold access_of in Hacc, Hkind. split.
  - intros Hnr. break_hyp Hacc; break_hyp Hkind; try congruence;
      match goal with Hn : _ ∉ _ |- _ => destruct Hn; auto end.
  - intros Hnw. break_hyp Hacc; break_hyp Hkind; try congruence;
      match goal with Hn : _ ∉ _ |- _ => destruct Hn; auto end.
Qed.

(** A zeroing allocation is a write.  In the analyzer [Init]
    builds, every view but the null view being in a matrix other than the
    null matrix, a command that allocates a matrix zeroed is the
    allocation command of the matrix, and a Write access in the history
    of the matrix and in that of each of its variables. *)
Theorem Analyzer_Init_zeroed (nnet : Nnet) (computation : NnetComputation)
    (a : Analyzer) (c : nat) (cmd : Command) :
  Analyzer_Init nnet computation = Done a →
  Forall (λ s, 1 ≤ matrix_index s) (tail (submatrices computation)) →
  commands computation !! c = Some cmd →
  command_type cmd = kAllocMatrixZeroed →
  let write := {| command_index := Z.of_nat c; access_type := kWriteAccess |} in
  ∃ rec, 0 ≤ arg1 cmd ∧
    matrix_accesses a !! Z.to_nat (arg1 cmd) = Some rec ∧
    allocate_command rec = Z.of_nat c ∧ write ∈ accesses rec ∧
    ∀ (v : nat) l, variable_accesses a !! v = Some l →
      GetMatrixForVariable (variables a) (Z.of_nat v) = Done (arg1 cmd) →
      write ∈ l.
Proof.
  intros Hinit Hpos Hcmd Htype. cbv zeta.
  destruct (Analyzer_Init_Done _ _ _ Hinit)
    as (Hvars & Hlen & Hattrs & _ & Hva & Hmalen & Hma).
  destruct (lookup_lt_is_Some_2 (command_attributes a) c) as [attr Hattr].
  { rewrite Hlen. by apply lookup_lt_Some in Hcmd. }
  destruct (Hattrs c attr Hattr) as (cmd' & Hcmd' & Hd).
  assert (cmd' = cmd) as -> by congruence.
  unfold ComputeCommandAttributes_command, command_accesses in Hd.
  rewrite Htype in Hd.
  apply bind_Done in Hd as (attr0 & Hd & Hsort). injection Hsort as <-.
  apply bind_Done in Hd as (vw & Hvw & Hd). injection Hd as <-.
  destruct (AppendVariablesForMatrix_Done _ _ _ _ Hvars Hpos Hvw)
    as [Hbounds Hall].
  destruct (lookup_lt_is_Some_2 (matrix_accesses a) (Z.to_nat (arg1 cmd)))
    as [rec Hrec].
  { rewrite Hmalen. unfold vsize in Hbounds. lia. }
  destruct (Hma _ rec Hrec) as ([_ Hmmem] & Halloc & _).
  rewrite Z2Nat.id in Hmmem, Halloc by lia.
  exists rec. split; [lia |]. split; [done |]. split; [| split].
  - destruct Halloc as [[_ Hnone] | (c' & cmd' & -> & Hc' & _ & Huniq)].
    + destruct (Hnone cmd); [apply list_elem_of_lookup; eauto |].
      split; [by left | done].
    + f_equal. symmetry. apply (Huniq c cmd Hcmd). split; [by left | done].
  - apply Hmmem. eexists c, _. split; [done |]. split; [done |]. simpl.
    right. right. split; [| split; [| done]].
    + intros Hin. apply (proj1 (SortAndUniq_elem_of _ _)) in Hin.
      by apply elem_of_nil in Hin.
    + apply SortAndUniq_elem_of. left.
  - intros v l Hv Hg. destruct (Hva v l Hv) as [_ Hmem]. apply Hmem.
    eexists c, _. split; [done |]. split; [done |]. simpl.
    right. right. split; [| split; [| done]].
    + intros Hin. apply (proj1 (SortAndUniq_elem_of _ _)) in Hin.
      by apply elem_of_nil in Hin.
    + apply SortAndUniq_elem_of.
      destruct (Z.eq_dec (arg1 cmd) 0) as [Hz | Hnz].
      * (* no variable is of the null matrix *)
        exfalso.
        apply GetMatrixForVariable_Done in Hg as [_ Hlook].
        destruct (ComputationVariables_Init_variables _ _ Hvars)
          as (_ & _ & _ & _ & _ & _ & _ & _ & Horigin).
        destruct (Horigin _ _ Hlook) as (i & s & range & Hi & Hs & _ & _ & Hm).
        rewrite Forall_forall in Hpos.
        assert (1 ≤ matrix_index s); [| lia]. apply Hpos.
        destruct (submatrices computation) as [|s0 views]; [done |].
        destruct i as [|i]; [lia |]. simpl in *.
        apply list_elem_of_lookup. eauto.
      * destruct (AppendVariablesForMatrix_variables computation (variables a)
                    (Z.to_nat (arg1 cmd)) Hvars Hpos)
          as (start & count & _ & Ha' & Hiff);
          [unfold vsize in Hbounds; lia |].
        rewrite Z2Nat.id in Ha', Hiff by lia.
        assert (vw = seqZ start count) as -> by (simpl in Hvw; congruence).
        simpl. by apply Hiff.
Qed.

End Consistency.

(** On the variables [Init] computes, recording a Read access to a view
    other than the null view adds the variables of the view to the
    variables read, its matrix to the matrices read and the view to the
    submatrices read, and leaves the written lists as they are;
    recording a ReadWrite access adds them to the read and to the written
    lists. *)
Theorem RecordAccessForSubmatrix_read (computation : NnetComputation)
    (vars : ComputationVariables) (n : nat) (s : SubMatrixInfo)
    (ca : CommandAttributes) :
  ComputationVariables_Init computation ComputationVariables_new = Done vars →
  (1 ≤ n)%nat → submatrices computation !! n = Some s →
  ∃ range,
    variable_ranges_ vars !! n = Some range ∧ range.1 < range.2 ∧
    RecordAccessForSubmatrix vars (Z.of_nat n) kReadAccess ca
    = Done {|
        variables_read := variables_read ca ++ seqZ range.1 (range.2 - range.1);
        variables_written := variables_written ca;
        submatrices_read := submatrices_read ca ++ [Z.of_nat n];
        submatrices_written := submatrices_written ca;
        matrices_read := matrices_read ca ++ [matrix_index s];
        matrices_written := matrices_written ca;
        has_side_effects := has_side_effects ca |} ∧
    RecordAccessForSubmatrix vars (Z.of_nat n) kReadWriteAccess ca
    = Done {|
        variables_read := variables_read ca ++ seqZ range.1 (range.2 - range.1);
        variables_written :=
          variables_written ca ++ seqZ range.1 (range.2 - range.1);
        submatrices_read := submatrices_read ca ++ [Z.of_nat n];
        submatrices_written := submatrices_written ca ++ [Z.of_nat n];
        matrices_read := matrices_read ca ++ [matrix_index s];
        matrices_written := matrices_written ca ++ [matrix_index s];
        has_side_effects := has_side_effects ca |}.
Proof.
  intros Hinit Hn Hs.
  destruct (ComputationVariables_Init_Done _ _ n s Hinit Hn Hs)
    as (range & full & whole & Hrange & Hal & Hfull & _ & Hm & Hwhole & _).
  exists range. split; [done |]. split.
  { destruct Hal as (? & ? & i & j & _ & _ & _ & _ & _ & Hij & ->). simpl. lia. }
  rewrite (RecordAccessForSubmatrix_Done vars n range full whole
             (matrix_index s) kReadAccess ca Hn Hrange Hfull Hm Hwhole).
  rewrite (RecordAccessForSubmatrix_Done vars n range full whole
             (matrix_index s) kReadWriteAccess ca Hn Hrange Hfull Hm Hwhole).
  done.
Qed.

Lemma RecordAccessForSubmatrix_read_witness :
  ComputationVariables_Init (overlapping_views [] [] [])
    ComputationVariables_new = Done overlapping_variables ∧
  (1 ≤ 4)%nat ∧
  submatrices (overlapping_views [] [] []) !! 4%nat = Some (view 2 1 2 0 3) ∧
  RecordAccessForSubmatrix overlapping_variables 4 kReadAccess
    CommandAttributes_new
  = Done {| variables_read := [2]; variables_written := [];
            submatrices_read := [4]; submatrices_written := [];
            matrices_read := [2]; matrices_written := [];
            has_side_effects := false |}.
Proof.
  assert (Hinit : ComputationVariables_Init (overlapping_views [] [] [])
                    ComputationVariables_new = Done overlapping_variables)
    by (vm_compute; reflexivity).
  split; [exact Hinit |]. split; [lia |]. split; [reflexivity |].
  destruct (RecordAccessForSubmatrix_read (overlapping_views [] [] [])
              overlapping_variables 4 (view 2 1 2 0 3) CommandAttributes_new
              Hinit ltac:(lia) eq_refl) as (range & Hrange & _ & Hread & _).
  injection Hrange as <-. exact Hread.
Defined.

Lemma ComputeCommandAttributes_side_effects_witness :
  @ComputeCommandAttributes_command kaldi_properties
    (one_component (component_with 2)) (one_matrix []) one_matrix_variables
    backprop_without_input_deriv
  = Done {| variables_read := [0]; variables_written := [];
            submatrices_read := [1]; submatrices_written := [];
            matrices_read := [1]; matrices_written := [];
            has_side_effects := true |} ∧
  (true = true ↔
   command_type backprop_without_input_deriv = kBackprop ∧
   ∃ component,
     GetComponentForNode (one_component (component_with 2))
       (arg1 backprop_without_input_deriv) = Done component ∧
     Z.land (Properties component) (@kUpdatableComponent kaldi_properties) ≠ 0).
Proof.
  assert (Hd : @ComputeCommandAttributes_command kaldi_properties
                 (one_component (component_with 2)) (one_matrix [])
                 one_matrix_variables backprop_without_input_deriv
               = Done {| variables_read := [0]; variables_written := [];
                         submatrices_read := [1]; submatrices_written := [];
                         matrices_read := [1]; matrices_written := [];
                         has_side_effects := true |})
    by (vm_compute; reflexivity).
  split; [exact Hd |].
  exact (@ComputeCommandAttributes_side_effects kaldi_properties _ _ _ _ _ Hd).
Defined.

(** A Backprop whose component is not updatable has no side effect. *)
Example ComputeCommandAttributes_no_side_effects :
  @ComputeCommandAttributes_command kaldi_properties
    (one_component (component_with 1)) (one_matrix []) one_matrix_variables
    backprop_without_input_deriv
  = Done {| variables_read := [0]; variables_written := [];
            submatrices_read := [1]; submatrices_written := [];
            matrices_read := [1]; matrices_written := [];
            has_side_effects := false |}.
Proof. vm_compute. reflexivity. Qed.

Lemma ComputeCommandAttributes_sorted_witness :
  @ComputeCommandAttributes kaldi_properties
    (one_component (component_with 0)) in_place_program
    (variables in_place_analysis)
  = Done (command_attributes in_place_analysis) ∧
  length (command_attributes in_place_analysis)
  = length (commands in_place_program) ∧
  Forall attributes_sorted (command_attributes in_place_analysis).
Proof.
  assert (Hd : @ComputeCommandAttributes kaldi_properties
                 (one_component (component_with 0)) in_place_program
                 (variables in_place_analysis)
               = Done (command_attributes in_place_analysis))
    by (vm_compute; reflexivity).
  split; [exact Hd |].
  exact (@ComputeCommandAttributes_sorted kaldi_properties _ _ _ _ Hd).
Defined.

Lemma Analyzer_Init_histories_witness :
  @Analyzer_Init kaldi_properties (one_component (component_with 0))
    in_place_program = Done in_place_analysis ∧
  length (command_attributes in_place_analysis)
  = length (commands in_place_program) ∧
  length (variable_accesses in_place_analysis)
  = Z.to_nat (NumVariables (variables in_place_analysis)) ∧
  length (matrix_accesses in_place_analysis)
  = length (matrices in_place_program) ∧
  (∀ (v : nat) l, variable_accesses in_place_analysis !! v = Some l →
                  history_ok in_place_program l) ∧
  (∀ (n : nat) rec, matrix_accesses in_place_analysis !! n = Some rec →
                    history_ok in_place_program (accesses rec)).
Proof.
  assert (Hinit : @Analyzer_Init kaldi_properties
                    (one_component (component_with 0)) in_place_program
                  = Done in_place_analysis) by (vm_compute; reflexivity).
  split; [exact Hinit |].
  exact (@Analyzer_Init_histories kaldi_properties _ _ _ Hinit).
Defined.

Lemma Analyzer_Init_accesses_nothing_witness :
  @Analyzer_Init kaldi_properties (one_component (component_with 0))
    in_place_program = Done in_place_analysis ∧
  commands in_place_program !! 5%nat
  = Some {| command_type := kDeallocMatrix;
            arg1 := 1; arg2 := 0; arg3 := 0; arg4 := 0; arg5 := 0; arg6 := 0 |} ∧
  accesses_nothing kDeallocMatrix ∧
  (∀ (v : nat) l x, variable_accesses in_place_analysis !! v = Some l →
                    x ∈ l → command_index x ≠ Z.of_nat 5) ∧
  (∀ (n : nat) rec x, matrix_accesses in_place_analysis !! n = Some rec →
                      x ∈ accesses rec → command_index x ≠ Z.of_nat 5).
Proof.
  assert (Hinit : @Analyzer_Init kaldi_properties
                    (one_component (component_with 0)) in_place_program
                  = Done in_place_analysis) by (vm_compute; reflexivity).
  assert (Ht : accesses_nothing kDeallocMatrix) by (right; left; reflexivity).
  split; [exact Hinit |]. split; [reflexivity |]. split; [exact Ht |].
  exact (@Analyzer_Init_accesses_nothing kaldi_properties _ _ _ 5 _ Hinit
           eq_refl Ht).
Defined.

Lemma Analyzer_Init_variable_and_matrix_witness :
  let x := {| command_index := 3; access_type := kReadWriteAccess |} in
  let l := [ {| command_index := 0; access_type := kWriteAccess |};
             {| command_index := 2; access_type := kReadAccess |}; x ] in
  @Analyzer_Init kaldi_properties (one_component (component_with 0))
    in_place_program = Done in_place_analysis ∧
  Forall (λ s, 1 ≤ matrix_index s) (tail (submatrices in_place_program)) ∧
  variable_accesses in_place_analysis !! 0%nat = Some l ∧ x ∈ l ∧
  ∃ m rec y,
    GetMatrixForVariable (variables in_place_analysis) (Z.of_nat 0) = Done m ∧
    0 ≤ m ∧ matrix_accesses in_place_analysis !! Z.to_nat m = Some rec ∧
    y ∈ accesses rec ∧ command_index y = command_index x ∧
    (access_type x ≠ kReadAccess → access_type y ≠ kReadAccess) ∧
    (access_type x ≠ kWriteAccess → access_type y ≠ kWriteAccess).
Proof.
  cbv zeta.
  assert (Hinit : @Analyzer_Init kaldi_properties
                    (one_component (component_with 0)) in_place_program
                  = Done in_place_analysis) by (vm_compute; reflexivity).
  assert (Hpos : Forall (λ s, 1 ≤ matrix_index s)
                   (tail (submatrices in_place_program)))
    by (simpl; repeat constructor; simpl; lia).
  assert (Hx : {| command_index := 3; access_type := kReadWriteAccess |}
               ∈ [ {| command_index := 0; access_type := kWriteAccess |};
                   {| command_index := 2; access_type := kReadAccess |};
                   {| command_index := 3; access_type := kReadWriteAccess |} ])
    by (right; right; left).
  split; [exact Hinit |]. split; [exact Hpos |]. split; [reflexivity |].
  split; [exact Hx |].
  exact (@Analyzer_Init_variable_and_matrix kaldi_properties _ _ _ 0 _ _
           Hinit Hpos eq_refl Hx).
Defined.

Lemma Analyzer_Init_zeroed_witness :
  let cmd := {| command_type := kAllocMatrixZeroed;
                arg1 := 1; arg2 := 0; arg3 := 0; arg4 := 0; arg5 := 0;
                arg6 := 0 |} in
  let write := {| command_index := Z.of_nat 0; access_type := kWriteAccess |} in
  @Analyzer_Init kaldi_properties (one_component (component_with 0))
    in_place_program = Done in_place_analysis ∧
  Forall (λ s, 1 ≤ matrix_index s) (tail (submatrices in_place_program)) ∧
  commands in_place_program !! 0%nat = Some cmd ∧
  command_type cmd = kAllocMatrixZeroed ∧
  ∃ rec, 0 ≤ arg1 cmd ∧
    matrix_accesses in_place_analysis !! Z.to_nat (arg1 cmd) = Some rec ∧
    allocate_command rec = Z.of_nat 0 ∧ write ∈ accesses rec ∧
    ∀ (v : nat) l, variable_accesses in_place_analysis !! v = Some l →
      GetMatrixForVariable (variables in_place_analysis) (Z.of_nat v)
      = Done (arg1 cmd) →
      write ∈ l.
Proof.
  cbv zeta.
  assert (Hinit : @Analyzer_Init kaldi_properties
                    (one_component (component_with 0)) in_place_program
                  = Done in_place_analysis) by (vm_compute; reflexivity).
  assert (Hpos : Forall (λ s, 1 ≤ matrix_index s)
                   (tail (submatrices in_place_program)))
    by (simpl; repeat constructor; simpl; lia).
  split; [exact Hinit |]. split; [exact Hpos |]. split; [reflexivity |].
  split; [reflexivity |].
  exact (@Analyzer_Init_zeroed kaldi_properties _ _ _ 0 _ Hinit Hpos eq_refl
           eq_refl).
Defined.

(** ** The index check protects the analysis *)

Lemma err_if_Done (cond : bool) (msg : string) (u : unit) :
  err_if cond msg = Done u ↔ cond = false.
Proof. destruct cond, u; simpl; split; intros; done. Qed.

Lemma for_each_total {A St} (Inv : St → Prop) (body : St → A → outcome St)
    (l : list A) (st : St) :
  (∀ st x, x ∈ l → Inv st → ∃ st', body st x = Done st' ∧ Inv st') →
  Inv st → ∃ st', for_each body l st = Done st' ∧ Inv st'.
Proof.
  revert st. induction l as [|x l IH]; intros st Hbody Hinv; simpl.
  - eauto.
  - destruct (Hbody st x) as (st1 & -> & Hinv1); [left | done |]. simpl.
    apply IH; [| done]. intros st2 y Hy. apply Hbody. by right.
Qed.

Lemma view_variables_in_range (computation : NnetComputation)
    (vars : ComputationVariables) (n : nat) (range : Z * Z) :
  ComputationVariables_Init computation ComputationVariables_new = Done vars →
  (1 ≤ n)%nat → variable_ranges_ vars !! n = Some range →
  ∀ v, v ∈ seqZ range.1 (range.2 - range.1) → 0 ≤ v < NumVariables vars.
Proof.
  intros Hinit Hn Hr v Hv. apply elem_of_seqZ in Hv.
  destruct (ComputationVariables_Init_variables _ _ Hinit)
    as (_ & _ & _ & _ & _ & _ & Hvtmlen & Hranges & _).
  destruct (Hranges n range Hn Hr) as (s & _ & Hall).
  destruct (Hall v ltac:(lia)) as [Hv0 Hlook].
  apply lookup_lt_Some in Hlook. unfold NumVariables. lia.
Qed.

Lemma matrix_variables_in_range (computation : NnetComputation)
    (vars : ComputationVariables) (m : Z) (vs : list Z) :
  ComputationVariables_Init computation ComputationVariables_new = Done vars →
  1 ≤ m < vsize (matrices computation) →
  ∃ start count,
    AppendVariablesForMatrix vars m vs = Done (vs ++ seqZ start count) ∧
    ∀ v, v ∈ seqZ start count → 0 ≤ v < NumVariables vars.
Proof.
  intros Hinit Hm.
  destruct (ComputationVariables_Init_variables _ _ Hinit)
    as (Hpart & _ & _ & Hmtvlen & Hlast & _ & _).
  assert (Hm' : (1 ≤ Z.to_nat m < length (matrices computation))%nat)
    by (unfold vsize in Hm; lia).
  destruct (partition_ok_block _ _ _ Hpart Hm')
    as (base & k & Hbase & Hk & Hnext).
  assert (Hmono := matrix_to_variable_index_mono
            (matrix_to_variable_index_ vars) (length (matrices computation))
            (λ m Hm, partition_ok_block _ _ m Hpart Hm)).
  assert (Hfirst : matrix_to_variable_index_ vars !! 1%nat = Some 0)
    by (by destruct Hpart as (_ & ? & _)).
  assert (Hend : matrix_to_variable_index_ vars
                   !! length (matrices computation)
                 = Some (num_variables_ vars)).
  { apply last_Some in Hlast as [l Hl]. rewrite Hl in Hmtvlen |- *.
    rewrite length_app in Hmtvlen. simpl in Hmtvlen.
    replace (length (matrices computation)) with (length l) by lia.
    by rewrite list_lookup_middle. }
  exists base, k. split.
  - unfold AppendVariablesForMatrix, size_t_lt.
    replace ((0 <=? m + 1) &&
             (m + 1 <? vsize (matrix_to_variable_index_ vars)))
      with true
      by (symmetry; apply andb_true_iff; unfold vsize in *; split; lia).
    simpl.
    rewrite (proj2 (vec_at_Done _ m base)) by (split; [lia | done]). simpl.
    rewrite (proj2 (vec_at_Done _ (m + 1) (base + k))).
    + simpl. by replace (base + k - base) with k by lia.
    + split; [lia |]. by replace (Z.to_nat (m + 1)) with (Z.to_nat m + 1)%nat
        by lia.
  - intros v Hv. apply elem_of_seqZ in Hv.
    destruct (Hmono 1%nat (Z.to_nat m) 0 base) as [Hbase0 _];
      [lia | lia | lia | done | done |].
    destruct (Hmono (Z.to_nat m + 1)%nat (length (matrices computation))
                (base + k) (num_variables_ vars)) as [Hle _];
      [lia | lia | lia | done | done |].
    unfold NumVariables. lia.
Qed.

Lemma RecordAccessForSubmatrix_in_range (computation : NnetComputation)
    (vars : ComputationVariables) (s : Z) (t : AccessType)
    (ca : CommandAttributes) :
  ComputationVariables_Init computation ComputationVariables_new = Done vars →
  0 ≤ s < vsize (submatrices computation) →
  attributes_in_range computation vars ca →
  ∃ ca', RecordAccessForSubmatrix vars s t ca = Done ca' ∧
         attributes_in_range computation vars ca'.
Proof.
  intros Hinit Hs [Hvars Hmats].
  destruct (Z.eqb_spec s 0) as [-> | Hne].
  { exists ca. done. }
  destruct (lookup_lt_is_Some_2 (submatrices computation) (Z.to_nat s))
    as [sm Hsm]; [unfold vsize in Hs; lia |].
  assert (Hn : (1 ≤ Z.to_nat s)%nat) by lia.
  destruct (ComputationVariables_Init_Done _ _ _ sm Hinit Hn Hsm)
    as (range & full & whole & Hrange & _ & Hfull & _ & Hm & Hwhole & _).
  pose proof (RecordAccessForSubmatrix_Done vars (Z.to_nat s) range full whole
                (matrix_index sm) t ca Hn Hrange Hfull Hm Hwhole) as Hrec.
  rewrite Z2Nat.id in Hrec by lia. cbv zeta in Hrec.
  eexists. split; [exact Hrec |].
  pose proof (view_variables_in_range _ _ _ _ Hinit Hn Hrange) as Hview.
  assert (Hmat : 0 ≤ matrix_index sm < vsize (matrices computation)).
  { destruct (ComputationVariables_Init_variables _ _ Hinit)
      as (_ & Hviews & _).
    rewrite Forall_forall in Hviews. apply Hviews.
    destruct (submatrices computation) as [|s0 views]; [done |].
    destruct (Z.to_nat s) as [|i]; [lia |]. simpl in *.
    apply list_elem_of_lookup. eauto. }
  assert (Hview' : ∀ v, v ∈ variables_read ca ++ seqZ range.1 (range.2 - range.1)
                         ∨ v ∈ variables_written ca
                               ++ seqZ range.1 (range.2 - range.1)
                         ∨ v ∈ variables_read ca ++ variables_written ca →
                    0 ≤ v < NumVariables vars).
  { intros v. rewrite !elem_of_app. intros Hv. destruct_or?; auto.
    - apply Hvars. apply elem_of_app. auto.
    - apply Hvars. apply elem_of_app. auto.
    - apply Hvars. apply elem_of_app. auto.
    - apply Hvars. apply elem_of_app. auto. }
  assert (Hmat' : ∀ m, m ∈ matrices_read ca ++ [matrix_index sm]
                       ∨ m ∈ matrices_written ca ++ [matrix_index sm]
                       ∨ m ∈ matrices_read ca ++ matrices_written ca →
                  0 ≤ m < vsize (matrices computation)).
  { intros m. rewrite !elem_of_app, !list_elem_of_singleton. intros Hmem.
    destruct_or?; subst; auto.
    - apply Hmats. apply elem_of_app. auto.
    - apply Hmats. apply elem_of_app. auto.
    - apply Hmats. apply elem_of_app. auto.
    - apply Hmats. apply elem_of_app. auto. }
  split; simpl.
  - intros v Hv. apply Hview'. revert Hv. rewrite !elem_of_app.
    destruct (bool_decide (t ≠ kWriteAccess)), (bool_decide (t ≠ kReadAccess)),
      full; simpl; rewrite ?elem_of_app; tauto.
  - intros m Hmem. apply Hmat'. revert Hmem. rewrite !elem_of_app.
    destruct (bool_decide (t ≠ kWriteAccess)), (bool_decide (t ≠ kReadAccess)),
      whole; simpl; rewrite ?elem_of_app; tauto.
Qed.

Lemma for_each_RecordAccessForSubmatrix_in_range
    (computation : NnetComputation) (vars : ComputationVariables)
    (views : list Z) (t : AccessType) (ca : CommandAttributes) :
  ComputationVariables_Init computation ComputationVariables_new = Done vars →
  (∀ s, s ∈ views → 0 ≤ s < vsize (submatrices computation)) →
  attributes_in_range computation vars ca →
  ∃ ca', for_each (λ attr s, RecordAccessForSubmatrix vars s t attr) views ca
         = Done ca' ∧
         attributes_in_range computation vars ca'.
Proof.
  intros Hinit Hviews Hca.
  apply (for_each_total (attributes_in_range computation vars)); [| done].
  intros st s Hs Hst.
  apply (RecordAccessForSubmatrix_in_range computation); auto.
Qed.

Lemma sort_attributes_in_range (computation : NnetComputation)
    (vars : ComputationVariables) (attr : CommandAttributes) :
  attributes_in_range computation vars attr →
  attributes_in_range computation vars (sort_attributes attr).
Proof.
  intros [Hvars Hmats]. split; simpl; intros x Hx.
  - apply Hvars. rewrite elem_of_app in *.
    destruct Hx as [Hx | Hx]; apply (proj1 (SortAndUniq_elem_of _ _)) in Hx;
      auto.
  - apply Hmats. rewrite elem_of_app in *.
    destruct Hx as [Hx | Hx]; apply (proj1 (SortAndUniq_elem_of _ _)) in Hx;
      auto.
Qed.

Lemma CommandAttributes_new_in_range (computation : NnetComputation)
    (vars : ComputationVariables) :
  attributes_in_range computation vars CommandAttributes_new.
Proof. split; simpl; intros x Hx; by apply elem_of_nil in Hx. Qed.

(** What a check that passed says of the operands it compares. *)
Ltac check_passed H :=
  apply err_if_Done in H; unfold size_t_ge in H;
  rewrite ?orb_false_iff, ?Z.ltb_ge, ?Z.leb_gt in H; destruct_and?.

Lemma check_indexes_multi_Done (computation : NnetComputation) (c : Command)
    (num_cols_1 : Z) (pairs : list (Z * Z)) :
  check_indexes_multi computation c num_cols_1 pairs = Done () →
  ∀ s r, (s, r) ∈ pairs → s ≠ -1 →
         1 ≤ s < vsize (submatrices computation).
Proof.
  unfold check_indexes_multi.
  induction pairs as [|[s0 r0] pairs IH]; intros Hloop s r Hin Hs.
  - by apply elem_of_nil in Hin.
  - simpl in Hloop. apply bind_Done in Hloop as ([] & Hstep & Hloop).
    apply elem_of_cons in Hin as [Heq | Hin]; [| by apply (IH Hloop s r)].
    injection Heq as -> ->.
    destruct (Z.eqb_spec s0 (-1)); [done |].
    apply bind_Done in Hstep as ([] & Hrange & _).
    check_passed Hrange. lia.
Qed.

Section Protect.
Context `{ComponentProperties}.

Lemma command_accesses_total (nnet : Nnet) (computation : NnetComputation)
    (vars : ComputationVariables) (c : Command) (attr : CommandAttributes) :
  CheckComputationIndexes_command nnet computation c = Done () →
  ComputationVariables_Init computation ComputationVariables_new = Done vars →
  attributes_in_range computation vars attr →
  ∃ attr', command_accesses nnet computation vars c attr = Done attr' ∧
           attributes_in_range computation vars attr'.
Proof.
  intros Hc Hinit Hattr.
  pose proof (λ s t ca, RecordAccessForSubmatrix_in_range computation vars
                          s t ca Hinit) as Hrec.
  assert (Hmulti : ∀ pairs t ca,
            check_indexes_multi computation c
              (match vec_at (submatrices computation) (arg1 c) with
               | Done s1 => num_cols s1 | _ => 0 end) pairs = Done () →
            attributes_in_range computation vars ca →
            ∃ ca', for_each (λ attr s, RecordAccessForSubmatrix vars s t attr)
                     (IndexesMultiToSubmatrixIndexes pairs) ca = Done ca' ∧
                   attributes_in_range computation vars ca').
  { intros pairs t ca Hcheck Hca.
    apply (for_each_RecordAccessForSubmatrix_in_range computation);
      [done | | done].
    intros s Hs.
    apply (proj2 (IndexesMultiToSubmatrixIndexes_spec pairs)) in Hs
      as (Hne & row & Hin).
    pose proof (check_indexes_multi_Done _ _ _ _ Hcheck s row Hin Hne). lia. }
  unfold CheckComputationIndexes_command in Hc. unfold command_accesses.
  destruct (command_type c) eqn:Ht.
  - eauto.
  - (* kAllocMatrixZeroed *)
    check_passed Hc.
    destruct (matrix_variables_in_range computation vars (arg1 c)
                (variables_written attr) Hinit ltac:(lia))
      as (start & count & -> & Hvs).
    simpl. eexists. split; [done |]. destruct Hattr as [Hvars Hmats].
    split; simpl.
    + intros v. rewrite !elem_of_app. intros Hv. destruct_or?; auto.
      * apply Hvars. apply elem_of_app. auto.
      * apply Hvars. apply elem_of_app. auto.
    + intros m. rewrite !elem_of_app, list_elem_of_singleton. intros Hm.
      destruct_or?; subst; [| | lia].
      * apply Hmats. apply elem_of_app. auto.
      * apply Hmats. apply elem_of_app. auto.
  - eauto.
  - (* kPropagate *)
    apply bind_Done in Hc as ([] & _ & Hc).
    apply bind_Done in Hc as (component & Hcomponent & Hc).
    apply bind_Done in Hc as ([] & _ & Hc).
    apply bind_Done in Hc as ([] & _ & Hc).
    apply bind_Done in Hc as ([] & Hrange & _).
    check_passed Hrange.
    destruct (Hrec (arg3 c) kReadAccess attr) as (a1 & -> & Ha1);
      [lia | done |].
    simpl. rewrite Hcomponent. simpl.
    destruct (has_flag (Properties component) kPropagateAdds);
      apply Hrec; (split; [lia | done]) || done.
  - (* kStoreStats *)
    apply bind_Done in Hc as ([] & _ & Hc).
    apply bind_Done in Hc as (component & Hcomponent & Hc).
    apply bind_Done in Hc as ([] & _ & Hc).
    apply bind_Done in Hc as ([] & Hrange & _).
    check_passed Hrange. apply Hrec; [lia | done].
  - (* kBackprop *)
    apply bind_Done in Hc as ([] & _ & Hc).
    apply bind_Done in Hc as (component & Hcomponent & Hc).
    apply bind_Done in Hc as ([] & _ & Hc).
    apply bind_Done in Hc as ([] & _ & Hc).
    apply bind_Done in Hc as ([] & Hrange & _).
    check_passed Hrange.
    destruct (Hrec (arg3 c) kReadAccess attr) as (a1 & -> & Ha1);
      [lia | done |].
    simpl.
    destruct (Hrec (arg4 c) kReadAccess a1) as (a2 & -> & Ha2);
      [lia | done |].
    simpl.
    destruct (Hrec (arg5 c) kReadAccess a2) as (a3 & -> & Ha3);
      [lia | done |].
    simpl. rewrite Hcomponent. simpl.
    assert (Hlast : ∃ a4,
              (if has_flag (Properties component) kBackpropAdds
               then RecordAccessForSubmatrix vars (arg6 c) kReadWriteAccess a3
               else RecordAccessForSubmatrix vars (arg6 c) kWriteAccess a3)
              = Done a4 ∧ attributes_in_range computation vars a4).
    { destruct (has_flag (Properties component) kBackpropAdds);
        apply Hrec; (split; [lia | done]) || done. }
    destruct Hlast as (a4 & -> & Ha4). simpl.
    destruct (has_flag (Properties component) kUpdatableComponent);
      eexists; (split; [done |]); [| done].
    destruct Ha4 as [? ?]. split; done.
  - (* kMatrixCopy *)
    apply bind_Done in Hc as ([] & Hrange & _). check_passed Hrange.
    destruct (Hrec (arg1 c) kWriteAccess attr) as (a1 & -> & Ha1);
      [lia | done |].
    simpl. apply Hrec; [lia | done].
  - (* kMatrixAdd *)
    apply bind_Done in Hc as ([] & Hrange & _). check_passed Hrange.
    destruct (Hrec (arg1 c) kReadWriteAccess attr) as (a1 & -> & Ha1);
      [lia | done |].
    simpl. apply Hrec; [lia | done].
  - (* kCopyRows *)
    apply bind_Done in Hc as ([] & Hrange & Hc). check_passed Hrange.
    apply bind_Done in Hc as (indexes & -> & _). simpl.
    assert (Hfirst : ∃ a1,
              (if 0 <? count indexes (-1)
               then RecordAccessForSubmatrix vars (arg1 c) kReadWriteAccess attr
               else RecordAccessForSubmatrix vars (arg1 c) kWriteAccess attr)
              = Done a1 ∧ attributes_in_range computation vars a1).
    { destruct (0 <? count indexes (-1)); apply Hrec; [lia | done | lia | done]. }
    destruct Hfirst as (a1 & -> & Ha1). simpl. apply Hrec; [lia | done].
  - (* kAddRows *)
    apply bind_Done in Hc as ([] & Hrange & _). check_passed Hrange.
    destruct (Hrec (arg1 c) kReadWriteAccess attr) as (a1 & -> & Ha1);
      [lia | done |].
    simpl. apply Hrec; [lia | done].
  - (* kCopyRowsMulti *)
    apply bind_Done in Hc as ([] & Hrange & Hc). check_passed Hrange.
    apply bind_Done in Hc as (pairs & Hpairs & Hc).
    apply bind_Done in Hc as (s1 & Hs1 & Hc).
    apply bind_Done in Hc as ([] & _ & Hc).
    apply bind_Done in Hc as ([] & Hcheck & _).
    rewrite Hpairs. simpl.
    destruct (Hrec (arg1 c) kWriteAccess attr) as (a1 & -> & Ha1);
      [lia | done |].
    simpl. apply Hmulti; [| done]. by rewrite Hs1.
  - (* kCopyToRowsMulti *)
    apply bind_Done in Hc as ([] & Hrange & Hc). check_passed Hrange.
    apply bind_Done in Hc as (pairs & Hpairs & Hc).
    apply bind_Done in Hc as (s1 & Hs1 & Hc).
    apply bind_Done in Hc as ([] & _ & Hc).
    apply bind_Done in Hc as ([] & Hcheck & _).
    destruct (Hrec (arg1 c) kReadAccess attr) as (a1 & -> & Ha1);
      [lia | done |].
    simpl. rewrite Hpairs. simpl. apply Hmulti; [| done]. by rewrite Hs1.
  - (* kAddRowsMulti *)
    apply bind_Done in Hc as ([] & Hrange & Hc). check_passed Hrange.
    apply bind_Done in Hc as (pairs & Hpairs & Hc).
    apply bind_Done in Hc as (s1 & Hs1 & Hc).
    apply bind_Done in Hc as ([] & _ & Hc).
    apply bind_Done in Hc as ([] & Hcheck & _).
    destruct (Hrec (arg1 c) kReadWriteAccess attr) as (a1 & -> & Ha1);
      [lia | done |].
    simpl. rewrite Hpairs. simpl. apply Hmulti; [| done]. by rewrite Hs1.
  - (* kAddToRowsMulti *)
    apply bind_Done in Hc as ([] & Hrange & Hc). check_passed Hrange.
    apply bind_Done in Hc as (pairs & Hpairs & Hc).
    apply bind_Done in Hc as (s1 & Hs1 & Hc).
    apply bind_Done in Hc as ([] & _ & Hc).
    apply bind_Done in Hc as ([] & Hcheck & _).
    destruct (Hrec (arg1 c) kReadAccess attr) as (a1 & -> & Ha1);
      [lia | done |].
    simpl. rewrite Hpairs. simpl. apply Hmulti; [| done]. by rewrite Hs1.
  - (* kAddRowRanges *)
    apply bind_Done in Hc as ([] & Hrange & _). check_passed Hrange.
    destruct (Hrec (arg1 c) kReadWriteAccess attr) as (a1 & -> & Ha1);
      [lia | done |].
    simpl. apply Hrec; [lia | done].
  - eauto.
  - eauto.
Qed.

End Protect.

Lemma for_each_collect_total {A B} (f : A → outcome B) (P : B → Prop)
    (l : list A) (acc : list B) :
  Forall (λ x, ∃ y, f x = Done y ∧ P y) l →
  ∃ ys, for_each (λ acc x, y ← f x; Done (acc ++ [y])) l acc
        = Done (acc ++ ys) ∧
        Forall P ys ∧ length ys = length l.
Proof.
  revert acc. induction l as [|x l IH]; intros acc Hall; simpl.
  - exists []. by rewrite app_nil_r.
  - apply Forall_cons in Hall as [(y & -> & Hy) Hall]. simpl.
    destruct (IH (acc ++ [y]) Hall) as (ys & -> & Hys & Hlen).
    exists (y :: ys). rewrite <- app_assoc. split; [done |].
    split; [by constructor | simpl; lia].
Qed.

(** Appending an access to the entry of an index of the table. *)
Lemma push_total {A} (g : A → A) (v : list A) (i : Z) :
  0 ≤ i < vsize v →
  ∃ v', (x ← vec_at v i; vec_set v i (g x)) = Done v' ∧
        length v' = length v.
Proof.
  intros Hi.
  destruct (lookup_lt_is_Some_2 v (Z.to_nat i)) as [x Hx];
    [unfold vsize in Hi; lia |].
  rewrite (proj2 (vec_at_Done v i x)) by (split; [lia | done]). simpl.
  exists (<[Z.to_nat i := g x]> v).
  split; [by apply vec_set_Done | by rewrite length_insert].
Qed.

Section ProtectAnalysis.
Context `{ComponentProperties}.

Lemma ComputeCommandAttributes_total (nnet : Nnet)
    (computation : NnetComputation) (vars : ComputationVariables) :
  CheckComputationIndexes nnet computation = Done () →
  ComputationVariables_Init computation ComputationVariables_new = Done vars →
  ∃ attrs,
    ComputeCommandAttributes nnet computation vars = Done attrs ∧
    Forall (λ attr, attributes_sorted attr ∧
                    attributes_in_range computation vars attr) attrs ∧
    length attrs = length (commands computation).
Proof.
  intros Hcheck Hinit. apply CheckComputationIndexes_Done in Hcheck.
  unfold ComputeCommandAttributes.
  apply (for_each_collect_total
           (ComputeCommandAttributes_command nnet computation vars)
           (λ attr, attributes_sorted attr ∧
                    attributes_in_range computation vars attr)
           (commands computation) []).
  eapply Forall_impl; [exact Hcheck |]. simpl. intros c Hc.
  unfold ComputeCommandAttributes_command.
  destruct (command_accesses_total nnet computation vars c
              CommandAttributes_new Hc Hinit
              (CommandAttributes_new_in_range computation vars))
    as (attr & -> & Hattr).
  simpl. eexists. split; [done |].
  split; [apply sort_attributes_sorted | by apply sort_attributes_in_range].
Qed.

End ProtectAnalysis.

Lemma ComputeVariableAccesses_total (computation : NnetComputation)
    (vars : ComputationVariables) (attrs : list CommandAttributes) :
  Forall (λ attr, attributes_sorted attr ∧
                  attributes_in_range computation vars attr) attrs →
  ∃ va, ComputeVariableAccesses vars attrs = Done va ∧
        length va = Z.to_nat (NumVariables vars).
Proof.
  intros Hattrs. unfold ComputeVariableAccesses.
  rewrite for_range_vec_at_0.
  refine (for_indexed_total
            (λ va : list (list Access),
               length va = Z.to_nat (NumVariables vars))
            (λ _ attr, attributes_sorted attr ∧
                       attributes_in_range computation vars attr)
            _ _ attrs 0%nat _ _ _).
  - intros va c attr Hlen [Hsorted [Hvars _]].
    destruct Hsorted as (Hr & Hw & _).
    rewrite (proj2 (IsSortedAndUniq_true _) Hr),
            (proj2 (IsSortedAndUniq_true _) Hw).
    simpl.
    apply (for_each_total
             (λ va : list (list Access),
                length va = Z.to_nat (NumVariables vars))); [| done].
    intros st v Hv Hst.
    apply (proj1 (SortAndUniq_elem_of _ _)) in Hv. apply Hvars in Hv.
    destruct (push_total
                (λ l, l ++ [ {| command_index := Z.of_nat c;
                                access_type :=
                                  access_kind (variables_read attr)
                                    (variables_written attr) v |} ])
                st v) as (st' & Hst' & Hlen'); [unfold vsize; lia |].
    exists st'. split; [exact Hst' | congruence].
  - by rewrite length_resize.
  - intros n attr Hn. rewrite Forall_forall in Hattrs. apply Hattrs.
    apply list_elem_of_lookup. eauto.
Qed.

Lemma init_failure_bind {A B} (m : outcome A) (f : A → outcome B) :
  init_failure m → init_failure (m ≫= f).
Proof.
  unfold init_failure. intros [-> | [-> | ->]]; simpl; auto.
Qed.

Lemma for_indexed_init {A St} (Inv : St → Prop) (Q : nat → A → Prop)
    (body : St → Z → A → outcome St) :
  (∀ st (i : nat) x, Inv st → Q i x →
     (∃ st', body st (Z.of_nat i) x = Done st' ∧ Inv st') ∨
     init_failure (body st (Z.of_nat i) x)) →
  ∀ l (k : nat) st, Inv st →
    (∀ (n : nat) x, l !! n = Some x → Q (k + n)%nat x) →
    (∃ st', for_indexed body (Z.of_nat k) l st = Done st' ∧ Inv st') ∨
    init_failure (for_indexed body (Z.of_nat k) l st).
Proof.
  intros Hbody. induction l as [|x l IH]; intros k st Hinv HQ; simpl.
  - left. eauto.
  - destruct (Hbody st k x Hinv) as [(st1 & -> & Hinv1) | Hfail].
    { specialize (HQ 0%nat x eq_refl). by rewrite Nat.add_0_r in HQ. }
    + simpl. replace (Z.of_nat k + 1) with (Z.of_nat (S k)) by lia.
      apply IH; [done |]. intros n y Hn.
      replace (S k + n)%nat with (k + S n)%nat by lia. by apply HQ.
    + right. by apply init_failure_bind.
Qed.

Lemma for_each_init {A St} (Inv : St → Prop) (body : St → A → outcome St)
    (l : list A) (st : St) :
  (∀ st x, x ∈ l → Inv st →
     (∃ st', body st x = Done st' ∧ Inv st') ∨ init_failure (body st x)) →
  Inv st →
  (∃ st', for_each body l st = Done st' ∧ Inv st') ∨
  init_failure (for_each body l st).
Proof.
  revert st. induction l as [|x l IH]; intros st Hbody Hinv; simpl.
  - left. eauto.
  - destruct (Hbody st x) as [(st1 & -> & Hinv1) | Hfail]; [left | done | |].
    + simpl. apply IH; [| done]. intros st2 y Hy. apply Hbody. by right.
    + right. by apply init_failure_bind.
Qed.

(** Setting a field of the entry of an index of the table, after a check
    of the entry. *)
Lemma checked_update {A} (g : A → A) (check : A → outcome unit) (v : list A)
    (i : Z) :
  0 ≤ i < vsize v →
  (∀ x, check x = Done () ∨ init_failure (check x)) →
  (∃ v', (x ← vec_at v i; check x;; vec_set v i (g x)) = Done v' ∧
         length v' = length v) ∨
  init_failure (x ← vec_at v i; check x;; vec_set v i (g x)).
Proof.
  intros Hi Hcheck.
  destruct (lookup_lt_is_Some_2 v (Z.to_nat i)) as [x Hx];
    [unfold vsize in Hi; lia |].
  rewrite (proj2 (vec_at_Done v i x)) by (split; [lia | done]). simpl.
  destruct (Hcheck x) as [-> | Hfail].
  - simpl. left. exists (<[Z.to_nat i := g x]> v).
    split; [by apply vec_set_Done | by rewrite length_insert].
  - right. by apply init_failure_bind.
Qed.

Lemma KALDI_ASSERT_init (cond : bool) :
  KALDI_ASSERT cond = Done () ∨ init_failure (KALDI_ASSERT cond).
Proof. destruct cond; [by left | right; by left]. Qed.

Section ProtectMatrixAccesses.
Context `{ComponentProperties}.

Lemma ComputeMatrixAccesses_init (nnet : Nnet) (computation : NnetComputation)
    (vars : ComputationVariables) (attrs : list CommandAttributes) :
  CheckComputationIndexes nnet computation = Done () →
  Forall (λ attr, attributes_sorted attr ∧
                  attributes_in_range computation vars attr) attrs →
  length attrs = length (commands computation) →
  deriv_matrices_in_range computation →
  (∃ ma, ComputeMatrixAccesses nnet computation vars attrs = Done ma) ∨
  init_failure (ComputeMatrixAccesses nnet computation vars attrs).
Proof.
  intros Hcheck Hattrs Hlen Hio. apply CheckComputationIndexes_Done in Hcheck.
  unfold ComputeMatrixAccesses. rewrite for_range_vec_at_0.
  set (Inv := λ ma : list MatrixAccesses,
                length ma = length (matrices computation)).
  match goal with
  | |- context [for_indexed ?body 0 attrs ?init] =>
      destruct (for_indexed_init Inv
                  (λ i attr,
                     (attributes_sorted attr ∧
                      attributes_in_range computation vars attr) ∧
                     ∃ cmd, commands computation !! i = Some cmd ∧
                       CheckComputationIndexes_command nnet computation cmd
                       = Done ())
                  body) with (l := attrs) (k := 0%nat) (st := init)
        as [(ma & Hloop & Hma) | Hfail]
  end.
  - (* the body of the loop over the commands *)
    intros st c attr Hst [[Hsorted [_ Hmats]] (cmd & Hcmd & Hc)].
    destruct Hsorted as (_ & _ & _ & _ & Hr & Hw).
    rewrite (proj2 (IsSortedAndUniq_true _) Hr),
            (proj2 (IsSortedAndUniq_true _) Hw).
    simpl.
    match goal with
    | |- context [for_each ?body ?l st] =>
        destruct (for_each_total Inv body l st) as (st1 & -> & Hst1)
    end.
    { intros st0 m Hm Hst0.
      apply (proj1 (SortAndUniq_elem_of _ _)) in Hm. apply Hmats in Hm.
      destruct (push_total
                  (push_access
                     {| command_index := Z.of_nat c;
                        access_type := access_kind (matrices_read attr)
                                         (matrices_written attr) m |})
                  st0 m) as (st' & Hst' & Hlen');
        [unfold Inv in Hst0; unfold vsize in *; lia |].
      exists st'. split; [exact Hst' | unfold Inv in *; congruence]. }
    { done. }
    simpl. rewrite (vec_at_lookup _ c cmd Hcmd). simpl.
    unfold CheckComputationIndexes_command in Hc.
    destruct (command_type cmd) eqn:Ht;
      try (left; exists st1; split; [done | exact Hst1]).
    + check_passed Hc.
      destruct (checked_update (set_allocate_command (Z.of_nat c))
                  (λ m, err_if (negb (allocate_command m =? -1))
                               "Matrix initialized twice.")
                  st1 (arg1 cmd)) as [(st' & Hst' & Hlen') | Hfail].
      * unfold Inv in Hst1. unfold vsize in *. lia.
      * intros m. destruct (allocate_command m =? -1); [by left |].
        right. right. by left.
      * left. exists st'. split; [exact Hst' | unfold Inv in *; congruence].
      * by right.
    + check_passed Hc.
      destruct (checked_update (set_allocate_command (Z.of_nat c))
                  (λ m, err_if (negb (allocate_command m =? -1))
                               "Matrix initialized twice.")
                  st1 (arg1 cmd)) as [(st' & Hst' & Hlen') | Hfail].
      * unfold Inv in Hst1. unfold vsize in *. lia.
      * intros m. destruct (allocate_command m =? -1); [by left |].
        right. right. by left.
      * left. exists st'. split; [exact Hst' | unfold Inv in *; congruence].
      * by right.
    + check_passed Hc.
      destruct (checked_update (set_deallocate_command (Z.of_nat c))
                  (λ m, err_if (negb (deallocate_command m =? -1))
                               "Matrix destroyed twice.")
                  st1 (arg1 cmd)) as [(st' & Hst' & Hlen') | Hfail].
      * unfold Inv in Hst1. unfold vsize in *. lia.
      * intros m. destruct (deallocate_command m =? -1); [by left |].
        right. right. by right.
      * left. exists st'. split; [exact Hst' | unfold Inv in *; congruence].
      * by right.
  - unfold Inv, vsize. rewrite length_resize. lia.
  - intros n attr Hn. simpl. split.
    + rewrite Forall_forall in Hattrs. apply Hattrs.
      apply list_elem_of_lookup. eauto.
    + destruct (lookup_lt_is_Some_2 (commands computation) n) as [cmd Hcmd].
      { apply lookup_lt_Some in Hn. lia. }
      exists cmd. split; [done |].
      rewrite Forall_forall in Hcheck. apply Hcheck.
      apply list_elem_of_lookup. eauto.
  - (* the loop over the inputs and outputs *)
    change (Z.of_nat 0) with 0 in Hloop. rewrite Hloop. simpl.
    unfold deriv_matrices_in_range in Hio. rewrite Forall_forall in Hio.
    match goal with
    | |- context [for_each ?body ?l ma] =>
        destruct (for_each_init Inv body l ma) as [(ma' & -> & _) | Hfail];
          [| done | by eauto | by right]
    end.
    intros st [node [value deriv]] Hin Hst. specialize (Hio _ Hin).
    simpl in Hio. unfold Inv in Hst.
    destruct (Z.ltb_spec 0 value); simpl; [| right; by left].
    destruct (Z.ltb_spec value (vsize (matrices computation))); simpl;
      [| right; by left].
    assert (Hflag : ∀ (g g' : MatrixAccesses → MatrixAccesses)
                      (flag flag' : MatrixAccesses → bool),
      (∃ st', (m ← vec_at st value;
               KALDI_ASSERT (negb (flag m));;
               matrix_accesses ← vec_set st value (g m);
               if negb (deriv =? 0) then
                 m ← vec_at matrix_accesses deriv;
                 KALDI_ASSERT (negb (flag' m));;
                 vec_set matrix_accesses deriv (g' m)
               else Done matrix_accesses) = Done st' ∧ Inv st') ∨
      init_failure (m ← vec_at st value;
               KALDI_ASSERT (negb (flag m));;
               matrix_accesses ← vec_set st value (g m);
               if negb (deriv =? 0) then
                 m ← vec_at matrix_accesses deriv;
                 KALDI_ASSERT (negb (flag' m));;
                 vec_set matrix_accesses deriv (g' m)
               else Done matrix_accesses)).
    { intros g g' flag flag'.
      destruct (lookup_lt_is_Some_2 st (Z.to_nat value)) as [m Hm];
        [unfold vsize in *; lia |].
      rewrite (proj2 (vec_at_Done st value m)) by (split; [lia | done]).
      simpl. destruct (flag m); simpl; [right; by left |].
      rewrite (proj2 (vec_set_Done st value (g m) _))
        by (split; [unfold vsize in *; lia | done]).
      simpl. destruct (deriv =? 0); simpl.
      { left. eexists. split; [done |]. unfold Inv.
        by rewrite length_insert. }
      destruct (checked_update g' (λ m, KALDI_ASSERT (negb (flag' m)))
                  (<[Z.to_nat value := g m]> st) deriv)
        as [(st' & Hst' & Hlen') | Hfail].
      - unfold vsize in *. rewrite length_insert. lia.
      - intros x. apply KALDI_ASSERT_init.
      - left. exists st'. split; [exact Hst' |]. unfold Inv.
        rewrite Hlen'. by rewrite length_insert.
      - by right. }
    destruct (IsInputNode nnet node); [apply Hflag |].
    destruct (IsOutputNode nnet node); simpl; [apply Hflag |].
    right. by left.
  - right. by apply init_failure_bind.
Qed.

End ProtectMatrixAccesses.

Section ProtectTheorems.
Context `{ComponentProperties}.

(** On a computation that passed the index check, with the variables
    [Init] computed for it, [ComputeCommandAttributes] returns an attribute
    record for every command and [ComputeVariableAccesses] then returns a
    history for every variable: neither raises an error, fails an
    assertion or indexes a vector out of its range. *)
Theorem CheckComputationIndexes_protects_attributes (nnet : Nnet)
    (computation : NnetComputation) (vars : ComputationVariables) :
  CheckComputationIndexes nnet computation = Done () →
  ComputationVariables_Init computation ComputationVariables_new = Done vars →
  ∃ attrs va,
    ComputeCommandAttributes nnet computation vars = Done attrs ∧
    length attrs = length (commands computation) ∧
    ComputeVariableAccesses vars attrs = Done va ∧
    length va = Z.to_nat (NumVariables vars).
Proof.
  intros Hcheck Hinit.
  destruct (ComputeCommandAttributes_total nnet computation vars Hcheck Hinit)
    as (attrs & Hattrs & Hall & Hlen).
  destruct (ComputeVariableAccesses_total computation vars attrs Hall)
    as (va & Hva & Hvalen).
  exists attrs, va. done.
Qed.

(** On a computation that passed the index check, whose variables [Init]
    computes and whose input and output information names matrices of the
    computation as derivatives, the initialisation of the analyzer either
    succeeds or ends in a failed assertion or in the error of a matrix
    allocated or deallocated twice; it indexes no vector out of its
    range. *)
Theorem Analyzer_Init_after_index_check (nnet : Nnet)
    (computation : NnetComputation) (vars : ComputationVariables) :
  CheckComputationIndexes nnet computation = Done () →
  ComputationVariables_Init computation ComputationVariables_new = Done vars →
  deriv_matrices_in_range computation →
  (∃ a, Analyzer_Init nnet computation = Done a) ∨
  init_failure (Analyzer_Init nnet computation).
Proof.
  intros Hcheck Hinit Hio.
  destruct (ComputeCommandAttributes_total nnet computation vars Hcheck Hinit)
    as (attrs & Hattrs & Hall & Hlen).
  destruct (ComputeVariableAccesses_total computation vars attrs Hall)
    as (va & Hva & _).
  unfold Analyzer_Init. rewrite Hinit. simpl. rewrite Hattrs. simpl.
  rewrite Hva. simpl.
  destruct (ComputeMatrixAccesses_init nnet computation vars attrs Hcheck Hall
              Hlen Hio) as [(ma & ->) | Hfail].
  - left. simpl. eauto.
  - right. by apply init_failure_bind.
Qed.

End ProtectTheorems.

Lemma CheckComputationIndexes_protects_attributes_witness :
  @CheckComputationIndexes kaldi_properties
    (one_component (component_with 0)) in_place_program = Done () ∧
  ComputationVariables_Init in_place_program ComputationVariables_new
  = Done (variables in_place_analysis) ∧
  ∃ attrs va,
    @ComputeCommandAttributes kaldi_properties
      (one_component (component_with 0)) in_place_program
      (variables in_place_analysis) = Done attrs ∧
    length attrs = length (commands in_place_program) ∧
    ComputeVariableAccesses (variables in_place_analysis) attrs = Done va ∧
    length va = Z.to_nat (NumVariables (variables in_place_analysis)).
Proof.
  assert (Hcheck : @CheckComputationIndexes kaldi_properties
                     (one_component (component_with 0)) in_place_program
                   = Done ()) by (vm_compute; reflexivity).
  assert (Hinit : ComputationVariables_Init in_place_program
                    ComputationVariables_new
                  = Done (variables in_place_analysis))
    by (vm_compute; reflexivity).
  split; [exact Hcheck |]. split; [exact Hinit |].
  exact (@CheckComputationIndexes_protects_attributes kaldi_properties _ _ _
           Hcheck Hinit).
Defined.

Lemma Analyzer_Init_after_index_check_witness :
  @CheckComputationIndexes kaldi_properties input_and_output_nodes
    input_to_output_program = Done () ∧
  ComputationVariables_Init input_to_output_program ComputationVariables_new
  = Done (variables input_to_output_analysis) ∧
  deriv_matrices_in_range input_to_output_program ∧
  ((∃ a, @Analyzer_Init kaldi_properties input_and_output_nodes
           input_to_output_program = Done a) ∨
   init_failure (@Analyzer_Init kaldi_properties input_and_output_nodes
                   input_to_output_program)).
Proof.
  assert (Hcheck : @CheckComputationIndexes kaldi_properties
                     input_and_output_nodes input_to_output_program
                   = Done ()) by (vm_compute; reflexivity).
  assert (Hinit : ComputationVariables_Init input_to_output_program
                    ComputationVariables_new
                  = Done (variables input_to_output_analysis))
    by (vm_compute; reflexivity).
  assert (Hio : deriv_matrices_in_range input_to_output_program)
    by (unfold deriv_matrices_in_range; simpl; repeat constructor; simpl; lia).
  split; [exact Hcheck |]. split; [exact Hinit |]. split; [exact Hio |].
  exact (@Analyzer_Init_after_index_check kaldi_properties _ _ _
           Hcheck Hinit Hio).
Defined.

(** The index check does not look at the input and output information:
    a derivative that is no matrix of the computation passes it, and the
    initialisation of the analyzer indexes its table out of range. *)
Example Analyzer_Init_stray_derivative :
  @CheckComputationIndexes kaldi_properties input_and_output_nodes
    stray_derivative_program = Done () ∧
  @Analyzer_Init kaldi_properties input_and_output_nodes
    stray_derivative_program = Undefined.
Proof. split; vm_compute; reflexivity. Qed.

(** ** The index check of the commands on rows *)

Lemma err_if_false (cond : bool) (msg : string) :
  cond = false → err_if cond msg = Done ().
Proof. by intros ->. Qed.

(** The first check of the chain passes when its condition is false. *)
Ltac pass_check :=
  match goal with
  | |- mbind _ (err_if ?cond ?msg) = _ =>
      rewrite (err_if_false cond msg); [simpl |]
  end.

Lemma foldl_max_lt (l : list Z) (x b : Z) :
  foldl Z.max x l < b ↔ x < b ∧ Forall (λ i, i < b) l.
Proof.
  revert x. induction l as [|a l IH]; intros x; simpl.
  - split; [intros; split; [done | constructor] | by intros [? _]].
  - rewrite IH, Forall_cons.
    assert (Z.max x a < b ↔ x < b ∧ a < b) by lia. tauto.
Qed.

Lemma max_element_Done (v : list Z) (largest : Z) :
  max_element v = Done largest ↔
  v ≠ [] ∧ largest ∈ v ∧ Forall (λ i, i ≤ largest) v.
Proof.
  destruct v as [|x l]; simpl; [split; [done | by intros [? _]] |].
  assert (Hmax : ∀ l x, foldl Z.max x l ∈ x :: l ∧
                        Forall (λ i, i ≤ foldl Z.max x l) (x :: l)).
  { clear. induction l as [|a l IH]; intros x; simpl.
    - split; [left | repeat constructor; simpl; lia].
    - destruct (IH (Z.max x a)) as [Hin Hall].
      apply Forall_cons in Hall as [Hxa Hall]. simpl in Hxa. split.
      + apply elem_of_cons in Hin as [Hin | Hin]; [| by do 2 right].
        rewrite Hin. destruct (Z.max_spec x a) as [[_ ->] | [_ ->]];
          [right; left | left].
      + constructor; [simpl; lia |]. constructor; [simpl; lia | done]. }
  destruct (Hmax l x) as [Hin Hall]. split.
  - intros [= <-]. done.
  - intros (_ & Hin' & Hall'). f_equal.
    rewrite Forall_forall in Hall, Hall'.
    specialize (Hall _ Hin'). specialize (Hall' _ Hin). simpl in *. lia.
Qed.

Lemma check_row_ranges (src_num_rows : Z) (pairs : list (Z * Z)) :
  for_each (λ (_ : unit) '(first, second),
      err_if ((second <? first) || (first <? 0) || (src_num_rows <? second))
        "Row range out of range in add-row-ranges command.")
    pairs () = Done () ↔
  Forall (λ p, 0 ≤ p.1 ≤ p.2 ∧ p.2 ≤ src_num_rows) pairs.
Proof.
  induction pairs as [|[first second] pairs IH]; simpl.
  - split; [constructor | done].
  - rewrite Forall_cons, bind_Done. simpl. split.
    + intros ([] & Hstep & Hloop). check_passed Hstep.
      split; [lia | by apply IH].
    + intros [Hp Hall]. exists (). split; [| by apply IH].
      apply err_if_false. rewrite !orb_false_iff, !Z.ltb_ge. lia.
Qed.

Section RowCommands.
Context `{ComponentProperties}.

(** [CheckComputationIndexes] on an AddRows or CopyRows command: the
    command passes exactly when its two views are views other than the
    null view, of as many columns and not the same, its index list is a
    list of the computation with one index for every row of the first
    view and at least one index, and every index is less than the number
    of rows of the second view.  The indexes have no lower bound; with an
    empty index list, a first view of no rows and the other checks passed,
    the check reads the largest element of an empty list, which is
    undefined. *)
Theorem CheckComputationIndexes_rows (nnet : Nnet)
    (computation : NnetComputation) (c : Command) :
  command_type c = kAddRows ∨ command_type c = kCopyRows →
  (CheckComputationIndexes_command nnet computation c = Done () ↔
   ∃ s1 s2 index_list,
     1 ≤ arg1 c ∧ submatrices computation !! Z.to_nat (arg1 c) = Some s1 ∧
     1 ≤ arg2 c ∧ submatrices computation !! Z.to_nat (arg2 c) = Some s2 ∧
     0 ≤ arg3 c ∧ indexes computation !! Z.to_nat (arg3 c) = Some index_list ∧
     vsize index_list = num_rows s1 ∧ num_cols s1 = num_cols s2 ∧
     index_list ≠ [] ∧ Forall (λ i, i < num_rows s2) index_list ∧
     arg1 c ≠ arg2 c) ∧
  (∀ s1 s2,
     1 ≤ arg1 c → submatrices computation !! Z.to_nat (arg1 c) = Some s1 →
     1 ≤ arg2 c → submatrices computation !! Z.to_nat (arg2 c) = Some s2 →
     0 ≤ arg3 c → indexes computation !! Z.to_nat (arg3 c) = Some [] →
     num_rows s1 = 0 → num_cols s1 = num_cols s2 →
     CheckComputationIndexes_command nnet computation c = Undefined).
Proof.
  intros Hty.
  assert (CheckComputationIndexes_command nnet computation c
          = CheckComputationIndexes_command nnet computation
              (with_type kAddRows c)) as ->
    by (unfold CheckComputationIndexes_command;
        destruct Hty as [-> | ->]; reflexivity).
  unfold CheckComputationIndexes_command.
  cbn [with_type command_type arg1 arg2 arg3].
  assert (Hfirst : ∀ s1 s2 index_list,
            1 ≤ arg1 c → submatrices computation !! Z.to_nat (arg1 c) = Some s1 →
            1 ≤ arg2 c → submatrices computation !! Z.to_nat (arg2 c) = Some s2 →
            0 ≤ arg3 c →
            indexes computation !! Z.to_nat (arg3 c) = Some index_list →
            (arg1 c <? 1) || (vsize (submatrices computation) <=? arg1 c) ||
            (arg2 c <? 1) || (vsize (submatrices computation) <=? arg2 c) ||
            size_t_ge (arg3 c) (vsize (indexes computation)) = false).
  { intros s1 s2 index_list H1 Hs1 H2 Hs2 H3 Hidx.
    apply lookup_lt_Some in Hs1, Hs2, Hidx. unfold size_t_ge, vsize.
    rewrite !orb_false_iff, !Z.ltb_ge, !Z.leb_gt. lia. }
  split; [split |].
  - intros Hc.
    apply bind_Done in Hc as ([] & Hrange & Hc). check_passed Hrange.
    apply bind_Done in Hc as (index_list & Hidx & Hc).
    apply vec_at_Done in Hidx as [_ Hidx].
    apply bind_Done in Hc as (s1 & Hs1 & Hc).
    apply vec_at_Done in Hs1 as [_ Hs1].
    apply bind_Done in Hc as ([] & Hsize & Hc).
    apply err_if_Done, negb_false_iff, Z.eqb_eq in Hsize.
    apply bind_Done in Hc as (s2 & Hs2 & Hc).
    apply vec_at_Done in Hs2 as [_ Hs2].
    apply bind_Done in Hc as ([] & Hcols & Hc).
    apply err_if_Done, negb_false_iff, Z.eqb_eq in Hcols.
    apply bind_Done in Hc as (largest & Hmax & Hc).
    apply bind_Done in Hc as ([] & Hrows & Hself).
    apply err_if_Done, Z.leb_gt in Hrows.
    apply err_if_Done, Z.eqb_neq in Hself.
    apply max_element_Done in Hmax as (Hne & _ & Hall).
    exists s1, s2, index_list. split_and!; try done; try lia.
    eapply Forall_impl; [exact Hall |]. simpl. intros; lia.
  - intros (s1 & s2 & index_list & H1 & Hs1 & H2 & Hs2 & H3 & Hidx & Hsize
            & Hcols & Hne & Hall & Hself).
    assert (H1' : 0 ≤ arg1 c) by lia. assert (H2' : 0 ≤ arg2 c) by lia.
    pass_check; [| by eapply Hfirst].
    rewrite (proj2 (vec_at_Done _ _ _) (conj H3 Hidx)). simpl.
    rewrite (proj2 (vec_at_Done _ _ _) (conj H1' Hs1)). simpl.
    pass_check; [| by apply negb_false_iff, Z.eqb_eq].
    rewrite (proj2 (vec_at_Done _ _ _) (conj H2' Hs2)). simpl.
    pass_check; [| by apply negb_false_iff, Z.eqb_eq].
    destruct index_list as [|x l]; [done |]. simpl.
    apply Forall_cons in Hall as [Hx Hall].
    pass_check; [| apply Z.leb_gt, foldl_max_lt; by split].
    apply err_if_false. by apply Z.eqb_neq.
  - intros s1 s2 H1 Hs1 H2 Hs2 H3 Hidx Hrows Hcols.
    assert (H1' : 0 ≤ arg1 c) by lia. assert (H2' : 0 ≤ arg2 c) by lia.
    pass_check; [| by eapply Hfirst].
    rewrite (proj2 (vec_at_Done _ _ _) (conj H3 Hidx)). simpl.
    rewrite (proj2 (vec_at_Done _ _ _) (conj H1' Hs1)). simpl.
    rewrite Hrows. simpl.
    rewrite (proj2 (vec_at_Done _ _ _) (conj H2' Hs2)). simpl.
    pass_check; [| by apply negb_false_iff, Z.eqb_eq]. done.
Qed.

(** [CheckComputationIndexes] on an AddRowRanges command: the command
    passes exactly when its two views are views other than the null view
    and of as many columns, its third operand is the index of a list of
    row ranges of the computation, and the list of row ranges at the index
    of its second operand has one range for every row of the first view,
    every range within the rows of the second view.  The list that is
    checked is the one the second operand indexes, not the third. *)
Theorem CheckComputationIndexes_row_ranges (nnet : Nnet)
    (computation : NnetComputation) (c : Command) :
  command_type c = kAddRowRanges →
  CheckComputationIndexes_command nnet computation c = Done () ↔
  ∃ s1 s2 pairs,
    1 ≤ arg1 c ∧ submatrices computation !! Z.to_nat (arg1 c) = Some s1 ∧
    1 ≤ arg2 c ∧ submatrices computation !! Z.to_nat (arg2 c) = Some s2 ∧
    0 ≤ arg3 c < vsize (indexes_ranges computation) ∧
    indexes_ranges computation !! Z.to_nat (arg2 c) = Some pairs ∧
    num_rows s1 = vsize pairs ∧ num_cols s1 = num_cols s2 ∧
    Forall (λ p, 0 ≤ p.1 ≤ p.2 ∧ p.2 ≤ num_rows s2) pairs.
Proof.
  intros Ht. unfold CheckComputationIndexes_command. rewrite Ht. split.
  - intros Hc.
    apply bind_Done in Hc as ([] & Hrange & Hc). check_passed Hrange.
    apply bind_Done in Hc as (pairs & Hpairs & Hc).
    apply vec_at_Done in Hpairs as [_ Hpairs].
    apply bind_Done in Hc as (s1 & Hs1 & Hc).
    apply vec_at_Done in Hs1 as [_ Hs1].
    apply bind_Done in Hc as ([] & Hsize & Hc).
    apply err_if_Done, negb_false_iff, Z.eqb_eq in Hsize.
    apply bind_Done in Hc as (s2 & Hs2 & Hc).
    apply vec_at_Done in Hs2 as [_ Hs2].
    apply bind_Done in Hc as ([] & Hcols & Hc).
    apply err_if_Done, negb_false_iff, Z.eqb_eq in Hcols.
    apply check_row_ranges in Hc.
    exists s1, s2, pairs. split_and!; try done; lia.
  - intros (s1 & s2 & pairs & H1 & Hs1 & H2 & Hs2 & H3 & Hpairs & Hsize
            & Hcols & Hall).
    assert (H1' : 0 ≤ arg1 c) by lia. assert (H2' : 0 ≤ arg2 c) by lia.
    pass_check.
    2: { pose proof (lookup_lt_Some _ _ _ Hs1).
         pose proof (lookup_lt_Some _ _ _ Hs2). unfold size_t_ge, vsize in *.
         rewrite !orb_false_iff, !Z.ltb_ge, !Z.leb_gt. lia. }
    rewrite (proj2 (vec_at_Done _ _ _) (conj H2' Hpairs)). simpl.
    rewrite (proj2 (vec_at_Done _ _ _) (conj H1' Hs1)). simpl.
    pass_check; [| by apply negb_false_iff, Z.eqb_eq].
    rewrite (proj2 (vec_at_Done _ _ _) (conj H2' Hs2)). simpl.
    pass_check; [| by apply negb_false_iff, Z.eqb_eq].
    by apply check_row_ranges.
Qed.

End RowCommands.

Lemma CheckComputationIndexes_rows_witness :
  (command_type (rows_command kCopyRows 0) = kAddRows ∨
   command_type (rows_command kCopyRows 0) = kCopyRows) ∧
  @CheckComputationIndexes_command kaldi_properties
    (one_component (component_with 0)) (two_views [[-5; 1]] [])
    (rows_command kCopyRows 0) = Done ().
Proof.
  assert (Hty : command_type (rows_command kCopyRows 0) = kAddRows ∨
                command_type (rows_command kCopyRows 0) = kCopyRows)
    by (right; reflexivity).
  split; [exact Hty |].
  apply (proj1 (@CheckComputationIndexes_rows kaldi_properties
                  (one_component (component_with 0)) (two_views [[-5; 1]] [])
                  (rows_command kCopyRows 0) Hty)).
  exists (view 1 0 2 0 3), (view 2 0 2 0 3), [-5; 1].
  split; [simpl; lia |]. split; [reflexivity |].
  split; [simpl; lia |]. split; [reflexivity |].
  split; [simpl; lia |]. split; [reflexivity |].
  split; [reflexivity |]. split; [reflexivity |].
  split; [discriminate |].
  split; [repeat constructor; simpl; lia | simpl; lia].
Defined.

(** An AddRows command with an empty index list on a view of no rows:
    the check is undefined. *)
Example CheckComputationIndexes_rows_empty :
  @CheckComputationIndexes_command kaldi_properties
    (one_component (component_with 0)) empty_view_program
    (rows_command kAddRows 0) = Undefined.
Proof. vm_compute. reflexivity. Qed.

(** An index that is not less than the number of rows of the second view
    is an error. *)
Example CheckComputationIndexes_rows_too_large :
  @CheckComputationIndexes_command kaldi_properties
    (one_component (component_with 0)) (two_views [[0; 2]] [])
    (rows_command kAddRows 0)
  = Err "Row-index out of range in add-rows/copy-rows".
Proof. vm_compute. reflexivity. Qed.

Lemma CheckComputationIndexes_row_ranges_witness :
  command_type (rows_command kAddRowRanges 0) = kAddRowRanges ∧
  @CheckComputationIndexes_command kaldi_properties
    (one_component (component_with 0))
    (two_views [] [[(5, 9)]; []; [(0, 2); (1, 1)]])
    (rows_command kAddRowRanges 0) = Done ().
Proof.
  split; [reflexivity |].
  apply (proj2 (@CheckComputationIndexes_row_ranges kaldi_properties
                  (one_component (component_with 0))
                  (two_views [] [[(5, 9)]; []; [(0, 2); (1, 1)]])
                  (rows_command kAddRowRanges 0) eq_refl)).
  exists (view 1 0 2 0 3), (view 2 0 2 0 3), [(0, 2); (1, 1)].
  split; [simpl; lia |]. split; [reflexivity |].
  split; [simpl; lia |]. split; [reflexivity |].
  split; [simpl; unfold vsize; simpl; lia |]. split; [reflexivity |].
  split; [reflexivity |]. split; [reflexivity |].
  repeat constructor; simpl; lia.
Defined.

(** The list of row ranges the command names, list 0, is the only one of
    the computation and fits the views; the check reads the list its
    second operand indexes, list 2, which the computation does not
    have. *)
Example CheckComputationIndexes_row_ranges_out_of_range :
  @CheckComputationIndexes_command kaldi_properties
    (one_component (component_with 0))
    (two_views [] [[(0, 1); (1, 2)]])
    (rows_command kAddRowRanges 0) = Undefined.
Proof. vm_compute. reflexivity. Qed.

(** ** The index check of Propagate *)

(** Case analysis on the comparisons of a condition. *)
Ltac compare_cases :=
  repeat match goal with
         | |- context [?x <? ?y] => destruct (Z.ltb_spec x y)
         | |- context [?x <=? ?y] => destruct (Z.leb_spec x y)
         | |- context [?x =? ?y] => destruct (Z.eqb_spec x y)
         end;
  simpl; try reflexivity; try lia.

Section PropagateCommand.
Context `{ComponentProperties}.

(** [CheckComputationIndexes] on a Propagate command: the command passes
    exactly when its component is a component of the network, its
    precomputed-indexes index is between 0 and the number of precomputed
    indexes, that number included, and 0 for a simple component, its
    input view is a view of the computation, the null view for a simple
    component only, its output view is a view other than the null view,
    the views have the input and output dimensions of the component as
    their numbers of columns, as many rows as each other for a simple
    component, and are the same view only for a component that propagates
    in place. *)
Theorem CheckComputationIndexes_propagate (nnet : Nnet)
    (computation : NnetComputation) (c : Command) :
  command_type c = kPropagate →
  CheckComputationIndexes_command nnet computation c = Done () ↔
  ∃ component s3 s4,
    0 ≤ arg1 c < NumComponents nnet ∧
    GetComponent nnet (arg1 c) = Done component ∧
    0 ≤ arg2 c ≤ vsize (component_precomputed_indexes computation) ∧
    (has_flag (Properties component) kSimpleComponent = true → arg2 c = 0) ∧
    0 ≤ arg3 c ∧ submatrices computation !! Z.to_nat (arg3 c) = Some s3 ∧
    (arg3 c = 0 → has_flag (Properties component) kSimpleComponent = true) ∧
    1 ≤ arg4 c ∧ submatrices computation !! Z.to_nat (arg4 c) = Some s4 ∧
    num_cols s3 = InputDim component ∧ num_cols s4 = OutputDim component ∧
    (has_flag (Properties component) kSimpleComponent = true →
     num_rows s3 = num_rows s4) ∧
    (arg3 c = arg4 c →
     has_flag (Properties component) kPropagateInPlace = true).
Proof.
  intros Ht. unfold CheckComputationIndexes_command. rewrite Ht. split.
  - intros Hc.
    apply bind_Done in Hc as ([] & Hcomp & Hc). check_passed Hcomp.
    apply bind_Done in Hc as (component & Hcomponent & Hc).
    apply bind_Done in Hc as ([] & Hpre & Hc). check_passed Hpre.
    apply bind_Done in Hc as ([] & Hnonzero & Hc).
    apply err_if_Done in Hnonzero.
    apply bind_Done in Hc as ([] & Hrange & Hc).
    apply err_if_Done in Hrange.
    apply bind_Done in Hc as (s3 & Hs3 & Hc).
    apply vec_at_Done in Hs3 as [Harg3 Hs3].
    apply bind_Done in Hc as ([] & Hin & Hc).
    apply err_if_Done, negb_false_iff, Z.eqb_eq in Hin.
    apply bind_Done in Hc as (s4 & Hs4 & Hc).
    apply vec_at_Done in Hs4 as [Harg4 Hs4].
    apply bind_Done in Hc as ([] & Hout & Hc).
    apply err_if_Done, negb_false_iff, Z.eqb_eq in Hout.
    apply bind_Done in Hc as ([] & Hrows & Hplace).
    apply err_if_Done in Hrows. apply err_if_Done in Hplace.
    exists component, s3, s4.
    destruct (has_flag (Properties component) kSimpleComponent) eqn:Hsimple,
      (has_flag (Properties component) kPropagateInPlace) eqn:Hinplace;
      simpl in *.
    all: split; [lia |]; split; [done |]; split; [lia |].
    all: split; [intros; revert Hnonzero; compare_cases; done |].
    all: split; [done |]; split; [done |].
    all: split; [intros; revert Hrange; compare_cases; done |].
    all: split; [revert Hrange; compare_cases; done |].
    all: split; [done |]; split; [done |]; split; [done |].
    all: split; [intros; revert Hrows; compare_cases; done |].
    all: intros; revert Hplace; compare_cases; done.
  - intros (component & s3 & s4 & H1 & Hcomponent & H2 & Hzero & H3 & Hs3
            & Hnull & H4 & Hs4 & Hin & Hout & Hrows & Hplace).
    assert (H4' : 0 ≤ arg4 c) by lia.
    pose proof (lookup_lt_Some _ _ _ Hs3) as Hlt3.
    pose proof (lookup_lt_Some _ _ _ Hs4) as Hlt4.
    pass_check; [| compare_cases].
    rewrite Hcomponent. simpl.
    pass_check; [| compare_cases].
    destruct (has_flag (Properties component) kSimpleComponent) eqn:Hsimple.
    + specialize (Hzero eq_refl). specialize (Hrows eq_refl).
      pass_check; [| compare_cases].
      pass_check; [| unfold vsize; compare_cases].
      rewrite (proj2 (vec_at_Done _ _ _) (conj H3 Hs3)). simpl.
      pass_check; [| by apply negb_false_iff, Z.eqb_eq].
      rewrite (proj2 (vec_at_Done _ _ _) (conj H4' Hs4)). simpl.
      pass_check; [| by apply negb_false_iff, Z.eqb_eq].
      pass_check; [| by apply negb_false_iff, Z.eqb_eq].
      apply err_if_false.
      destruct (has_flag (Properties component) kPropagateInPlace);
        [done |].
      simpl. destruct (Z.eqb_spec (arg3 c) (arg4 c)) as [Heq | Hne];
        [by specialize (Hplace Heq) | done].
    + assert (arg3 c ≠ 0) by (intros Heq; by specialize (Hnull Heq)).
      pass_check; [| by rewrite andb_false_r].
      pass_check; [| unfold vsize; compare_cases].
      rewrite (proj2 (vec_at_Done _ _ _) (conj H3 Hs3)). simpl.
      pass_check; [| by apply negb_false_iff, Z.eqb_eq].
      rewrite (proj2 (vec_at_Done _ _ _) (conj H4' Hs4)). simpl.
      pass_check; [| by apply negb_false_iff, Z.eqb_eq].
      apply err_if_false.
      destruct (has_flag (Properties component) kPropagateInPlace);
        [done |].
      simpl. destruct (Z.eqb_spec (arg3 c) (arg4 c)) as [Heq | Hne];
        [by specialize (Hplace Heq) | done].
Qed.

End PropagateCommand.

Lemma CheckComputationIndexes_propagate_witness :
  command_type (propagate_command 1 1 2) = kPropagate ∧
  @CheckComputationIndexes_command kaldi_properties
    (one_component (component_with 0)) propagate_views
    (propagate_command 1 1 2) = Done ().
Proof.
  split; [reflexivity |].
  apply (proj2 (@CheckComputationIndexes_propagate kaldi_properties
                  (one_component (component_with 0)) propagate_views
                  (propagate_command 1 1 2) eq_refl)).
  exists (component_with 0), (view 1 0 2 0 3), (view 2 0 2 0 3).
  split; [simpl; lia |]. split; [reflexivity |].
  split; [simpl; unfold vsize; simpl; lia |].
  split; [intros Hsimple; discriminate Hsimple |].
  split; [simpl; lia |]. split; [reflexivity |].
  split; [intros Hnull; discriminate Hnull |].
  split; [simpl; lia |]. split; [reflexivity |].
  split; [reflexivity |]. split; [reflexivity |].
  split; [intros Hsimple; discriminate Hsimple |].
  intros Hsame; discriminate Hsame.
Defined.

(** The null view as the input of a component that is not simple is an
    error. *)
Example CheckComputationIndexes_propagate_null_input :
  @CheckComputationIndexes_command kaldi_properties
    (one_component (component_with 0)) propagate_views
    (propagate_command 0 0 2) = Err "Sub-matrix indexes out of range.".
Proof. vm_compute. reflexivity. Qed.

(** Propagation from a view to itself by a component that does not
    propagate in place is an error. *)
Example CheckComputationIndexes_propagate_in_place :
  @CheckComputationIndexes_command kaldi_properties
    (one_component (component_with 1)) propagate_views
    (propagate_command 0 1 1)
  = Err "In-place propagation not supported for this component".
Proof. vm_compute. reflexivity. Qed.
